(** * cuCollections: static_map and static_multimap

    A shallow embedding of [include/cuco/detail/static_map.inl] and
    [include/cuco/detail/static_multimap/static_multimap.inl].

    Device code is written once, as a program over the atomic operations
    a slot supports ([load], [store], [compare_exchange_strong]) and the
    call to the user's key-equality functor.  The same program is then
    given a sequential semantics ([run]), a semantics under interference
    from other workers ([run_env]) and an interleaving semantics for a
    set of workers ([run_sched]).

    Keys and values are the bit patterns of the C++ objects, as [Z].  A
    slot is the pair [(first, second)] of its key cell and value cell. *)

From stdpp Require Import base numbers option list.

Local Open Scope Z_scope.

(** ** Slots and atomic operations *)

Abbreviation pair_type := (Z * Z)%type.
Abbreviation mem := (list (Z * Z)).

(** Modelled from the spec: [detail::bitwise_compare] of
    [bitwise_compare.cuh]: the comparison with a sentinel is bitwise,
    that is, equality of the object representations. *)
Definition bitwise_compare (lhs rhs : Z) : bool := Z.eqb lhs rhs.

(** The operations a worker performs on the slot array, one atomic
    access each, and the call of the user-supplied [KeyEqual]. *)
Inductive atomic_op : Type → Type :=
| KeyLoad (i : nat) : atomic_op Z
| ValueLoad (i : nat) : atomic_op Z
| KeyCas (i : nat) (expected desired : Z) : atomic_op (bool * Z)
| ValueCas (i : nat) (expected desired : Z) : atomic_op (bool * Z)
| PairCas (i : nat) (expected desired : pair_type) : atomic_op (bool * pair_type)
| ValueStore (i : nat) (v : Z) : atomic_op unit
| KeyEqual (lhs rhs : Z) : atomic_op bool.

(** Programs: a tree of atomic operations.  [Diverge] stands for a
    [while (true)] loop that is still running when the model's loop
    bound is reached. *)
Inductive prog (R : Type) : Type :=
| Ret (r : R)
| Diverge
| Vis {X : Type} (op : atomic_op X) (k : X → prog R).

Arguments Ret {R} r.
Arguments Diverge {R}.
Arguments Vis {R X} op k.

(** Sequencing: [p] and then [f] on its result. *)
Fixpoint prog_bind {A B : Type} (f : A → prog B) (p : prog A) : prog B :=
  match p with
  | Ret r => f r
  | Diverge => Diverge
  | Vis op k => Vis op (λ x, prog_bind f (k x))
  end.

#[global] Instance prog_mret : MRet prog := λ _ r, Ret r.
#[global] Instance prog_mbind : MBind prog := λ _ _ f p, prog_bind f p.

(** One operation as a program. *)
Definition call {X : Type} (op : atomic_op X) : prog X := Vis op Ret.

(** [compare_exchange_strong(expected, desired)] on one cell: the result
    is the success flag, the updated [expected] (the observed value on
    failure) and the new content of the cell. *)
Definition compare_exchange_strong (cell expected desired : Z) : bool * Z * Z :=
  if bitwise_compare cell expected then (true, expected, desired)
  else (false, cell, cell).

(** The comparison a packed CAS makes: both cells at once. *)
Definition pair_eqb (a b : pair_type) : bool :=
  bitwise_compare a.1 b.1 && bitwise_compare a.2 b.2.

(** Semantics of one atomic operation on the slot array.  [None]: the
    slot index is outside the array. *)
Definition exec_op (key_equal : Z → Z → bool) {X : Type} (op : atomic_op X) (m : mem)
  : option (X * mem) :=
  match op in atomic_op X return option (X * mem) with
  | KeyLoad i => s ← m !! i; Some (s.1, m)
  | ValueLoad i => s ← m !! i; Some (s.2, m)
  | KeyCas i expected desired =>
      s ← m !! i;
      let '(success, expected', cell') := compare_exchange_strong s.1 expected desired in
      Some ((success, expected'), <[i := (cell', s.2)]> m)
  | ValueCas i expected desired =>
      s ← m !! i;
      let '(success, expected', cell') := compare_exchange_strong s.2 expected desired in
      Some ((success, expected'), <[i := (s.1, cell')]> m)
  | PairCas i expected desired =>
      s ← m !! i;
      if pair_eqb s expected then Some ((true, expected), <[i := desired]> m)
      else Some ((false, s), m)
  | ValueStore i v => s ← m !! i; Some ((), <[i := (s.1, v)]> m)
  | KeyEqual lhs rhs => Some (key_equal lhs rhs, m)
  end.

(** Sequential semantics: the worker runs alone. *)
Fixpoint run (key_equal : Z → Z → bool) {R : Type} (p : prog R) (m : mem) : option (R * mem) :=
  match p with
  | Ret r => Some (r, m)
  | Diverge => None
  | Vis op k =>
      match exec_op key_equal op m with
      | Some (x, m') => run key_equal (k x) m'
      | None => None
      end
  end.

(** Semantics under interference: before each atomic operation of the
    worker, the other workers apply the next transformation of [env] to
    the slot array (none once [env] is used up). *)
Definition interfere (env : list (mem → mem)) (m : mem) : mem :=
  match env with
  | e :: _ => e m
  | [] => m
  end.

Fixpoint run_env (key_equal : Z → Z → bool) {R : Type} (env : list (mem → mem)) (p : prog R)
    (m : mem) : option (R * mem) :=
  match p with
  | Ret r => Some (r, m)
  | Diverge => None
  | Vis op k =>
      match exec_op key_equal op (interfere env m) with
      | Some (x, m') => run_env key_equal (tail env) (k x) m'
      | None => None
      end
  end.

(** ** Device code of the static map *)

Inductive insert_result : Type := CONTINUE | SUCCESS | DUPLICATE.

(** Which slot protocol [insert] is compiled with:
    [is_packable<value_type>()] and [__CUDA_ARCH__]. *)
Record build : Type := {
  is_packable : bool;
  cuda_arch : nat
}.

Section device.
Variable capacity : nat.
Variable empty_key_sentinel empty_value_sentinel : Z.
Variable hash : Z → nat.
Variable target : build.

(** Modelled from the spec: the single-worker probe sequence of the
    static map, which is declared in [static_map.cuh]: a slot index is
    derived from [hash(key)], and linear probing visits
    [(h + 1) mod capacity] next. *)
Definition initial_slot (k : Z) : nat := (hash k `mod` capacity)%nat.
Definition next_slot (s : nat) : nat := ((s + 1) `mod` capacity)%nat.

(** Modelled from the spec: the windowed probe sequence of the static
    map, declared in [static_map.cuh]: the lanes of a group of
    [cg_size] workers read [cg_size] consecutive slots, lane
    [thread_rank] its own, and a step moves every lane [cg_size] slots
    on.  The map's capacity is not rounded, so each lane wraps at the
    end of the array. *)
Definition initial_slot_cg (thread_rank : nat) (k : Z) : nat :=
  ((hash k + thread_rank) `mod` capacity)%nat.
Definition next_slot_cg (cg_size : nat) (s : nat) : nat :=
  ((s + cg_size) `mod` capacity)%nat.

(** [device_mutable_view::packed_cas(current_slot, insert_pair, key_equal)] *)
Definition packed_cas (current_slot : nat) (insert_pair : pair_type) : prog insert_result :=
  let expected_key := empty_key_sentinel in
  let expected_value := empty_value_sentinel in
  '(success, expected_pair) ← call (PairCas current_slot (expected_key, expected_value) insert_pair);
  if success : bool then mret SUCCESS
  else
    eq ← call (KeyEqual insert_pair.1 (expected_pair : pair_type).1);
    if eq : bool then mret DUPLICATE else mret CONTINUE.

(** [while (not value_success) { value_success = slot_value.compare_exchange_strong(...) }] *)
Fixpoint value_cas_loop (fuel : nat) (current_slot : nat) (insert_pair : pair_type)
    (value_success : bool) : prog unit :=
  if value_success then mret ()
  else
    match fuel with
    | O => Diverge
    | S fuel' =>
        '(value_success, _) ← call (ValueCas current_slot empty_value_sentinel insert_pair.2);
        value_cas_loop fuel' current_slot insert_pair value_success
    end.

(** [device_mutable_view::back_to_back_cas(current_slot, insert_pair, key_equal)] *)
Definition back_to_back_cas (fuel : nat) (current_slot : nat) (insert_pair : pair_type)
  : prog insert_result :=
  let expected_key := empty_key_sentinel in
  let expected_value := empty_value_sentinel in
  '(key_success, expected_key) ← call (KeyCas current_slot expected_key insert_pair.1);
  '(value_success, expected_value) ← call (ValueCas current_slot expected_value insert_pair.2);
  if key_success : bool then
    value_cas_loop fuel current_slot insert_pair value_success;;
    mret SUCCESS
  else
    (if value_success : bool then call (ValueStore current_slot empty_value_sentinel)
     else mret ());;
    eq ← call (KeyEqual insert_pair.1 expected_key);
    if eq : bool then mret DUPLICATE else mret CONTINUE.

(** [device_mutable_view::cas_dependent_write(current_slot, insert_pair, key_equal)] *)
Definition cas_dependent_write (current_slot : nat) (insert_pair : pair_type)
  : prog insert_result :=
  let expected_key := empty_key_sentinel in
  '(key_success, expected_key) ← call (KeyCas current_slot expected_key insert_pair.1);
  if key_success : bool then
    call (ValueStore current_slot insert_pair.2);;
    mret SUCCESS
  else
    eq ← call (KeyEqual insert_pair.1 expected_key);
    if eq : bool then mret DUPLICATE else mret CONTINUE.

(** The protocol selected by [if constexpr (is_packable<value_type>())]
    and [#if __CUDA_ARCH__ < 700]. *)
Definition slot_protocol (fuel : nat) (current_slot : nat) (insert_pair : pair_type)
  : prog insert_result :=
  if is_packable target then packed_cas current_slot insert_pair
  else if (cuda_arch target <? 700)%nat then cas_dependent_write current_slot insert_pair
  else back_to_back_cas fuel current_slot insert_pair.

(** [device_mutable_view::insert(insert_pair, hash, key_equal)] *)
Fixpoint insert_loop (fuel : nat) (insert_pair : pair_type) (current_slot : nat) : prog bool :=
  match fuel with
  | O => Diverge
  | S fuel' =>
      existing_key ← call (KeyLoad current_slot);
      let slot_is_empty := bitwise_compare existing_key empty_key_sentinel in
      dup ← (if negb slot_is_empty then call (KeyEqual existing_key insert_pair.1)
             else mret false);
      if dup : bool then mret false
      else if slot_is_empty then
        status ← slot_protocol fuel' current_slot insert_pair;
        match status with
        | SUCCESS => mret true
        | DUPLICATE => mret false
        | CONTINUE => insert_loop fuel' insert_pair (next_slot current_slot)
        end
      else insert_loop fuel' insert_pair (next_slot current_slot)
  end.

Definition insert (fuel : nat) (insert_pair : pair_type) : prog bool :=
  insert_loop fuel insert_pair (initial_slot insert_pair.1).

(** Iterators are slot indices; [end()] is one past the last slot. *)
Definition end_ : nat := capacity.

(** [device_view::find(k, hash, key_equal)] *)
Fixpoint find_loop (fuel : nat) (k : Z) (current_slot : nat) : prog nat :=
  match fuel with
  | O => Diverge
  | S fuel' =>
      existing_key ← call (KeyLoad current_slot);
      if bitwise_compare existing_key empty_key_sentinel then mret end_
      else
        eq ← call (KeyEqual existing_key k);
        if eq : bool then mret current_slot
        else find_loop fuel' k (next_slot current_slot)
  end.

Definition find (fuel : nat) (k : Z) : prog nat :=
  find_loop fuel k (initial_slot k).

(** [device_view::contains(k, hash, key_equal)] *)
Fixpoint contains_loop (fuel : nat) (k : Z) (current_slot : nat) : prog bool :=
  match fuel with
  | O => Diverge
  | S fuel' =>
      existing_key ← call (KeyLoad current_slot);
      if bitwise_compare existing_key empty_key_sentinel then mret false
      else
        eq ← call (KeyEqual existing_key k);
        if eq : bool then mret true
        else contains_loop fuel' k (next_slot current_slot)
  end.

Definition contains (fuel : nat) (k : Z) : prog bool :=
  contains_loop fuel k (initial_slot k).

(** *** Cooperative-group forms

    A group is the list of its lanes' [current_slot] variables, lane
    [thread_rank] at position [thread_rank]. *)

Definition initial_window (cg_size : nat) (k : Z) : list nat :=
  map (λ thread_rank, initial_slot_cg thread_rank k) (seq 0 cg_size).
Definition next_window (cg_size : nat) (current_slot : list nat) : list nat :=
  map (next_slot_cg cg_size) current_slot.

(** Every lane loads the key of its slot. *)
Fixpoint lanes_load (current_slot : list nat) : prog (list Z) :=
  match current_slot with
  | [] => mret []
  | s :: rest =>
      existing_key ← call (KeyLoad s);
      keys ← lanes_load rest;
      mret (existing_key :: keys)
  end.

(** Every lane evaluates [not slot_is_empty and key_equal(existing_key, k)]. *)
Fixpoint lanes_match (existing_key : list Z) (k : Z) : prog (list bool) :=
  match existing_key with
  | [] => mret []
  | e :: rest =>
      b ← (if negb (bitwise_compare e empty_key_sentinel) then call (KeyEqual e k)
           else mret false);
      bs ← lanes_match rest k;
      mret (b :: bs)
  end.

(** [g.any(pred)], [g.ballot(pred)] and [__ffs]. *)
Definition g_any (pred : list bool) : bool := existsb id pred.

Fixpoint g_ballot (pred : list bool) : Z :=
  match pred with
  | [] => 0
  | b :: rest => Z.b2z b + 2 * g_ballot rest
  end.

Fixpoint ffs_from (n : nat) (i : Z) (x : Z) : Z :=
  match n with
  | O => 0
  | S n' => if Z.testbit x i then i + 1 else ffs_from n' (i + 1) x
  end.
Definition ffs (x : Z) : Z := ffs_from 32 0 x.

(** [device_mutable_view::insert(g, insert_pair, hash, key_equal)] *)
Fixpoint insert_cg_loop (fuel : nat) (cg_size : nat) (insert_pair : pair_type)
    (current_slot : list nat) : prog bool :=
  match fuel with
  | O => Diverge
  | S fuel' =>
      existing_key ← lanes_load current_slot;
      let slot_is_empty := map (λ e, bitwise_compare e empty_key_sentinel) existing_key in
      dup ← lanes_match existing_key insert_pair.1;
      if g_any dup then mret false
      else
        let window_contains_empty := g_ballot slot_is_empty in
        if negb (window_contains_empty =? 0) then
          let src_lane := Z.to_nat (ffs window_contains_empty - 1) in
          status ← match current_slot !! src_lane with
                   | Some s => slot_protocol fuel' s insert_pair
                   | None => mret CONTINUE
                   end;
          match status with
          | SUCCESS => mret true
          | DUPLICATE => mret false
          | CONTINUE => insert_cg_loop fuel' cg_size insert_pair current_slot
          end
        else insert_cg_loop fuel' cg_size insert_pair (next_window cg_size current_slot)
  end.

Definition insert_cg (fuel : nat) (cg_size : nat) (insert_pair : pair_type) : prog bool :=
  insert_cg_loop fuel cg_size insert_pair (initial_window cg_size insert_pair.1).

(** [device_view::find(g, k, hash, key_equal)]: the slot of the first
    lane that holds the key is broadcast to the group. *)
Fixpoint find_cg_loop (fuel : nat) (cg_size : nat) (k : Z) (current_slot : list nat)
  : prog nat :=
  match fuel with
  | O => Diverge
  | S fuel' =>
      existing_key ← lanes_load current_slot;
      let slot_is_empty := map (λ e, bitwise_compare e empty_key_sentinel) existing_key in
      found ← lanes_match existing_key k;
      let exists_ := g_ballot found in
      if negb (exists_ =? 0) then
        let src_lane := Z.to_nat (ffs exists_ - 1) in
        mret (default end_ (current_slot !! src_lane))
      else if negb (g_ballot slot_is_empty =? 0) then mret end_
      else find_cg_loop fuel' cg_size k (next_window cg_size current_slot)
  end.

Definition find_cg (fuel : nat) (cg_size : nat) (k : Z) : prog nat :=
  find_cg_loop fuel cg_size k (initial_window cg_size k).

(** [device_view::contains(g, k, hash, key_equal)] *)
Fixpoint contains_cg_loop (fuel : nat) (cg_size : nat) (k : Z) (current_slot : list nat)
  : prog bool :=
  match fuel with
  | O => Diverge
  | S fuel' =>
      existing_key ← lanes_load current_slot;
      let slot_is_empty := map (λ e, bitwise_compare e empty_key_sentinel) existing_key in
      found ← lanes_match existing_key k;
      if negb (g_ballot found =? 0) then mret true
      else if negb (g_ballot slot_is_empty =? 0) then mret false
      else contains_cg_loop fuel' cg_size k (next_window cg_size current_slot)
  end.

Definition contains_cg (fuel : nat) (cg_size : nat) (k : Z) : prog bool :=
  contains_cg_loop fuel cg_size k (initial_window cg_size k).

End device.

(** ** Interleaving semantics

    A system is the slot array and the workers that operate on it, each
    the rest of its program.  A schedule names, step by step, the worker
    that performs its next atomic operation. *)

Record sys (R : Type) : Type := {
  sys_mem : mem;
  sys_threads : list (prog R)
}.
Arguments sys_mem {R} _.
Arguments sys_threads {R} _.

(** Worker [i] performs its next operation, if it has one. *)
Definition step_thread (key_equal : Z → Z → bool) {R : Type} (st : sys R) (i : nat) : sys R :=
  match sys_threads st !! i with
  | Some (Vis op k) =>
      match exec_op key_equal op (sys_mem st) with
      | Some (x, m') => {| sys_mem := m'; sys_threads := <[i := k x]> (sys_threads st) |}
      | None => st
      end
  | _ => st
  end.

Definition run_sched (key_equal : Z → Z → bool) {R : Type} (sched : list nat) (st : sys R) : sys R :=
  foldl (step_thread key_equal) st sched.

(** Modelled from the spec: the kernel [detail::initialize]: it writes
    the empty pair into every slot. *)
Definition initialize (empty_key_sentinel empty_value_sentinel : Z) (capacity : nat) : mem :=
  replicate capacity (empty_key_sentinel, empty_value_sentinel).

(** Number of slots whose key is not the sentinel. *)
Definition occupied (empty_key_sentinel : Z) (m : mem) : nat :=
  length (filter (λ s : pair_type, s.1 ≠ empty_key_sentinel) m).

(** ** Invariants of the slot array

    [stable m m']: what every worker may assume of the others (and
    guarantees itself): the array keeps its length and a key cell that
    is not the sentinel never changes.  [no_hole]: every occupied slot is
    reached from its key's first slot through occupied slots that hold
    other keys. *)

Section safety.
Variable capacity : nat.
Variable empty_key_sentinel empty_value_sentinel : Z.
Variable hash : Z → nat.
Variable key_equal : Z → Z → bool.
Variable target : build.

(** The [d]-th slot of the probe sequence of key [k]. *)
Definition probe (k : Z) (d : nat) : nat := ((hash k + d) `mod` capacity)%nat.

(** The rely and guarantee of every worker. *)
Definition stable (m m' : mem) : Prop :=
  length m' = length m ∧
  ∀ i (s : pair_type), m !! i = Some s → s.1 ≠ empty_key_sentinel →
    ∃ s' : pair_type, m' !! i = Some s' ∧ s'.1 = s.1.

(** The first [d] slots of [k]'s probe sequence are occupied by keys
    other than [k]. *)
Definition passed (m : mem) (k : Z) (d : nat) : Prop :=
  ∀ i, (i < d)%nat →
    ∃ s : pair_type, m !! probe k i = Some s ∧ s.1 ≠ empty_key_sentinel ∧
                     key_equal s.1 k = false.

(** Every occupied slot ends a passed prefix of its own key. *)
Definition no_hole (m : mem) : Prop :=
  ∀ j (s : pair_type), m !! j = Some s → s.1 ≠ empty_key_sentinel →
    ∃ d, j = probe s.1 d ∧ passed m s.1 d.

(** A value cell is written only after its key cell. *)
Definition pair_inv (m : mem) : Prop :=
  ∀ j (s : pair_type), m !! j = Some s → s.1 = empty_key_sentinel →
    s.2 = empty_value_sentinel.

(** The invariant of the slot array. *)
Definition Inv (m : mem) : Prop :=
  length m = capacity ∧ no_hole m ∧ pair_inv m.

(** No two slots hold equal keys other than the sentinel. *)
Definition unique_keys (m : mem) : Prop :=
  ∀ i j (si sj : pair_type), m !! i = Some si → m !! j = Some sj →
    si.1 ≠ empty_key_sentinel → sj.1 ≠ empty_key_sentinel →
    key_equal si.1 sj.1 = true → i = j.

(** Every call of the user's functor a worker makes is on two keys
    other than the sentinel. *)
Definition op_ok {X : Type} (op : atomic_op X) : Prop :=
  match op with
  | KeyEqual lhs rhs => lhs ≠ empty_key_sentinel ∧ rhs ≠ empty_key_sentinel
  | _ => True
  end.

(** [tsafe p Q m]: from a slot array that extends [m], whatever the
    other workers do in between, every operation of [p] is within the
    array, keeps the invariant and respects [stable], and [Q] holds of
    the result. *)
Fixpoint tsafe {R : Type} (p : prog R) (Q : R → mem → Prop) (m : mem) : Prop :=
  match p with
  | Ret r => Q r m
  | Diverge => True
  | Vis op k =>
      ∀ m', stable m m' → Inv m' →
        op_ok op ∧
        ∃ x m'', exec_op key_equal op m' = Some (x, m'') ∧
                 stable m' m'' ∧ Inv m'' ∧ tsafe (k x) Q m''
  end.

(** A fact that stays true whatever the workers do. *)
Definition closed (F : mem → Prop) : Prop :=
  ∀ m m', F m → stable m m' → F m'.

(** The slots of the [w]-th window of key [k]. *)
Definition window (cg_size : nat) (k : Z) (w : nat) : list nat :=
  map (λ thread_rank, probe k (w * cg_size + thread_rank)) (seq 0 cg_size).

(** What the lanes know after loading: an occupied slot keeps its key. *)
Definition loaded (m : mem) (current_slot : list nat) (existing_key : list Z) : Prop :=
  Forall2 (λ s e, e ≠ empty_key_sentinel → ∃ sl : pair_type, m !! s = Some sl ∧ sl.1 = e)
    current_slot existing_key.

(** The predicate a lane evaluates in [lanes_match]. *)
Definition lane_matches (k : Z) (e : Z) : bool :=
  negb (bitwise_compare e empty_key_sentinel) && key_equal e k.

(** The invariant of a system of workers. *)
Definition sys_inv (st : sys bool) : Prop :=
  Inv (sys_mem st) ∧ Forall (λ p, tsafe p (λ _ _, True) (sys_mem st)) (sys_threads st).

(** The slot array holds exactly [pairs]. *)
Definition stores (m : mem) (pairs : list pair_type) : Prop :=
  Inv m ∧ occupied empty_key_sentinel m = length pairs ∧
  Forall (λ p : pair_type, p.1 ≠ empty_key_sentinel) pairs ∧
  (∀ p, p ∈ pairs → ∃ j, m !! j = Some p) ∧
  (∀ j (s : pair_type), m !! j = Some s → s.1 ≠ empty_key_sentinel → s ∈ pairs).

(** A slot holds a key equal to [k]; no slot does. *)
Definition present (m : mem) (k : Z) : Prop :=
  ∃ j (s : pair_type), m !! j = Some s ∧ s.1 ≠ empty_key_sentinel ∧ key_equal s.1 k = true.

Definition absent (m : mem) (k : Z) : Prop :=
  ∀ j (s : pair_type), m !! j = Some s → s.1 ≠ empty_key_sentinel → key_equal s.1 k = false.

(** Where the probe sequence of [k] ends: past [d] slots that hold other
    keys, at a slot that holds a key equal to [k], or at an empty slot. *)
Definition hit (m : mem) (k : Z) (d : nat) : Prop :=
  passed m k d ∧
  ∃ s : pair_type, m !! probe k d = Some s ∧ s.1 ≠ empty_key_sentinel ∧
                   key_equal s.1 k = true.

Definition miss (m : mem) (k : Z) (d : nat) : Prop :=
  passed m k d ∧ ∃ s : pair_type, m !! probe k d = Some s ∧ s.1 = empty_key_sentinel.

(** The keys the lanes of a group load from their slots. *)
Definition keys_at (m : mem) (current_slot : list nat) : list Z :=
  map (λ s, default empty_key_sentinel (fst <$> m !! s)) current_slot.

(** What the lanes have loaded from the slots that hold a key in [m]. *)
Definition known (m : mem) (current_slot : list nat) (existing_key : list Z) : Prop :=
  Forall2 (λ s e, ∀ sl : pair_type, m !! s = Some sl → sl.1 ≠ empty_key_sentinel → e = sl.1)
    current_slot existing_key.

(** Slot [j] holds a key equal to [k]. *)
Definition holds_key (k : Z) (j : nat) (m : mem) : Prop :=
  ∃ s : pair_type, m !! j = Some s ∧ s.1 ≠ empty_key_sentinel ∧ key_equal s.1 k = true.

(** The invariant of a system of workers, each with what it promises
    for its result. *)
Definition sys_inv_post {R : Type} (posts : list (R → mem → Prop)) (st : sys R) : Prop :=
  Inv (sys_mem st) ∧ Forall2 (λ Q p, tsafe p Q (sys_mem st)) posts (sys_threads st).

(** Every slot is occupied. *)
Definition full (m : mem) : Prop :=
  ∀ j, (j < capacity)%nat → ∃ s : pair_type, m !! j = Some s ∧ s.1 ≠ empty_key_sentinel.

(** [tlive p Q m]: from a slot array that extends [m], whatever the
    other workers do in between, [p] reaches the bound of a loop only
    when every slot is occupied, and [Q] holds of the result. *)
Fixpoint tlive {R : Type} (p : prog R) (Q : R → mem → Prop) (m : mem) : Prop :=
  match p with
  | Ret r => Q r m
  | Diverge => full m
  | Vis op k =>
      ∀ m' x m'', stable m m' → Inv m' → exec_op key_equal op m' = Some (x, m'') →
        stable m' m'' → Inv m'' → tlive (k x) Q m''
  end.

End safety.

(** ** Workers of a bulk insert

    A worker is one call of the device-side [insert]: by a single thread,
    or by a cooperative group of [cg_size] lanes. *)

Inductive worker : Type :=
| Single (insert_pair : pair_type)
| Group (cg_size : nat) (insert_pair : pair_type).

(** The pair a worker inserts; its key is not the sentinel and a group
    has at most the 32 lanes of a warp. *)
Definition worker_pair (w : worker) : pair_type :=
  match w with Single p => p | Group _ p => p end.

Definition worker_ok (empty_key_sentinel : Z) (w : worker) : Prop :=
  (worker_pair w).1 ≠ empty_key_sentinel ∧
  match w with Single _ => True | Group cg_size _ => (cg_size ≤ 32)%nat end.

Definition worker_prog (capacity : nat) (empty_key_sentinel empty_value_sentinel : Z)
    (hash : Z → nat) (target : build) (fuel : nat) (w : worker) : prog bool :=
  match w with
  | Single insert_pair =>
      insert capacity empty_key_sentinel empty_value_sentinel hash target fuel insert_pair
  | Group cg_size insert_pair =>
      insert_cg capacity empty_key_sentinel empty_value_sentinel hash target fuel cg_size
        insert_pair
  end.

(** The workers start on a freshly initialised slot array. *)
Definition launch (capacity : nat) (empty_key_sentinel empty_value_sentinel : Z)
    (hash : Z → nat) (target : build) (fuel : nat) (workers : list worker) : sys bool :=
  {| sys_mem := initialize empty_key_sentinel empty_value_sentinel capacity;
     sys_threads :=
       map (worker_prog capacity empty_key_sentinel empty_value_sentinel hash target fuel)
         workers |}.

(** The user's functors: [key_equal] is an equivalence on keys and equal
    keys have equal hashes. *)
Record functors_ok (hash : Z → nat) (key_equal : Z → Z → bool) : Prop := {
  key_equal_refl : ∀ a, key_equal a a = true;
  key_equal_sym : ∀ a b, key_equal a b = key_equal b a;
  key_equal_trans : ∀ a b c, key_equal a b = true → key_equal b c = true → key_equal a c = true;
  key_equal_hash : ∀ a b, key_equal a b = true → hash a = hash b
}.

(** ** Sequential use of the device API *)

(** The pairs are inserted one after the other by single workers; the
    result is the list of their return values and the final slot array. *)
Fixpoint insert_all (capacity : nat) (empty_key_sentinel empty_value_sentinel : Z)
    (hash : Z → nat) (key_equal : Z → Z → bool) (target : build) (fuel : nat)
    (pairs : list pair_type) (m : mem) : option (list bool * mem) :=
  match pairs with
  | [] => Some ([], m)
  | insert_pair :: rest =>
      '(b, m') ← run key_equal
        (insert capacity empty_key_sentinel empty_value_sentinel hash target fuel insert_pair) m;
      '(bs, m'') ← insert_all capacity empty_key_sentinel empty_value_sentinel hash key_equal
        target fuel rest m';
      Some (b :: bs, m'')
  end.

(** Pairwise different keys under the user's equality. *)
Fixpoint distinct_keys (key_equal : Z → Z → bool) (pairs : list pair_type) : Prop :=
  match pairs with
  | [] => True
  | p :: rest => Forall (λ q : pair_type, key_equal p.1 q.1 = false) rest ∧
                 distinct_keys key_equal rest
  end.

(** A program that only loads and compares. *)
Fixpoint read_only {R : Type} (p : prog R) : Prop :=
  match p with
  | Ret _ | Diverge => True
  | Vis op k =>
      match op with
      | KeyLoad _ | ValueLoad _ | KeyEqual _ _ => True
      | _ => False
      end ∧ ∀ x, read_only (k x)
  end.

(** ** Host side: streams and kernels

    A bulk operation enqueues operations on its stream; the model keeps
    the list of what a call enqueued or waited for, in order.  A kernel
    launched with an empty grid is refused by the runtime and does not
    run. *)

Inductive kernel_name : Type :=
| insert_k | insert_if_n_k | find_k | contains_k
| count_k | pair_count_k | retrieve_k | pair_retrieve_k.

(** What a bulk operation asks of its stream. *)
Inductive stream_op : Type :=
| MemsetAsync                                        (* cudaMemsetAsync(counter, 0, ...) *)
| Launch (k : kernel_name) (grid_size block_size : Z) (* k<<<grid_size, block_size, 0, stream>>> *)
| MemcpyAsync                                        (* cudaMemcpyAsync(&h, counter, ..., DeviceToHost) *)
| StreamSynchronize.                                 (* cudaStreamSynchronize(stream) *)

Definition kernel_runs (grid_size : Z) : bool := 0 <? grid_size.

(** [std::size_t] arithmetic. *)
Definition size_max : Z := 2 ^ 64.
Definition size_add (a b : Z) : Z := (a + b) `mod` size_max.

(** How many results are [true]. *)
Definition count_true (results : list bool) : Z :=
  Z.of_nat (length (filter (λ b : bool, b = true) results)).

(** The return value of a worker that has finished. *)
Definition finished {R : Type} (p : prog R) : option R :=
  match p with
  | Ret r => Some r
  | _ => None
  end.

(** ** The static map *)

Record static_map : Type := {
  capacity_ : nat;
  empty_key_sentinel_ : Z;
  empty_value_sentinel_ : Z;
  slots_ : mem;
  num_successes_ : Z;
  size_ : Z
}.

(** Modelled from the spec: the initialiser of [size_], which is in
    [static_map.cuh]: [size_] is the sum of the success counts of the
    bulk inserts, so it starts at zero. *)
Definition initial_size : Z := 0.

(** [static_map::static_map(capacity, empty_key_sentinel,
    empty_value_sentinel, alloc, stream)]; [counter] is the content of
    the freshly allocated success counter. *)
Definition static_map_new (capacity : nat) (empty_key_sentinel empty_value_sentinel : Z)
    (counter : Z) : static_map :=
  let capacity_ := Nat.max capacity 1 in
  {| capacity_ := capacity_;
     empty_key_sentinel_ := empty_key_sentinel;
     empty_value_sentinel_ := empty_value_sentinel;
     slots_ := initialize empty_key_sentinel empty_value_sentinel capacity_;
     num_successes_ := counter;
     size_ := initial_size |}.

Section static_map_host.
Variable hash : Z → nat.
Variable key_equal : Z → Z → bool.
Variable target : build.

(** The loop bound of the device code and the interleaving of the
    groups of a kernel, which the hardware chooses. *)
Variable fuel : nat.

(** The launch geometry of the bulk operations. *)
Definition block_size : Z := 128.
Definition stride : Z := 1.
Definition tile_size : Z := 4.

(** [(tile_size * num_keys + stride * block_size - 1) / (stride * block_size)] *)
Definition grid_size_for (num_keys : Z) : Z :=
  (tile_size * num_keys + stride * block_size - 1) `div` (stride * block_size).

(** Modelled from the spec: the kernel [detail::insert] of
    [static_map_kernels.cuh]: one group of [tile_size] workers inserts
    each pair with the group form of [insert]; the number of inserts
    that returned [true] is added to the counter. *)
Definition insert_kernel (sched : list nat) (pairs : list pair_type) (sm : static_map)
  : option static_map :=
  let st :=
    run_sched key_equal sched
      {| sys_mem := slots_ sm;
         sys_threads :=
           map (insert_cg (capacity_ sm) (empty_key_sentinel_ sm) (empty_value_sentinel_ sm)
                  hash target fuel (Z.to_nat tile_size)) pairs |} in
  results ← mapM finished (sys_threads st);
  Some {| capacity_ := capacity_ sm;
          empty_key_sentinel_ := empty_key_sentinel_ sm;
          empty_value_sentinel_ := empty_value_sentinel_ sm;
          slots_ := sys_mem st;
          num_successes_ := size_add (num_successes_ sm) (count_true results);
          size_ := size_ sm |}.

(** The pairs whose stencil satisfies [pred]. *)
Definition selected (pairs : list pair_type) (stencil : list Z) (pred : Z → bool)
  : list pair_type :=
  map fst (filter (λ ps : pair_type * Z, pred ps.2 = true) (zip pairs stencil)).

(** Modelled from the spec: the kernel [detail::insert_if_n] of
    [static_map_kernels.cuh]: as [detail::insert], for the pairs whose
    stencil satisfies [pred]. *)
Definition insert_if_n_kernel (sched : list nat) (pairs : list pair_type) (stencil : list Z)
    (pred : Z → bool) (sm : static_map) : option static_map :=
  insert_kernel sched (selected pairs stencil pred) sm.

(** [cudaMemsetAsync(num_successes_, 0, ...)] and [size_ += h_num_successes]. *)
Definition memset_counter (sm : static_map) : static_map :=
  {| capacity_ := capacity_ sm;
     empty_key_sentinel_ := empty_key_sentinel_ sm;
     empty_value_sentinel_ := empty_value_sentinel_ sm;
     slots_ := slots_ sm;
     num_successes_ := 0;
     size_ := size_ sm |}.

Definition add_size (h_num_successes : Z) (sm : static_map) : static_map :=
  {| capacity_ := capacity_ sm;
     empty_key_sentinel_ := empty_key_sentinel_ sm;
     empty_value_sentinel_ := empty_value_sentinel_ sm;
     slots_ := slots_ sm;
     num_successes_ := num_successes_ sm;
     size_ := size_add (size_ sm) h_num_successes |}.

(** [static_map::insert(first, last, hash, key_equal, stream)].
    [None]: the kernel does not finish, and the host waits. *)
Definition static_map_insert (sched : list nat) (pairs : list pair_type) (sm : static_map)
  : option (static_map * list stream_op) :=
  let num_keys := Z.of_nat (length pairs) in
  if num_keys =? 0 then Some (sm, [])
  else
    let grid_size := grid_size_for num_keys in
    let sm := memset_counter sm in
    sm ← (if kernel_runs grid_size then insert_kernel sched pairs sm else Some sm);
    let h_num_successes := num_successes_ sm in
    Some (add_size h_num_successes sm,
          [MemsetAsync; Launch insert_k grid_size block_size; MemcpyAsync; StreamSynchronize]).

(** [static_map::insert_if(first, last, stencil, pred, hash, key_equal, stream)] *)
Definition static_map_insert_if (sched : list nat) (pairs : list pair_type) (stencil : list Z)
    (pred : Z → bool) (sm : static_map) : option (static_map * list stream_op) :=
  let num_keys := Z.of_nat (length pairs) in
  if num_keys =? 0 then Some (sm, [])
  else
    let grid_size := grid_size_for num_keys in
    let sm := memset_counter sm in
    sm ← (if kernel_runs grid_size then insert_if_n_kernel sched pairs stencil pred sm
          else Some sm);
    let h_num_successes := num_successes_ sm in
    Some (add_size h_num_successes sm,
          [MemsetAsync; Launch insert_if_n_k grid_size block_size; MemcpyAsync;
           StreamSynchronize]).

(** Writing [n] results from the start of an output range. *)
Definition write_range {A : Type} (results : list A) (output : list A) : list A :=
  results ++ drop (length results) output.

(** Modelled from the spec: the work of the kernel [detail::find] of
    [static_map_kernels.cuh] on one key: a group looks the key up with
    the group form of [find] and yields the value of the slot found, or
    the empty value sentinel. *)
Definition find_one (sm : static_map) (k : Z) : prog Z :=
  found ← find_cg (capacity_ sm) (empty_key_sentinel_ sm) hash fuel (Z.to_nat tile_size) k;
  if decide (found = end_ (capacity_ sm)) then mret (empty_value_sentinel_ sm)
  else call (ValueLoad found).

(** The groups of a kernel that only reads run in any order; the model
    runs them one after the other. *)
Fixpoint run_each {R : Type} (ps : list (prog R)) (m : mem) : option (list R * mem) :=
  match ps with
  | [] => Some ([], m)
  | p :: rest =>
      '(r, m') ← run key_equal p m;
      '(rs, m'') ← run_each rest m';
      Some (r :: rs, m'')
  end.

(** The map with another slot array. *)
Definition with_slots (m : mem) (sm : static_map) : static_map :=
  {| capacity_ := capacity_ sm;
     empty_key_sentinel_ := empty_key_sentinel_ sm;
     empty_value_sentinel_ := empty_value_sentinel_ sm;
     slots_ := m;
     num_successes_ := num_successes_ sm;
     size_ := size_ sm |}.

(** Modelled from the spec: the kernel [detail::find]: one value per
    key is written to the output. *)
Definition find_kernel (keys : list Z) (output : list Z) (sm : static_map)
  : option (static_map * list Z) :=
  '(values, m) ← run_each (map (find_one sm) keys) (slots_ sm);
  Some (with_slots m sm, write_range values output).

(** Modelled from the spec: the kernel [detail::contains] of
    [static_map_kernels.cuh]: a group looks each key up with the group
    form of [contains]; one bool per key is written to the output. *)
Definition contains_kernel (keys : list Z) (output : list bool) (sm : static_map)
  : option (static_map * list bool) :=
  '(found, m) ←
    run_each (map (contains_cg (capacity_ sm) (empty_key_sentinel_ sm) hash fuel
                     (Z.to_nat tile_size)) keys) (slots_ sm);
  Some (with_slots m sm, write_range found output).

(** [static_map::find(first, last, output_begin, hash, key_equal, stream)] *)
Definition static_map_find (keys : list Z) (output : list Z) (sm : static_map)
  : option (static_map * list Z * list stream_op) :=
  let num_keys := Z.of_nat (length keys) in
  if num_keys =? 0 then Some (sm, output, [])
  else
    let grid_size := grid_size_for num_keys in
    '(sm, output) ← (if kernel_runs grid_size then find_kernel keys output sm
                     else Some (sm, output));
    Some (sm, output, [Launch find_k grid_size block_size]).

(** [static_map::contains(first, last, output_begin, hash, key_equal, stream)] *)
Definition static_map_contains (keys : list Z) (output : list bool) (sm : static_map)
  : option (static_map * list bool * list stream_op) :=
  let num_keys := Z.of_nat (length keys) in
  if num_keys =? 0 then Some (sm, output, [])
  else
    let grid_size := grid_size_for num_keys in
    '(sm, output) ← (if kernel_runs grid_size then contains_kernel keys output sm
                     else Some (sm, output));
    Some (sm, output, [Launch contains_k grid_size block_size]).

(** *** A sequence of bulk inserts *)

Inductive bulk_call : Type :=
| BulkInsert (sched : list nat) (pairs : list pair_type)
| BulkInsertIf (sched : list nat) (pairs : list pair_type) (stencil : list Z)
    (pred : Z → bool).

(** The call made on the map. *)
Definition do_call (c : bulk_call) (sm : static_map)
  : option (static_map * list stream_op) :=
  match c with
  | BulkInsert sched pairs => static_map_insert sched pairs sm
  | BulkInsertIf sched pairs stencil pred => static_map_insert_if sched pairs stencil pred sm
  end.

(** What the device-side [insert] returned for each item of a call. *)
Definition per_item_results (sched : list nat) (pairs : list pair_type) (sm : static_map)
  : option (list bool) :=
  mapM finished
    (sys_threads
       (run_sched key_equal sched
          {| sys_mem := slots_ sm;
             sys_threads :=
               map (insert_cg (capacity_ sm) (empty_key_sentinel_ sm)
                      (empty_value_sentinel_ sm) hash target fuel (Z.to_nat tile_size))
                 pairs |})).

(** The number of items of a call whose insert reported success. *)
Definition call_successes (c : bulk_call) (sm : static_map) : option Z :=
  match c with
  | BulkInsert sched pairs => count_true <$> per_item_results sched pairs sm
  | BulkInsertIf sched pairs stencil pred =>
      count_true <$> per_item_results sched (selected pairs stencil pred) sm
  end.

(** The calls are made one after the other; the result is the final
    map and the success count of every call. *)
Fixpoint run_calls (calls : list bulk_call) (sm : static_map)
  : option (static_map * list Z) :=
  match calls with
  | [] => Some (sm, [])
  | c :: rest =>
      n ← call_successes c sm;
      '(sm', _) ← do_call c sm;
      '(sm'', ns) ← run_calls rest sm';
      Some (sm'', n :: ns)
  end.

End static_map_host.

(** ** The static multimap *)

Record static_multimap : Type := {
  mm_capacity_ : nat;
  mm_empty_key_sentinel_ : Z;
  mm_empty_value_sentinel_ : Z;
  mm_slots_ : mem;
  d_counter_ : Z
}.

(** The multimap with another value of its device counter. *)
Definition with_counter (c : Z) (mm : static_multimap) : static_multimap :=
  {| mm_capacity_ := mm_capacity_ mm;
     mm_empty_key_sentinel_ := mm_empty_key_sentinel_ mm;
     mm_empty_value_sentinel_ := mm_empty_value_sentinel_ mm;
     mm_slots_ := mm_slots_ mm;
     d_counter_ := c |}.

(** What a key contributes to the counter, and the counter after the
    kernel. *)
Definition adjust (is_outer : bool) (c : Z) : Z :=
  if is_outer && (c =? 0) then 1 else c.

Definition sum_Z (ns : list Z) : Z := foldr Z.add 0 ns.

Definition total (is_outer : bool) (counts : list Z) : Z :=
  sum_Z (map (adjust is_outer) counts) `mod` size_max.

Section static_multimap_host.
(** [ProbeSequence::cg_size] and the hash function of the probe
    sequence. *)
Variable cg_size : nat.
Variable hash : Z → nat.
Variable fuel : nat.

(** [(cg_size() * num_keys + stride * block_size - 1) / (stride * block_size)] *)
Definition mm_grid_size (num_keys : Z) : Z :=
  (Z.of_nat cg_size * num_keys + stride * block_size - 1) `div` (stride * block_size).

(** Modelled from the spec: the windowed probe sequence of the
    multimap (linear family): a window is [cg_size] consecutive slots
    aligned to [cg_size]; a step moves to the next window and wraps at
    the end of the array. *)
Definition mm_initial_window (capacity : nat) (k : Z) : list nat :=
  let base := ((hash k `mod` (capacity `div` cg_size)) * cg_size)%nat in
  map (λ thread_rank, (base + thread_rank)%nat) (seq 0 cg_size).

(** Modelled from the spec: the per-key probe of [count]: the group
    walks the windows of the key, adds the number of lanes whose key
    equals the probe key to its counter, and stops at a window that
    has an empty slot; the outer variant counts one for a key without
    a match. *)
Fixpoint mm_count_loop (capacity : nat) (empty_key_sentinel : Z) (fuel : nat) (k : Z)
    (current_slot : list nat) (counter : Z) : prog Z :=
  match fuel with
  | O => Diverge
  | S fuel' =>
      existing_key ← lanes_load current_slot;
      let slot_is_empty := map (λ e, bitwise_compare e empty_key_sentinel) existing_key in
      equals ← lanes_match empty_key_sentinel existing_key k;
      let counter := size_add counter (count_true equals) in
      if g_any slot_is_empty then mret counter
      else mm_count_loop capacity empty_key_sentinel fuel' k
             (next_window capacity cg_size current_slot) counter
  end.

(** Modelled from the spec: the device-side [count] and [count_outer]
    of [device_view_impl]. *)
Definition mm_count (is_outer : bool) (mm : static_multimap) (k : Z) : prog Z :=
  counter ← mm_count_loop (mm_capacity_ mm) (mm_empty_key_sentinel_ mm) fuel k
              (mm_initial_window (mm_capacity_ mm) k) 0;
  if is_outer && (counter =? 0) then mret 1 else mret counter.

(** Modelled from the spec: the kernel [detail::count]: the counts of
    the keys are added to the device counter. *)
Definition count_kernel (key_equal : Z → Z → bool) (is_outer : bool) (keys : list Z)
    (mm : static_multimap) : option static_multimap :=
  '(counts, _) ← run_each key_equal (map (mm_count is_outer mm) keys) (mm_slots_ mm);
  Some (with_counter (foldl size_add (d_counter_ mm) counts) mm).

(** Modelled from the spec: the kernel [detail::contains] of the
    multimap: one bool per key, by the group form of [contains]. *)
Definition mm_contains_kernel (key_equal : Z → Z → bool) (keys : list Z)
    (output : list bool) (mm : static_multimap) : option (list bool) :=
  '(found, _) ←
    run_each key_equal
      (map (λ k, contains_cg_loop (mm_capacity_ mm) (mm_empty_key_sentinel_ mm) fuel cg_size
                   k (mm_initial_window (mm_capacity_ mm) k)) keys) (mm_slots_ mm);
  Some (write_range found output).

(** The kernels whose device code is in [device_view_impl]: what they
    do to the map and what they write to their output ranges. *)
Variable mm_insert_kernel : list pair_type → static_multimap → static_multimap.
Variable mm_insert_if_n_kernel :
  list pair_type → list Z → (Z → bool) → static_multimap → static_multimap.
Variable pair_count_kernel :
  bool → list pair_type → (pair_type → pair_type → bool) → static_multimap → static_multimap.
Variable retrieve_kernel :
  bool → list Z → (Z → Z → bool) → static_multimap → static_multimap * list pair_type.
Variable pair_retrieve_kernel :
  bool → list pair_type → (pair_type → pair_type → bool) → static_multimap →
  static_multimap * list pair_type * list pair_type.

(** [detail::get_grid_size(kernel, block_size)] of the two retrieve
    kernels: the runtime's occupancy for this device. *)
Variable retrieve_grid_size : Z.

(** [static_multimap::insert(first, last, stream)] *)
Definition static_multimap_insert (pairs : list pair_type) (mm : static_multimap)
  : static_multimap * list stream_op :=
  let num_keys := Z.of_nat (length pairs) in
  let grid_size := mm_grid_size num_keys in
  let mm := if kernel_runs grid_size then mm_insert_kernel pairs mm else mm in
  (mm, [Launch insert_k grid_size block_size; StreamSynchronize]).

(** [static_multimap::insert_if(first, last, stencil, pred, stream)] *)
Definition static_multimap_insert_if (pairs : list pair_type) (stencil : list Z)
    (pred : Z → bool) (mm : static_multimap) : static_multimap * list stream_op :=
  let num_elements := Z.of_nat (length pairs) in
  let grid_size := mm_grid_size num_elements in
  let mm := if kernel_runs grid_size then mm_insert_if_n_kernel pairs stencil pred mm
            else mm in
  (mm, [Launch insert_if_n_k grid_size block_size; StreamSynchronize]).

(** [static_multimap::contains(first, last, output_begin, stream, key_equal)] *)
Definition static_multimap_contains (key_equal : Z → Z → bool) (keys : list Z)
    (output : list bool) (mm : static_multimap)
  : option (static_multimap * list bool * list stream_op) :=
  let num_keys := Z.of_nat (length keys) in
  let grid_size := mm_grid_size num_keys in
  output ← (if kernel_runs grid_size then mm_contains_kernel key_equal keys output mm
            else Some output);
  Some (mm, output, [Launch contains_k grid_size block_size; StreamSynchronize]).

(** The common body of [count] and [count_outer]. *)
Definition static_multimap_count_impl (is_outer : bool) (key_equal : Z → Z → bool)
    (keys : list Z) (mm : static_multimap)
  : option (Z * static_multimap * list stream_op) :=
  let num_keys := Z.of_nat (length keys) in
  let grid_size := mm_grid_size num_keys in
  let mm := with_counter 0 mm in
  mm ← (if kernel_runs grid_size then count_kernel key_equal is_outer keys mm else Some mm);
  let h_counter := d_counter_ mm in
  Some (h_counter, mm,
        [MemsetAsync; Launch count_k grid_size block_size; MemcpyAsync; StreamSynchronize]).

(** [static_multimap::count(first, last, stream, key_equal)] *)
Definition static_multimap_count := static_multimap_count_impl false.

(** [static_multimap::count_outer(first, last, stream, key_equal)] *)
Definition static_multimap_count_outer := static_multimap_count_impl true.

(** [c] is what the probe of key [k] counts on the slots of [mm]. *)
Definition counts_to (key_equal : Z → Z → bool) (mm : static_multimap) (k : Z) (c : Z)
  : Prop :=
  run key_equal
    (mm_count_loop (mm_capacity_ mm) (mm_empty_key_sentinel_ mm) fuel k
       (mm_initial_window (mm_capacity_ mm) k) 0) (mm_slots_ mm)
  = Some (c, mm_slots_ mm).

(** A key without a match: [count] of the key alone is zero. *)
Definition zero_matches (key_equal : Z → Z → bool) (mm : static_multimap) (k : Z) : bool :=
  match static_multimap_count key_equal [k] mm with
  | Some (h_counter, _, _) => h_counter =? 0
  | None => false
  end.

(** [static_multimap::pair_count] and [pair_count_outer] *)
Definition static_multimap_pair_count_impl (is_outer : bool) (pairs : list pair_type)
    (pair_equal : pair_type → pair_type → bool) (mm : static_multimap)
  : Z * static_multimap * list stream_op :=
  let num_keys := Z.of_nat (length pairs) in
  let grid_size := mm_grid_size num_keys in
  let mm := with_counter 0 mm in
  let mm := if kernel_runs grid_size then pair_count_kernel is_outer pairs pair_equal mm
            else mm in
  let h_counter := d_counter_ mm in
  (h_counter, mm,
   [MemsetAsync; Launch pair_count_k grid_size block_size; MemcpyAsync; StreamSynchronize]).

Definition static_multimap_pair_count := static_multimap_pair_count_impl false.
Definition static_multimap_pair_count_outer := static_multimap_pair_count_impl true.

(** [static_multimap::retrieve] and [retrieve_outer]: the result is
    the end of the output, [output_begin + h_counter], with what was
    written. *)
Definition static_multimap_retrieve_impl (is_outer : bool) (keys : list Z)
    (output_begin : Z) (key_equal : Z → Z → bool) (mm : static_multimap)
  : Z * list pair_type * static_multimap * list stream_op :=
  let grid_size := retrieve_grid_size in
  let mm := with_counter 0 mm in
  let '(mm, written) := if kernel_runs grid_size
                        then retrieve_kernel is_outer keys key_equal mm else (mm, []) in
  let h_counter := d_counter_ mm in
  let output_end := output_begin + h_counter in
  (output_end, written, mm,
   [MemsetAsync; Launch retrieve_k grid_size block_size; MemcpyAsync; StreamSynchronize]).

Definition static_multimap_retrieve := static_multimap_retrieve_impl false.
Definition static_multimap_retrieve_outer := static_multimap_retrieve_impl true.

(** [static_multimap::pair_retrieve] and [pair_retrieve_outer]: the
    result is the pair of the ends of the two outputs. *)
Definition static_multimap_pair_retrieve_impl (is_outer : bool) (pairs : list pair_type)
    (probe_output_begin contained_output_begin : Z)
    (pair_equal : pair_type → pair_type → bool) (mm : static_multimap)
  : (Z * Z) * (list pair_type * list pair_type) * static_multimap * list stream_op :=
  let num_pairs := Z.of_nat (length pairs) in
  let grid_size := mm_grid_size num_pairs in
  let mm := with_counter 0 mm in
  let '(mm, probe_written, contained_written) :=
    if kernel_runs grid_size then pair_retrieve_kernel is_outer pairs pair_equal mm
    else (mm, [], []) in
  let h_counter := d_counter_ mm in
  ((probe_output_begin + h_counter, contained_output_begin + h_counter),
   (probe_written, contained_written), mm,
   [MemsetAsync; Launch pair_retrieve_k grid_size block_size; MemcpyAsync;
    StreamSynchronize]).

Definition static_multimap_pair_retrieve := static_multimap_pair_retrieve_impl false.
Definition static_multimap_pair_retrieve_outer := static_multimap_pair_retrieve_impl true.

End static_multimap_host.

(** *** [get_size]

    [slot_is_filled] compares a key with the sentinel by the [!=] of
    the key type.  [key_ne] is that operator on the object
    representations. *)

Definition slot_is_filled (key_ne : Z → Z → bool) (empty_key_sentinel : Z) (k : Z) : bool :=
  key_ne k empty_key_sentinel.

(** [thrust::count_if(begin, begin + capacity_, filled)] over the keys
    of the slots. *)
Definition count_if {A : Type} (pred : A → bool) (range : list A) : Z :=
  Z.of_nat (length (filter (λ x, pred x = true) range)).

Definition static_multimap_get_size (key_ne : Z → Z → bool) (mm : static_multimap) : Z :=
  let begin := map fst (mm_slots_ mm) in
  let filled := slot_is_filled key_ne (mm_empty_key_sentinel_ mm) in
  count_if filled (take (mm_capacity_ mm) begin).

(** [!=] of an integer key type. *)
Definition int_ne (a b : Z) : bool := negb (Z.eqb a b).

(** [!=] of [float], on the 32-bit patterns: a NaN differs from
    everything, the two zeros are equal. *)
Definition is_nan (x : Z) : bool :=
  (Z.land (Z.shiftr x 23) 255 =? 255) && negb (Z.land x 8388607 =? 0).
Definition is_zero (x : Z) : bool := Z.land x 2147483647 =? 0.
Definition float_eq (a b : Z) : bool :=
  negb (is_nan a) && negb (is_nan b) && ((a =? b) || (is_zero a && is_zero b)).
Definition float_ne (a b : Z) : bool := negb (float_eq a b).

(** The bit pattern of the quiet NaN, [0x7FC00000]. *)
Definition quiet_nan : Z := 2143289344.

(** Modelled from the spec: [get_valid_capacity] of [util.hpp]: the
    requested capacity is rounded up to a multiple of
    [cg_size * vector_width]. *)
Definition get_valid_capacity (cg_size vector_width : nat) (capacity : nat) : nat :=
  let window_size := (cg_size * vector_width)%nat in
  (((capacity + window_size - 1) `div` window_size) * window_size)%nat.

(** [static_multimap::static_multimap(capacity, empty_key_sentinel,
    empty_value_sentinel, stream, alloc)]; [counter] is the content of
    the freshly allocated device counter. *)
Definition static_multimap_new (cg_size vector_width : nat) (capacity : nat)
    (empty_key_sentinel empty_value_sentinel : Z) (counter : Z) : static_multimap :=
  let capacity_ := get_valid_capacity cg_size vector_width capacity in
  {| mm_capacity_ := capacity_;
     mm_empty_key_sentinel_ := empty_key_sentinel;
     mm_empty_value_sentinel_ := empty_value_sentinel;
     mm_slots_ := initialize empty_key_sentinel empty_value_sentinel capacity_;
     d_counter_ := counter |}.

(** A call has synchronized the stream when the last thing it did is to
    wait for it. *)
Definition synchronizes (trace : list stream_op) : Prop :=
  last trace = Some StreamSynchronize.

(** ** The state table of the back-to-back protocol, from the specification *)

(** Row (success, fail): loop: re-CAS value with fresh expected =
    [empty_value] until success, then SUCCESS. *)
Fixpoint spec_recas_until_success (empty_value : Z) (fuel : nat) (env : list (mem → mem))
    (i : nat) (v : Z) (m : mem) : option (insert_result * mem) :=
  match fuel with
  | O => None
  | S fuel' =>
      let m0 := interfere env m in
      s ← m0 !! i;
      if bitwise_compare s.2 empty_value then Some (SUCCESS, <[i := (s.1, v)]> m0)
      else spec_recas_until_success empty_value fuel' (tail env) i v m0
  end.

(** Row (fail, success): revert: store [empty_value] into the value
    cell; then check duplicate on the observed key. *)
Definition spec_revert_then_check (key_equal : Z → Z → bool) (empty_value : Z)
    (env : list (mem → mem)) (i : nat) (k observed_key : Z) (m : mem)
  : option (insert_result * mem) :=
  let m0 := interfere env m in
  s ← m0 !! i;
  let m1 := <[i := (s.1, empty_value)]> m0 in
  Some (if key_equal k observed_key then DUPLICATE else CONTINUE, interfere (tail env) m1).

(** ** An instance: integer keys

    Keys and values are machine integers, the sentinels are [-1], keys
    are compared with [==] and hashed by their magnitude, as in the
    end-to-end scenarios of the specification. *)

Definition int_hash (k : Z) : nat := Z.to_nat (Z.abs k).
Definition int_key_equal (a b : Z) : bool := Z.eqb a b.
Definition volta : build := {| is_packable := false; cuda_arch := 700 |}.
Definition pascal : build := {| is_packable := false; cuda_arch := 600 |}.
Definition packed : build := {| is_packable := true; cuda_arch := 700 |}.

(** A map of capacity 5 that holds the keys 0, 1 and 3, and a multimap
    of capacity 8, probed by groups of two, that holds the keys 0 and 1
    twice each. *)
Definition example_map : static_map :=
  {| capacity_ := 5; empty_key_sentinel_ := -1; empty_value_sentinel_ := -1;
     slots_ := [(0, 0); (1, 10); (-1, -1); (3, 30); (-1, -1)];
     num_successes_ := 2; size_ := 3 |}.

Definition example_multimap : static_multimap :=
  {| mm_capacity_ := 8; mm_empty_key_sentinel_ := -1; mm_empty_value_sentinel_ := -1;
     mm_slots_ := [(0, 0); (0, 10); (1, 1); (1, 11); (-1, -1); (-1, -1); (-1, -1); (-1, -1)];
     d_counter_ := 0 |}.

(** The pairs [(i, 2 i)] for [i < 50], the keys below 100, and a
    schedule that serves fifty groups in turn. *)
Definition scenario_pairs : list pair_type :=
  map (λ i : nat, (Z.of_nat i, 2 * Z.of_nat i)) (seq 0 50).
Definition scenario_keys : list Z := map Z.of_nat (seq 0 100).
Definition round_robin : list nat := concat (replicate 20 (seq 0 50)).

(** ** Bounds and slot accounting

    What can be read off the operations of a program alone, whatever the
    slot array holds and whatever the operations return. *)

(** The slot an operation addresses. *)
Definition op_slot {X : Type} (op : atomic_op X) : option nat :=
  match op with
  | KeyLoad i | ValueLoad i | KeyCas i _ _ | ValueCas i _ _ | PairCas i _ _
  | ValueStore i _ => Some i
  | KeyEqual _ _ => None
  end.

(** Every operation of the program addresses a slot of the array. *)
Fixpoint in_bounds (capacity : nat) {R : Type} (p : prog R) : Prop :=
  match p with
  | Ret _ | Diverge => True
  | Vis op k =>
      (∀ i, op_slot op = Some i → (i < capacity)%nat) ∧ ∀ x, in_bounds capacity (k x)
  end.

(** An operation takes a slot when it is a CAS on the key cell, or on
    the packed pair, that succeeds. *)
Definition claims {X : Type} (op : atomic_op X) : X → bool :=
  match op in atomic_op X return X → bool with
  | KeyCas _ _ _ => fst
  | PairCas _ _ _ => fst
  | _ => λ _, false
  end.

(** Such a CAS expects the sentinel and installs another key. *)
Definition claim_ok (empty_key_sentinel : Z) {X : Type} (op : atomic_op X) : Prop :=
  match op with
  | KeyCas _ expected desired =>
      expected = empty_key_sentinel ∧ desired ≠ empty_key_sentinel
  | PairCas _ expected desired =>
      expected.1 = empty_key_sentinel ∧ desired.1 ≠ empty_key_sentinel
  | _ => True
  end.

(** [accounts post claimed p]: on every path of [p] at most one
    operation takes a slot, none does when [claimed] already, and [post]
    relates the result to whether a slot was taken. *)
Fixpoint accounts (empty_key_sentinel : Z) {R : Type} (post : bool → R → Prop)
    (claimed : bool) (p : prog R) : Prop :=
  match p with
  | Ret r => post claimed r
  | Diverge => True
  | Vis op k =>
      claim_ok empty_key_sentinel op ∧
      ∀ x, (claims op x = true → claimed = false) ∧
           accounts empty_key_sentinel post (claimed || claims op x) (k x)
  end.

(** The workers start on the slot array [m]. *)
Definition launch_on (m : mem) (capacity : nat) (empty_key_sentinel empty_value_sentinel : Z)
    (hash : Z → nat) (target : build) (fuel : nat) (workers : list worker) : sys bool :=
  {| sys_mem := m;
     sys_threads :=
       map (worker_prog capacity empty_key_sentinel empty_value_sentinel hash target fuel)
         workers |}.

(** The number of workers that have returned [true]. *)
Definition successes (st : sys bool) : nat :=
  length (filter (λ p, finished p = Some true) (sys_threads st)).

(** Accounting for a system of workers: who has taken a slot. *)
Definition sys_accounts (empty_key_sentinel : Z) (occupied0 : nat) (st : sys bool) : Prop :=
  ∃ flags : list bool,
    Forall2 (accounts empty_key_sentinel (λ claimed r, r = claimed)) flags (sys_threads st) ∧
    Z.of_nat (occupied empty_key_sentinel (sys_mem st)) = Z.of_nat occupied0 + count_true flags.

(** The items a bulk call hands to the device-side [insert]. *)
Definition call_items (c : bulk_call) : list pair_type :=
  match c with
  | BulkInsert _ pairs => pairs
  | BulkInsertIf _ pairs stencil pred => selected pairs stencil pred
  end.

(** The interleaving of the groups of a call's kernel, and the slot
    array the kernel leaves behind. *)
Definition call_sched (c : bulk_call) : list nat :=
  match c with
  | BulkInsert sched _ => sched
  | BulkInsertIf sched _ _ _ => sched
  end.

Definition call_slots (hash : Z → nat) (key_equal : Z → Z → bool) (target : build)
    (fuel : nat) (c : bulk_call) (sm : static_map) : mem :=
  sys_mem
    (run_sched key_equal (call_sched c)
       {| sys_mem := slots_ sm;
          sys_threads :=
            map (insert_cg (capacity_ sm) (empty_key_sentinel_ sm)
                   (empty_value_sentinel_ sm) hash target fuel (Z.to_nat tile_size))
              (call_items c) |}).

(** The kernel of every call finishes: on the slots that the kernels of
    the earlier calls have left, the device-side [insert] of every item
    of the call has returned under the call's interleaving. *)
Fixpoint kernels_finish (hash : Z → nat) (key_equal : Z → Z → bool) (target : build)
    (fuel : nat) (calls : list bulk_call) (sm : static_map) : bool :=
  match calls with
  | [] => true
  | c :: rest =>
      match call_successes hash key_equal target fuel c sm with
      | Some _ =>
          kernels_finish hash key_equal target fuel rest
            (with_slots (call_slots hash key_equal target fuel c sm) sm)
      | None => false
      end
  end.

(** Two maps with the same device side: geometry, sentinels and slots. *)
Definition same_device (a b : static_map) : Prop :=
  capacity_ a = capacity_ b ∧ empty_key_sentinel_ a = empty_key_sentinel_ b ∧
  empty_value_sentinel_ a = empty_value_sentinel_ b ∧ slots_ a = slots_ b.

(** A slot array of five slots that holds the key 3, and three workers
    of which two insert the same key. *)
Definition example_slots : mem := [(-1, -1); (-1, -1); (3, 30); (-1, -1); (-1, -1)].
Definition example_workers : list worker :=
  [Single (7, 70); Group 4 (7, 71); Single (12, 120)].

(** What a bulk insert keeps: the geometry of the map, and [size_] as
    the number of occupied slots. *)
Definition size_counts_slots (capacity : nat) (empty_key_sentinel : Z) (sm : static_map)
  : Prop :=
  capacity_ sm = capacity ∧ empty_key_sentinel_ sm = empty_key_sentinel ∧
  length (slots_ sm) = capacity ∧
  size_ sm = Z.of_nat (occupied empty_key_sentinel (slots_ sm)).

(** [k] is the key of an item that one of the calls handed to the
    device-side [insert]. *)
Definition inserted_key (calls : list bulk_call) (k : Z) : Prop :=
  ∃ c, c ∈ calls ∧ k ∈ map fst (call_items c).

(** The slots of the map satisfy the invariant of the slot array. *)
Definition map_inv (hash : Z → nat) (key_equal : Z → Z → bool) (sm : static_map) : Prop :=
  (0 < capacity_ sm)%nat ∧
  Inv (capacity_ sm) (empty_key_sentinel_ sm) (empty_value_sentinel_ sm) hash key_equal
    (slots_ sm).

(** [quiet post m p]: on the slots [m], among workers that leave [m] as
    it is, every operation of [p] leaves [m] as it is, and [post] holds
    of the result. *)
Fixpoint quiet (key_equal : Z → Z → bool) {R : Type} (post : R → Prop) (m : mem)
    (p : prog R) : Prop :=
  match p with
  | Ret r => post r
  | Diverge => True
  | Vis op k => ∃ x, exec_op key_equal op m = Some (x, m) ∧ quiet key_equal post m (k x)
  end.

(** ** Lookups among inserts

    The threads of a grid in which some insert and some look keys up. *)

Inductive task : Type :=
| Insert (w : worker)
| Contains (k : Z)
| ContainsGroup (cg_size : nat) (k : Z)
| Find (k : Z)
| FindGroup (cg_size : nat) (k : Z).

Inductive task_result : Type :=
| Inserted (b : bool)
| Contained (b : bool)
| Found (slot : nat).

Definition task_prog (capacity : nat) (empty_key_sentinel empty_value_sentinel : Z)
    (hash : Z → nat) (target : build) (fuel : nat) (t : task) : prog task_result :=
  match t with
  | Insert w =>
      b ← worker_prog capacity empty_key_sentinel empty_value_sentinel hash target fuel w;
      mret (Inserted b)
  | Contains k =>
      b ← contains capacity empty_key_sentinel hash fuel k; mret (Contained b)
  | ContainsGroup cg_size k =>
      b ← contains_cg capacity empty_key_sentinel hash fuel cg_size k; mret (Contained b)
  | Find k =>
      slot ← find capacity empty_key_sentinel hash fuel k; mret (Found slot)
  | FindGroup cg_size k =>
      slot ← find_cg capacity empty_key_sentinel hash fuel cg_size k; mret (Found slot)
  end.

(** The key a task is about, and what it needs: a key other than the
    sentinel, and a group of at most the 32 lanes of a warp. *)
Definition task_key (t : task) : Z :=
  match t with
  | Insert w => (worker_pair w).1
  | Contains k | ContainsGroup _ k | Find k | FindGroup _ k => k
  end.

Definition task_ok (empty_key_sentinel : Z) (t : task) : Prop :=
  task_key t ≠ empty_key_sentinel ∧
  match t with
  | Insert (Group cg_size _) | ContainsGroup cg_size _ | FindGroup cg_size _ =>
      (cg_size ≤ 32)%nat
  | _ => True
  end.

Definition is_lookup (t : task) : bool :=
  match t with Insert _ => false | _ => true end.

(** The tasks start on a new map. *)
Definition launch_tasks (capacity : nat) (empty_key_sentinel empty_value_sentinel : Z)
    (hash : Z → nat) (target : build) (fuel : nat) (tasks : list task) : sys task_result :=
  {| sys_mem := initialize empty_key_sentinel empty_value_sentinel capacity;
     sys_threads :=
       map (task_prog capacity empty_key_sentinel empty_value_sentinel hash target fuel)
         tasks |}.

(** What a lookup that has returned says of the slots: nothing that is
    not there. *)
Definition lookup_sound (capacity : nat) (empty_key_sentinel : Z) (key_equal : Z → Z → bool)
    (k : Z) (r : task_result) (m : mem) : Prop :=
  match r with
  | Inserted _ => present empty_key_sentinel key_equal m k
  | Contained b => b = true → present empty_key_sentinel key_equal m k
  | Found slot => slot ≠ end_ capacity → holds_key empty_key_sentinel key_equal k slot m
  end.

(** A lookup that has found its key. *)
Definition lookup_found (capacity : nat) (empty_key_sentinel : Z) (key_equal : Z → Z → bool)
    (k : Z) (r : task_result) (m : mem) : Prop :=
  match r with
  | Inserted _ => True
  | Contained b => b = true
  | Found slot => slot ≠ end_ capacity ∧ holds_key empty_key_sentinel key_equal k slot m
  end.

(** ** Who has written a slot

    The stage of one insert, read off the operations it has performed
    and their results: it is still looking for a slot; its CAS on the
    key cell of slot [j] has failed ([Lost j]); after that its CAS on
    the value cell has succeeded and it is about to store the empty
    value back ([Reverting j]); its CAS on the key cell of slot [j] has
    succeeded ([Won j]); key and value of slot [j] are its own
    ([Stored j]). *)

Inductive stage : Type :=
| Seeking
| Lost (j : nat)
| Reverting (j : nat)
| Won (j : nat)
| Stored (j : nat).

(** The build on which [insert] calls [back_to_back_cas]. *)
Definition uses_back_to_back (target : build) : bool :=
  negb (is_packable target) && negb (cuda_arch target <? 700)%nat.

(** The operations an insert of [insert_pair] performs at a stage, and
    the stage after an operation that returned [x]. *)
Definition stage_step (empty_key_sentinel empty_value_sentinel : Z) (target : build)
    (insert_pair : pair_type) (g : stage) {X : Type} (op : atomic_op X) (x : X) (g' : stage)
  : Prop :=
  match op in atomic_op X return X → Prop with
  | KeyLoad _ | ValueLoad _ | KeyEqual _ _ => λ _, g' = g
  | KeyCas i expected desired => λ x,
      g = Seeking ∧ expected = empty_key_sentinel ∧ desired = insert_pair.1 ∧
      is_packable target = false ∧
      g' = (if x.1 then Won i else if uses_back_to_back target then Lost i else Seeking)
  | PairCas i expected desired => λ x,
      g = Seeking ∧ expected = (empty_key_sentinel, empty_value_sentinel) ∧
      desired = insert_pair ∧ is_packable target = true ∧
      g' = (if x.1 then Stored i else Seeking)
  | ValueCas i expected desired => λ x,
      expected = empty_value_sentinel ∧ desired = insert_pair.2 ∧
      uses_back_to_back target = true ∧
      ((g = Won i ∧ g' = (if x.1 then Stored i else Won i)) ∨
       (g = Lost i ∧ g' = (if x.1 then Reverting i else Seeking)))
  | ValueStore i v => λ _,
      (g = Won i ∧ v = insert_pair.2 ∧ uses_back_to_back target = false ∧ g' = Stored i) ∨
      (g = Reverting i ∧ v = empty_value_sentinel ∧ g' = Seeking)
  end x.

(** [staged post g p]: from stage [g], every operation of [p] is one of
    the stage it is performed at, and [post] holds of the stage and the
    result at the end. *)
Fixpoint staged (empty_key_sentinel empty_value_sentinel : Z) (target : build)
    (insert_pair : pair_type) {R : Type} (post : stage → R → Prop) (g : stage) (p : prog R)
  : Prop :=
  match p with
  | Ret r => post g r
  | Diverge => True
  | Vis op k =>
      ∀ x, ∃ g',
        stage_step empty_key_sentinel empty_value_sentinel target insert_pair g op x g' ∧
        staged empty_key_sentinel empty_value_sentinel target insert_pair post g' (k x)
  end.

(** The slot whose key cell, and whose value cell, holds what the
    worker has written. *)
Definition key_owner (g : stage) : option nat :=
  match g with Won j | Stored j => Some j | _ => None end.
Definition value_owner (g : stage) : option nat :=
  match g with Stored j | Reverting j => Some j | _ => None end.

(** Slot [j] was empty when the workers started on the slot array
    [m0]. *)
Definition empty_at (empty_key_sentinel : Z) (m0 : mem) (j : nat) : Prop :=
  ∀ s0 : pair_type, m0 !! j = Some s0 → s0.1 = empty_key_sentinel.

(** The slot array and the stages of the workers agree: a cell holds
    what its owner has written and has one owner at most; a slot that
    is not empty has an owner or is as it was when the workers started
    on [m0]; and the workers own slots that were empty only. *)
Record slots_owned (empty_key_sentinel : Z) (target : build) (pairs : list pair_type)
    (m0 m : mem) (gs : list stage) : Prop := {
  owned_length : length gs = length pairs;
  slot_taken : ∀ j (s : pair_type), m !! j = Some s → s.1 ≠ empty_key_sentinel →
    (∃ i g, gs !! i = Some g ∧ key_owner g = Some j) ∨ m0 !! j = Some s;
  old_kept : ∀ j (s0 : pair_type), m0 !! j = Some s0 → s0.1 ≠ empty_key_sentinel →
    m !! j = Some s0;
  owner_new : ∀ i g j, gs !! i = Some g → key_owner g = Some j ∨ value_owner g = Some j →
    empty_at empty_key_sentinel m0 j;
  owned_key : ∀ i g p j, gs !! i = Some g → pairs !! i = Some p → key_owner g = Some j →
    ∃ s : pair_type, m !! j = Some s ∧ s.1 = p.1;
  owned_value : ∀ i g p j, gs !! i = Some g → pairs !! i = Some p → value_owner g = Some j →
    ∃ s : pair_type, m !! j = Some s ∧ s.2 = p.2;
  key_owner_unique : ∀ i i' g g' j, gs !! i = Some g → gs !! i' = Some g' →
    key_owner g = Some j → key_owner g' = Some j → i = i';
  value_owner_unique : ∀ i i' g g' j, gs !! i = Some g → gs !! i' = Some g' →
    value_owner g = Some j → value_owner g' = Some j → i = i';
  reverting_back_to_back : uses_back_to_back target = false →
    ∀ i j, gs !! i ≠ Some (Reverting j)
}.

(** A system of insert workers with the stage of each. *)
Definition returns_stored (g : stage) (r : bool) : Prop :=
  if r then ∃ j, g = Stored j else g = Seeking.

Definition sys_staged (empty_key_sentinel empty_value_sentinel : Z) (target : build)
    (workers : list worker) (m0 : mem) (st : sys bool) (gs : list stage) : Prop :=
  length (sys_threads st) = length workers ∧
  (∀ i w g p, workers !! i = Some w → gs !! i = Some g → sys_threads st !! i = Some p →
     staged empty_key_sentinel empty_value_sentinel target (worker_pair w) returns_stored g p) ∧
  slots_owned empty_key_sentinel target (map worker_pair workers) m0 (sys_mem st) gs.

(** Pairs that may be inserted: neither the key nor the value is the
    sentinel. *)
Definition insertable (empty_key_sentinel empty_value_sentinel : Z) (p : pair_type) : Prop :=
  p.1 ≠ empty_key_sentinel ∧ p.2 ≠ empty_value_sentinel.

(** Every occupied slot has its value. *)
Definition complete_pairs (empty_key_sentinel empty_value_sentinel : Z) (m : mem) : Prop :=
  ∀ j (s : pair_type), m !! j = Some s → s.1 ≠ empty_key_sentinel →
    s.2 ≠ empty_value_sentinel.

(** [p] is an item that one of the calls handed to the device-side
    [insert]. *)
Definition inserted_pair (calls : list bulk_call) (p : pair_type) : Prop :=
  ∃ c, c ∈ calls ∧ p ∈ call_items c.

(** ** [device_view::make_copy] of the multimap

    A view is a pointer to the slots with the capacity and the two
    sentinels.  [make_copy] is the branch without [cuda::barrier]: lane
    [thread_rank] of the group copies the slots [thread_rank],
    [thread_rank + g.size()], ... of the source into [memory_to_use], and
    the view of the copy is returned after [g.sync()].  The source is
    not written while it is copied. *)

Record device_view : Type := {
  get_slots : mem;
  get_capacity : nat;
  get_empty_key_sentinel : Z;
  get_empty_value_sentinel : Z
}.

(** A lane in its loop: the index [i], and whether the key of slot [i]
    is copied and the value is next. *)
Record lane : Type := {
  lane_i : Z;
  key_copied : bool
}.

(** One step of the loop body for the index [i]: the lane loads the key
    of slot [i] of the source and constructs the key cell of slot [i]
    of [memory_to_use] from it, or does the same for the value and then
    [i += g.size()].  [None]: slot [i] is outside one of the two
    arrays. *)
Definition copy_step (g_size : nat) (source_device_view : device_view) (l : lane)
    (memory_to_use : mem) : option (lane * mem) :=
  let i := Z.to_nat (lane_i l) in
  s ← get_slots source_device_view !! i;
  t ← memory_to_use !! i;
  if key_copied l then
    Some ({| lane_i := size_add (lane_i l) (Z.of_nat g_size); key_copied := false |},
          <[i := (t.1, s.2)]> memory_to_use)
  else
    Some ({| lane_i := lane_i l; key_copied := true |}, <[i := (s.1, t.2)]> memory_to_use).

(** The group is the list of its lanes, with the memory they write.  A
    lane whose index has reached the capacity has left the loop and
    waits at [g.sync()]. *)
Definition in_loop (source_device_view : device_view) (l : lane) : bool :=
  lane_i l <? Z.of_nat (get_capacity source_device_view).

Definition lane_step (g_size : nat) (source_device_view : device_view)
    (st : list lane * mem) (thread_rank : nat) : option (list lane * mem) :=
  match st.1 !! thread_rank with
  | Some l =>
      if in_loop source_device_view l then
        '(l', memory_to_use) ← copy_step g_size source_device_view l st.2;
        Some (<[thread_rank := l']> st.1, memory_to_use)
      else Some st
  | None => Some st
  end.

Fixpoint run_lanes (g_size : nat) (source_device_view : device_view) (sched : list nat)
    (st : list lane * mem) : option (list lane * mem) :=
  match sched with
  | [] => Some st
  | thread_rank :: sched =>
      st' ← lane_step g_size source_device_view st thread_rank;
      run_lanes g_size source_device_view sched st'
  end.

(** [make_copy(g, memory_to_use, source_device_view)] under the schedule
    [sched] of the lanes.  [None]: a lane is still in its loop, or has
    addressed a slot outside an array. *)
Definition make_copy (g_size : nat) (sched : list nat) (memory_to_use : mem)
    (source_device_view : device_view) : option device_view :=
  '(lanes, memory_to_use) ←
    run_lanes g_size source_device_view sched
      (map (λ thread_rank, {| lane_i := Z.of_nat thread_rank; key_copied := false |})
         (seq 0 g_size), memory_to_use);
  if forallb (λ l, negb (in_loop source_device_view l)) lanes then
    Some {| get_slots := memory_to_use;
            get_capacity := get_capacity source_device_view;
            get_empty_key_sentinel := get_empty_key_sentinel source_device_view;
            get_empty_value_sentinel := get_empty_value_sentinel source_device_view |}
  else None.

(** The view [make_copy] is to return: the slots of the source up to its
    capacity, and behind them what [memory_to_use] held. *)
Definition copy_of (memory_to_use : mem) (source_device_view : device_view) : device_view :=
  {| get_slots := take (get_capacity source_device_view) (get_slots source_device_view) ++
                  drop (get_capacity source_device_view) memory_to_use;
     get_capacity := get_capacity source_device_view;
     get_empty_key_sentinel := get_empty_key_sentinel source_device_view;
     get_empty_value_sentinel := get_empty_value_sentinel source_device_view |}.

(** The lanes run one after the other, each to the end of its loop. *)
Definition lane_by_lane (g_size : nat) (source_device_view : device_view) : list nat :=
  flat_map (replicate (2 * get_capacity source_device_view)) (seq 0 g_size).

(** What slot [j] holds while lane [l] of its residue class copies: the
    slot of the source below the index of the lane, the key of the
    source at the index when the key is copied, and else what
    [memory_to_use] held. *)
Definition copy_state (source_device_view : device_view) (memory0 : mem) (l : lane)
    (j : nat) : option pair_type :=
  if decide ((j < get_capacity source_device_view)%nat ∧ Z.of_nat j < lane_i l) then
    get_slots source_device_view !! j
  else if decide (Z.of_nat j = lane_i l ∧ key_copied l = true) then
    s ← get_slots source_device_view !! j; t ← memory0 !! j; Some (s.1, t.2)
  else memory0 !! j.

(** While the lanes copy: lane [thread_rank] is at an index of its own
    residue class, and every slot is in the state its lane has brought
    it to. *)
Definition copying (g_size : nat) (source_device_view : device_view) (memory0 : mem)
    (st : list lane * mem) : Prop :=
  length st.1 = g_size ∧ length st.2 = length memory0 ∧
  (∀ thread_rank l, st.1 !! thread_rank = Some l →
     0 ≤ lane_i l < Z.of_nat (get_capacity source_device_view) + Z.of_nat g_size ∧
     (Z.to_nat (lane_i l) `mod` g_size)%nat = thread_rank ∧
     (key_copied l = true → lane_i l < Z.of_nat (get_capacity source_device_view))) ∧
  (∀ j l, (j < length memory0)%nat → st.1 !! (j `mod` g_size)%nat = Some l →
     st.2 !! j = copy_state source_device_view memory0 l j).

(** The progress of a lane: two steps for a slot. *)
Definition progress (l : lane) : Z := 2 * lane_i l + Z.b2z (key_copied l).

(** Tasks that start on the slot array [m]. *)
Definition tasks_on (m : mem) (capacity : nat) (empty_key_sentinel empty_value_sentinel : Z)
    (hash : Z → nat) (target : build) (fuel : nat) (tasks : list task) : sys task_result :=
  {| sys_mem := m;
     sys_threads :=
       map (task_prog capacity empty_key_sentinel empty_value_sentinel hash target fuel)
         tasks |}.

(** A program without a loop bound to reach. *)
Fixpoint loop_free {R : Type} (p : prog R) : Prop :=
  match p with
  | Ret _ => True
  | Diverge => False
  | Vis op k => ∀ x, loop_free (k x)
  end.

(** A group has at least one lane. *)
Definition has_lanes (w : worker) : Prop :=
  match w with Single _ => True | Group cg_size _ => (1 ≤ cg_size)%nat end.

(** [within n post p]: [p] has returned, with [post], or has reached the
    bound of a loop, after [n] operations at most. *)
Fixpoint within (n : nat) {R : Type} (post : R → Prop) (p : prog R) {struct p} : Prop :=
  match p with
  | Ret r => post r
  | Diverge => True
  | Vis op k =>
      match n with
      | O => False
      | S n' => ∀ x, within n' post (k x)
      end
  end.

(** The lanes of a worker, and the number of steps of worker [i] in a
    schedule. *)
Definition worker_lanes (w : worker) : nat :=
  match w with Single _ => 1%nat | Group cg_size _ => cg_size end.

Definition steps_of (i : nat) (sched : list nat) : nat :=
  length (filter (λ j, j = i) sched).

(** * Proofs *)

Section safety_facts.
Variable capacity : nat.
Variable empty_key_sentinel empty_value_sentinel : Z.
Variable hash : Z → nat.
Variable key_equal : Z → Z → bool.
Variable target : build.

Hypothesis capacity_pos : (0 < capacity)%nat.
Hypothesis functors : functors_ok hash key_equal.

Local Abbreviation key_equal_sym := (key_equal_sym hash key_equal functors).
Local Abbreviation key_equal_hash := (key_equal_hash hash key_equal functors).

Local Abbreviation stable := (stable empty_key_sentinel).
Local Abbreviation passed := (passed capacity empty_key_sentinel hash key_equal).
Local Abbreviation no_hole := (no_hole capacity empty_key_sentinel hash key_equal).
Local Abbreviation pair_inv := (pair_inv empty_key_sentinel empty_value_sentinel).
Local Abbreviation Inv := (Inv capacity empty_key_sentinel empty_value_sentinel hash key_equal).
Local Abbreviation unique_keys := (unique_keys empty_key_sentinel key_equal).
Local Abbreviation safe := (tsafe capacity empty_key_sentinel empty_value_sentinel hash key_equal).
Local Abbreviation closed := (closed empty_key_sentinel).
Local Abbreviation pr := (probe capacity hash).
Local Abbreviation window := (window capacity hash).
Local Abbreviation loaded := (loaded empty_key_sentinel).
Local Abbreviation lane_matches := (lane_matches empty_key_sentinel key_equal).
Local Abbreviation sys_inv :=
  (sys_inv capacity empty_key_sentinel empty_value_sentinel hash key_equal).
Local Abbreviation stores :=
  (stores capacity empty_key_sentinel empty_value_sentinel hash key_equal).

Lemma stable_refl m : stable m m.
Proof. split; [done|]. intros i s Hs _. by exists s. Qed.

Lemma stable_trans m1 m2 m3 : stable m1 m2 → stable m2 m3 → stable m1 m3.
Proof.
  intros [Hl1 H1] [Hl2 H2]. split; [congruence|].
  intros i s Hs Hne. destruct (H1 i s Hs Hne) as (s' & Hs' & He).
  destruct (H2 i s' Hs') as (s'' & Hs'' & He'); [congruence|].
  exists s''. split; [done|congruence].
Qed.

Lemma passed_closed k d : closed (λ m, passed m k d).
Proof.
  intros m m' Hp [_ Hst] i Hi. destruct (Hp i Hi) as (s & Hs & Hne & Hk).
  destruct (Hst _ _ Hs Hne) as (s' & Hs' & He). exists s'. rewrite He. done.
Qed.

Lemma passed_0 m k : passed m k 0.
Proof. intros i Hi. lia. Qed.

Lemma passed_S m k d (s : pair_type) :
  passed m k d → m !! pr k d = Some s → s.1 ≠ empty_key_sentinel →
  key_equal s.1 k = false → passed m k (S d).
Proof.
  intros Hp Hs Hne Hk i Hi. destruct (decide (i = d)) as [->|]; [by exists s|].
  apply Hp. lia.
Qed.

Lemma passed_le m k d d' : passed m k d → (d' ≤ d)%nat → passed m k d'.
Proof. intros Hp Hle i Hi. apply Hp. lia. Qed.

Lemma probe_lt k d : (pr k d < capacity)%nat.
Proof. apply Nat.mod_upper_bound. lia. Qed.

Lemma next_slot_probe k d : next_slot capacity (pr k d) = pr k (S d).
Proof.
  unfold next_slot, probe. rewrite Nat.Div0.add_mod_idemp_l. f_equal. lia.
Qed.

Lemma initial_slot_probe k : initial_slot capacity hash k = pr k 0.
Proof. unfold initial_slot, probe. by rewrite Nat.add_0_r. Qed.

Lemma key_slot_closed i k :
  k ≠ empty_key_sentinel →
  closed (λ m, ∃ s : pair_type, m !! i = Some s ∧ s.1 = k).
Proof.
  intros Hk m m' (s & Hs & He) [_ Hst].
  destruct (Hst i s Hs) as (s' & Hs' & He'); [congruence|].
  exists s'. split; [done|congruence].
Qed.

(** The invariant gives uniqueness. *)
Lemma no_hole_unique m : no_hole m → unique_keys m.
Proof.
  intros Hnh i j si sj Hi Hj Hni Hnj Heq.
  destruct (Hnh i si Hi Hni) as (di & -> & Hpi).
  destruct (Hnh j sj Hj Hnj) as (dj & -> & Hpj).
  pose proof (key_equal_hash _ _ Heq) as Hh.
  destruct (lt_eq_lt_dec di dj) as [[Hlt| ->]|Hlt].
  - destruct (Hpj di Hlt) as (s & Hs & _ & Hk).
    unfold probe in Hs, Hi. rewrite <- Hh in Hs. rewrite Hi in Hs.
    injection Hs as <-. congruence.
  - unfold probe. by rewrite Hh.
  - destruct (Hpi dj Hlt) as (s & Hs & _ & Hk).
    unfold probe in Hs, Hj. rewrite Hh in Hs. rewrite Hj in Hs.
    injection Hs as <-. rewrite key_equal_sym in Hk. congruence.
Qed.

(** A write that leaves an occupied key cell as it is, or fills an
    empty one at the end of the passed prefix of the new key. *)
Lemma write_slot m i (s : pair_type) (k' v' : Z) :
  Inv m → m !! i = Some s → k' ≠ empty_key_sentinel →
  (s.1 ≠ empty_key_sentinel → k' = s.1) →
  (s.1 = empty_key_sentinel → ∃ d, i = pr k' d ∧ passed m k' d) →
  stable m (<[i := (k', v')]> m) ∧ Inv (<[i := (k', v')]> m).
Proof.
  intros (Hlen & Hnh & Hpi) Hs Hk' Hocc Hemp.
  assert (Hst : stable m (<[i := (k', v')]> m)).
  { split; [by rewrite length_insert|].
    intros j sj Hj Hnj. destruct (decide (i = j)) as [<-|Hij].
    - rewrite list_lookup_insert_eq; [|by eapply lookup_lt_Some].
      eexists; split; [done|]. simpl. rewrite Hs in Hj. injection Hj as <-.
      by apply Hocc.
    - rewrite list_lookup_insert_ne; [|done]. by exists sj. }
  split; [done|]. split; [by rewrite length_insert|]. split.
  - intros j sj Hj Hnj. destruct (decide (i = j)) as [<-|Hij].
    + rewrite list_lookup_insert_eq in Hj; [|by eapply lookup_lt_Some].
      injection Hj as <-. simpl.
      destruct (decide (s.1 = empty_key_sentinel)) as [He|He].
      * destruct (Hemp He) as (d & Hd & Hp). exists d. split; [done|].
        by eapply passed_closed.
      * destruct (Hnh i s Hs He) as (d & Hd & Hp). exists d.
        pose proof (Hocc He) as Hkk. subst k'. split; [done|].
        by eapply passed_closed.
    + rewrite list_lookup_insert_ne in Hj; [|done].
      destruct (Hnh j sj Hj Hnj) as (d & Hd & Hp). exists d. split; [done|].
      by eapply passed_closed.
  - intros j sj Hj Hej. destruct (decide (i = j)) as [<-|Hij].
    + rewrite list_lookup_insert_eq in Hj; [|by eapply lookup_lt_Some].
      injection Hj as <-. done.
    + rewrite list_lookup_insert_ne in Hj; [|done]. by eapply Hpi.
Qed.

(** *** Rules for [tsafe] *)

Lemma tsafe_mono {R} (p : prog R) Q m m' :
  (∀ r, closed (Q r)) → safe p Q m → stable m m' → safe p Q m'.
Proof.
  intros HQ. destruct p as [r| |X op k]; simpl; [by eapply HQ|done|].
  intros H Hst m'' Hst' HI. apply H; [by eapply stable_trans|done].
Qed.

Lemma tsafe_bind {A B} (p : prog A) (f : A → prog B) Q m :
  safe p (λ r m', safe (f r) Q m') m → safe (p ≫= f) Q m.
Proof.
  revert m. induction p as [r| |X op k IH]; intros m; simpl; [done..|].
  intros H m' Hst HI. destruct (H m' Hst HI) as (Hok & x & m'' & He & Hst' & HI' & Hk).
  split; [done|]. exists x, m''. refine (conj He (conj Hst' (conj HI' _))). by apply IH.
Qed.

Lemma tsafe_conseq {R} (p : prog R) (Q Q' : R → mem → Prop) m :
  (∀ r m', Q r m' → Q' r m') → safe p Q m → safe p Q' m.
Proof.
  intros HQ. revert m. induction p as [r| |X op k IH]; intros m; simpl; [by apply HQ|done|].
  intros H m' Hst HI. destruct (H m' Hst HI) as (Hok & x & m'' & He & Hst' & HI' & Hk).
  split; [done|]. exists x, m''. refine (conj He (conj Hst' (conj HI' _))). by apply IH.
Qed.

Lemma tsafe_frame {R} (p : prog R) (Q : R → mem → Prop) (F : mem → Prop) m :
  closed F → F m → safe p Q m → safe p (λ r m', Q r m' ∧ F m') m.
Proof.
  intros HF. revert m. induction p as [r| |X op k IH]; intros m; simpl; [done..|].
  intros Hm H m' Hst HI. destruct (H m' Hst HI) as (Hok & x & m'' & He & Hst' & HI' & Hk).
  split; [done|]. exists x, m''. refine (conj He (conj Hst' (conj HI' _))).
  apply IH; [|done]. eapply HF; [|exact Hst']. by eapply HF.
Qed.

(** *** One rule per atomic operation *)

Lemma inv_lookup m i : Inv m → (i < capacity)%nat → ∃ s : pair_type, m !! i = Some s.
Proof. intros (Hl & _) Hi. apply lookup_lt_is_Some_2. lia. Qed.

Lemma tsafe_key_load {R} i (k : Z → prog R) Q m :
  (i < capacity)%nat →
  (∀ m' (s : pair_type), stable m m' → Inv m' → m' !! i = Some s → safe (k s.1) Q m') →
  safe (Vis (KeyLoad i) k) Q m.
Proof.
  intros Hi H m' Hst HI. split; [done|].
  destruct (inv_lookup m' i HI Hi) as [s Hs].
  exists s.1, m'. simpl. rewrite Hs. simpl.
  refine (conj eq_refl (conj (stable_refl _) (conj HI _))). by eapply H.
Qed.

Lemma tsafe_key_equal {R} a b (k : bool → prog R) Q m :
  a ≠ empty_key_sentinel → b ≠ empty_key_sentinel →
  (∀ m', stable m m' → Inv m' → safe (k (key_equal a b)) Q m') →
  safe (Vis (KeyEqual a b) k) Q m.
Proof.
  intros Ha Hb H m' Hst HI. split; [done|]. exists (key_equal a b), m'.
  refine (conj eq_refl (conj (stable_refl _) (conj HI _))). by apply H.
Qed.

Lemma insert_same (m : mem) i (s : pair_type) :
  m !! i = Some s → <[i := (s.1, s.2)]> m = m.
Proof. intros Hs. apply list_insert_id. rewrite Hs. by destruct s. Qed.

Lemma tsafe_key_cas {R} i kk d (k : bool * Z → prog R) Q m :
  kk ≠ empty_key_sentinel → i = pr kk d → passed m kk d →
  (∀ m' (s : pair_type), stable m m' → Inv m' → m' !! i = Some s → s.1 = kk →
     safe (k (true, empty_key_sentinel)) Q m') →
  (∀ m' (s : pair_type), stable m m' → Inv m' → m' !! i = Some s →
     s.1 ≠ empty_key_sentinel → safe (k (false, s.1)) Q m') →
  safe (Vis (KeyCas i empty_key_sentinel kk) k) Q m.
Proof.
  intros Hkk Hi Hp Hsucc Hfail m' Hst HI. split; [done|].
  destruct (inv_lookup m' i HI) as [s Hs]; [subst i; apply probe_lt|].
  simpl. rewrite Hs. simpl. unfold compare_exchange_strong, bitwise_compare.
  destruct (Z.eqb_spec s.1 empty_key_sentinel) as [He|He].
  - destruct (write_slot m' i s kk s.2 HI Hs Hkk) as [Hst' HI'].
    + congruence.
    + intros _. exists d. split; [done|]. by eapply passed_closed.
    + eexists _, _. refine (conj eq_refl (conj Hst' (conj HI' _))).
      apply (Hsucc _ (kk, s.2)); [by eapply stable_trans|done| |done].
      apply list_lookup_insert_eq. by eapply lookup_lt_Some.
  - eexists _, _. rewrite insert_same; [|done].
    refine (conj eq_refl (conj (stable_refl _) (conj HI _))). by eapply Hfail.
Qed.

Lemma tsafe_pair_cas {R} i kk vv d (k : bool * pair_type → prog R) Q m :
  kk ≠ empty_key_sentinel → i = pr kk d → passed m kk d →
  (∀ m', stable m m' → Inv m' → m' !! i = Some (kk, vv) →
     safe (k (true, (empty_key_sentinel, empty_value_sentinel))) Q m') →
  (∀ m' (s : pair_type), stable m m' → Inv m' → m' !! i = Some s →
     s.1 ≠ empty_key_sentinel → safe (k (false, s)) Q m') →
  safe (Vis (PairCas i (empty_key_sentinel, empty_value_sentinel) (kk, vv)) k) Q m.
Proof.
  intros Hkk Hi Hp Hsucc Hfail m' Hst HI. split; [done|].
  destruct (inv_lookup m' i HI) as [s Hs]; [subst i; apply probe_lt|].
  simpl. rewrite Hs. simpl. unfold pair_eqb, bitwise_compare. simpl.
  destruct (Z.eqb_spec s.1 empty_key_sentinel) as [He|He]; simpl.
  - assert (Hv : s.2 = empty_value_sentinel) by (by eapply HI).
    rewrite Hv, Z.eqb_refl.
    destruct (write_slot m' i s kk vv HI Hs Hkk) as [Hst' HI'].
    + congruence.
    + intros _. exists d. split; [done|]. by eapply passed_closed.
    + eexists _, _. refine (conj eq_refl (conj Hst' (conj HI' _))).
      eapply Hsucc; [by eapply stable_trans|done|].
      apply list_lookup_insert_eq. by eapply lookup_lt_Some.
  - eexists _, _.
    refine (conj eq_refl (conj (stable_refl _) (conj HI _))). by eapply Hfail.
Qed.

(** A value cell may be written once the key cell is occupied. *)
Lemma tsafe_value_cas {R} i kk e v (k : bool * Z → prog R) Q m :
  kk ≠ empty_key_sentinel →
  (∃ s : pair_type, m !! i = Some s ∧ s.1 = kk) →
  (∀ m' x, stable m m' → Inv m' → safe (k x) Q m') →
  safe (Vis (ValueCas i e v) k) Q m.
Proof.
  intros Hkk Hm H m' Hst HI. split; [done|].
  destruct (key_slot_closed i kk Hkk m m' Hm Hst) as (s & Hs & Hk).
  simpl. rewrite Hs. simpl. unfold compare_exchange_strong.
  destruct (write_slot m' i s s.1 (if bitwise_compare s.2 e then v else s.2) HI Hs)
    as [Hst' HI']; [congruence|done|congruence|].
  destruct (bitwise_compare s.2 e); eexists _, _;
    refine (conj eq_refl (conj Hst' (conj HI' _)));
    (apply H; [by eapply stable_trans|done]).
Qed.

Lemma tsafe_value_store {R} i kk v (k : unit → prog R) Q m :
  kk ≠ empty_key_sentinel →
  (∃ s : pair_type, m !! i = Some s ∧ s.1 = kk) →
  (∀ m', stable m m' → Inv m' → safe (k ()) Q m') →
  safe (Vis (ValueStore i v) k) Q m.
Proof.
  intros Hkk Hm H m' Hst HI. split; [done|].
  destruct (key_slot_closed i kk Hkk m m' Hm Hst) as (s & Hs & Hk).
  simpl. rewrite Hs. simpl.
  destruct (write_slot m' i s s.1 v HI Hs) as [Hst' HI']; [congruence|done|congruence|].
  eexists _, _. refine (conj eq_refl (conj Hst' (conj HI' _))).
  apply H; [by eapply stable_trans|done].
Qed.

Lemma tsafe_ret {R} (r : R) (Q : R → mem → Prop) m : Q r m → safe (mret r) Q m.
Proof. done. Qed.

#[local] Arguments tsafe : simpl never.

(** *** The slot protocols *)

Local Abbreviation protocol_post kk d :=
  (λ (r : insert_result) (m' : mem), r = CONTINUE → passed m' kk (S d)).

Lemma tsafe_duplicate_check m i kk d (s : pair_type) :
  kk ≠ empty_key_sentinel → passed m kk d → i = pr kk d →
  m !! i = Some s → s.1 ≠ empty_key_sentinel →
  safe (eq ← call (KeyEqual kk s.1);
         if eq : bool then mret DUPLICATE else mret CONTINUE) (protocol_post kk d) m.
Proof.
  intros Hkk Hp Hi Hs Hne. apply tsafe_key_equal; [done..|].
  intros m' Hst HI. destruct (key_equal kk s.1) eqn:Heq; simpl; [done|].
  intros _. destruct (key_slot_closed i s.1 Hne m m') as (s' & Hs' & He'); [by exists s|done|].
  eapply passed_S; [by eapply passed_closed|by subst i|congruence|].
  rewrite He', key_equal_sym. done.
Qed.

Lemma packed_cas_safe m kk vv d :
  kk ≠ empty_key_sentinel → passed m kk d →
  safe (packed_cas empty_key_sentinel empty_value_sentinel (pr kk d) (kk, vv))
    (protocol_post kk d) m.
Proof.
  intros Hkk Hp. unfold packed_cas.
  eapply (tsafe_pair_cas _ kk vv d); [done..| |].
  - intros m' Hst HI Hs. simpl. done.
  - intros m' s Hst HI Hs Hne.
    apply (tsafe_duplicate_check m' (pr kk d) kk d s); try done.
    by eapply passed_closed.
Qed.

Lemma cas_dependent_write_safe m kk vv d :
  kk ≠ empty_key_sentinel → passed m kk d →
  safe (cas_dependent_write empty_key_sentinel (pr kk d) (kk, vv)) (protocol_post kk d) m.
Proof.
  intros Hkk Hp. unfold cas_dependent_write.
  eapply (tsafe_key_cas _ kk d); [done..| |].
  - intros m' s Hst HI Hs Hk. simpl.
    apply (tsafe_value_store _ kk); [done|by exists s|]. by intros m'' _ _.
  - intros m' s Hst HI Hs Hne.
    apply (tsafe_duplicate_check m' (pr kk d) kk d s); try done.
    by eapply passed_closed.
Qed.

Lemma value_cas_loop_safe fuel m i kk insert_pair value_success :
  kk ≠ empty_key_sentinel →
  (∃ s : pair_type, m !! i = Some s ∧ s.1 = kk) →
  safe (value_cas_loop empty_value_sentinel fuel i insert_pair value_success)
    (λ _ _, True) m.
Proof.
  intros Hkk. revert m value_success.
  induction fuel as [|fuel IH]; intros m [|] Hm; simpl; try done.
  apply (tsafe_value_cas _ kk); [done..|].
  intros m' [b obs] Hst HI. apply IH. by eapply (key_slot_closed i kk).
Qed.

Lemma back_to_back_cas_safe fuel m kk vv d :
  kk ≠ empty_key_sentinel → passed m kk d →
  safe (back_to_back_cas empty_key_sentinel empty_value_sentinel fuel (pr kk d) (kk, vv))
    (protocol_post kk d) m.
Proof.
  intros Hkk Hp. unfold back_to_back_cas.
  eapply (tsafe_key_cas _ kk d); [done..| |].
  - intros m' s Hst HI Hs Hk. simpl.
    apply (tsafe_value_cas _ kk); [done|by exists s|].
    intros m'' [value_success obs] Hst' HI'.
    apply (tsafe_bind (value_cas_loop _ _ _ _ _)).
    eapply tsafe_conseq; [|apply (value_cas_loop_safe _ _ _ kk); [done|]].
    + by intros [] m3 _.
    + eapply (key_slot_closed _ kk); [done| |done]. by exists s.
  - intros m' s Hst HI Hs Hne. simpl.
    apply (tsafe_value_cas _ s.1); [done|by exists s|].
    intros m'' [value_success obs] Hst' HI'.
    destruct (key_slot_closed (pr kk d) s.1 Hne m' m'') as (s' & Hs' & He');
      [by exists s|done|].
    assert (Hdup : ∀ m3, stable m'' m3 → Inv m3 →
              safe (eq ← call (KeyEqual kk s.1);
                     if eq : bool then mret DUPLICATE else mret CONTINUE)
                (protocol_post kk d) m3).
    { intros m3 Hst3 HI3.
      destruct (key_slot_closed (pr kk d) s.1 Hne m'' m3) as (s3 & Hs3 & He3);
        [by exists s'|done|].
      rewrite <- He3.
      apply (tsafe_duplicate_check m3 (pr kk d) kk d s3); try done; [|congruence].
      eapply passed_closed; [exact Hp|].
      eapply stable_trans; [exact Hst|]. by eapply stable_trans. }
    destruct value_success; simpl.
    + apply (tsafe_value_store _ s.1); [done|by exists s'|]. apply Hdup.
    + apply Hdup; [apply stable_refl|done].
Qed.

Lemma slot_protocol_safe fuel m kk vv d :
  kk ≠ empty_key_sentinel → passed m kk d →
  safe (slot_protocol empty_key_sentinel empty_value_sentinel target fuel (pr kk d) (kk, vv))
    (protocol_post kk d) m.
Proof.
  intros Hkk Hp. unfold slot_protocol.
  destruct (is_packable target); [by apply packed_cas_safe|].
  destruct (cuda_arch target <? 700)%nat;
    [by apply cas_dependent_write_safe|by apply back_to_back_cas_safe].
Qed.

(** *** The single-worker insert *)

Lemma insert_loop_safe fuel m kk vv d :
  kk ≠ empty_key_sentinel → passed m kk d →
  safe (insert_loop capacity empty_key_sentinel empty_value_sentinel target fuel
           (kk, vv) (pr kk d)) (λ _ _, True) m.
Proof.
  intros Hkk. revert m d. induction fuel as [|fuel IH]; intros m d Hp; [done|].
  simpl. apply tsafe_key_load; [apply probe_lt|].
  intros m' s Hst HI Hs. unfold bitwise_compare.
  assert (Hp' : passed m' kk d) by (by eapply passed_closed).
  destruct (Z.eqb_spec s.1 empty_key_sentinel) as [He|He]; simpl.
  - apply (tsafe_bind (slot_protocol _ _ _ _ _ _)).
    eapply tsafe_conseq; [|by apply slot_protocol_safe].
    intros [| |] m'' Hpost; simpl; try done.
    rewrite next_slot_probe. apply IH. by apply Hpost.
  - apply tsafe_key_equal; [done..|]. intros m'' Hst' HI'.
    destruct (key_equal s.1 kk) eqn:Heq; simpl; [done|].
    rewrite next_slot_probe. apply IH.
    destruct (key_slot_closed (pr kk d) s.1 He m' m'') as (s' & Hs' & He');
      [by exists s|done|].
    eapply passed_S; [by eapply passed_closed|done|congruence|congruence].
Qed.

Lemma insert_safe fuel m (insert_pair : pair_type) :
  insert_pair.1 ≠ empty_key_sentinel →
  safe (insert capacity empty_key_sentinel empty_value_sentinel hash target fuel
           insert_pair) (λ _ _, True) m.
Proof.
  intros Hk. unfold insert. rewrite initial_slot_probe. destruct insert_pair as [kk vv].
  apply insert_loop_safe; [done|apply passed_0].
Qed.

(** *** Group primitives *)

Lemma g_ballot_testbit (pred : list bool) (r : nat) :
  Z.testbit (g_ballot pred) (Z.of_nat r) = default false (pred !! r).
Proof.
  revert r. induction pred as [|b rest IH]; intros r; simpl.
  - by rewrite Z.testbit_0_l.
  - rewrite (Z.add_comm (Z.b2z b)). destruct r as [|r].
    + by rewrite Z.testbit_0_r.
    + rewrite Nat2Z.inj_succ, Z.testbit_succ_r; [|lia]. apply IH.
Qed.

Lemma g_ballot_zero (pred : list bool) :
  g_ballot pred = 0 → ∀ r b, pred !! r = Some b → b = false.
Proof.
  intros H0 r b Hr. pose proof (g_ballot_testbit pred r) as Ht.
  rewrite H0, Z.testbit_0_l, Hr in Ht. done.
Qed.

Lemma ffs_from_spec n i p x :
  (∀ j, i ≤ j < p → Z.testbit x j = false) → Z.testbit x p = true →
  i ≤ p < i + Z.of_nat n → ffs_from n i x = p + 1.
Proof.
  revert i. induction n as [|n IH]; intros i Hlow Hp Hr; [lia|]. simpl.
  destruct (decide (i = p)) as [->|Hne]; [by rewrite Hp|].
  rewrite Hlow; [|lia]. apply IH; [|done|lia]. intros j Hj. apply Hlow. lia.
Qed.

Lemma first_true (pred : list bool) :
  (∃ r, pred !! r = Some true) →
  ∃ r, pred !! r = Some true ∧ ∀ r', (r' < r)%nat → pred !! r' = Some false.
Proof.
  induction pred as [|b rest IH]; intros [r Hr]; [by rewrite lookup_nil in Hr|].
  destruct b.
  - exists 0%nat. split; [done|]. intros r' Hr'. lia.
  - destruct r as [|r]; [done|]. destruct IH as (r0 & Hr0 & Hlow); [by exists r|].
    exists (S r0). split; [done|]. intros [|r'] Hr'; [done|]. apply Hlow. lia.
Qed.

Lemma g_ballot_nonzero (pred : list bool) :
  g_ballot pred ≠ 0 → ∃ r, pred !! r = Some true.
Proof.
  induction pred as [|b rest IH]; simpl; [done|]. intros Hne.
  destruct b; [by exists 0%nat|]. destruct IH as [r Hr]; [simpl in Hne; lia|].
  by exists (S r).
Qed.

(** [__ffs(g.ballot(pred)) - 1] is the first lane whose predicate holds. *)
Lemma ffs_ballot (pred : list bool) :
  (length pred ≤ 32)%nat → g_ballot pred ≠ 0 →
  ∃ r, Z.to_nat (ffs (g_ballot pred) - 1) = r ∧ pred !! r = Some true ∧
       ∀ r', (r' < r)%nat → pred !! r' = Some false.
Proof.
  intros Hlen Hne.
  destruct (first_true pred (g_ballot_nonzero pred Hne)) as (r & Hr & Hlow).
  exists r. split; [|done]. unfold ffs.
  rewrite (ffs_from_spec 32 0 (Z.of_nat r)).
  - lia.
  - intros j Hj. replace j with (Z.of_nat (Z.to_nat j)) by lia.
    rewrite g_ballot_testbit, Hlow; [done|lia].
  - by rewrite g_ballot_testbit, Hr.
  - apply lookup_lt_Some in Hr. lia.
Qed.

Lemma window_lookup cg_size k w r :
  (r < cg_size)%nat → window cg_size k w !! r = Some (pr k (w * cg_size + r)).
Proof.
  intros Hr. unfold window. rewrite list_lookup_fmap, lookup_seq_lt; [|done]. done.
Qed.

Lemma window_length cg_size k w : length (window cg_size k w) = cg_size.
Proof. unfold window. by rewrite length_map, length_seq. Qed.

Lemma initial_window_eq cg_size k :
  initial_window capacity hash cg_size k = window cg_size k 0.
Proof. done. Qed.

Lemma next_window_eq cg_size k w :
  next_window capacity cg_size (window cg_size k w) = window cg_size k (S w).
Proof.
  unfold next_window, window. rewrite <- list_fmap_compose.
  apply list_fmap_ext. intros _ r _. simpl. unfold next_slot_cg, probe.
  rewrite Nat.Div0.add_mod_idemp_l. f_equal. lia.
Qed.

Lemma loaded_closed current_slot existing_key :
  closed (λ m, loaded m current_slot existing_key).
Proof.
  intros m m' H Hst. refine (Forall2_impl _ _ _ _ H _). simpl.
  intros s e Hse Hne. by eapply (key_slot_closed s e Hne m m'); [apply Hse|].
Qed.

Lemma lanes_load_safe current_slot m :
  Forall (λ s, (s < capacity)%nat) current_slot →
  safe (lanes_load current_slot) (λ existing_key m', loaded m' current_slot existing_key) m.
Proof.
  revert m. induction current_slot as [|s rest IH]; intros m Hlt.
  { apply tsafe_ret. constructor. }
  inversion Hlt as [|? ? Hs Hrest]; subst. simpl.
  apply tsafe_key_load; [done|]. intros m' sl Hst HI Hsl.
  apply (tsafe_bind (lanes_load rest)).
  eapply tsafe_conseq; [|apply tsafe_frame; [| |by apply IH]].
  - intros keys m'' [Hl Hhd]. apply tsafe_ret. constructor; [exact Hhd|exact Hl].
  - intros m1 m2 H Hst12 Hne. by eapply (key_slot_closed s sl.1 Hne m1 m2); [apply H|].
  - intros _. by exists sl.
Qed.

Lemma lanes_match_safe existing_key k m :
  k ≠ empty_key_sentinel →
  safe (lanes_match empty_key_sentinel existing_key k)
    (λ found _, found = map (lane_matches k) existing_key) m.
Proof.
  intros Hk. revert m. induction existing_key as [|e rest IH]; intros m; [done|].
  simpl. unfold lane_matches at 1, bitwise_compare.
  destruct (Z.eqb_spec e empty_key_sentinel) as [He|He]; simpl.
  - apply (tsafe_bind (lanes_match _ rest k)).
    eapply tsafe_conseq; [|apply IH]. intros found m' ->. by apply tsafe_ret.
  - apply tsafe_key_equal; [done..|]. intros m' Hst HI.
    apply (tsafe_bind (lanes_match _ rest k)).
    eapply tsafe_conseq; [|apply IH]. intros found m'' ->. by apply tsafe_ret.
Qed.

(** *** The cooperative-group insert *)

Local Abbreviation is_empty := (λ e : Z, bitwise_compare e empty_key_sentinel).

Lemma g_any_false (pred : list bool) r b :
  g_any pred = false → pred !! r = Some b → b = false.
Proof.
  unfold g_any. revert r. induction pred as [|b0 rest IH]; intros r Hany Hr;
    [by rewrite lookup_nil in Hr|].
  simpl in Hany. apply orb_false_elim in Hany as [Hb0 Hrest].
  destruct r as [|r]; simpl in Hr; [by injection Hr as <-|]. by eapply IH.
Qed.

(** Lanes below [r] that are occupied and do not match extend the
    passed prefix into the window. *)
Lemma lanes_passed cg_size m kk w (existing_key : list Z) r :
  loaded m (window cg_size kk w) existing_key →
  passed m kk (w * cg_size) →
  g_any (map (lane_matches kk) existing_key) = false →
  (∀ r', (r' < r)%nat → map is_empty existing_key !! r' = Some false) →
  passed m kk (w * cg_size + r).
Proof.
  intros Hl Hp Hany Hlow i Hi.
  destruct (decide (i < w * cg_size)%nat) as [Hlt|Hge]; [by apply Hp|].
  pose (r' := (i - w * cg_size)%nat). assert (Hr' : (r' < r)%nat) by lia.
  pose proof (Hlow r' Hr') as He. rewrite list_lookup_fmap in He.
  destruct (existing_key !! r') as [e|] eqn:Hke; [|done]. simpl in He.
  assert (Hne : e ≠ empty_key_sentinel).
  { intros ->. unfold bitwise_compare in He. rewrite Z.eqb_refl in He. congruence. }
  pose proof (Forall2_length _ _ _ Hl) as Hlen. rewrite window_length in Hlen.
  assert (Hcg : (r' < cg_size)%nat) by (apply lookup_lt_Some in Hke; lia).
  pose proof (Forall2_lookup_lr _ _ _ _ _ _ Hl (window_lookup cg_size kk w r' Hcg) Hke Hne)
    as (sl & Hsl & Hk).
  replace i with (w * cg_size + r')%nat by lia.
  exists sl. split; [done|]. split; [congruence|].
  assert (Hm : lane_matches kk e = false).
  { eapply (g_any_false _ r'); [exact Hany|]. by rewrite list_lookup_fmap, Hke. }
  unfold lane_matches in Hm. injection He as He. rewrite He in Hm. simpl in Hm. congruence.
Qed.

Lemma window_in_range cg_size k w :
  Forall (λ s, (s < capacity)%nat) (window cg_size k w).
Proof. unfold window. apply Forall_fmap, Forall_forall. intros r _. apply probe_lt. Qed.

Lemma insert_cg_loop_safe fuel cg_size m kk vv w :
  (cg_size ≤ 32)%nat → kk ≠ empty_key_sentinel → passed m kk (w * cg_size) →
  safe (insert_cg_loop capacity empty_key_sentinel empty_value_sentinel target fuel cg_size
          (kk, vv) (window cg_size kk w)) (λ _ _, True) m.
Proof.
  intros Hcg Hkk. revert m w. induction fuel as [|fuel IH]; intros m w Hp; [done|].
  simpl. apply (tsafe_bind (lanes_load _)).
  eapply tsafe_conseq;
    [|apply tsafe_frame; [apply (passed_closed kk (w * cg_size))|exact Hp|
                          apply lanes_load_safe, window_in_range]].
  intros existing_key m1 [Hl1 Hp1]. simpl in Hp1.
  apply (tsafe_bind (lanes_match _ _ _)).
  eapply tsafe_conseq;
    [|eapply (tsafe_frame _ _ (λ m, loaded m (window cg_size kk w) existing_key ∧
                                    passed m kk (w * cg_size)));
      [| |by apply lanes_match_safe]].
  2:{ intros ma mb [Ha Hb] Hst. split; [by eapply loaded_closed|by eapply passed_closed]. }
  2:{ by split. }
  intros found m2 [-> [Hl2 Hp2]].
  destruct (g_any (map (lane_matches kk) existing_key)) eqn:Hany; [by apply tsafe_ret|].
  pose proof (Forall2_length _ _ _ Hl2) as Hlen. rewrite window_length in Hlen.
  destruct (Z.eqb_spec (g_ballot (map is_empty existing_key)) 0) as [Hb|Hb]; simpl.
  - rewrite next_window_eq. apply IH.
    replace (S w * cg_size)%nat with (w * cg_size + cg_size)%nat by lia.
    apply (lanes_passed cg_size m2 kk w existing_key); try done.
    intros r' Hr'. destruct (map is_empty existing_key !! r') as [b|] eqn:Hb'.
    + by rewrite (g_ballot_zero _ Hb _ _ Hb').
    + apply lookup_ge_None in Hb'. rewrite length_map in Hb'. lia.
  - destruct (ffs_ballot (map is_empty existing_key)) as (r & -> & Hr & Hlow);
      [rewrite length_map; lia|done|].
    assert (Hrcg : (r < cg_size)%nat).
    { apply lookup_lt_Some in Hr. rewrite length_map in Hr. lia. }
    rewrite window_lookup; [|done].
    apply (tsafe_bind (slot_protocol _ _ _ _ _ _)).
    eapply tsafe_conseq; [|apply slot_protocol_safe; [done|]].
    + intros [| |] m3 Hpost; simpl; try by apply tsafe_ret.
      apply IH. eapply passed_le; [by apply Hpost|lia].
    + by apply (lanes_passed cg_size m2 kk w existing_key).
Qed.

Lemma insert_cg_safe fuel cg_size m (insert_pair : pair_type) :
  (cg_size ≤ 32)%nat → insert_pair.1 ≠ empty_key_sentinel →
  safe (insert_cg capacity empty_key_sentinel empty_value_sentinel hash target fuel cg_size
          insert_pair) (λ _ _, True) m.
Proof.
  intros Hcg Hk. unfold insert_cg. rewrite initial_window_eq. destruct insert_pair as [kk vv].
  apply insert_cg_loop_safe; [done..|apply passed_0].
Qed.

(** *** Any interleaving of workers *)

Lemma initialize_inv : Inv (initialize empty_key_sentinel empty_value_sentinel capacity).
Proof.
  unfold initialize. split; [by rewrite length_replicate|]. split.
  - intros j s Hj Hne. apply lookup_replicate in Hj as [-> _]. done.
  - intros j s Hj _. apply lookup_replicate in Hj as [-> _]. done.
Qed.

Lemma worker_prog_safe fuel w m :
  worker_ok empty_key_sentinel w →
  safe (worker_prog capacity empty_key_sentinel empty_value_sentinel hash target fuel w)
    (λ _ _, True) m.
Proof.
  destruct w as [p|cg_size p]; intros [Hk Hcg]; simpl;
    [by apply insert_safe|by apply insert_cg_safe].
Qed.

Lemma launch_inv fuel workers :
  Forall (worker_ok empty_key_sentinel) workers →
  sys_inv (launch capacity empty_key_sentinel empty_value_sentinel hash target fuel workers).
Proof.
  intros Hw. split; [apply initialize_inv|]. simpl. apply Forall_fmap.
  eapply Forall_impl; [exact Hw|]. intros w Hok. by apply worker_prog_safe.
Qed.

Lemma step_thread_inv st i : sys_inv st → sys_inv (step_thread key_equal st i).
Proof.
  intros [HI Hts]. unfold step_thread.
  destruct (sys_threads st !! i) as [[r| |X op k]|] eqn:Hi; try done.
  pose proof (proj1 (Forall_lookup _ _) Hts i _ Hi) as Hp.
  destruct (Hp (sys_mem st) (stable_refl _) HI) as (_ & x & m' & He & Hst & HI' & Hk).
  rewrite He. split; [done|]. simpl.
  apply Forall_insert; [|done].
  eapply Forall_impl; [exact Hts|]. intros p Hsafe. simpl in Hsafe.
  by eapply tsafe_mono.
Qed.

Lemma run_sched_inv sched st : sys_inv st → sys_inv (run_sched key_equal sched st).
Proof.
  unfold run_sched. revert st. induction sched as [|i sched IH]; intros st Hst; [done|].
  simpl. apply IH. by apply step_thread_inv.
Qed.

(** *** The user's equality is not called on the sentinel *)

Lemma pending_key_equal st i {X} (op : atomic_op X) (k : X → prog bool) :
  sys_inv st → sys_threads st !! i = Some (Vis op k) → op_ok empty_key_sentinel op.
Proof.
  intros [HI Hts] Hi. pose proof (proj1 (Forall_lookup _ _) Hts i _ Hi) as Hp.
  by destruct (Hp (sys_mem st) (stable_refl _) HI) as [Hok _].
Qed.

Lemma find_loop_safe fuel k d m :
  k ≠ empty_key_sentinel →
  safe (find_loop capacity empty_key_sentinel fuel k (pr k d)) (λ _ _, True) m.
Proof.
  intros Hk. revert d m. induction fuel as [|fuel IH]; intros d m; [done|]. simpl.
  apply tsafe_key_load; [apply probe_lt|]. intros m' s Hst HI Hs. unfold bitwise_compare.
  destruct (Z.eqb_spec s.1 empty_key_sentinel) as [He|He]; [done|].
  apply tsafe_key_equal; [done..|]. intros m'' Hst' HI'.
  destruct (key_equal s.1 k); [done|]. rewrite next_slot_probe. apply IH.
Qed.

Lemma find_safe fuel k m :
  k ≠ empty_key_sentinel →
  safe (find capacity empty_key_sentinel hash fuel k) (λ _ _, True) m.
Proof. intros Hk. unfold find. rewrite initial_slot_probe. by apply find_loop_safe. Qed.

Lemma contains_loop_safe fuel k d m :
  k ≠ empty_key_sentinel →
  safe (contains_loop capacity empty_key_sentinel fuel k (pr k d)) (λ _ _, True) m.
Proof.
  intros Hk. revert d m. induction fuel as [|fuel IH]; intros d m; [done|]. simpl.
  apply tsafe_key_load; [apply probe_lt|]. intros m' s Hst HI Hs. unfold bitwise_compare.
  destruct (Z.eqb_spec s.1 empty_key_sentinel) as [He|He]; [done|].
  apply tsafe_key_equal; [done..|]. intros m'' Hst' HI'.
  destruct (key_equal s.1 k); [done|]. rewrite next_slot_probe. apply IH.
Qed.

Lemma contains_safe fuel k m :
  k ≠ empty_key_sentinel →
  safe (contains capacity empty_key_sentinel hash fuel k) (λ _ _, True) m.
Proof. intros Hk. unfold contains. rewrite initial_slot_probe. by apply contains_loop_safe. Qed.

Lemma find_cg_loop_safe fuel cg_size k w m :
  k ≠ empty_key_sentinel →
  safe (find_cg_loop capacity empty_key_sentinel fuel cg_size k (window cg_size k w))
    (λ _ _, True) m.
Proof.
  intros Hk. revert w m. induction fuel as [|fuel IH]; intros w m; [done|]. simpl.
  apply (tsafe_bind (lanes_load _)).
  eapply tsafe_conseq; [|apply lanes_load_safe, window_in_range].
  intros existing_key m1 _. apply (tsafe_bind (lanes_match _ _ _)).
  eapply tsafe_conseq; [|by apply lanes_match_safe].
  intros found m2 _. destruct (negb _); [done|]. destruct (negb _); [done|].
  rewrite next_window_eq. apply IH.
Qed.

Lemma contains_cg_loop_safe fuel cg_size k w m :
  k ≠ empty_key_sentinel →
  safe (contains_cg_loop capacity empty_key_sentinel fuel cg_size k (window cg_size k w))
    (λ _ _, True) m.
Proof.
  intros Hk. revert w m. induction fuel as [|fuel IH]; intros w m; [done|]. simpl.
  apply (tsafe_bind (lanes_load _)).
  eapply tsafe_conseq; [|apply lanes_load_safe, window_in_range].
  intros existing_key m1 _. apply (tsafe_bind (lanes_match _ _ _)).
  eapply tsafe_conseq; [|by apply lanes_match_safe].
  intros found m2 _. destruct (negb _); [done|]. destruct (negb _); [done|].
  rewrite next_window_eq. apply IH.
Qed.

(** *** Sequential runs *)

Lemma run_bind {A B} (p : prog A) (f : A → prog B) m :
  run key_equal (prog_bind f p) m =
  match run key_equal p m with
  | Some (r, m') => run key_equal (f r) m'
  | None => None
  end.
Proof.
  revert m. induction p as [r| |X op k IH]; intros m; simpl; [done..|].
  destruct (exec_op key_equal op m) as [[x m']|]; [apply IH|done].
Qed.

(** A run of a safe program keeps the invariant. *)
Lemma run_safe {R} (p : prog R) Q m r m' :
  safe p Q m → Inv m → run key_equal p m = Some (r, m') →
  Inv m' ∧ stable m m' ∧ Q r m'.
Proof.
  revert m. induction p as [r0| |X op k IH]; intros m Hs HI Hrun; simpl in Hrun.
  - injection Hrun as <- <-. split; [done|]. split; [apply stable_refl|done].
  - done.
  - destruct (Hs m (stable_refl _) HI) as (_ & x & m1 & He & Hst & HI1 & Hk).
    rewrite He in Hrun. destruct (IH x m1 Hk HI1 Hrun) as (HI' & Hst' & HQ).
    split; [done|]. split; [by eapply stable_trans|done].
Qed.

Lemma run_read_only {R} (p : prog R) m r m' :
  read_only p → run key_equal p m = Some (r, m') → m' = m.
Proof.
  revert m. induction p as [r0| |X op k IH]; intros m Hro Hrun; simpl in Hrun.
  - by injection Hrun as <- <-.
  - done.
  - destruct Hro as [Hop Hk].
    destruct op; try done; simpl in Hrun.
    + destruct (m !! i); [|done]. eapply IH; [|exact Hrun]. apply Hk.
    + destruct (m !! i); [|done]. eapply IH; [|exact Hrun]. apply Hk.
    + eapply IH; [|exact Hrun]. apply Hk.
Qed.

Lemma find_loop_read_only fuel k s :
  read_only (find_loop capacity empty_key_sentinel fuel k s).
Proof.
  revert s. induction fuel as [|fuel IH]; intros s; [done|]. simpl.
  split; [done|]. intros e. destruct (bitwise_compare e empty_key_sentinel); [done|].
  simpl. split; [done|]. intros [|]; [done|apply IH].
Qed.

Lemma contains_loop_read_only fuel k s :
  read_only (contains_loop capacity empty_key_sentinel fuel k s).
Proof.
  revert s. induction fuel as [|fuel IH]; intros s; [done|]. simpl.
  split; [done|]. intros e. destruct (bitwise_compare e empty_key_sentinel); [done|].
  simpl. split; [done|]. intros [|]; [done|apply IH].
Qed.

(** Walking over the passed prefix. *)
Lemma key_load_passed m k i d (s : pair_type) :
  passed m k d → (i < d)%nat → m !! pr k i = Some s →
  bitwise_compare s.1 empty_key_sentinel = false ∧ key_equal s.1 k = false.
Proof.
  intros Hp Hi Hs. destruct (Hp i Hi) as (s' & Hs' & Hne & Hk).
  rewrite Hs in Hs'. injection Hs' as <-. split; [|done].
  unfold bitwise_compare. by apply Z.eqb_neq.
Qed.

Lemma find_loop_walk m k d j fuel :
  passed m k (j + d) →
  run key_equal (find_loop capacity empty_key_sentinel (d + fuel) k (pr k j)) m =
  run key_equal (find_loop capacity empty_key_sentinel fuel k (pr k (j + d))) m.
Proof.
  revert j. induction d as [|d IH]; intros j Hp; [by rewrite Nat.add_0_r|].
  destruct (Hp j) as (s & Hs & _); [lia|].
  destruct (key_load_passed m k j _ s Hp) as [He Hk]; [lia|done|].
  simpl. rewrite Hs. simpl. rewrite He. simpl. rewrite Hk.
  rewrite next_slot_probe, IH; [|by replace (S j + d)%nat with (j + S d)%nat by lia].
  by replace (S j + d)%nat with (j + S d)%nat by lia.
Qed.

Lemma contains_loop_walk m k d j fuel :
  passed m k (j + d) →
  run key_equal (contains_loop capacity empty_key_sentinel (d + fuel) k (pr k j)) m =
  run key_equal (contains_loop capacity empty_key_sentinel fuel k (pr k (j + d))) m.
Proof.
  revert j. induction d as [|d IH]; intros j Hp; [by rewrite Nat.add_0_r|].
  destruct (Hp j) as (s & Hs & _); [lia|].
  destruct (key_load_passed m k j _ s Hp) as [He Hk]; [lia|done|].
  simpl. rewrite Hs. simpl. rewrite He. simpl. rewrite Hk.
  rewrite next_slot_probe, IH; [|by replace (S j + d)%nat with (j + S d)%nat by lia].
  by replace (S j + d)%nat with (j + S d)%nat by lia.
Qed.

Lemma insert_loop_walk m p d j fuel :
  passed m p.1 (j + d) →
  run key_equal (insert_loop capacity empty_key_sentinel empty_value_sentinel target
                   (d + fuel) p (pr p.1 j)) m =
  run key_equal (insert_loop capacity empty_key_sentinel empty_value_sentinel target
                   fuel p (pr p.1 (j + d))) m.
Proof.
  revert j. induction d as [|d IH]; intros j Hp; [by rewrite Nat.add_0_r|].
  destruct (Hp j) as (s & Hs & _); [lia|].
  destruct (key_load_passed m p.1 j _ s Hp) as [He Hk]; [lia|done|].
  simpl. rewrite Hs. simpl. rewrite He. simpl. rewrite Hk. simpl.
  rewrite next_slot_probe, IH; [|by replace (S j + d)%nat with (j + S d)%nat by lia].
  by replace (S j + d)%nat with (j + S d)%nat by lia.
Qed.

Lemma compare_exchange_strong_same e d : compare_exchange_strong e e d = (true, e, d).
Proof. unfold compare_exchange_strong, bitwise_compare. by rewrite Z.eqb_refl. Qed.

Lemma compare_exchange_strong_other c e d :
  c ≠ e → compare_exchange_strong c e d = (false, c, c).
Proof.
  intros Hne. unfold compare_exchange_strong, bitwise_compare.
  apply Z.eqb_neq in Hne. by rewrite Hne.
Qed.

(** On an empty slot every protocol succeeds when the worker is alone. *)
Lemma slot_protocol_run_empty fuel m i (p : pair_type) :
  m !! i = Some (empty_key_sentinel, empty_value_sentinel) →
  run key_equal (slot_protocol empty_key_sentinel empty_value_sentinel target fuel i p) m =
  Some (SUCCESS, <[i := p]> m).
Proof.
  intros Hi. pose proof (lookup_lt_Some _ _ _ Hi) as Hlt. destruct p as [k v].
  unfold slot_protocol.
  destruct (is_packable target); [|destruct (cuda_arch target <? 700)%nat].
  - simpl. rewrite Hi. simpl. unfold pair_eqb, bitwise_compare. simpl.
    by rewrite !Z.eqb_refl.
  - simpl. rewrite Hi. simpl. rewrite compare_exchange_strong_same. simpl.
    rewrite list_lookup_insert_eq; [|done]. simpl.
    by rewrite list_insert_insert_eq.
  - simpl. rewrite Hi. simpl. rewrite compare_exchange_strong_same. simpl.
    rewrite list_lookup_insert_eq; [|done]. simpl.
    rewrite compare_exchange_strong_same. simpl. rewrite list_insert_insert_eq.
    by destruct fuel.
Qed.

Lemma insert_loop_run_empty fuel m (p : pair_type) i :
  m !! i = Some (empty_key_sentinel, empty_value_sentinel) →
  run key_equal (insert_loop capacity empty_key_sentinel empty_value_sentinel target
                   (S fuel) p i) m = Some (true, <[i := p]> m).
Proof.
  intros Hi. simpl. rewrite Hi. simpl. unfold bitwise_compare. rewrite Z.eqb_refl.
  simpl. unfold mbind, prog_mbind. rewrite run_bind, slot_protocol_run_empty; done.
Qed.

Lemma insert_loop_run_duplicate fuel m (p s : pair_type) i :
  m !! i = Some s → s.1 ≠ empty_key_sentinel → key_equal s.1 p.1 = true →
  run key_equal (insert_loop capacity empty_key_sentinel empty_value_sentinel target
                   (S fuel) p i) m = Some (false, m).
Proof.
  intros Hi Hne Heq. simpl. rewrite Hi. simpl. unfold bitwise_compare.
  apply Z.eqb_neq in Hne. rewrite Hne. simpl. by rewrite Heq.
Qed.

(** *** Linear probing reaches every slot *)

Lemma probe_onto k j : (j < capacity)%nat → ∃ d, (d < capacity)%nat ∧ pr k d = j.
Proof.
  intros Hj. unfold probe.
  pose proof (Nat.div_mod_eq (hash k) capacity) as Hdm.
  pose proof (Nat.mod_upper_bound (hash k) capacity) as Hub.
  set (h := (hash k `mod` capacity)%nat) in *. set (q := (hash k `div` capacity)%nat) in *.
  destruct (decide (h ≤ j)%nat) as [Hle|Hgt].
  - exists (j - h)%nat. split; [lia|].
    replace (hash k + (j - h))%nat with (j + q * capacity)%nat by lia.
    rewrite Nat.Div0.mod_add. apply Nat.mod_small. lia.
  - exists (j + capacity - h)%nat. split; [lia|].
    replace (hash k + (j + capacity - h))%nat with (j + (q + 1) * capacity)%nat by lia.
    rewrite Nat.Div0.mod_add. apply Nat.mod_small. lia.
Qed.

Lemma probe_wrap k d : pr k (d + capacity) = pr k d.
Proof.
  unfold probe. replace (hash k + (d + capacity))%nat with (hash k + d + 1 * capacity)%nat by lia.
  apply Nat.Div0.mod_add.
Qed.

(** The slot that ends a passed prefix is less than one round away. *)
Lemma passed_lt m k d (s : pair_type) :
  passed m k d → m !! pr k d = Some s →
  s.1 = empty_key_sentinel ∨ key_equal s.1 k = true → (d < capacity)%nat.
Proof.
  intros Hp Hs Hor. destruct (decide (d < capacity)%nat) as [|Hge]; [done|].
  destruct (Hp (d - capacity)%nat) as (s' & Hs' & Hne & Hk); [lia|].
  rewrite <- probe_wrap in Hs'. replace (d - capacity + capacity)%nat with d in Hs' by lia.
  rewrite Hs in Hs'. injection Hs' as <-. destruct Hor; congruence.
Qed.

Lemma first_empty m k :
  length m = capacity →
  (∃ j (s : pair_type), m !! j = Some s ∧ s.1 = empty_key_sentinel) →
  (∀ j (s : pair_type), m !! j = Some s → s.1 ≠ empty_key_sentinel →
     key_equal s.1 k = false) →
  ∃ d (s : pair_type), passed m k d ∧ m !! pr k d = Some s ∧ s.1 = empty_key_sentinel.
Proof.
  intros Hlen (j & s0 & Hj & He) Hother.
  destruct (probe_onto k j) as (d0 & _ & Hd0); [apply lookup_lt_Some in Hj; lia|].
  assert (Hn : ∀ n, passed m k n ∨
            ∃ d (s : pair_type), passed m k d ∧ m !! pr k d = Some s ∧
                                 s.1 = empty_key_sentinel).
  { induction n as [|n [IH|IH]]; [left; apply passed_0| |by right].
    destruct (lookup_lt_is_Some_2 m (pr k n)) as [s Hs]; [rewrite Hlen; apply probe_lt|].
    destruct (decide (s.1 = empty_key_sentinel)) as [Hes|Hes].
    - right. by exists n, s.
    - left. eapply passed_S; [done..|]. by eapply Hother. }
  destruct (Hn (S d0)) as [Hp|Hex]; [|done].
  destruct (Hp d0) as (s & Hs & Hne & _); [lia|]. rewrite Hd0, Hj in Hs. congruence.
Qed.

(** *** Counting occupied slots *)

Local Abbreviation occ := (occupied empty_key_sentinel).

Lemma occupied_app m1 m2 : occ (m1 ++ m2) = (occ m1 + occ m2)%nat.
Proof. unfold occupied. by rewrite filter_app, length_app. Qed.

Lemma occupied_insert_empty m i (s p : pair_type) :
  m !! i = Some s → s.1 = empty_key_sentinel → p.1 ≠ empty_key_sentinel →
  occ (<[i := p]> m) = S (occ m).
Proof.
  intros Hi He Hp. pose proof (lookup_lt_Some _ _ _ Hi) as Hlt.
  rewrite insert_take_drop; [|done].
  rewrite <- (take_drop_middle m i s Hi) at 3.
  rewrite !occupied_app. unfold occupied. rewrite !filter_cons.
  destruct (decide (p.1 ≠ empty_key_sentinel)); [|done].
  destruct (decide (s.1 ≠ empty_key_sentinel)); [done|]. simpl. lia.
Qed.

Lemma occupied_le m : (occ m ≤ length m)%nat.
Proof. apply length_filter. Qed.

Lemma occupied_lt_empty m :
  (occ m < length m)%nat →
  ∃ j (s : pair_type), m !! j = Some s ∧ s.1 = empty_key_sentinel.
Proof.
  unfold occupied. induction m as [|s m IH]; simpl; [lia|]. rewrite filter_cons.
  destruct (decide (s.1 ≠ empty_key_sentinel)) as [Hne|He]; simpl.
  - intros Hlt. destruct IH as (j & s' & Hj & He); [lia|]. by exists (S j), s'.
  - intros _. exists 0%nat, s. split; [done|]. by destruct (decide (s.1 = empty_key_sentinel)).
Qed.

Lemma occupied_lt_empty_inv m :
  (∃ j (s : pair_type), m !! j = Some s ∧ s.1 = empty_key_sentinel) →
  (occ m < length m)%nat.
Proof.
  unfold occupied. induction m as [|s m IH]; intros (j & s' & Hj & He);
    [by rewrite lookup_nil in Hj|].
  simpl. rewrite filter_cons.
  pose proof (length_filter (λ s : pair_type, s.1 ≠ empty_key_sentinel) m) as Hle.
  destruct (decide (s.1 ≠ empty_key_sentinel)) as [Hne|Hn]; simpl; [|lia].
  destruct j as [|j]; simpl in Hj; [injection Hj as <-; done|].
  assert (length (filter (λ s : pair_type, s.1 ≠ empty_key_sentinel) m) < length m)%nat
    by (apply IH; by exists j, s').
  lia.
Qed.

Lemma occupied_initialize n :
  occ (initialize empty_key_sentinel empty_value_sentinel n) = 0%nat.
Proof.
  unfold occupied, initialize. induction n as [|n IH]; [done|]. simpl.
  rewrite filter_cons. by destruct (decide _).
Qed.

(** *** Inserting distinct keys one after the other *)

Local Abbreviation key_equal_refl := (key_equal_refl hash key_equal functors).
Local Abbreviation sequential_insert :=
  (insert_all capacity empty_key_sentinel empty_value_sentinel hash key_equal target).

Lemma stores_initialize :
  stores (initialize empty_key_sentinel empty_value_sentinel capacity) [].
Proof.
  split; [apply initialize_inv|]. split; [apply occupied_initialize|].
  split; [constructor|]. split.
  - intros p Hp. by apply elem_of_nil in Hp.
  - intros j s Hj Hne. apply lookup_replicate in Hj as [-> _]. done.
Qed.

Lemma distinct_keys_app_cons prev (p : pair_type) rest :
  distinct_keys key_equal (prev ++ p :: rest) →
  Forall (λ q : pair_type, key_equal q.1 p.1 = false) prev.
Proof.
  induction prev as [|q prev IH]; simpl; [constructor|]. intros [Hq Hd].
  constructor; [|by apply IH].
  apply Forall_app in Hq as [_ Hq]. by inversion Hq.
Qed.

Lemma insert_fresh fuel m prev (p : pair_type) :
  stores m prev → p.1 ≠ empty_key_sentinel →
  Forall (λ q : pair_type, key_equal q.1 p.1 = false) prev →
  (length prev < capacity)%nat → (capacity < fuel)%nat →
  ∃ j, m !! j = Some (empty_key_sentinel, empty_value_sentinel) ∧
       run key_equal (insert capacity empty_key_sentinel empty_value_sentinel hash target
                        fuel p) m = Some (true, <[j := p]> m) ∧
       stores (<[j := p]> m) (prev ++ [p]).
Proof.
  intros (HI & Hocc & Hkeys & Hin & Hout) Hp Hfresh Hlen Hfuel.
  destruct (first_empty m p.1) as (d & s & Hpass & Hs & He).
  { apply HI. }
  { apply occupied_lt_empty. destruct HI as [-> _]. lia. }
  { intros j s Hj Hne. pose proof (Hout j s Hj Hne) as Hel.
    by apply (proj1 (Forall_forall _ _) Hfresh). }
  assert (Hd : (d < capacity)%nat) by (eapply passed_lt; eauto).
  assert (Hsv : s = (empty_key_sentinel, empty_value_sentinel)).
  { destruct HI as (_ & _ & Hpi). pose proof (Hpi _ _ Hs He) as Hv.
    destruct s as [sk sv]. simpl in *. by subst. }
  subst s. exists (pr p.1 d). split; [done|].
  assert (Hrun : run key_equal (insert capacity empty_key_sentinel empty_value_sentinel hash
                                  target fuel p) m = Some (true, <[pr p.1 d := p]> m)).
  { unfold insert. rewrite initial_slot_probe.
    replace fuel with (d + S (fuel - d - 1))%nat by lia.
    rewrite insert_loop_walk; [|done]. by apply insert_loop_run_empty. }
  split; [done|].
  destruct (run_safe _ _ m _ _ (insert_safe fuel m p Hp) HI Hrun) as (HI' & _ & _).
  split; [done|]. split.
  { rewrite (occupied_insert_empty m _ _ p Hs); [|done..]. rewrite length_app. simpl. lia. }
  split; [apply Forall_app; split; [done|by constructor]|]. split.
  - intros q Hq. apply elem_of_app in Hq as [Hq|Hq].
    + destruct (Hin q Hq) as [j Hj]. exists j.
      rewrite list_lookup_insert_ne; [done|]. intros <-.
      rewrite Hs in Hj. injection Hj as <-.
      by apply (proj1 (Forall_forall _ _) Hkeys _ Hq).
    + apply list_elem_of_singleton in Hq as ->. exists (pr p.1 d).
      apply list_lookup_insert_eq. by eapply lookup_lt_Some.
  - intros j s Hj Hne. destruct (decide (j = pr p.1 d)) as [->|Hjd].
    + rewrite list_lookup_insert_eq in Hj; [|by eapply lookup_lt_Some].
      injection Hj as <-. apply elem_of_app. right. by apply list_elem_of_singleton.
    + rewrite list_lookup_insert_ne in Hj; [|done]. apply elem_of_app. left.
      by eapply Hout.
Qed.

Lemma insert_all_stores fuel pairs prev m :
  stores m prev →
  Forall (λ p : pair_type, p.1 ≠ empty_key_sentinel) pairs →
  distinct_keys key_equal (prev ++ pairs) →
  (length prev + length pairs ≤ capacity)%nat → (capacity < fuel)%nat →
  ∃ m', sequential_insert fuel pairs m = Some (replicate (length pairs) true, m') ∧
        stores m' (prev ++ pairs).
Proof.
  revert prev m. induction pairs as [|p rest IH]; intros prev m Hst Hk Hd Hlen Hfuel.
  { exists m. by rewrite app_nil_r. }
  inversion Hk as [|? ? Hp Hrest]; subst. simpl in Hlen.
  destruct (insert_fresh fuel m prev p Hst Hp) as (j & Hj & Hrun & Hst');
    [by eapply distinct_keys_app_cons|lia|done|].
  destruct (IH (prev ++ [p]) (<[j := p]> m)) as (m' & Hall & Hst'');
    [done|done|by rewrite <- app_assoc|rewrite length_app; simpl; lia|done|].
  exists m'. simpl. rewrite Hrun. simpl. rewrite Hall. simpl.
  split; [done|]. by rewrite <- app_assoc in Hst''.
Qed.

(** *** Lookups *)

Lemma find_present fuel m j (k v : Z) :
  Inv m → m !! j = Some (k, v) → k ≠ empty_key_sentinel → (capacity < fuel)%nat →
  run key_equal (find capacity empty_key_sentinel hash fuel k) m = Some (j, m) ∧
  run key_equal (contains capacity empty_key_sentinel hash fuel k) m = Some (true, m).
Proof.
  intros HI Hj Hk Hfuel. destruct HI as (Hlen & Hnh & _).
  destruct (Hnh j (k, v) Hj Hk) as (d & -> & Hp). simpl in Hp, Hj.
  assert (Hd : (d < capacity)%nat).
  { eapply passed_lt; [done..|]. right. apply key_equal_refl. }
  apply Z.eqb_neq in Hk.
  unfold find, contains. rewrite initial_slot_probe.
  replace fuel with (d + S (fuel - d - 1))%nat by lia.
  rewrite find_loop_walk, contains_loop_walk; [|done..]. simpl. rewrite Hj. simpl.
  unfold bitwise_compare. rewrite Hk. simpl. by rewrite key_equal_refl.
Qed.

Lemma find_absent fuel m k :
  Inv m →
  (∃ j (s : pair_type), m !! j = Some s ∧ s.1 = empty_key_sentinel) →
  (∀ j (s : pair_type), m !! j = Some s → s.1 ≠ empty_key_sentinel →
     key_equal s.1 k = false) →
  (capacity < fuel)%nat →
  run key_equal (find capacity empty_key_sentinel hash fuel k) m = Some (end_ capacity, m) ∧
  run key_equal (contains capacity empty_key_sentinel hash fuel k) m = Some (false, m).
Proof.
  intros HI Hemp Hother Hfuel.
  destruct (first_empty m k) as (d & s & Hp & Hs & He); [apply HI|done..|].
  assert (Hd : (d < capacity)%nat) by (eapply passed_lt; eauto).
  unfold find, contains. rewrite initial_slot_probe.
  replace fuel with (d + S (fuel - d - 1))%nat by lia.
  rewrite find_loop_walk, contains_loop_walk; [|done..]. simpl. rewrite Hs. simpl.
  unfold bitwise_compare. rewrite He, Z.eqb_refl. done.
Qed.

(** Without an empty slot a lookup of an absent key does not return. *)
Lemma find_full_diverges fuel m k :
  length m = capacity →
  (∀ j (s : pair_type), m !! j = Some s →
     s.1 ≠ empty_key_sentinel ∧ key_equal s.1 k = false) →
  run key_equal (find capacity empty_key_sentinel hash fuel k) m = None ∧
  run key_equal (contains capacity empty_key_sentinel hash fuel k) m = None.
Proof.
  intros Hlen Hfull.
  assert (Hp : passed m k (0 + fuel)).
  { intros i _. destruct (lookup_lt_is_Some_2 m (pr k i)) as [s Hs];
      [rewrite Hlen; apply probe_lt|].
    exists s. split; [done|]. by eapply Hfull. }
  unfold find, contains. rewrite initial_slot_probe.
  pose proof (find_loop_walk m k fuel 0 0 Hp) as Hf.
  pose proof (contains_loop_walk m k fuel 0 0 Hp) as Hc.
  rewrite Nat.add_0_r in Hf, Hc. by rewrite Hf, Hc.
Qed.

(** *** Where a probe sequence ends *)

Local Abbreviation key_equal_trans := (key_equal_trans hash key_equal functors).
Local Abbreviation present := (present empty_key_sentinel key_equal).
Local Abbreviation absent := (absent empty_key_sentinel key_equal).
Local Abbreviation hit := (hit capacity empty_key_sentinel hash key_equal).
Local Abbreviation miss := (miss capacity empty_key_sentinel hash key_equal).
Local Abbreviation keys_at := (keys_at empty_key_sentinel).

Lemma present_closed k : closed (λ m, present m k).
Proof.
  intros m m' (j & s & Hs & Hne & Hk) [_ Hst].
  destruct (Hst j s Hs Hne) as (s' & Hs' & He). exists j, s'. rewrite He. done.
Qed.

Lemma key_equal_false_equal a k k' :
  key_equal k k' = true → key_equal a k = false → key_equal a k' = false.
Proof.
  intros Hkk Ha. destruct (key_equal a k') eqn:Ha'; [|done].
  rewrite <- Ha. symmetry. apply (key_equal_trans a k' k); [done|].
  by rewrite key_equal_sym.
Qed.

Lemma passed_equal m k k' d : key_equal k k' = true → passed m k d → passed m k' d.
Proof.
  intros Heq Hp i Hi. destruct (Hp i Hi) as (s & Hs & Hne & Hk). exists s.
  unfold probe in *. rewrite <- (key_equal_hash _ _ Heq).
  split; [done|]. split; [done|]. by eapply key_equal_false_equal.
Qed.

Lemma present_hit m k : Inv m → present m k → ∃ d, (d < capacity)%nat ∧ hit m k d.
Proof.
  intros (Hlen & Hnh & _) (j & s & Hs & Hne & Hk).
  destruct (Hnh j s Hs Hne) as (d & -> & Hp).
  assert (Hpk : passed m k d) by (by eapply passed_equal).
  assert (Hpr : pr s.1 d = pr k d) by (unfold probe; by rewrite (key_equal_hash _ _ Hk)).
  rewrite Hpr in Hs. exists d. split.
  - eapply passed_lt; [exact Hpk|exact Hs|by right].
  - split; [done|]. by exists s.
Qed.

Lemma hit_present m k d : hit m k d → present m k.
Proof. intros [_ (s & Hs & Hne & Hk)]. by exists (pr k d), s. Qed.

Lemma miss_absent m k d : Inv m → miss m k d → absent m k.
Proof.
  intros HI [Hp (s0 & Hs0 & He0)] j s Hs Hne.
  destruct (key_equal s.1 k) eqn:Hk; [|done].
  destruct (present_hit m k HI) as (d' & Hd' & Hp' & s' & Hs' & Hne' & Hk');
    [by exists j, s|].
  destruct (lt_eq_lt_dec d d') as [[Hlt| ->]|Hlt].
  - destruct (Hp' d Hlt) as (s1 & Hs1 & Hne1 & _). rewrite Hs0 in Hs1.
    injection Hs1 as <-. done.
  - rewrite Hs0 in Hs'. injection Hs' as <-. done.
  - destruct (Hp d' Hlt) as (s1 & Hs1 & _ & Hk1). rewrite Hs' in Hs1.
    injection Hs1 as <-. congruence.
Qed.

Lemma absent_miss m k :
  length m = capacity → absent m k →
  (∃ j (s : pair_type), m !! j = Some s ∧ s.1 = empty_key_sentinel) →
  ∃ d, (d < capacity)%nat ∧ miss m k d.
Proof.
  intros Hlen Hab Hemp.
  destruct (first_empty m k Hlen Hemp Hab) as (d & s & Hp & Hs & He).
  exists d. split; [eapply passed_lt; eauto|]. split; [done|]. by exists s.
Qed.

Lemma present_or_absent m k : present m k ∨ absent m k.
Proof.
  induction m as [|s m IH].
  { right. intros j s Hs. by rewrite lookup_nil in Hs. }
  destruct IH as [(j & s' & Hs' & Hne & Hk)|Hab]; [left; by exists (S j), s'|].
  destruct (decide (s.1 = empty_key_sentinel)) as [He|He];
    [|destruct (key_equal s.1 k) eqn:Hk].
  - right. intros [|j] s' Hs' Hne'; simpl in Hs'; [by injection Hs' as <-|by eapply Hab].
  - left. by exists 0%nat, s.
  - right. intros [|j] s' Hs' Hne'; simpl in Hs'; [by injection Hs' as <-|by eapply Hab].
Qed.

Lemma absent_full_passed m k n :
  length m = capacity → absent m k →
  (∀ j (s : pair_type), m !! j = Some s → s.1 ≠ empty_key_sentinel) → passed m k n.
Proof.
  intros Hlen Hab Hfull i _.
  destruct (lookup_lt_is_Some_2 m (pr k i)) as [s Hs]; [rewrite Hlen; apply probe_lt|].
  exists s. split; [done|]. split; [by eapply Hfull|]. eapply Hab; [done|by eapply Hfull].
Qed.

(** A key is in the array, or its probe sequence ends at an empty slot,
    or the array is full of other keys. *)
Lemma probe_outcome m k :
  Inv m →
  (∃ d, (d < capacity)%nat ∧ hit m k d) ∨
  (∃ d, (d < capacity)%nat ∧ miss m k d) ∨
  (∀ n, passed m k n).
Proof.
  intros HI. destruct (present_or_absent m k) as [Hpr|Hab]; [left; by apply present_hit|].
  right. destruct (decide (occ m < length m)%nat) as [Hlt|Hge].
  - left. apply absent_miss; [apply HI|done|by apply occupied_lt_empty].
  - right. intros n. apply absent_full_passed; [apply HI|done|].
    intros j s Hs He. apply Hge. apply occupied_lt_empty_inv. by exists j, s.
Qed.

(** *** What a worker that runs alone returns *)

Local Abbreviation insert_alone fuel p :=
  (run key_equal (insert capacity empty_key_sentinel empty_value_sentinel hash target fuel p)).
Local Abbreviation find_alone fuel k :=
  (run key_equal (find capacity empty_key_sentinel hash fuel k)).
Local Abbreviation contains_alone fuel k :=
  (run key_equal (contains capacity empty_key_sentinel hash fuel k)).

Lemma scalar_hit fuel m k d v :
  hit m k d → (d < fuel)%nat →
  find_alone fuel k m = Some (pr k d, m) ∧
  contains_alone fuel k m = Some (true, m) ∧
  insert_alone fuel (k, v) m = Some (false, m).
Proof.
  intros [Hp (s & Hs & Hne & Hk)] Hfuel.
  unfold find, contains, insert. cbn [fst]. rewrite !initial_slot_probe.
  replace fuel with (d + S (fuel - d - 1))%nat by lia.
  pose proof (insert_loop_walk m (k, v) d 0 (S (fuel - d - 1)) Hp) as Hi.
  cbn [fst] in Hi. rewrite find_loop_walk, contains_loop_walk, Hi; [|done..].
  rewrite (insert_loop_run_duplicate _ m (k, v) s); [|done..].
  simpl. rewrite Hs. simpl. unfold bitwise_compare.
  apply Z.eqb_neq in Hne. rewrite Hne. simpl. by rewrite Hk.
Qed.

Lemma scalar_miss fuel m k d v :
  Inv m → miss m k d → (d < fuel)%nat →
  find_alone fuel k m = Some (end_ capacity, m) ∧
  contains_alone fuel k m = Some (false, m) ∧
  insert_alone fuel (k, v) m = Some (true, <[pr k d := (k, v)]> m).
Proof.
  intros HI [Hp (s & Hs & He)] Hfuel.
  assert (Hsv : s = (empty_key_sentinel, empty_value_sentinel)).
  { destruct HI as (_ & _ & Hpi). pose proof (Hpi _ _ Hs He) as Hv.
    destruct s as [sk sv]. simpl in *. by subst. }
  subst s.
  unfold find, contains, insert. cbn [fst]. rewrite !initial_slot_probe.
  replace fuel with (d + S (fuel - d - 1))%nat by lia.
  pose proof (insert_loop_walk m (k, v) d 0 (S (fuel - d - 1)) Hp) as Hi.
  cbn [fst] in Hi. rewrite find_loop_walk, contains_loop_walk, Hi; [|done..].
  rewrite (insert_loop_run_empty _ m (k, v)); [|done].
  simpl. rewrite Hs. simpl. unfold bitwise_compare. by rewrite Z.eqb_refl.
Qed.

Lemma scalar_full fuel m k v :
  passed m k fuel →
  find_alone fuel k m = None ∧ contains_alone fuel k m = None ∧
  insert_alone fuel (k, v) m = None.
Proof.
  intros Hp. unfold find, contains, insert. cbn [fst]. rewrite !initial_slot_probe.
  pose proof (find_loop_walk m k fuel 0 0 Hp) as Hf.
  pose proof (contains_loop_walk m k fuel 0 0 Hp) as Hc.
  pose proof (insert_loop_walk m (k, v) fuel 0 0 Hp) as Hi.
  cbn [fst] in Hi. rewrite Nat.add_0_r in Hf, Hc, Hi. by rewrite Hf, Hc, Hi.
Qed.

(** *** The same for a group *)

Lemma lanes_load_run m current_slot :
  Forall (λ s, (s < length m)%nat) current_slot →
  run key_equal (lanes_load current_slot) m = Some (keys_at m current_slot, m).
Proof.
  induction 1 as [|s rest Hs _ IH]; [done|]. simpl.
  destruct (lookup_lt_is_Some_2 m s Hs) as [sl Hsl]. rewrite Hsl. simpl.
  unfold mbind, prog_mbind. rewrite run_bind, IH. done.
Qed.

Lemma lanes_match_run m existing_key k :
  run key_equal (lanes_match empty_key_sentinel existing_key k) m =
  Some (map (lane_matches k) existing_key, m).
Proof.
  induction existing_key as [|e rest IH]; [done|]. simpl.
  unfold lane_matches at 1. destruct (negb (bitwise_compare e empty_key_sentinel)); simpl;
    unfold mbind, prog_mbind; rewrite run_bind, IH; done.
Qed.

Lemma window_in_array cg_size k w (m : mem) :
  length m = capacity → Forall (λ s, (s < length m)%nat) (window cg_size k w).
Proof. intros ->. apply window_in_range. Qed.

Lemma keys_at_window m cg_size k w r (s : pair_type) :
  (r < cg_size)%nat → m !! pr k (w * cg_size + r) = Some s →
  keys_at m (window cg_size k w) !! r = Some s.1.
Proof.
  intros Hr Hs. unfold keys_at. rewrite list_lookup_fmap, window_lookup; [|done].
  simpl. by rewrite Hs.
Qed.

(** The lanes of a window over passed slots see neither the key nor an
    empty slot. *)
Lemma window_passed m cg_size k w r r' :
  passed m k (w * cg_size + r) → (r ≤ cg_size)%nat → (r' < r)%nat →
  map (lane_matches k) (keys_at m (window cg_size k w)) !! r' = Some false ∧
  map is_empty (keys_at m (window cg_size k w)) !! r' = Some false.
Proof.
  intros Hp Hr Hr'. destruct (Hp (w * cg_size + r')%nat) as (s & Hs & Hne & Hk); [lia|].
  rewrite !list_lookup_fmap, (keys_at_window m cg_size k w r' s); [|lia|done]. simpl.
  unfold lane_matches, bitwise_compare. apply Z.eqb_neq in Hne. rewrite Hne, Hk. done.
Qed.

Lemma all_false (pred : list bool) :
  (∀ r, (r < length pred)%nat → pred !! r = Some false) →
  g_ballot pred = 0 ∧ g_any pred = false.
Proof.
  induction pred as [|b rest IH]; intros H; [done|].
  pose proof (H 0%nat ltac:(simpl; lia)) as H0. injection H0 as ->.
  destruct IH as [Hb Ha]; [intros r Hr; apply (H (S r)); simpl; lia|].
  simpl. unfold g_any in *. simpl. by rewrite Hb, Ha.
Qed.

Lemma first_lane (pred : list bool) r0 :
  (length pred ≤ 32)%nat → pred !! r0 = Some true →
  (∀ r', (r' < r0)%nat → pred !! r' = Some false) →
  (g_ballot pred =? 0) = false ∧ Z.to_nat (ffs (g_ballot pred) - 1) = r0 ∧
  g_any pred = true.
Proof.
  intros Hlen Hr0 Hlow.
  assert (Hne : g_ballot pred ≠ 0).
  { intros H0. by pose proof (g_ballot_zero pred H0 r0 true Hr0). }
  split; [by apply Z.eqb_neq|].
  destruct (ffs_ballot pred Hlen Hne) as (r & -> & Hr & Hlow'). split.
  - destruct (lt_eq_lt_dec r r0) as [[Hlt|Heq]|Hlt]; [|done|].
    + rewrite (Hlow r Hlt) in Hr. done.
    + rewrite (Hlow' r0 Hlt) in Hr0. done.
  - unfold g_any. apply existsb_exists. exists true. split; [|done].
    apply list_elem_of_In. by eapply list_elem_of_lookup_2.
Qed.

Lemma window_pass_lanes m cg_size k w :
  passed m k (S w * cg_size) →
  g_ballot (map (lane_matches k) (keys_at m (window cg_size k w))) = 0 ∧
  g_any (map (lane_matches k) (keys_at m (window cg_size k w))) = false ∧
  g_ballot (map is_empty (keys_at m (window cg_size k w))) = 0.
Proof.
  intros Hp.
  assert (Hp' : passed m k (w * cg_size + cg_size))
    by (by replace (w * cg_size + cg_size)%nat with (S w * cg_size)%nat by lia).
  assert (Hlen : length (keys_at m (window cg_size k w)) = cg_size)
    by (unfold keys_at; by rewrite length_map, window_length).
  destruct (all_false (map (lane_matches k) (keys_at m (window cg_size k w)))) as [H1 H2].
  { intros r Hr. rewrite length_map, Hlen in Hr.
    by apply (window_passed m cg_size k w cg_size r). }
  destruct (all_false (map is_empty (keys_at m (window cg_size k w)))) as [H3 _].
  { intros r Hr. rewrite length_map, Hlen in Hr.
    by apply (window_passed m cg_size k w cg_size r). }
  done.
Qed.

Local Abbreviation insert_cg_alone fuel cg_size p :=
  (run key_equal
     (insert_cg capacity empty_key_sentinel empty_value_sentinel hash target fuel cg_size p)).
Local Abbreviation find_cg_alone fuel cg_size k :=
  (run key_equal (find_cg capacity empty_key_sentinel hash fuel cg_size k)).
Local Abbreviation contains_cg_alone fuel cg_size k :=
  (run key_equal (contains_cg capacity empty_key_sentinel hash fuel cg_size k)).

(** One round of each group loop, by what the lanes have loaded. *)
Lemma find_cg_loop_round fuel cg_size k w m :
  length m = capacity →
  run key_equal (find_cg_loop capacity empty_key_sentinel (S fuel) cg_size k
                   (window cg_size k w)) m =
  let found := map (lane_matches k) (keys_at m (window cg_size k w)) in
  if negb (g_ballot found =? 0)
  then Some (default (end_ capacity)
               (window cg_size k w !! Z.to_nat (ffs (g_ballot found) - 1)), m)
  else if negb (g_ballot (map is_empty (keys_at m (window cg_size k w))) =? 0)
  then Some (end_ capacity, m)
  else run key_equal (find_cg_loop capacity empty_key_sentinel fuel cg_size k
                        (window cg_size k (S w))) m.
Proof.
  intros Hlen. simpl. unfold mbind, prog_mbind.
  rewrite run_bind, lanes_load_run; [|by apply window_in_array].
  rewrite run_bind, lanes_match_run.
  destruct (negb _); [done|]. destruct (negb _); [done|]. by rewrite next_window_eq.
Qed.

Lemma contains_cg_loop_round fuel cg_size k w m :
  length m = capacity →
  run key_equal (contains_cg_loop capacity empty_key_sentinel (S fuel) cg_size k
                   (window cg_size k w)) m =
  if negb (g_ballot (map (lane_matches k) (keys_at m (window cg_size k w))) =? 0)
  then Some (true, m)
  else if negb (g_ballot (map is_empty (keys_at m (window cg_size k w))) =? 0)
  then Some (false, m)
  else run key_equal (contains_cg_loop capacity empty_key_sentinel fuel cg_size k
                        (window cg_size k (S w))) m.
Proof.
  intros Hlen. simpl. unfold mbind, prog_mbind.
  rewrite run_bind, lanes_load_run; [|by apply window_in_array].
  rewrite run_bind, lanes_match_run.
  destruct (negb _); [done|]. destruct (negb _); [done|]. by rewrite next_window_eq.
Qed.

Lemma insert_cg_loop_round fuel cg_size (p : pair_type) w m :
  length m = capacity →
  run key_equal (insert_cg_loop capacity empty_key_sentinel empty_value_sentinel target
                   (S fuel) cg_size p (window cg_size p.1 w)) m =
  if g_any (map (lane_matches p.1) (keys_at m (window cg_size p.1 w)))
  then Some (false, m)
  else if negb (g_ballot (map is_empty (keys_at m (window cg_size p.1 w))) =? 0)
  then
    match run key_equal
            (match window cg_size p.1 w !!
                     Z.to_nat (ffs (g_ballot (map is_empty
                                                (keys_at m (window cg_size p.1 w)))) - 1)
             with
             | Some s => slot_protocol empty_key_sentinel empty_value_sentinel target fuel s p
             | None => mret CONTINUE
             end) m with
    | Some (SUCCESS, m') => Some (true, m')
    | Some (DUPLICATE, m') => Some (false, m')
    | Some (CONTINUE, m') =>
        run key_equal (insert_cg_loop capacity empty_key_sentinel empty_value_sentinel
                         target fuel cg_size p (window cg_size p.1 w)) m'
    | None => None
    end
  else run key_equal (insert_cg_loop capacity empty_key_sentinel empty_value_sentinel target
                        fuel cg_size p (window cg_size p.1 (S w))) m.
Proof.
  intros Hlen. simpl. unfold mbind, prog_mbind.
  rewrite run_bind, lanes_load_run; [|by apply window_in_array].
  rewrite run_bind, lanes_match_run.
  destruct (g_any _); [done|]. destruct (negb _); [|by rewrite next_window_eq].
  rewrite run_bind. destruct (run key_equal _ m) as [[[| |] m']|]; done.
Qed.

(** A group walks over the windows of passed slots. *)
Lemma cg_loops_walk m k v cg_size n w fuel :
  length m = capacity → passed m k ((w + n) * cg_size) →
  run key_equal (find_cg_loop capacity empty_key_sentinel (n + fuel) cg_size k
                   (window cg_size k w)) m =
  run key_equal (find_cg_loop capacity empty_key_sentinel fuel cg_size k
                   (window cg_size k (w + n))) m ∧
  run key_equal (contains_cg_loop capacity empty_key_sentinel (n + fuel) cg_size k
                   (window cg_size k w)) m =
  run key_equal (contains_cg_loop capacity empty_key_sentinel fuel cg_size k
                   (window cg_size k (w + n))) m ∧
  run key_equal (insert_cg_loop capacity empty_key_sentinel empty_value_sentinel target
                   (n + fuel) cg_size (k, v) (window cg_size k w)) m =
  run key_equal (insert_cg_loop capacity empty_key_sentinel empty_value_sentinel target
                   fuel cg_size (k, v) (window cg_size k (w + n))) m.
Proof.
  intros Hlen. revert w. induction n as [|n IH]; intros w Hp;
    [by rewrite Nat.add_0_r|].
  destruct (window_pass_lanes m cg_size k w) as (Hf & Ha & He).
  { eapply passed_le; [exact Hp|]. nia. }
  replace (w + S n)%nat with (S w + n)%nat in * by lia.
  destruct (IH (S w) Hp) as (IHf & IHc & IHi).
  change (S n + fuel)%nat with (S (n + fuel)).
  rewrite find_cg_loop_round, contains_cg_loop_round; [|done..].
  pose proof (insert_cg_loop_round (n + fuel) cg_size (k, v) w m Hlen) as Hi.
  cbn [fst] in Hi. rewrite Hi. cbn zeta. rewrite Hf, Ha, He. simpl. done.
Qed.

(** The window in which a probe sequence ends. *)
Lemma cg_hit fuel cg_size m k d v :
  length m = capacity → (1 ≤ cg_size ≤ 32)%nat → hit m k d → (d < fuel)%nat →
  find_cg_alone fuel cg_size k m = Some (pr k d, m) ∧
  contains_cg_alone fuel cg_size k m = Some (true, m) ∧
  insert_cg_alone fuel cg_size (k, v) m = Some (false, m).
Proof.
  intros Hlen Hcg [Hp (s & Hs & Hne & Hk)] Hfuel.
  pose (w := (d `div` cg_size)%nat). pose (r := (d `mod` cg_size)%nat).
  assert (Hd : d = (w * cg_size + r)%nat).
  { subst w r. rewrite (Nat.div_mod_eq d cg_size) at 1. lia. }
  assert (Hr : (r < cg_size)%nat) by (apply Nat.mod_upper_bound; lia).
  assert (Hw : (w ≤ d)%nat) by nia.
  destruct (cg_loops_walk m k v cg_size w 0 (S (fuel - w - 1)) Hlen) as (Hf & Hc & Hi).
  { eapply passed_le; [exact Hp|]. simpl. lia. }
  unfold find_cg, contains_cg, insert_cg. cbn [fst]. rewrite !initial_window_eq.
  replace fuel with (w + S (fuel - w - 1))%nat by lia.
  rewrite Hf, Hc, Hi. simpl plus.
  rewrite find_cg_loop_round, contains_cg_loop_round; [|done..].
  pose proof (insert_cg_loop_round (fuel - w - 1) cg_size (k, v) w m Hlen) as Hround.
  cbn [fst] in Hround. rewrite Hround. cbn zeta.
  destruct (first_lane (map (lane_matches k) (keys_at m (window cg_size k w))) r)
    as (Hb & Hffs & Hany).
  - unfold keys_at. rewrite !length_map, window_length. lia.
  - rewrite list_lookup_fmap, (keys_at_window m cg_size k w r s); [|done|by rewrite <- Hd].
    simpl. unfold lane_matches, bitwise_compare. apply Z.eqb_neq in Hne.
    by rewrite Hne, Hk.
  - intros r' Hr'. apply (window_passed m cg_size k w r r'); [by rewrite <- Hd|lia|done].
  - rewrite Hb, Hffs, Hany, window_lookup; [|done]. simpl. by rewrite <- Hd.
Qed.

Lemma cg_miss fuel cg_size m k d v :
  Inv m → (1 ≤ cg_size ≤ 32)%nat → miss m k d → (d < fuel)%nat →
  find_cg_alone fuel cg_size k m = Some (end_ capacity, m) ∧
  contains_cg_alone fuel cg_size k m = Some (false, m) ∧
  insert_cg_alone fuel cg_size (k, v) m = Some (true, <[pr k d := (k, v)]> m).
Proof.
  intros HI Hcg Hmiss Hfuel. pose proof (miss_absent m k d HI Hmiss) as Hab.
  destruct Hmiss as [Hp (s & Hs & He)].
  assert (Hlen : length m = capacity) by apply HI.
  assert (Hsv : s = (empty_key_sentinel, empty_value_sentinel)).
  { destruct HI as (_ & _ & Hpi). pose proof (Hpi _ _ Hs He) as Hv.
    destruct s as [sk sv]. simpl in *. by subst. }
  subst s.
  pose (w := (d `div` cg_size)%nat). pose (r := (d `mod` cg_size)%nat).
  assert (Hd : d = (w * cg_size + r)%nat).
  { subst w r. rewrite (Nat.div_mod_eq d cg_size) at 1. lia. }
  assert (Hr : (r < cg_size)%nat) by (apply Nat.mod_upper_bound; lia).
  assert (Hw : (w ≤ d)%nat) by nia.
  destruct (cg_loops_walk m k v cg_size w 0 (S (fuel - w - 1)) Hlen) as (Hf & Hc & Hi).
  { eapply passed_le; [exact Hp|]. simpl. lia. }
  unfold find_cg, contains_cg, insert_cg. cbn [fst]. rewrite !initial_window_eq.
  replace fuel with (w + S (fuel - w - 1))%nat by lia.
  rewrite Hf, Hc, Hi. simpl plus.
  rewrite find_cg_loop_round, contains_cg_loop_round; [|done..].
  pose proof (insert_cg_loop_round (fuel - w - 1) cg_size (k, v) w m Hlen) as Hround.
  cbn [fst] in Hround. rewrite Hround. cbn zeta.
  assert (Hklen : length (keys_at m (window cg_size k w)) = cg_size)
    by (unfold keys_at; by rewrite length_map, window_length).
  destruct (all_false (map (lane_matches k) (keys_at m (window cg_size k w))))
    as [Hfb Hfa].
  { intros r' Hr'. rewrite length_map, Hklen in Hr'.
    destruct (lookup_lt_is_Some_2 m (pr k (w * cg_size + r'))) as [s' Hs'];
      [rewrite Hlen; apply probe_lt|].
    rewrite list_lookup_fmap, (keys_at_window m cg_size k w r' s'); [|done..]. simpl.
    unfold lane_matches, bitwise_compare.
    destruct (Z.eqb_spec s'.1 empty_key_sentinel) as [Hes|Hes]; [done|]. simpl.
    by rewrite (Hab _ _ Hs' Hes). }
  destruct (first_lane (map is_empty (keys_at m (window cg_size k w))) r)
    as (Hb & Hffs & _).
  - rewrite length_map, Hklen. lia.
  - rewrite list_lookup_fmap,
      (keys_at_window m cg_size k w r (empty_key_sentinel, empty_value_sentinel));
      [|done|by rewrite <- Hd].
    simpl. unfold bitwise_compare. by rewrite Z.eqb_refl.
  - intros r' Hr'. apply (window_passed m cg_size k w r r'); [by rewrite <- Hd|lia|done].
  - rewrite Hfb, Hfa, Hb, Hffs. change (negb (0 =? 0)) with false. cbn iota.
    rewrite window_lookup; [|done]. simpl negb. cbn iota. rewrite <- Hd.
    by rewrite slot_protocol_run_empty.
Qed.

Lemma cg_full fuel cg_size m k v :
  length m = capacity → passed m k (fuel * cg_size) →
  find_cg_alone fuel cg_size k m = None ∧ contains_cg_alone fuel cg_size k m = None ∧
  insert_cg_alone fuel cg_size (k, v) m = None.
Proof.
  intros Hlen Hp.
  destruct (cg_loops_walk m k v cg_size fuel 0 0 Hlen Hp) as (Hf & Hc & Hi).
  unfold find_cg, contains_cg, insert_cg. cbn [fst]. rewrite !initial_window_eq.
  rewrite Nat.add_0_r in Hf, Hc, Hi. by rewrite Hf, Hc, Hi.
Qed.

(** A group and a single thread compute the same. *)
Lemma cg_agrees fuel cg_size m k v :
  Inv m → (1 ≤ cg_size ≤ 32)%nat → (capacity < fuel)%nat →
  find_cg_alone fuel cg_size k m = find_alone fuel k m ∧
  contains_cg_alone fuel cg_size k m = contains_alone fuel k m ∧
  insert_cg_alone fuel cg_size (k, v) m = insert_alone fuel (k, v) m.
Proof.
  intros HI Hcg Hfuel. assert (Hlen : length m = capacity) by apply HI.
  destruct (probe_outcome m k HI) as [(d & Hd & Hh)|[(d & Hd & Hm)|Hfull]].
  - destruct (cg_hit fuel cg_size m k d v Hlen Hcg Hh) as (-> & -> & ->); [lia|].
    destruct (scalar_hit fuel m k d v Hh) as (-> & -> & ->); [lia|]. done.
  - destruct (cg_miss fuel cg_size m k d v HI Hcg Hm) as (-> & -> & ->); [lia|].
    destruct (scalar_miss fuel m k d v HI Hm) as (-> & -> & ->); [lia|]. done.
  - destruct (cg_full fuel cg_size m k v Hlen (Hfull _)) as (-> & -> & ->).
    destruct (scalar_full fuel m k v (Hfull _)) as (-> & -> & ->). done.
Qed.

(** *** A worker that returns leaves its key in the array *)

Local Abbreviation sys_inv_post :=
  (sys_inv_post capacity empty_key_sentinel empty_value_sentinel hash key_equal).

Local Abbreviation settled kk d :=
  (λ (r : insert_result) (m' : mem),
     match r with CONTINUE => passed m' kk (S d) | _ => present m' kk end).

Lemma slot_present m i kk (s : pair_type) :
  m !! i = Some s → s.1 ≠ empty_key_sentinel → key_equal s.1 kk = true → present m kk.
Proof. intros Hs Hne Hk. by exists i, s. Qed.

Lemma duplicate_check_settled m i kk d (s : pair_type) :
  kk ≠ empty_key_sentinel → passed m kk d → i = pr kk d →
  m !! i = Some s → s.1 ≠ empty_key_sentinel →
  safe (eq ← call (KeyEqual kk s.1);
         if eq : bool then mret DUPLICATE else mret CONTINUE) (settled kk d) m.
Proof.
  intros Hkk Hp Hi Hs Hne. apply tsafe_key_equal; [done..|].
  intros m' Hst HI.
  destruct (key_slot_closed i s.1 Hne m m') as (s' & Hs' & He'); [by exists s|done|].
  destruct (key_equal kk s.1) eqn:Heq; apply tsafe_ret.
  - apply (slot_present m' i kk s'); [done|congruence|]. by rewrite He', key_equal_sym.
  - eapply passed_S; [by eapply passed_closed|by subst i|congruence|].
    rewrite He', key_equal_sym. done.
Qed.

Lemma packed_cas_settled m kk vv d :
  kk ≠ empty_key_sentinel → passed m kk d →
  safe (packed_cas empty_key_sentinel empty_value_sentinel (pr kk d) (kk, vv))
    (settled kk d) m.
Proof.
  intros Hkk Hp. unfold packed_cas.
  eapply (tsafe_pair_cas _ kk vv d); [done..| |].
  - intros m' Hst HI Hs. apply tsafe_ret.
    apply (slot_present m' (pr kk d) kk (kk, vv)); [done..|]. apply key_equal_refl.
  - intros m' s Hst HI Hs Hne.
    apply (duplicate_check_settled m' (pr kk d) kk d s); try done.
    by eapply passed_closed.
Qed.

Lemma cas_dependent_write_settled m kk vv d :
  kk ≠ empty_key_sentinel → passed m kk d →
  safe (cas_dependent_write empty_key_sentinel (pr kk d) (kk, vv)) (settled kk d) m.
Proof.
  intros Hkk Hp. unfold cas_dependent_write.
  eapply (tsafe_key_cas _ kk d); [done..| |].
  - intros m' s Hst HI Hs Hk.
    apply (tsafe_value_store _ kk); [done|by exists s|]. intros m'' Hst' HI'.
    apply tsafe_ret. eapply present_closed; [|exact Hst'].
    apply (slot_present m' (pr kk d) kk s); [done|congruence|].
    rewrite Hk. apply key_equal_refl.
  - intros m' s Hst HI Hs Hne.
    apply (duplicate_check_settled m' (pr kk d) kk d s); try done.
    by eapply passed_closed.
Qed.

Lemma back_to_back_cas_settled fuel m kk vv d :
  kk ≠ empty_key_sentinel → passed m kk d →
  safe (back_to_back_cas empty_key_sentinel empty_value_sentinel fuel (pr kk d) (kk, vv))
    (settled kk d) m.
Proof.
  intros Hkk Hp. unfold back_to_back_cas.
  eapply (tsafe_key_cas _ kk d); [done..| |].
  - intros m' s Hst HI Hs Hk.
    apply (tsafe_value_cas _ kk); [done|by exists s|].
    intros m'' [value_success obs] Hst' HI'.
    assert (Hpres : present m'' kk).
    { eapply present_closed; [|exact Hst'].
      apply (slot_present m' (pr kk d) kk s); [done|congruence|].
      rewrite Hk. apply key_equal_refl. }
    apply (tsafe_bind (value_cas_loop _ _ _ _ _)).
    eapply tsafe_conseq;
      [|apply (tsafe_frame _ (λ _ _, True) (λ m, present m kk));
        [apply present_closed|exact Hpres|apply (value_cas_loop_safe _ _ _ kk); [done|]]].
    + intros [] m3 [_ H3]. by apply tsafe_ret.
    + eapply (key_slot_closed _ kk); [done| |done]. by exists s.
  - intros m' s Hst HI Hs Hne.
    apply (tsafe_value_cas _ s.1); [done|by exists s|].
    intros m'' [value_success obs] Hst' HI'.
    destruct (key_slot_closed (pr kk d) s.1 Hne m' m'') as (s' & Hs' & He');
      [by exists s|done|].
    assert (Hdup : ∀ m3, stable m'' m3 → Inv m3 →
              safe (eq ← call (KeyEqual kk s.1);
                     if eq : bool then mret DUPLICATE else mret CONTINUE)
                (settled kk d) m3).
    { intros m3 Hst3 HI3.
      destruct (key_slot_closed (pr kk d) s.1 Hne m'' m3) as (s3 & Hs3 & He3);
        [by exists s'|done|].
      rewrite <- He3.
      apply (duplicate_check_settled m3 (pr kk d) kk d s3); try done; [|congruence].
      eapply passed_closed; [exact Hp|].
      eapply stable_trans; [exact Hst|]. by eapply stable_trans. }
    destruct value_success; simpl.
    + apply (tsafe_value_store _ s.1); [done|by exists s'|]. apply Hdup.
    + apply Hdup; [apply stable_refl|done].
Qed.

Lemma slot_protocol_settled fuel m kk vv d :
  kk ≠ empty_key_sentinel → passed m kk d →
  safe (slot_protocol empty_key_sentinel empty_value_sentinel target fuel (pr kk d) (kk, vv))
    (settled kk d) m.
Proof.
  intros Hkk Hp. unfold slot_protocol.
  destruct (is_packable target); [by apply packed_cas_settled|].
  destruct (cuda_arch target <? 700)%nat;
    [by apply cas_dependent_write_settled|by apply back_to_back_cas_settled].
Qed.

Lemma insert_loop_settled fuel m kk vv d :
  kk ≠ empty_key_sentinel → passed m kk d →
  safe (insert_loop capacity empty_key_sentinel empty_value_sentinel target fuel
           (kk, vv) (pr kk d)) (λ _ m', present m' kk) m.
Proof.
  intros Hkk. revert m d. induction fuel as [|fuel IH]; intros m d Hp; [done|].
  simpl. apply tsafe_key_load; [apply probe_lt|].
  intros m' s Hst HI Hs. unfold bitwise_compare.
  assert (Hp' : passed m' kk d) by (by eapply passed_closed).
  destruct (Z.eqb_spec s.1 empty_key_sentinel) as [He|He]; simpl.
  - apply (tsafe_bind (slot_protocol _ _ _ _ _ _)).
    eapply tsafe_conseq; [|by apply slot_protocol_settled].
    intros [| |] m'' Hpost; simpl; [|by apply tsafe_ret..].
    rewrite next_slot_probe. by apply IH.
  - apply tsafe_key_equal; [done..|]. intros m'' Hst' HI'.
    destruct (key_slot_closed (pr kk d) s.1 He m' m'') as (s' & Hs' & He');
      [by exists s|done|].
    destruct (key_equal s.1 kk) eqn:Heq; simpl.
    + apply tsafe_ret. apply (slot_present m'' (pr kk d) kk s'); [done|congruence|].
      by rewrite He'.
    + rewrite next_slot_probe. apply IH.
      eapply passed_S; [by eapply passed_closed|done|congruence|congruence].
Qed.

Lemma g_any_true (pred : list bool) : g_any pred = true → ∃ r, pred !! r = Some true.
Proof.
  unfold g_any. induction pred as [|b rest IH]; simpl; [done|].
  destruct b; [by exists 0%nat|]. simpl. intros H. destruct (IH H) as [r Hr].
  by exists (S r).
Qed.

Lemma insert_cg_loop_settled fuel cg_size m kk vv w :
  (cg_size ≤ 32)%nat → kk ≠ empty_key_sentinel → passed m kk (w * cg_size) →
  safe (insert_cg_loop capacity empty_key_sentinel empty_value_sentinel target fuel cg_size
          (kk, vv) (window cg_size kk w)) (λ _ m', present m' kk) m.
Proof.
  intros Hcg Hkk. revert m w. induction fuel as [|fuel IH]; intros m w Hp; [done|].
  simpl. apply (tsafe_bind (lanes_load _)).
  eapply tsafe_conseq;
    [|apply tsafe_frame; [apply (passed_closed kk (w * cg_size))|exact Hp|
                          apply lanes_load_safe, window_in_range]].
  intros existing_key m1 [Hl1 Hp1]. simpl in Hp1.
  apply (tsafe_bind (lanes_match _ _ _)).
  eapply tsafe_conseq;
    [|eapply (tsafe_frame _ _ (λ m, loaded m (window cg_size kk w) existing_key ∧
                                    passed m kk (w * cg_size)));
      [| |by apply lanes_match_safe]].
  2:{ intros ma mb [Ha Hb] Hst. split; [by eapply loaded_closed|by eapply passed_closed]. }
  2:{ by split. }
  intros found m2 [-> [Hl2 Hp2]].
  pose proof (Forall2_length _ _ _ Hl2) as Hlen. rewrite window_length in Hlen.
  destruct (g_any (map (lane_matches kk) existing_key)) eqn:Hany.
  { apply tsafe_ret. destruct (g_any_true _ Hany) as [r Hr].
    rewrite list_lookup_fmap in Hr. destruct (existing_key !! r) as [e|] eqn:He; [|done].
    simpl in Hr. injection Hr as Hr. unfold lane_matches in Hr.
    apply andb_true_iff in Hr as [Hne Hk]. unfold bitwise_compare in Hne.
    apply negb_true_iff, Z.eqb_neq in Hne.
    assert (Hrcg : (r < cg_size)%nat) by (apply lookup_lt_Some in He; lia).
    destruct (Forall2_lookup_lr _ _ _ _ _ _ Hl2 (window_lookup cg_size kk w r Hrcg) He Hne)
      as (sl & Hsl & Hke).
    apply (slot_present m2 (pr kk (w * cg_size + r)) kk sl);
      [done|congruence|by rewrite Hke]. }
  destruct (Z.eqb_spec (g_ballot (map is_empty existing_key)) 0) as [Hb|Hb]; simpl.
  - rewrite next_window_eq. apply IH.
    replace (S w * cg_size)%nat with (w * cg_size + cg_size)%nat by lia.
    apply (lanes_passed cg_size m2 kk w existing_key); try done.
    intros r' Hr'. destruct (map is_empty existing_key !! r') as [b|] eqn:Hb'.
    + by rewrite (g_ballot_zero _ Hb _ _ Hb').
    + apply lookup_ge_None in Hb'. rewrite length_map in Hb'. lia.
  - destruct (ffs_ballot (map is_empty existing_key)) as (r & -> & Hr & Hlow);
      [rewrite length_map; lia|done|].
    assert (Hrcg : (r < cg_size)%nat).
    { apply lookup_lt_Some in Hr. rewrite length_map in Hr. lia. }
    rewrite window_lookup; [|done].
    apply (tsafe_bind (slot_protocol _ _ _ _ _ _)).
    eapply tsafe_conseq; [|apply slot_protocol_settled; [done|]].
    + intros [| |] m3 Hpost; simpl; [|by apply tsafe_ret..].
      apply IH. eapply passed_le; [by apply Hpost|lia].
    + by apply (lanes_passed cg_size m2 kk w existing_key).
Qed.

Lemma worker_prog_settled fuel w m :
  worker_ok empty_key_sentinel w →
  safe (worker_prog capacity empty_key_sentinel empty_value_sentinel hash target fuel w)
    (λ _ m', present m' (worker_pair w).1) m.
Proof.
  destruct w as [[kk vv]|cg_size [kk vv]]; intros [Hk Hcg]; simpl in *.
  - unfold insert. rewrite initial_slot_probe. apply insert_loop_settled; [done|apply passed_0].
  - unfold insert_cg. rewrite initial_window_eq.
    apply insert_cg_loop_settled; [done..|apply passed_0].
Qed.

(** *** Systems of workers with promises *)

Lemma step_thread_inv_post {R} (posts : list (R → mem → Prop)) st i :
  Forall (λ Q, ∀ r, closed (Q r)) posts →
  sys_inv_post posts st → sys_inv_post posts (step_thread key_equal st i).
Proof.
  intros Hclosed [HI Hts]. unfold step_thread.
  destruct (sys_threads st !! i) as [[r| |X op k]|] eqn:Hi; try done.
  destruct (Forall2_lookup_r _ _ _ _ _ Hts Hi) as (Q & HQ & Hp).
  destruct (Hp (sys_mem st) (stable_refl _) HI) as (_ & x & m' & He & Hst & HI' & Hk).
  rewrite He. split; [done|]. simpl.
  rewrite <- (list_insert_id posts i Q HQ). apply Forall2_insert; [|done].
  apply Forall2_same_length_lookup. split; [by eapply Forall2_length|].
  intros j Q' p HQ' Hp'.
  pose proof (Forall2_lookup_lr _ _ _ _ _ _ Hts HQ' Hp') as Hsafe. simpl in Hsafe.
  eapply tsafe_mono; [|exact Hsafe|done].
  by apply (proj1 (Forall_lookup _ _) Hclosed j Q').
Qed.

Lemma run_sched_inv_post {R} (posts : list (R → mem → Prop)) sched st :
  Forall (λ Q, ∀ r, closed (Q r)) posts →
  sys_inv_post posts st → sys_inv_post posts (run_sched key_equal sched st).
Proof.
  intros Hclosed. unfold run_sched. revert st.
  induction sched as [|i sched IH]; intros st Hst; [done|].
  simpl. apply IH. by apply step_thread_inv_post.
Qed.

(** The keys of the workers that have returned are in the array. *)
Lemma returned_present m workers fuel sched i w r :
  Inv m → Forall (worker_ok empty_key_sentinel) workers →
  workers !! i = Some w →
  sys_threads (run_sched key_equal sched
                 (launch_on m capacity empty_key_sentinel empty_value_sentinel hash target
                    fuel workers)) !! i = Some (Ret r) →
  Inv (sys_mem (run_sched key_equal sched
                  (launch_on m capacity empty_key_sentinel empty_value_sentinel hash target
                     fuel workers))) ∧
  present (sys_mem (run_sched key_equal sched
                      (launch_on m capacity empty_key_sentinel empty_value_sentinel hash
                         target fuel workers))) (worker_pair w).1.
Proof.
  intros HI Hw Hi Hr.
  pose (posts := map (λ w (_ : bool) m', present m' (worker_pair w).1) workers).
  assert (Hinv : sys_inv_post posts
            (run_sched key_equal sched
               (launch_on m capacity empty_key_sentinel empty_value_sentinel hash target
                  fuel workers))).
  { apply run_sched_inv_post.
    - subst posts. apply Forall_fmap, Forall_forall. intros w' _ r'. apply present_closed.
    - split; [done|]. simpl. subst posts. apply Forall2_fmap.
      apply Forall_Forall2_diag. eapply Forall_impl; [exact Hw|].
      intros w' Hok. by apply worker_prog_settled. }
  destruct Hinv as [HI' Hts]. split; [done|].
  assert (HQ : posts !! i = Some (λ _ m', present m' (worker_pair w).1)).
  { subst posts. by rewrite list_lookup_fmap, Hi. }
  exact (Forall2_lookup_lr _ _ _ _ _ _ Hts HQ Hr).
Qed.

(** *** Inserting a key that is there *)

Local Abbreviation quiet := (@quiet key_equal).

Lemma quiet_bind {A B} (post1 : A → Prop) (post2 : B → Prop) m (p : prog A)
    (f : A → prog B) :
  quiet post1 m p → (∀ r, post1 r → quiet post2 m (f r)) → quiet post2 m (p ≫= f).
Proof.
  intros Hp Hf. induction p as [r| |X op k IH]; simpl; [by apply Hf|done|].
  destruct Hp as (x & He & Hk). exists x. split; [done|]. by apply IH.
Qed.

Lemma lanes_load_quiet m current_slot :
  Forall (λ s, (s < length m)%nat) current_slot →
  quiet (λ existing_key, existing_key = keys_at m current_slot) m (lanes_load current_slot).
Proof.
  induction 1 as [|s rest Hs _ IH]; [done|]. simpl.
  destruct (lookup_lt_is_Some_2 m s Hs) as [sl Hsl]. exists sl.1. rewrite Hsl. simpl.
  split; [done|]. eapply quiet_bind; [exact IH|]. intros keys ->. simpl.
  unfold keys_at. simpl. by rewrite ?Hsl.
Qed.

Lemma lanes_match_quiet m existing_key k :
  quiet (λ found, found = map (lane_matches k) existing_key) m
    (lanes_match empty_key_sentinel existing_key k).
Proof.
  induction existing_key as [|e rest IH]; [done|]. simpl.
  unfold lane_matches at 1. destruct (negb (bitwise_compare e empty_key_sentinel)); simpl.
  - eexists. split; [done|]. eapply quiet_bind; [exact IH|]. by intros found ->.
  - eapply quiet_bind; [exact IH|]. by intros found ->.
Qed.

Lemma g_any_lookup (pred : list bool) r : pred !! r = Some true → g_any pred = true.
Proof.
  intros Hr. unfold g_any. apply existsb_exists. exists true. split; [|done].
  apply list_elem_of_In. by eapply list_elem_of_lookup_2.
Qed.

(** A group that inserts a key that is in the array reads until it
    sees the key and returns [false]. *)
Lemma insert_cg_loop_quiet fuel cg_size m k v d w :
  length m = capacity → hit m k d → (w * cg_size ≤ d)%nat →
  quiet (λ r, r = false) m
    (insert_cg_loop capacity empty_key_sentinel empty_value_sentinel target fuel cg_size
       (k, v) (window cg_size k w)).
Proof.
  intros Hlen [Hp (s & Hs & Hne & Hk)]. revert w.
  induction fuel as [|fuel IH]; intros w Hw; [done|]. simpl.
  eapply quiet_bind; [apply lanes_load_quiet; by apply window_in_array|].
  intros existing_key ->.
  eapply quiet_bind; [apply lanes_match_quiet|]. intros found ->. cbn [fst].
  destruct (decide (d < S w * cg_size)%nat) as [Hin|Hout].
  - pose (r := (d - w * cg_size)%nat).
    rewrite (g_any_lookup _ r); [done|].
    rewrite list_lookup_fmap, (keys_at_window m cg_size k w r s); [|lia|].
    + simpl. unfold lane_matches, bitwise_compare. apply Z.eqb_neq in Hne.
      by rewrite Hne, Hk.
    + by replace (w * cg_size + r)%nat with d by lia.
  - destruct (window_pass_lanes m cg_size k w) as (_ & Ha & He);
      [eapply passed_le; [exact Hp|lia]|].
    rewrite Ha, He. simpl. rewrite next_window_eq. apply IH. lia.
Qed.

(** *** Lookups that run among inserts *)

Local Abbreviation known := (known empty_key_sentinel).
Local Abbreviation holds_key := (holds_key empty_key_sentinel key_equal).

Lemma holds_key_closed k j : closed (holds_key k j).
Proof.
  intros m m' (s & Hs & Hne & Hk) [_ Hst].
  destruct (Hst j s Hs Hne) as (s' & Hs' & He). exists s'. rewrite He. done.
Qed.

Lemma holds_key_present k j m : holds_key k j m → present m k.
Proof. intros (s & Hs & Hne & Hk). by exists j, s. Qed.

Lemma hit_closed k d : closed (λ m, hit m k d).
Proof.
  intros m m' [Hp Hh] Hst. split; [by eapply passed_closed|].
  by apply (holds_key_closed k (pr k d) m m').
Qed.

Lemma present_equal m k k' : key_equal k k' = true → present m k → present m k'.
Proof.
  intros Hkk (j & s & Hs & Hne & Hk). exists j, s. split; [done|]. split; [done|].
  by apply (key_equal_trans s.1 k k').
Qed.

(** What a slot of the probe sequence holds when the sequence ends in a
    hit further on, or here. *)
Lemma hit_before m k d0 d (s : pair_type) :
  hit m k d0 → (d < d0)%nat → m !! pr k d = Some s →
  s.1 ≠ empty_key_sentinel ∧ key_equal s.1 k = false.
Proof.
  intros [Hp _] Hd Hs. destruct (Hp d Hd) as (s' & Hs' & Hne & Hk).
  rewrite Hs in Hs'. by injection Hs' as <-.
Qed.

Lemma hit_here m k d (s : pair_type) :
  hit m k d → m !! pr k d = Some s → s.1 ≠ empty_key_sentinel ∧ key_equal s.1 k = true.
Proof. intros [_ (s' & Hs' & Hne & Hk)] Hs. rewrite Hs in Hs'. by injection Hs' as <-. Qed.

Lemma find_loop_sound fuel k d m :
  k ≠ empty_key_sentinel →
  safe (find_loop capacity empty_key_sentinel fuel k (pr k d))
    (λ j m', j ≠ end_ capacity → holds_key k j m') m.
Proof.
  intros Hk. revert d m. induction fuel as [|fuel IH]; intros d m; [done|]. simpl.
  apply tsafe_key_load; [apply probe_lt|]. intros m' s Hst HI Hs. unfold bitwise_compare.
  destruct (Z.eqb_spec s.1 empty_key_sentinel) as [He|He]; [by apply tsafe_ret|].
  apply tsafe_key_equal; [done..|]. intros m'' Hst' HI'.
  destruct (key_equal s.1 k) eqn:Heq; [|rewrite next_slot_probe; apply IH].
  apply tsafe_ret. intros _. apply (holds_key_closed k (pr k d) m' m''); [|done].
  by exists s.
Qed.

Lemma contains_loop_sound fuel k d m :
  k ≠ empty_key_sentinel →
  safe (contains_loop capacity empty_key_sentinel fuel k (pr k d))
    (λ r m', r = true → present m' k) m.
Proof.
  intros Hk. revert d m. induction fuel as [|fuel IH]; intros d m; [done|]. simpl.
  apply tsafe_key_load; [apply probe_lt|]. intros m' s Hst HI Hs. unfold bitwise_compare.
  destruct (Z.eqb_spec s.1 empty_key_sentinel) as [He|He]; [by apply tsafe_ret|].
  apply tsafe_key_equal; [done..|]. intros m'' Hst' HI'.
  destruct (key_equal s.1 k) eqn:Heq; [|rewrite next_slot_probe; apply IH].
  apply tsafe_ret. intros _. apply (present_closed k m' m''); [|done].
  by exists (pr k d), s.
Qed.

Lemma find_loop_complete fuel k d0 d m :
  k ≠ empty_key_sentinel → hit m k d0 → (d ≤ d0)%nat →
  safe (find_loop capacity empty_key_sentinel fuel k (pr k d))
    (λ j m', j ≠ end_ capacity ∧ holds_key k j m') m.
Proof.
  intros Hk. revert d m. induction fuel as [|fuel IH]; intros d m Hhit Hd; [done|]. simpl.
  apply tsafe_key_load; [apply probe_lt|]. intros m' s Hst HI Hs. unfold bitwise_compare.
  pose proof (hit_closed k d0 m m' Hhit Hst) as Hhit'.
  destruct (decide (d = d0)) as [->|Hne].
  - destruct (hit_here m' k d0 s Hhit' Hs) as [Hocc Heq].
    apply Z.eqb_neq in Hocc as Hocc'. rewrite Hocc'.
    apply tsafe_key_equal; [done..|]. intros m'' Hst' HI'. rewrite Heq.
    apply tsafe_ret. split.
    + unfold end_. pose proof (probe_lt k d0). lia.
    + apply (holds_key_closed k (pr k d0) m' m''); [|done]. by exists s.
  - destruct (hit_before m' k d0 d s Hhit') as [Hocc Heq]; [lia|done|].
    apply Z.eqb_neq in Hocc as Hocc'. rewrite Hocc'.
    apply tsafe_key_equal; [done..|]. intros m'' Hst' HI'. rewrite Heq.
    rewrite next_slot_probe. apply IH; [|lia]. by apply (hit_closed k d0 m' m'').
Qed.

Lemma contains_loop_complete fuel k d0 d m :
  k ≠ empty_key_sentinel → hit m k d0 → (d ≤ d0)%nat →
  safe (contains_loop capacity empty_key_sentinel fuel k (pr k d)) (λ r _, r = true) m.
Proof.
  intros Hk. revert d m. induction fuel as [|fuel IH]; intros d m Hhit Hd; [done|]. simpl.
  apply tsafe_key_load; [apply probe_lt|]. intros m' s Hst HI Hs. unfold bitwise_compare.
  pose proof (hit_closed k d0 m m' Hhit Hst) as Hhit'.
  destruct (decide (d = d0)) as [->|Hne].
  - destruct (hit_here m' k d0 s Hhit' Hs) as [Hocc Heq].
    apply Z.eqb_neq in Hocc as Hocc'. rewrite Hocc'.
    apply tsafe_key_equal; [done..|]. intros m'' Hst' HI'. rewrite Heq. by apply tsafe_ret.
  - destruct (hit_before m' k d0 d s Hhit') as [Hocc Heq]; [lia|done|].
    apply Z.eqb_neq in Hocc as Hocc'. rewrite Hocc'.
    apply tsafe_key_equal; [done..|]. intros m'' Hst' HI'. rewrite Heq.
    rewrite next_slot_probe. apply IH; [|lia]. by apply (hit_closed k d0 m' m'').
Qed.

(** *** The same for a group *)

Lemma tsafe_and {R} (p : prog R) (Q1 Q2 : R → mem → Prop) m :
  safe p Q1 m → safe p Q2 m → safe p (λ r m', Q1 r m' ∧ Q2 r m') m.
Proof.
  revert m. induction p as [r| |X op k IH]; intros m H1 H2; [by split|done|].
  intros m' Hst HI.
  destruct (H1 m' Hst HI) as (Hok & x & m1 & He1 & Hst1 & HI1 & Hk1).
  destruct (H2 m' Hst HI) as (_ & x2 & m2 & He2 & _ & _ & Hk2).
  rewrite He1 in He2. injection He2 as <- <-.
  split; [done|]. exists x, m1. refine (conj He1 (conj Hst1 (conj HI1 _))). by apply IH.
Qed.

Lemma known_stable m m' current_slot existing_key :
  stable m m' → known m' current_slot existing_key → known m current_slot existing_key.
Proof.
  intros [_ Hst] H. refine (Forall2_impl _ _ _ _ H _). simpl.
  intros s e Hse sl Hsl Hne. destruct (Hst s sl Hsl Hne) as (sl' & Hsl' & He).
  rewrite <- He. apply (Hse sl' Hsl'). congruence.
Qed.

Lemma lanes_load_known current_slot m :
  Forall (λ s, (s < capacity)%nat) current_slot →
  safe (lanes_load current_slot) (λ existing_key _, known m current_slot existing_key) m.
Proof.
  revert m. induction current_slot as [|s rest IH]; intros m Hlt.
  { apply tsafe_ret. constructor. }
  inversion Hlt as [|? ? Hs Hrest]; subst. simpl.
  apply tsafe_key_load; [done|]. intros m' sl Hst HI Hsl.
  apply (tsafe_bind (lanes_load rest)).
  eapply tsafe_conseq; [|by apply IH].
  intros keys m'' Hk. apply tsafe_ret. constructor.
  - intros sl0 Hsl0 Hne. destruct Hst as [_ Hst].
    destruct (Hst s sl0 Hsl0 Hne) as (sl' & Hsl' & He). rewrite Hsl in Hsl'.
    injection Hsl' as <-. done.
  - by eapply known_stable.
Qed.

(** What the lanes of a window see of a probe sequence that ends in a
    hit. *)
Lemma known_keys m cg_size k w existing_key r (s : pair_type) :
  known m (window cg_size k w) existing_key → (r < cg_size)%nat →
  m !! pr k (w * cg_size + r) = Some s → s.1 ≠ empty_key_sentinel →
  existing_key !! r = Some s.1.
Proof.
  intros Hkn Hr Hs Hne.
  pose proof (Forall2_length _ _ _ Hkn) as Hlen. rewrite window_length in Hlen.
  destruct (lookup_lt_is_Some_2 existing_key r) as [e He]; [lia|].
  rewrite He. f_equal.
  exact (Forall2_lookup_lr _ _ _ _ _ _ Hkn (window_lookup cg_size k w r Hr) He s Hs Hne).
Qed.

Lemma known_hit_lane m cg_size k w existing_key d :
  known m (window cg_size k w) existing_key → hit m k d →
  (w * cg_size ≤ d)%nat → (d < S w * cg_size)%nat →
  map (lane_matches k) existing_key !! (d - w * cg_size)%nat = Some true ∧
  ∀ r', (r' < d - w * cg_size)%nat → map (lane_matches k) existing_key !! r' = Some false.
Proof.
  intros Hkn Hhit Hlo Hhi. destruct Hhit as [Hp (s & Hs & Hne & Hk)]. split.
  - rewrite list_lookup_fmap, (known_keys m cg_size k w existing_key _ s); [|done|lia| |done].
    + simpl. unfold lane_matches, bitwise_compare. apply Z.eqb_neq in Hne.
      by rewrite Hne, Hk.
    + by replace (w * cg_size + (d - w * cg_size))%nat with d by lia.
  - intros r' Hr'. destruct (Hp (w * cg_size + r')%nat) as (s' & Hs' & Hne' & Hk'); [lia|].
    rewrite list_lookup_fmap, (known_keys m cg_size k w existing_key r' s'); [|done|lia|done..].
    simpl. unfold lane_matches, bitwise_compare. apply Z.eqb_neq in Hne'.
    by rewrite Hne', Hk'.
Qed.

Lemma known_pass_lanes m cg_size k w existing_key d :
  known m (window cg_size k w) existing_key → hit m k d → (S w * cg_size ≤ d)%nat →
  g_ballot (map (lane_matches k) existing_key) = 0 ∧
  g_ballot (map is_empty existing_key) = 0.
Proof.
  intros Hkn [Hp _] Hd.
  pose proof (Forall2_length _ _ _ Hkn) as Hlen. rewrite window_length in Hlen.
  assert (Hlane : ∀ r, (r < cg_size)%nat →
            map (lane_matches k) existing_key !! r = Some false ∧
            map is_empty existing_key !! r = Some false).
  { intros r Hr. destruct (Hp (w * cg_size + r)%nat) as (s & Hs & Hne & Hk); [lia|].
    rewrite !list_lookup_fmap, (known_keys m cg_size k w existing_key r s); [|done..].
    simpl. unfold lane_matches, bitwise_compare. apply Z.eqb_neq in Hne.
    by rewrite Hne, Hk. }
  split.
  - apply all_false. intros r Hr. rewrite length_map in Hr. apply Hlane. lia.
  - apply all_false. intros r Hr. rewrite length_map in Hr. apply Hlane. lia.
Qed.

(** A round of a group loop: what the lanes load and compare. *)
Lemma window_seen cg_size k w m (F : mem → Prop) {R} (rest : list Z → list bool → prog R) Q :
  k ≠ empty_key_sentinel → closed F → F m →
  (∀ existing_key m', F m' → loaded m' (window cg_size k w) existing_key →
     known m (window cg_size k w) existing_key →
     safe (rest existing_key (map (lane_matches k) existing_key)) Q m') →
  safe (existing_key ← lanes_load (window cg_size k w);
        found ← lanes_match empty_key_sentinel existing_key k;
        rest existing_key found) Q m.
Proof.
  intros Hk HF Hm Hrest.
  apply (tsafe_bind (lanes_load _)).
  eapply tsafe_conseq;
    [|apply (tsafe_frame _
               (λ existing_key m', loaded m' (window cg_size k w) existing_key ∧
                                   known m (window cg_size k w) existing_key) F _ HF Hm);
      apply tsafe_and; [apply lanes_load_safe|apply lanes_load_known]; apply window_in_range].
  intros existing_key m1 [[Hl Hkn] HF1]. simpl in Hkn.
  apply (tsafe_bind (lanes_match _ _ _)).
  eapply tsafe_conseq;
    [|eapply (tsafe_frame _ _ (λ m, loaded m (window cg_size k w) existing_key ∧ F m));
      [| |by apply lanes_match_safe]].
  - intros found m2 [-> [Hl2 HF2]]. by apply Hrest.
  - intros ma mb [Ha Hb] Hst. split; [by eapply loaded_closed|by eapply HF].
  - by split.
Qed.

Lemma lane_found_holds m cg_size k w existing_key r :
  loaded m (window cg_size k w) existing_key →
  map (lane_matches k) existing_key !! r = Some true →
  (r < cg_size)%nat ∧ holds_key k (pr k (w * cg_size + r)) m.
Proof.
  intros Hl Hr. pose proof (Forall2_length _ _ _ Hl) as Hlen. rewrite window_length in Hlen.
  rewrite list_lookup_fmap in Hr. destruct (existing_key !! r) as [e|] eqn:He; [|done].
  simpl in Hr. injection Hr as Hr. unfold lane_matches in Hr.
  apply andb_true_iff in Hr as [Hne Hk]. unfold bitwise_compare in Hne.
  apply negb_true_iff, Z.eqb_neq in Hne.
  assert (Hrcg : (r < cg_size)%nat) by (apply lookup_lt_Some in He; lia).
  split; [done|].
  destruct (Forall2_lookup_lr _ _ _ _ _ _ Hl (window_lookup cg_size k w r Hrcg) He Hne)
    as (sl & Hsl & Hke).
  exists sl. split; [done|]. split; [congruence|]. by rewrite Hke.
Qed.

Lemma find_cg_loop_sound fuel cg_size k w m :
  (cg_size ≤ 32)%nat → k ≠ empty_key_sentinel →
  safe (find_cg_loop capacity empty_key_sentinel fuel cg_size k (window cg_size k w))
    (λ j m', j ≠ end_ capacity → holds_key k j m') m.
Proof.
  intros Hcg Hk. revert w m. induction fuel as [|fuel IH]; intros w m; [done|]. simpl.
  apply (window_seen cg_size k w m (λ _, True)); [done..|].
  intros existing_key m' _ Hl _.
  pose proof (Forall2_length _ _ _ Hl) as Hlen. rewrite window_length in Hlen.
  destruct (Z.eqb_spec (g_ballot (map (lane_matches k) existing_key)) 0) as [Hb|Hb]; simpl.
  - destruct (negb _); [by apply tsafe_ret|]. rewrite next_window_eq. apply IH.
  - destruct (ffs_ballot (map (lane_matches k) existing_key)) as (r & -> & Hr & _);
      [rewrite length_map; lia|done|].
    destruct (lane_found_holds m' cg_size k w existing_key r Hl Hr) as [Hrcg Hh].
    rewrite window_lookup; [|done]. simpl. by apply tsafe_ret.
Qed.

Lemma contains_cg_loop_sound fuel cg_size k w m :
  k ≠ empty_key_sentinel →
  safe (contains_cg_loop capacity empty_key_sentinel fuel cg_size k (window cg_size k w))
    (λ r m', r = true → present m' k) m.
Proof.
  intros Hk. revert w m. induction fuel as [|fuel IH]; intros w m; [done|]. simpl.
  apply (window_seen cg_size k w m (λ _, True)); [done..|].
  intros existing_key m' _ Hl _.
  destruct (Z.eqb_spec (g_ballot (map (lane_matches k) existing_key)) 0) as [Hb|Hb]; simpl.
  - destruct (negb _); [by apply tsafe_ret|]. rewrite next_window_eq. apply IH.
  - apply tsafe_ret. intros _. destruct (g_ballot_nonzero _ Hb) as [r Hr].
    destruct (lane_found_holds m' cg_size k w existing_key r Hl Hr) as [_ Hh].
    by eapply holds_key_present.
Qed.

Lemma find_cg_loop_complete fuel cg_size k d w m :
  (cg_size ≤ 32)%nat → k ≠ empty_key_sentinel → hit m k d → (w * cg_size ≤ d)%nat →
  safe (find_cg_loop capacity empty_key_sentinel fuel cg_size k (window cg_size k w))
    (λ j m', j ≠ end_ capacity ∧ holds_key k j m') m.
Proof.
  intros Hcg Hk. revert w m. induction fuel as [|fuel IH]; intros w m Hhit Hw; [done|].
  simpl. apply (window_seen cg_size k w m (λ m, hit m k d)); [done|apply hit_closed|done|].
  intros existing_key m' Hhit' Hl Hkn.
  pose proof (Forall2_length _ _ _ Hl) as Hlen. rewrite window_length in Hlen.
  destruct (decide (d < S w * cg_size)%nat) as [Hin|Hout].
  - destruct (known_hit_lane m cg_size k w existing_key d Hkn Hhit Hw Hin) as [Hr Hlow].
    destruct (first_lane (map (lane_matches k) existing_key) (d - w * cg_size))
      as (Hb & Hffs & _); [rewrite length_map; lia|done..|].
    rewrite Hb, Hffs. simpl. rewrite window_lookup; [|lia]. simpl.
    replace (w * cg_size + (d - w * cg_size))%nat with d by lia.
    apply tsafe_ret. split; [unfold end_; pose proof (probe_lt k d); lia|].
    apply Hhit'.
  - destruct (known_pass_lanes m cg_size k w existing_key d Hkn Hhit) as [Hf He]; [lia|].
    rewrite Hf, He. simpl. rewrite next_window_eq. apply IH; [done|lia].
Qed.

Lemma contains_cg_loop_complete fuel cg_size k d w m :
  k ≠ empty_key_sentinel → hit m k d → (w * cg_size ≤ d)%nat →
  safe (contains_cg_loop capacity empty_key_sentinel fuel cg_size k (window cg_size k w))
    (λ r _, r = true) m.
Proof.
  intros Hk. revert w m. induction fuel as [|fuel IH]; intros w m Hhit Hw; [done|].
  simpl. apply (window_seen cg_size k w m (λ m, hit m k d)); [done|apply hit_closed|done|].
  intros existing_key m' Hhit' Hl Hkn.
  destruct (decide (d < S w * cg_size)%nat) as [Hin|Hout].
  - destruct (known_hit_lane m cg_size k w existing_key d Hkn Hhit Hw Hin) as [Hr _].
    assert (Hb : g_ballot (map (lane_matches k) existing_key) ≠ 0).
    { intros H0. by pose proof (g_ballot_zero _ H0 _ _ Hr). }
    apply Z.eqb_neq in Hb. rewrite Hb. by apply tsafe_ret.
  - destruct (known_pass_lanes m cg_size k w existing_key d Hkn Hhit) as [Hf He]; [lia|].
    rewrite Hf, He. simpl. rewrite next_window_eq. apply IH; [done|lia].
Qed.

(** *** Tasks *)

Local Abbreviation lookup_sound := (lookup_sound capacity empty_key_sentinel key_equal).
Local Abbreviation lookup_found := (lookup_found capacity empty_key_sentinel key_equal).
Local Abbreviation task_prog :=
  (task_prog capacity empty_key_sentinel empty_value_sentinel hash target).
Local Abbreviation task_post t :=
  (if is_lookup t then lookup_sound (task_key t)
   else λ (_ : task_result) (m' : mem), present m' (task_key t)).

Lemma tsafe_map {A B} (p : prog A) (f : A → B) (Q : B → mem → Prop) m :
  safe p (λ r m', Q (f r) m') m → safe (r ← p; mret (f r)) Q m.
Proof.
  intros H. apply (tsafe_bind p). eapply tsafe_conseq; [|exact H].
  intros r m' HQ. by apply tsafe_ret.
Qed.

Lemma task_post_closed t r : closed (task_post t r).
Proof.
  destruct t; simpl; try apply present_closed; destruct r; simpl;
    try apply present_closed; intros m m' H Hst Hr;
    (eapply present_closed || eapply holds_key_closed); eauto.
Qed.

Lemma lookup_found_closed k r : closed (lookup_found k r).
Proof.
  destruct r; simpl; intros m m' H Hst; [done..|]. destruct H as [Hne Hh].
  split; [done|]. by eapply holds_key_closed.
Qed.

Lemma task_prog_sound fuel t m :
  task_ok empty_key_sentinel t → safe (task_prog fuel t) (task_post t) m.
Proof.
  destruct t as [w|k|cg_size k|k|cg_size k]; intros [Hk Hcg]; simpl in *.
  - apply tsafe_map. apply worker_prog_settled. split; [done|]. by destruct w.
  - apply tsafe_map. unfold contains. rewrite initial_slot_probe.
    by apply contains_loop_sound.
  - apply tsafe_map. unfold contains_cg. rewrite initial_window_eq.
    by apply contains_cg_loop_sound.
  - apply tsafe_map. unfold find. rewrite initial_slot_probe. by apply find_loop_sound.
  - apply tsafe_map. unfold find_cg. rewrite initial_window_eq.
    by apply find_cg_loop_sound.
Qed.

Lemma task_prog_found fuel t m :
  task_ok empty_key_sentinel t → is_lookup t = true → Inv m → present m (task_key t) →
  safe (task_prog fuel t) (lookup_found (task_key t)) m.
Proof.
  intros [Hk Hcg] Hl HI Hpres.
  destruct (present_hit m _ HI Hpres) as (d & _ & Hhit).
  destruct t as [w|k|cg_size k|k|cg_size k]; simpl in *; [done|..].
  - apply tsafe_map. unfold contains. rewrite initial_slot_probe.
    apply (contains_loop_complete _ k d); [done..|lia].
  - apply tsafe_map. unfold contains_cg. rewrite initial_window_eq.
    apply (contains_cg_loop_complete _ _ k d); [done..|lia].
  - apply tsafe_map. unfold find. rewrite initial_slot_probe.
    apply (find_loop_complete _ k d); [done..|lia].
  - apply tsafe_map. unfold find_cg. rewrite initial_window_eq.
    apply (find_cg_loop_complete _ _ k d); [done..|lia].
Qed.

Lemma launch_tasks_inv fuel tasks sched :
  Forall (task_ok empty_key_sentinel) tasks →
  sys_inv_post (map (λ t, task_post t) tasks)
    (run_sched key_equal sched
       (launch_tasks capacity empty_key_sentinel empty_value_sentinel hash target fuel tasks)).
Proof.
  intros Hok. apply run_sched_inv_post.
  - apply Forall_fmap, Forall_forall. intros t _ r. apply task_post_closed.
  - split; [apply initialize_inv|]. simpl. apply Forall2_fmap, Forall_Forall2_diag.
    eapply Forall_impl; [exact Hok|]. intros t Ht. by apply task_prog_sound.
Qed.

(** ** Loops that reach their bound *)

Local Abbreviation full := (full capacity empty_key_sentinel).
Local Abbreviation live :=
  (tlive capacity empty_key_sentinel empty_value_sentinel hash key_equal).

Lemma full_closed : closed full.
Proof.
  intros m m' Hf [_ Hst] j Hj. destruct (Hf j Hj) as (s & Hs & Hne).
  destruct (Hst j s Hs Hne) as (s' & Hs' & He). exists s'. split; [done|congruence].
Qed.

(** A probe sequence that has passed as many slots as there are has
    passed them all. *)
Lemma passed_full m k d : passed m k d → (capacity ≤ d)%nat → full m.
Proof.
  intros Hp Hd j Hj. destruct (probe_onto k j Hj) as (i & Hi & <-).
  destruct (Hp i) as (s & Hs & Hne & _); [lia|]. by exists s.
Qed.

Lemma tlive_mono {R} (p : prog R) Q m m' :
  (∀ r, closed (Q r)) → live p Q m → stable m m' → live p Q m'.
Proof.
  intros HQ. destruct p as [r| |X op k]; simpl;
    [by eapply HQ|by eapply full_closed|].
  intros H Hst m1 x m2 Hst1 HI He Hst2 HI2.
  apply (H m1 x m2); [by eapply stable_trans|done..].
Qed.

Lemma tlive_conseq {R} (p : prog R) (Q Q' : R → mem → Prop) m :
  (∀ r m', Q r m' → Q' r m') → live p Q m → live p Q' m.
Proof.
  intros HQ. revert m. induction p as [r| |X op k IH]; intros m; simpl; [by apply HQ|done|].
  intros H m1 x m2 Hst1 HI He Hst2 HI2. apply IH. by eapply H.
Qed.

(** A part without a loop, by what it guarantees, and then the rest. *)
Lemma tlive_bind {A B} (p : prog A) (f : A → prog B) Q m :
  loop_free p → safe p (λ r m', live (f r) Q m') m → live (p ≫= f) Q m.
Proof.
  revert m. induction p as [r| |X op k IH]; intros m; simpl; [done..|].
  intros Htot H m1 x m2 Hst1 HI He Hst2 HI2.
  destruct (H m1 Hst1 HI) as (_ & x' & m2' & He' & _ & _ & Hk).
  rewrite He in He'. injection He' as <- <-. by apply IH.
Qed.

Lemma total_bind {A B} (p : prog A) (f : A → prog B) :
  loop_free p → (∀ r, loop_free (f r)) → loop_free (p ≫= f).
Proof.
  induction p as [r| |X op k IH]; simpl; [by auto|done|]. intros Hk Hf x. by apply IH.
Qed.

Lemma lanes_load_total current_slot : loop_free (lanes_load current_slot).
Proof.
  induction current_slot as [|s rest IH]; [done|]. simpl. intros x.
  apply (total_bind (lanes_load rest)); [done|]. by intros keys.
Qed.

Lemma lanes_match_total existing_key k :
  loop_free (lanes_match empty_key_sentinel existing_key k).
Proof.
  induction existing_key as [|e rest IH]; [done|]. simpl.
  destruct (negb _); simpl; [intros b|];
    (apply (total_bind (lanes_match _ rest k)); [done|]; by intros bs).
Qed.

Lemma slot_protocol_total fuel i insert_pair :
  uses_back_to_back target = false →
  loop_free (slot_protocol empty_key_sentinel empty_value_sentinel target fuel i insert_pair).
Proof.
  unfold uses_back_to_back, slot_protocol.
  destruct (is_packable target); [|destruct (cuda_arch target <? 700)%nat; [|done]];
    intros _; simpl.
  - intros [[|] e]; simpl; [done|]. by intros [|].
  - intros [[|] e]; simpl; [by intros []|]. by intros [|].
Qed.

(** *** The single-thread insert *)

Lemma insert_loop_live fuel m kk vv d :
  uses_back_to_back target = false → kk ≠ empty_key_sentinel →
  passed m kk d → (capacity ≤ fuel + d)%nat →
  live (insert_loop capacity empty_key_sentinel empty_value_sentinel target fuel
          (kk, vv) (pr kk d)) (λ _ _, True) m.
Proof.
  intros Hb Hkk. revert m d. induction fuel as [|fuel IH]; intros m d Hp Hfuel.
  { simpl. eapply passed_full; [exact Hp|lia]. }
  simpl. intros m1 x m2 Hst1 HI1 He Hst2 HI2. simpl in He.
  destruct (m1 !! pr kk d) as [s|] eqn:Hs; simpl in He; [|done]. injection He as <- <-.
  assert (Hp1 : passed m1 kk d) by (by eapply passed_closed).
  unfold bitwise_compare. destruct (Z.eqb_spec s.1 empty_key_sentinel) as [He|He]; simpl.
  - apply (tlive_bind (slot_protocol _ _ _ _ _ _)); [by apply slot_protocol_total|].
    eapply tsafe_conseq; [|by apply slot_protocol_safe].
    intros [| |] m3 Hpost; simpl; try done.
    rewrite next_slot_probe. apply IH; [by apply Hpost|lia].
  - intros m3 b m4 Hst3 HI3 Heq Hst4 HI4. simpl in Heq. injection Heq as <- <-.
    destruct (key_equal s.1 kk) eqn:Heq; simpl; [done|].
    rewrite next_slot_probe. apply IH; [|lia].
    destruct (key_slot_closed (pr kk d) s.1 He m1 m3) as (s' & Hs' & He');
      [by exists s|done|].
    eapply passed_S; [by eapply passed_closed|done|congruence|congruence].
Qed.

(** *** The cooperative-group insert *)

Lemma window_seen_live cg_size k w m (F : mem → Prop) {R}
    (rest : list Z → list bool → prog R) Q :
  k ≠ empty_key_sentinel → closed F → F m →
  (∀ existing_key m', F m' → loaded m' (window cg_size k w) existing_key →
     known m (window cg_size k w) existing_key →
     live (rest existing_key (map (lane_matches k) existing_key)) Q m') →
  live (existing_key ← lanes_load (window cg_size k w);
        found ← lanes_match empty_key_sentinel existing_key k;
        rest existing_key found) Q m.
Proof.
  intros Hk HF Hm Hrest.
  apply (tlive_bind (lanes_load _)); [apply lanes_load_total|].
  eapply tsafe_conseq;
    [|apply (tsafe_frame _
               (λ existing_key m', loaded m' (window cg_size k w) existing_key ∧
                                   known m (window cg_size k w) existing_key) F _ HF Hm);
      apply tsafe_and; [apply lanes_load_safe|apply lanes_load_known]; apply window_in_range].
  intros existing_key m1 [[Hl Hkn] HF1]. simpl in Hkn.
  apply (tlive_bind (lanes_match _ _ _)); [apply lanes_match_total|].
  eapply tsafe_conseq;
    [|eapply (tsafe_frame _ _ (λ m, loaded m (window cg_size k w) existing_key ∧ F m));
      [| |by apply lanes_match_safe]].
  - intros found m2 [-> [Hl2 HF2]]. by apply Hrest.
  - intros ma mb [Ha Hb] Hst. split; [by eapply loaded_closed|by eapply HF].
  - by split.
Qed.

(** A round of the group either moves to the next window or has seen
    one more slot taken: [d] slots are passed, the window is the [w]-th,
    and [2 * capacity - d - w] rounds are left at most. *)
Lemma insert_cg_loop_live fuel cg_size m kk vv w d :
  uses_back_to_back target = false → (1 ≤ cg_size ≤ 32)%nat → kk ≠ empty_key_sentinel →
  passed m kk d → (w * cg_size ≤ d ≤ S w * cg_size)%nat →
  (2 * capacity ≤ fuel + d + w)%nat →
  live (insert_cg_loop capacity empty_key_sentinel empty_value_sentinel target fuel cg_size
          (kk, vv) (window cg_size kk w)) (λ _ _, True) m.
Proof.
  intros Hb Hcg Hkk. revert m w d.
  induction fuel as [|fuel IH]; intros m w d Hp Hd Hfuel.
  { simpl. eapply passed_full; [exact Hp|]. nia. }
  simpl.
  apply (window_seen_live cg_size kk w m (λ m', passed m' kk d));
    [done|apply passed_closed|done|].
  intros existing_key m2 Hp2 Hl2 Hkn. simpl.
  destruct (g_any (map (lane_matches kk) existing_key)) eqn:Hany; [done|].
  pose proof (Forall2_length _ _ _ Hl2) as Hlen. rewrite window_length in Hlen.
  assert (Hpw : passed m2 kk (w * cg_size)) by (eapply passed_le; [exact Hp2|lia]).
  destruct (Z.eqb_spec (g_ballot (map is_empty existing_key)) 0) as [H0|H0]; simpl.
  - rewrite next_window_eq. apply (IH m2 (S w) (S w * cg_size)%nat); [|lia|lia].
    replace (S w * cg_size)%nat with (w * cg_size + cg_size)%nat by lia.
    apply (lanes_passed cg_size m2 kk w existing_key); try done.
    intros r' Hr'. destruct (map is_empty existing_key !! r') as [b|] eqn:Hb'.
    + by rewrite (g_ballot_zero _ H0 _ _ Hb').
    + apply lookup_ge_None in Hb'. rewrite length_map in Hb'. lia.
  - destruct (ffs_ballot (map is_empty existing_key)) as (r & -> & Hr & Hlow);
      [rewrite length_map; lia|done|].
    assert (Hrcg : (r < cg_size)%nat).
    { apply lookup_lt_Some in Hr. rewrite length_map in Hr. lia. }
    assert (Hrd : (d ≤ w * cg_size + r)%nat).
    { destruct (decide (d ≤ w * cg_size + r)%nat) as [|Hn]; [done|exfalso].
      destruct (Hp (w * cg_size + r)%nat) as (s & Hs & Hne & _); [lia|].
      rewrite list_lookup_fmap,
        (known_keys m cg_size kk w existing_key r s Hkn Hrcg Hs Hne) in Hr.
      simpl in Hr. unfold bitwise_compare in Hr. apply Z.eqb_neq in Hne.
      rewrite Hne in Hr. done. }
    rewrite window_lookup; [|done].
    apply (tlive_bind (slot_protocol _ _ _ _ _ _)); [by apply slot_protocol_total|].
    eapply tsafe_conseq; [|apply slot_protocol_safe; [done|]].
    + intros [| |] m3 Hpost; simpl; try done.
      apply (IH m3 w (S (w * cg_size + r))); [by apply Hpost|lia|lia].
    + by apply (lanes_passed cg_size m2 kk w existing_key).
Qed.

Lemma worker_prog_live fuel w m :
  uses_back_to_back target = false → worker_ok empty_key_sentinel w → has_lanes w →
  (2 * capacity ≤ fuel)%nat →
  live (worker_prog capacity empty_key_sentinel empty_value_sentinel hash target fuel w)
    (λ _ _, True) m.
Proof.
  intros Hb [Hk Hw] Hl Hfuel. destruct w as [[kk vv]|cg_size [kk vv]]; simpl in *.
  - unfold insert. rewrite initial_slot_probe. simpl.
    apply insert_loop_live; [done..|apply passed_0|lia].
  - unfold insert_cg. rewrite initial_window_eq. simpl.
    apply (insert_cg_loop_live fuel cg_size m kk vv 0 0);
      [done|lia|done|apply passed_0|lia|lia].
Qed.

(** *** Any interleaving of workers *)

Lemma step_thread_live st i :
  sys_inv st →
  Forall (λ p, live p (λ _ _, True) (sys_mem st)) (sys_threads st) →
  Forall (λ p, live p (λ _ _, True) (sys_mem (step_thread key_equal st i)))
    (sys_threads (step_thread key_equal st i)).
Proof.
  intros [HI Hsafe] Hlive. unfold step_thread.
  destruct (sys_threads st !! i) as [[r| |X op k]|] eqn:Hi; try done.
  destruct (exec_op key_equal op (sys_mem st)) as [[x m']|] eqn:He; [|done].
  pose proof (proj1 (Forall_lookup _ _) Hsafe i _ Hi) as Hs.
  destruct (Hs (sys_mem st) (stable_refl _) HI) as (_ & x' & m'' & He' & Hst & HI' & _).
  rewrite He in He'. injection He' as <- <-. simpl.
  apply Forall_insert.
  - eapply Forall_impl; [exact Hlive|]. intros p Hp.
    eapply tlive_mono; [by intros r ? ? ? ?|exact Hp|exact Hst].
  - pose proof (proj1 (Forall_lookup _ _) Hlive i _ Hi) as Hl.
    by apply (Hl (sys_mem st) x m' (stable_refl _) HI).
Qed.

Lemma run_sched_live sched st :
  sys_inv st →
  Forall (λ p, live p (λ _ _, True) (sys_mem st)) (sys_threads st) →
  Forall (λ p, live p (λ _ _, True) (sys_mem (run_sched key_equal sched st)))
    (sys_threads (run_sched key_equal sched st)).
Proof.
  unfold run_sched. revert st. induction sched as [|i sched IH]; intros st Hinv Hlive; [done|].
  simpl. apply IH; [by apply step_thread_inv|by apply step_thread_live].
Qed.

(** A worker at the bound of a loop: every slot is occupied. *)
Lemma diverged_full fuel workers sched i :
  uses_back_to_back target = false →
  Forall (worker_ok empty_key_sentinel) workers → Forall has_lanes workers →
  (2 * capacity ≤ fuel)%nat →
  sys_threads (run_sched key_equal sched
                 (launch capacity empty_key_sentinel empty_value_sentinel hash target fuel
                    workers)) !! i = Some Diverge →
  occupied empty_key_sentinel
    (sys_mem (run_sched key_equal sched
                (launch capacity empty_key_sentinel empty_value_sentinel hash target fuel
                   workers))) = capacity.
Proof.
  intros Hb Hok Hlanes Hfuel Hi.
  pose proof (run_sched_inv sched _ (launch_inv fuel workers Hok)) as [(Hlen & _) _].
  assert (Hlive : Forall (λ p, live p (λ _ _, True)
                                 (initialize empty_key_sentinel empty_value_sentinel capacity))
                    (map (worker_prog capacity empty_key_sentinel empty_value_sentinel hash
                            target fuel) workers)).
  { apply Forall_fmap. rewrite Forall_forall in Hok, Hlanes. apply Forall_forall.
    intros w Hw. apply worker_prog_live; [done|by apply Hok|by apply Hlanes|done]. }
  pose proof (run_sched_live sched _ (launch_inv fuel workers Hok) Hlive) as Hall.
  pose proof (proj1 (Forall_lookup _ _) Hall i _ Hi) as Hfull. simpl in Hfull.
  set (m := sys_mem _) in *.
  destruct (decide (occupied empty_key_sentinel m = capacity)) as [|Hne]; [done|exfalso].
  destruct (occupied_lt_empty m) as (j & s & Hj & He).
  { pose proof (occupied_le m). lia. }
  destruct (Hfull j) as (s' & Hs' & Hne'); [apply lookup_lt_Some in Hj; lia|]. congruence.
Qed.

(** ** The operations of a worker are counted *)

Lemma within_mono n n' {R} (post : R → Prop) (p : prog R) :
  (n ≤ n')%nat → within n post p → within n' post p.
Proof.
  revert n n'. induction p as [r| |X op k IH]; intros n n' Hle; simpl; [done..|].
  destruct n as [|n]; [done|]. destruct n' as [|n']; [lia|].
  intros H x. apply (IH x n n'); [lia|done].
Qed.

Lemma within_bind a b {A B} (P : A → Prop) (Q : B → Prop) (p : prog A) (f : A → prog B) :
  within a P p → (∀ r, P r → within b Q (f r)) → within (a + b) Q (p ≫= f).
Proof.
  revert a. induction p as [r| |X op k IH]; intros a; simpl.
  - intros Hr Hf. eapply within_mono; [|by apply Hf]. lia.
  - done.
  - destruct a as [|a]; [done|]. simpl. intros H Hf x. by apply IH.
Qed.

Lemma lanes_load_within current_slot :
  within (length current_slot) (λ keys, length keys = length current_slot)
    (lanes_load current_slot).
Proof.
  induction current_slot as [|s rest IH]; [done|]. simpl. intros x.
  replace (length rest) with (length rest + 0)%nat by lia.
  apply (within_bind _ _ (λ keys, length keys = length rest)); [done|].
  intros keys Hk. simpl. by rewrite Hk.
Qed.

Lemma lanes_match_within existing_key k :
  within (length existing_key) (λ _, True)
    (lanes_match empty_key_sentinel existing_key k).
Proof.
  induction existing_key as [|e rest IH]; [done|]. simpl.
  destruct (negb _); simpl.
  - intros b. replace (length rest) with (length rest + 0)%nat by lia.
    by apply (within_bind _ _ (λ _, True)).
  - eapply within_mono; [|apply (within_bind (length rest) 0 (λ _, True)); [done|done]]. lia.
Qed.

Lemma slot_protocol_within fuel i insert_pair :
  uses_back_to_back target = false →
  within 2 (λ _, True)
    (slot_protocol empty_key_sentinel empty_value_sentinel target fuel i insert_pair).
Proof.
  unfold uses_back_to_back, slot_protocol.
  destruct (is_packable target); [|destruct (cuda_arch target <? 700)%nat; [|done]];
    intros _; simpl.
  - intros [[|] e]; simpl; [done|]. by intros [|].
  - intros [[|] e]; simpl; [by intros []|]. by intros [|].
Qed.

Lemma insert_loop_within fuel insert_pair current_slot :
  uses_back_to_back target = false →
  within (4 * fuel) (λ _, True)
    (insert_loop capacity empty_key_sentinel empty_value_sentinel target fuel insert_pair
       current_slot).
Proof.
  intros Hb. revert current_slot. induction fuel as [|fuel IH]; intros s; [done|].
  replace (4 * S fuel)%nat with (S (3 + 4 * fuel)) by lia. simpl. intros e.
  destruct (bitwise_compare e empty_key_sentinel); simpl.
  - eapply within_mono;
      [|apply (within_bind 2 (4 * fuel) (λ _, True)); [by apply slot_protocol_within|]].
    + lia.
    + intros [| |] _; simpl; [apply IH|done..].
  - intros [|]; simpl; [done|]. eapply within_mono; [|apply IH]. lia.
Qed.

Lemma insert_cg_loop_within fuel cg_size insert_pair current_slot :
  uses_back_to_back target = false → length current_slot = cg_size →
  within ((2 * cg_size + 2) * fuel) (λ _, True)
    (insert_cg_loop capacity empty_key_sentinel empty_value_sentinel target fuel cg_size
       insert_pair current_slot).
Proof.
  intros Hb. revert current_slot. induction fuel as [|fuel IH]; intros s Hs; [done|].
  replace ((2 * cg_size + 2) * S fuel)%nat
    with (cg_size + (cg_size + (2 + (2 * cg_size + 2) * fuel)))%nat by lia.
  simpl.
  apply (within_bind _ _ (λ keys, length keys = cg_size));
    [pose proof (lanes_load_within s) as Hl; by rewrite Hs in Hl|].
  intros existing_key Hk.
  apply (within_bind _ _ (λ _, True));
    [pose proof (lanes_match_within existing_key insert_pair.1) as Hl; by rewrite Hk in Hl|].
  intros dup _. destruct (g_any dup); [done|].
  destruct (negb _).
  - apply (within_bind 2 ((cg_size + (cg_size + 0) + 2) * fuel) (λ _, True)).
    + destruct (s !! _); [by apply slot_protocol_within|done].
    + intros [| |] _; simpl; [by apply IH|done..].
  - eapply within_mono; [|apply IH]; [lia|].
    unfold next_window. by rewrite length_map.
Qed.

Lemma worker_prog_within fuel w :
  uses_back_to_back target = false →
  within ((2 * worker_lanes w + 2) * fuel) (λ _, True)
    (worker_prog capacity empty_key_sentinel empty_value_sentinel hash target fuel w).
Proof.
  intros Hb. destruct w as [p|cg_size p]; simpl.
  - eapply within_mono; [|by apply insert_loop_within]. lia.
  - apply insert_cg_loop_within; [done|]. unfold initial_window.
    by rewrite length_map, length_seq.
Qed.

(** Every step of a worker that has not returned is one of its
    operations. *)
Lemma run_sched_within sched st i n p :
  sys_inv st → sys_threads st !! i = Some p → within n (λ _, True) p →
  ∃ p', sys_threads (run_sched key_equal sched st) !! i = Some p' ∧
        within (n - steps_of i sched) (λ _, True) p'.
Proof.
  unfold run_sched. revert st n p. induction sched as [|j sched IH]; intros st n p Hinv Hi Hn.
  { exists p. split; [done|]. by rewrite Nat.sub_0_r. }
  simpl. pose proof (step_thread_inv st j Hinv) as Hinv'.
  unfold steps_of. rewrite filter_cons. destruct (decide (j = i)) as [->|Hji].
  - assert (∃ p', sys_threads (step_thread key_equal st i) !! i = Some p' ∧
                  within (n - 1) (λ _, True) p') as (p' & Hi' & Hn').
    { destruct Hinv as [HI Hts]. unfold step_thread. rewrite Hi.
      destruct p as [r| |X op k]; [by exists (Ret r)|by exists Diverge|].
      pose proof (proj1 (Forall_lookup _ _) Hts i _ Hi) as Hp.
      destruct (Hp (sys_mem st) (stable_refl _) HI) as (_ & x & m' & He & _).
      rewrite He. simpl. exists (k x). split.
      - apply list_lookup_insert_eq. by apply lookup_lt_Some in Hi.
      - destruct n as [|n]; [done|]. simpl in Hn.
        replace (S n - 1)%nat with n by lia. apply Hn. }
    destruct (IH _ _ _ Hinv' Hi' Hn') as (p'' & Hi'' & Hn'').
    exists p''. split; [done|]. simpl.
    eapply within_mono; [|exact Hn'']. unfold steps_of. lia.
  - assert (Hi' : sys_threads (step_thread key_equal st j) !! i = Some p).
    { rewrite <- Hi. unfold step_thread.
      destruct (sys_threads st !! j) as [[r| |X op k]|]; try done.
      destruct (exec_op key_equal op (sys_mem st)) as [[x m']|]; [|done].
      simpl. by rewrite list_lookup_insert_ne. }
    by apply (IH _ _ _ Hinv' Hi').
Qed.

(** A worker that has taken all the steps of its bound has finished. *)
Lemma worker_finished fuel workers sched i w :
  uses_back_to_back target = false →
  Forall (worker_ok empty_key_sentinel) workers →
  workers !! i = Some w →
  ((2 * worker_lanes w + 2) * fuel ≤ steps_of i sched)%nat →
  ∃ p, sys_threads (run_sched key_equal sched
                      (launch capacity empty_key_sentinel empty_value_sentinel hash target fuel
                         workers)) !! i = Some p ∧
       ∀ X (op : atomic_op X) k, p ≠ Vis op k.
Proof.
  intros Hb Hok Hw Hsteps.
  destruct (run_sched_within sched _ i ((2 * worker_lanes w + 2) * fuel)
              (worker_prog capacity empty_key_sentinel empty_value_sentinel hash target fuel w)
              (launch_inv fuel workers Hok)) as (p & Hp & Hn).
  { simpl. by rewrite list_lookup_fmap, Hw. }
  { by apply worker_prog_within. }
  exists p. split; [done|]. intros X op k ->.
  replace (_ - _)%nat with 0%nat in Hn by lia. done.
Qed.

End safety_facts.


Lemma int_functors_ok : functors_ok int_hash int_key_equal.
Proof.
  unfold int_key_equal. split.
  - intros a. apply Z.eqb_refl.
  - intros a b. apply Z.eqb_sym.
  - intros a b c Hab Hbc. apply Z.eqb_eq in Hab, Hbc. apply Z.eqb_eq. congruence.
  - intros a b Hab. apply Z.eqb_eq in Hab. by subst.
Qed.

(** * The claims *)

(** C1. Round trip of the static map: distinct keys inserted one after
    the other into a map with room for them are all inserted; afterwards
    [find] on an inserted key returns the slot that holds the key with
    its value and [contains] returns [true]; and, as long as one slot is
    left empty, for a key that was never inserted [contains] returns
    [false] and [find] returns [end()]. *)
Theorem static_map_round_trip
    (capacity : nat) (empty_key_sentinel empty_value_sentinel : Z) (hash : Z → nat)
    (key_equal : Z → Z → bool) (target : build) (fuel : nat) (pairs : list pair_type) :
  functors_ok hash key_equal →
  (0 < capacity)%nat → (capacity < fuel)%nat →
  Forall (λ p : pair_type, p.1 ≠ empty_key_sentinel) pairs →
  distinct_keys key_equal pairs →
  (length pairs ≤ capacity)%nat →
  ∃ m,
    insert_all capacity empty_key_sentinel empty_value_sentinel hash key_equal target fuel pairs
      (initialize empty_key_sentinel empty_value_sentinel capacity)
    = Some (replicate (length pairs) true, m) ∧
    (∀ k v, (k, v) ∈ pairs →
       ∃ it, run key_equal (find capacity empty_key_sentinel hash fuel k) m = Some (it, m) ∧
             m !! it = Some (k, v) ∧
             run key_equal (contains capacity empty_key_sentinel hash fuel k) m
             = Some (true, m)) ∧
    ((length pairs < capacity)%nat →
     ∀ k, Forall (λ p : pair_type, key_equal p.1 k = false) pairs →
       run key_equal (contains capacity empty_key_sentinel hash fuel k) m = Some (false, m) ∧
       run key_equal (find capacity empty_key_sentinel hash fuel k) m
       = Some (end_ capacity, m)).
Proof.
  intros Hf Hcap Hfuel Hkeys Hdist Hlen.
  destruct (insert_all_stores capacity empty_key_sentinel empty_value_sentinel hash key_equal
              target Hcap Hf fuel pairs [] _
              (stores_initialize capacity empty_key_sentinel empty_value_sentinel hash
                 key_equal))
    as (m & Hall & HI & Hocc & _ & Hin & Hout); [done..|].
  simpl in *. exists m. split; [done|]. split.
  - intros k v Hkv. destruct (Hin _ Hkv) as [j Hj]. exists j.
    assert (Hk : k ≠ empty_key_sentinel)
      by apply (proj1 (Forall_forall _ _) Hkeys _ Hkv).
    destruct (find_present capacity empty_key_sentinel empty_value_sentinel hash key_equal
                Hcap Hf fuel m j k v HI Hj Hk Hfuel) as [Hfind Hcont].
    done.
  - intros Hlt k Hk.
    assert (Hemp : ∃ j (s : pair_type), m !! j = Some s ∧ s.1 = empty_key_sentinel).
    { eapply occupied_lt_empty; [exact Hcap|]. destruct HI as [-> _]. lia. }
    assert (Hother : ∀ j (s : pair_type), m !! j = Some s → s.1 ≠ empty_key_sentinel →
                       key_equal s.1 k = false).
    { intros j s Hj Hne. by apply (proj1 (Forall_forall _ _) Hk _ (Hout j s Hj Hne)). }
    destruct (find_absent _ _ _ _ _ Hcap fuel m k HI Hemp Hother Hfuel) as [Hfind Hcont].
    done.
Qed.

Lemma static_map_round_trip_witness :
  ∃ m,
    insert_all 5 (-1) (-1) int_hash int_key_equal volta 6 [(7, 70); (12, 120); (3, 30)]
      (initialize (-1) (-1) 5)
    = Some (replicate 3 true, m) ∧
    (∀ k v, (k, v) ∈ [(7, 70); (12, 120); (3, 30)] →
       ∃ it, run int_key_equal (find 5 (-1) int_hash 6 k) m = Some (it, m) ∧
             m !! it = Some (k, v) ∧
             run int_key_equal (contains 5 (-1) int_hash 6 k) m = Some (true, m)) ∧
    ((3 < 5)%nat →
     ∀ k, Forall (λ p : pair_type, int_key_equal p.1 k = false) [(7, 70); (12, 120); (3, 30)] →
       run int_key_equal (contains 5 (-1) int_hash 6 k) m = Some (false, m) ∧
       run int_key_equal (find 5 (-1) int_hash 6 k) m = Some (end_ 5, m)).
Proof.
  apply (static_map_round_trip 5 (-1) (-1) int_hash int_key_equal volta 6
           [(7, 70); (12, 120); (3, 30)]).
  - exact int_functors_ok.
  - lia.
  - lia.
  - repeat constructor; simpl; lia.
  - simpl. repeat constructor.
  - simpl. lia.
Defined.

(** C2. Uniqueness in the static map: a bulk insert is any number of
    single workers and cooperative groups, any of them with the same or
    equal keys, started on an initialised map; after every prefix of
    every interleaving of their atomic operations no two slots hold
    equal keys other than the sentinel. *)
Theorem static_map_unique_keys
    (capacity : nat) (empty_key_sentinel empty_value_sentinel : Z) (hash : Z → nat)
    (key_equal : Z → Z → bool) (target : build) (fuel : nat) (workers : list worker)
    (sched : list nat) :
  functors_ok hash key_equal →
  (0 < capacity)%nat →
  Forall (worker_ok empty_key_sentinel) workers →
  unique_keys empty_key_sentinel key_equal
    (sys_mem (run_sched key_equal sched
                (launch capacity empty_key_sentinel empty_value_sentinel hash target fuel
                   workers))).
Proof.
  intros Hf Hcap Hw.
  assert (Hinv : sys_inv capacity empty_key_sentinel empty_value_sentinel hash key_equal
                   (run_sched key_equal sched
                      (launch capacity empty_key_sentinel empty_value_sentinel hash target
                         fuel workers))).
  { eapply run_sched_inv; eauto. eapply launch_inv; eauto. }
  destruct Hinv as [(_ & Hnh & _) _]. by eapply no_hole_unique.
Qed.

(** In every interleaving of insert workers, a worker that is about to
    call the user's [key_equal] calls it on two keys other than the
    sentinel. *)
Lemma key_equal_off_sentinel
    (capacity : nat) (empty_key_sentinel empty_value_sentinel : Z) (hash : Z → nat)
    (key_equal : Z → Z → bool) (target : build) (fuel : nat) (workers : list worker)
    (sched : list nat) (i : nat) (lhs rhs : Z) (k : bool → prog bool) :
  functors_ok hash key_equal →
  (0 < capacity)%nat →
  Forall (worker_ok empty_key_sentinel) workers →
  sys_threads (run_sched key_equal sched
                 (launch capacity empty_key_sentinel empty_value_sentinel hash target fuel
                    workers)) !! i = Some (Vis (KeyEqual lhs rhs) k) →
  lhs ≠ empty_key_sentinel ∧ rhs ≠ empty_key_sentinel.
Proof.
  intros Hf Hcap Hw Hi.
  assert (Hinv : sys_inv capacity empty_key_sentinel empty_value_sentinel hash key_equal
                   (run_sched key_equal sched
                      (launch capacity empty_key_sentinel empty_value_sentinel hash target
                         fuel workers))).
  { eapply run_sched_inv; eauto. eapply launch_inv; eauto. }
  exact (pending_key_equal _ _ _ _ _ _ _ _ _ Hinv Hi).
Qed.

Lemma static_map_unique_keys_witness :
  unique_keys (-1) int_key_equal
    (sys_mem (run_sched int_key_equal [0; 1; 2; 0; 1; 1; 2; 0; 2; 1; 1; 0; 2; 1; 1; 1]%nat
                (launch 5 (-1) (-1) int_hash volta 8
                   [Single (7, 70); Group 4 (7, 71); Single (12, 120)]))).
Proof.
  apply static_map_unique_keys.
  - exact int_functors_ok.
  - lia.
  - repeat constructor; simpl; lia.
Defined.

(** ** The back-to-back protocol under interference *)

Lemma value_cas_loop_env key_equal empty_value fuel env i (insert_pair : pair_type) m :
  run_env key_equal env
    (value_cas_loop empty_value fuel i insert_pair false ≫= λ _, mret SUCCESS) m =
  spec_recas_until_success empty_value fuel env i insert_pair.2 m.
Proof.
  revert env m. induction fuel as [|fuel IH]; intros env m; [done|].
  simpl. destruct (interfere env m !! i) as [s|] eqn:Hs; simpl; [|done].
  unfold compare_exchange_strong. destruct (bitwise_compare s.2 empty_value) eqn:Hc.
  - simpl. by destruct fuel.
  - rewrite insert_same; [|done]. apply IH.
Qed.

(** In the row (success, fail) the worker can only return SUCCESS, with
    its value in the value cell. *)
Lemma spec_recas_until_success_result empty_value fuel env i v m r m' :
  spec_recas_until_success empty_value fuel env i v m = Some (r, m') →
  r = SUCCESS ∧ ∃ s : pair_type, m' !! i = Some s ∧ s.2 = v.
Proof.
  revert env m. induction fuel as [|fuel IH]; intros env m; [done|]. simpl.
  destruct (interfere env m !! i) as [s|] eqn:Hs; simpl; [|done].
  destruct (bitwise_compare s.2 empty_value).
  - intros [= <- <-]. split; [done|]. exists (s.1, v). split; [|done].
    apply list_lookup_insert_eq. by eapply lookup_lt_Some.
  - apply IH.
Qed.

(** C3. The back-to-back protocol under interference follows the state
    table.  [e0] and [e1] are what the other workers do before the key
    CAS and before the value CAS, [rest] what they do later.  When the
    key CAS succeeds and the value CAS fails, the worker re-CASes the
    value cell, expecting [empty_value] each time, until that succeeds,
    and returns SUCCESS.  When the key CAS fails and the value CAS
    succeeds, the worker stores [empty_value] into the value cell and
    returns DUPLICATE if the observed key equals its key under the
    user's equality and CONTINUE otherwise. *)
Theorem back_to_back_cas_state_table
    (empty_key_sentinel empty_value_sentinel : Z) (key_equal : Z → Z → bool) (fuel : nat)
    (i : nat) (k v : Z) (e0 e1 : mem → mem) (rest : list (mem → mem)) (m : mem)
    (s0 : pair_type) :
  e0 m !! i = Some s0 →
  (s0.1 = empty_key_sentinel →
   ∀ s1 : pair_type,
     e1 (<[i := (k, s0.2)]> (e0 m)) !! i = Some s1 → s1.2 ≠ empty_value_sentinel →
     run_env key_equal (e0 :: e1 :: rest)
       (back_to_back_cas empty_key_sentinel empty_value_sentinel fuel i (k, v)) m =
     spec_recas_until_success empty_value_sentinel fuel rest i v
       (e1 (<[i := (k, s0.2)]> (e0 m)))) ∧
  (s0.1 ≠ empty_key_sentinel →
   ∀ s1 : pair_type,
     e1 (e0 m) !! i = Some s1 → s1.2 = empty_value_sentinel →
     run_env key_equal (e0 :: e1 :: rest)
       (back_to_back_cas empty_key_sentinel empty_value_sentinel fuel i (k, v)) m =
     spec_revert_then_check key_equal empty_value_sentinel rest i k s0.1
       (<[i := (s1.1, v)]> (e1 (e0 m)))).
Proof.
  intros Hs0. split.
  - intros He s1 Hs1 Hne. unfold back_to_back_cas. simpl. rewrite Hs0. simpl.
    rewrite He, compare_exchange_strong_same. simpl. rewrite Hs1. simpl.
    rewrite compare_exchange_strong_other; [|done]. simpl.
    rewrite insert_same; [|done].
    apply (value_cas_loop_env key_equal empty_value_sentinel fuel rest i (k, v)).
  - intros Hne s1 Hs1 He. unfold back_to_back_cas. simpl. rewrite Hs0. simpl.
    rewrite compare_exchange_strong_other; [|done]. simpl.
    rewrite insert_same; [|done]. rewrite Hs1. simpl.
    rewrite He, compare_exchange_strong_same. simpl.
    unfold spec_revert_then_check.
    destruct (interfere rest (<[i:=(s1.1, v)]> (e1 (e0 m))) !! i) as [s2|]; simpl; [|done].
    by destruct (key_equal k s0.1).
Qed.

(** Another worker's value CAS got in between and is reverted later. *)
Lemma back_to_back_cas_state_table_witness :
  run_env int_key_equal [id; <[0%nat := (7, 99)]>; <[0%nat := (7, -1)]>]
    (back_to_back_cas (-1) (-1) 3 0 (7, 70)) [(-1, -1)]
  = Some (SUCCESS, [(7, 70)]).
Proof.
  pose proof (back_to_back_cas_state_table (-1) (-1) int_key_equal 3 0 7 70
                id (<[0%nat := (7, 99)]>) [ <[0%nat := (7, -1)]> ] [(-1, -1)] (-1, -1)
                eq_refl) as [Hrow _].
  rewrite (Hrow eq_refl (7, 99) eq_refl); [reflexivity|]. simpl. lia.
Defined.

(** The key cell was taken by another worker whose value is not yet
    written: the value CAS succeeds and is reverted. *)
Example back_to_back_cas_revert :
  run_env int_key_equal [<[0%nat := (5, -1)]>; id]
    (back_to_back_cas (-1) (-1) 3 0 (7, 70)) [(-1, -1)]
  = Some (CONTINUE, [(5, -1)]).
Proof. reflexivity. Qed.

(** ** Size accounting *)

Lemma count_true_nonneg results : 0 ≤ count_true results.
Proof. unfold count_true. lia. Qed.

Lemma grid_size_for_pos num_keys : 0 < num_keys → kernel_runs (grid_size_for num_keys) = true.
Proof.
  intros Hn. unfold kernel_runs, grid_size_for, tile_size, stride, block_size.
  apply Z.ltb_lt. apply Z.div_str_pos. lia.
Qed.

Lemma size_add_mod a b : size_add (a `mod` size_max) b = (a + b) `mod` size_max.
Proof. unfold size_add. by rewrite Zplus_mod_idemp_l. Qed.

Lemma run_sched_no_threads key_equal {R} sched (st : sys R) :
  sys_threads st = [] → run_sched key_equal sched st = st.
Proof.
  unfold run_sched. revert st. induction sched as [|i sched IH]; intros st Hst; [done|].
  simpl. assert (Hstep : step_thread key_equal st i = st).
  { unfold step_thread. by rewrite Hst. }
  rewrite Hstep. by apply IH.
Qed.

Section size_accounting.
Variable hash : Z → nat.
Variable key_equal : Z → Z → bool.
Variable target : build.
Variable fuel : nat.

Local Abbreviation results_of := (per_item_results hash key_equal target fuel).

Lemma static_map_insert_size sched pairs sm sm' trace n :
  0 ≤ size_ sm < size_max →
  static_map_insert hash key_equal target fuel sched pairs sm = Some (sm', trace) →
  count_true <$> results_of sched pairs sm = Some n →
  size_ sm' = size_add (size_ sm) n.
Proof.
  intros Hrange. unfold static_map_insert, per_item_results.
  destruct (Z.eqb_spec (Z.of_nat (length pairs)) 0) as [H0|H0].
  - intros [= <- <-]. destruct pairs; [|simpl in H0; lia]. simpl.
    rewrite run_sched_no_threads; [|done]. simpl. intros [= <-].
    unfold size_add, count_true. simpl. rewrite Z.add_0_r, Z.mod_small; done.
  - rewrite grid_size_for_pos; [|lia]. unfold insert_kernel. simpl.
    destruct (mapM finished _) as [results|]; simpl; [|done].
    intros [= <- <-]. intros [= <-]. simpl.
    unfold size_add. rewrite Z.add_0_l. by rewrite Zplus_mod_idemp_r.
Qed.

Lemma static_map_insert_if_size sched pairs stencil pred sm sm' trace n :
  0 ≤ size_ sm < size_max →
  static_map_insert_if hash key_equal target fuel sched pairs stencil pred sm
    = Some (sm', trace) →
  count_true <$> results_of sched (selected pairs stencil pred) sm = Some n →
  size_ sm' = size_add (size_ sm) n.
Proof.
  intros Hrange. unfold static_map_insert_if, per_item_results.
  destruct (Z.eqb_spec (Z.of_nat (length pairs)) 0) as [H0|H0].
  - intros [= <- <-]. destruct pairs; [|simpl in H0; lia]. simpl.
    rewrite run_sched_no_threads; [|done]. simpl. intros [= <-].
    unfold size_add, count_true. simpl. rewrite Z.add_0_r, Z.mod_small; done.
  - rewrite grid_size_for_pos; [|lia]. unfold insert_if_n_kernel, insert_kernel. simpl.
    destruct (mapM finished _) as [results|]; simpl; [|done].
    intros [= <- <-]. intros [= <-]. simpl.
    unfold size_add. rewrite Z.add_0_l. by rewrite Zplus_mod_idemp_r.
Qed.

(** One call adds its success count to [size_]. *)
Lemma do_call_size c sm sm' trace n :
  0 ≤ size_ sm < size_max →
  do_call hash key_equal target fuel c sm = Some (sm', trace) →
  call_successes hash key_equal target fuel c sm = Some n →
  size_ sm' = size_add (size_ sm) n ∧ 0 ≤ n.
Proof.
  intros Hrange Hcall Hn. split.
  - destruct c as [sched pairs|sched pairs stencil pred]; simpl in *.
    + by eapply static_map_insert_size.
    + by eapply static_map_insert_if_size.
  - destruct c; simpl in Hn;
      destruct (per_item_results _ _ _ _ _ _ _) as [results|]; simpl in Hn; try done;
      injection Hn as <-; apply count_true_nonneg.
Qed.

Lemma size_add_range a b : 0 ≤ size_add a b < size_max.
Proof. unfold size_add. apply Z.mod_pos_bound. done. Qed.

Lemma run_calls_size calls sm sm' ns :
  0 ≤ size_ sm < size_max →
  run_calls hash key_equal target fuel calls sm = Some (sm', ns) →
  size_ sm' = (size_ sm + sum_Z ns) `mod` size_max ∧ 0 ≤ sum_Z ns.
Proof.
  revert sm sm' ns. induction calls as [|c rest IH]; intros sm sm' ns Hrange; simpl.
  - intros [= <- <-]. simpl. rewrite Z.add_0_r, Z.mod_small; done.
  - destruct (call_successes _ _ _ _ c sm) as [n|] eqn:Hn; simpl; [|done].
    destruct (do_call _ _ _ _ c sm) as [[sm1 trace]|] eqn:Hc; simpl; [|done].
    destruct (run_calls _ _ _ _ rest sm1) as [[sm2 ns']|] eqn:Hr; simpl; [|done].
    intros [= <- <-].
    destruct (do_call_size c sm sm1 trace n Hrange Hc Hn) as [Hs1 Hn0].
    destruct (IH sm1 sm2 ns') as [Hs2 Hsum]; [rewrite Hs1; apply size_add_range|done|].
    simpl. split; [|lia]. rewrite Hs2, Hs1. unfold size_add.
    rewrite Zplus_mod_idemp_l. f_equal. lia.
Qed.

End size_accounting.

(** *** Every call returns when its kernel finishes *)

Section calls_return.
Variable hash : Z → nat.
Variable key_equal : Z → Z → bool.
Variable target : build.
Variable fuel : nat.

Lemma call_successes_same c a b :
  same_device a b →
  call_successes hash key_equal target fuel c a = call_successes hash key_equal target fuel c b.
Proof.
  intros (Hc & Hk & Hv & Hs). destruct c; unfold call_successes, per_item_results;
    by rewrite Hc, Hk, Hv, Hs.
Qed.

Lemma call_slots_same c a b :
  same_device a b →
  call_slots hash key_equal target fuel c a = call_slots hash key_equal target fuel c b.
Proof. intros (Hc & Hk & Hv & Hs). unfold call_slots. by rewrite Hc, Hk, Hv, Hs. Qed.

Lemma kernels_finish_same calls a b :
  same_device a b →
  kernels_finish hash key_equal target fuel calls a
  = kernels_finish hash key_equal target fuel calls b.
Proof.
  revert a b. induction calls as [|c rest IH]; intros a b Hab; [done|]. simpl.
  rewrite (call_successes_same c a b Hab).
  destruct (call_successes _ _ _ _ c b); [|done]. apply IH.
  destruct Hab as (Hc & Hk & Hv & Hs). unfold same_device. simpl.
  by rewrite (call_slots_same c a b).
Qed.

(** The host returns from a call whose kernel has finished, and the map
    holds the slots the kernel has left. *)
Lemma do_call_returns c sm n :
  call_successes hash key_equal target fuel c sm = Some n →
  ∃ sm' trace,
    do_call hash key_equal target fuel c sm = Some (sm', trace) ∧
    same_device (with_slots (call_slots hash key_equal target fuel c sm) sm) sm'.
Proof.
  assert (Hgen : ∀ sched items,
    is_Some (per_item_results hash key_equal target fuel sched items sm) →
    ∃ sm1, insert_kernel hash key_equal target fuel sched items (memset_counter sm) = Some sm1 ∧
           capacity_ sm1 = capacity_ sm ∧ empty_key_sentinel_ sm1 = empty_key_sentinel_ sm ∧
           empty_value_sentinel_ sm1 = empty_value_sentinel_ sm ∧
           slots_ sm1 =
             sys_mem
               (run_sched key_equal sched
                  {| sys_mem := slots_ sm;
                     sys_threads :=
                       map (insert_cg (capacity_ sm) (empty_key_sentinel_ sm)
                              (empty_value_sentinel_ sm) hash target fuel (Z.to_nat tile_size))
                         items |})).
  { intros sched items [results Hr]. unfold per_item_results in Hr.
    unfold insert_kernel. simpl. rewrite Hr. simpl. by eexists. }
  destruct c as [sched pairs|sched pairs stencil pred]; simpl; intros Hn.
  - unfold static_map_insert.
    destruct (Z.eqb_spec (Z.of_nat (length pairs)) 0) as [H0|H0].
    + destruct pairs; [|simpl in H0; lia]. exists sm, []. split; [done|].
      unfold same_device, call_slots. simpl. by rewrite run_sched_no_threads.
    + rewrite grid_size_for_pos; [|lia].
      destruct (Hgen sched pairs) as (sm1 & -> & Hc & Hk & Hv & Hs).
      { by destruct (per_item_results _ _ _ _ _ _ _). }
      simpl. eexists _, _. split; [done|]. unfold same_device, call_slots. simpl.
      by rewrite Hc, Hk, Hv, Hs.
  - unfold static_map_insert_if.
    destruct (Z.eqb_spec (Z.of_nat (length pairs)) 0) as [H0|H0].
    + destruct pairs; [|simpl in H0; lia]. exists sm, []. split; [done|].
      unfold same_device, call_slots. simpl. by rewrite run_sched_no_threads.
    + rewrite grid_size_for_pos; [|lia]. unfold insert_if_n_kernel.
      destruct (Hgen sched (selected pairs stencil pred)) as (sm1 & -> & Hc & Hk & Hv & Hs).
      { by destruct (per_item_results _ _ _ _ _ _ _). }
      simpl. eexists _, _. split; [done|]. unfold same_device, call_slots. simpl.
      by rewrite Hc, Hk, Hv, Hs.
Qed.

(** The calls return, one after the other, when their kernels finish. *)
Lemma run_calls_returns calls sm :
  kernels_finish hash key_equal target fuel calls sm = true →
  is_Some (run_calls hash key_equal target fuel calls sm).
Proof.
  revert sm. induction calls as [|c rest IH]; intros sm; simpl; [by eexists|].
  destruct (call_successes _ _ _ _ c sm) as [n|] eqn:Hn; [|done]. intros Hrest.
  destruct (do_call_returns c sm n Hn) as (sm1 & trace & -> & Hsame). simpl.
  rewrite (kernels_finish_same rest _ sm1 Hsame) in Hrest.
  destruct (IH sm1 Hrest) as [[sm2 ns] ->]. simpl. by eexists.
Qed.

End calls_return.

(** C4. Size accounting of the static map: a sequence of bulk [insert]
    and [insert_if] calls on a new map, the kernel of each of which
    finishes, returns, and then [size_] is the sum, in [std::size_t], of
    the numbers of items whose insert reported success in each call; it
    is that sum itself as long as the sum fits. *)
Theorem static_map_size_accounting
    (hash : Z → nat) (key_equal : Z → Z → bool) (target : build) (fuel : nat)
    (capacity : nat) (empty_key_sentinel empty_value_sentinel counter : Z)
    (calls : list (bulk_call)) :
  kernels_finish hash key_equal target fuel calls
    (static_map_new capacity empty_key_sentinel empty_value_sentinel counter) = true →
  ∃ (sm : static_map) (successes : list Z),
    run_calls hash key_equal target fuel calls
      (static_map_new capacity empty_key_sentinel empty_value_sentinel counter)
    = Some (sm, successes) ∧
    size_ sm = sum_Z successes `mod` size_max ∧
    (sum_Z successes < size_max → size_ sm = sum_Z successes).
Proof.
  intros Hfinish.
  destruct (run_calls_returns hash key_equal target fuel calls _ Hfinish)
    as [[sm successes] Hrun].
  exists sm, successes. split; [done|].
  assert (Hrange : 0 ≤ size_ (static_map_new capacity empty_key_sentinel empty_value_sentinel
                                 counter) < size_max) by done.
  destruct (run_calls_size hash key_equal target fuel calls _ sm successes Hrange Hrun)
    as [Hsize Hsum].
  simpl in Hsize. split; [done|]. intros Hlt. rewrite Hsize. apply Z.mod_small. lia.
Qed.

Lemma static_map_size_accounting_witness :
  ∃ (sm : static_map) (successes : list Z),
    run_calls int_hash int_key_equal volta 8
      [BulkInsert (concat (replicate 40 [0; 1; 2]%nat)) [(0, 0); (0, 1); (0, 2)];
       BulkInsertIf (replicate 40 0 ++ replicate 40 1 ++ replicate 40 2)%nat
         [(1, 10); (2, 20); (3, 30)] [1; 0; 1] Z.odd;
       BulkInsert [] []]
      (static_map_new 5 (-1) (-1) 17)
    = Some (sm, successes) ∧
    size_ sm = sum_Z successes `mod` size_max ∧
    (sum_Z successes < size_max → size_ sm = sum_Z successes).
Proof.
  apply (static_map_size_accounting int_hash int_key_equal volta 8 5 (-1) (-1) 17
           [BulkInsert (concat (replicate 40 [0; 1; 2]%nat)) [(0, 0); (0, 1); (0, 2)];
            BulkInsertIf (replicate 40 0 ++ replicate 40 1 ++ replicate 40 2)%nat
              [(1, 10); (2, 20); (3, 30)] [1; 0; 1] Z.odd;
            BulkInsert [] []]).
  vm_compute. reflexivity.
Defined.

(** ** Lookups leave the map as it is *)

Lemma read_only_bind {A B} (p : prog A) (f : A → prog B) :
  read_only p → (∀ r, read_only (f r)) → read_only (p ≫= f).
Proof.
  intros Hp Hf. induction p as [r| |X op k IH]; simpl; [apply Hf|done|].
  destruct Hp as [Hop Hk]. split; [done|]. intros x. by apply IH.
Qed.

Lemma lanes_load_read_only current_slot : read_only (lanes_load current_slot).
Proof.
  induction current_slot as [|s rest IH]; [done|]. simpl. split; [done|]. intros e.
  apply (read_only_bind (lanes_load rest)); [done|]. by intros keys.
Qed.

Lemma lanes_match_read_only empty_key_sentinel existing_key k :
  read_only (lanes_match empty_key_sentinel existing_key k).
Proof.
  induction existing_key as [|e rest IH]; [done|]. simpl.
  destruct (negb (bitwise_compare e empty_key_sentinel)); simpl.
  - split; [done|]. intros b.
    apply (read_only_bind (lanes_match _ rest k)); [done|]. by intros bs.
  - apply (read_only_bind (lanes_match _ rest k)); [done|]. by intros bs.
Qed.

Lemma find_cg_loop_read_only capacity empty_key_sentinel fuel cg_size k current_slot :
  read_only (find_cg_loop capacity empty_key_sentinel fuel cg_size k current_slot).
Proof.
  revert current_slot. induction fuel as [|fuel IH]; intros current_slot; [done|]. simpl.
  apply (read_only_bind (lanes_load _)); [apply lanes_load_read_only|]. intros existing_key.
  apply (read_only_bind (lanes_match _ _ _)); [apply lanes_match_read_only|]. intros found.
  destruct (negb _); [done|]. destruct (negb _); [done|]. apply IH.
Qed.

Lemma contains_cg_loop_read_only capacity empty_key_sentinel fuel cg_size k current_slot :
  read_only (contains_cg_loop capacity empty_key_sentinel fuel cg_size k current_slot).
Proof.
  revert current_slot. induction fuel as [|fuel IH]; intros current_slot; [done|]. simpl.
  apply (read_only_bind (lanes_load _)); [apply lanes_load_read_only|]. intros existing_key.
  apply (read_only_bind (lanes_match _ _ _)); [apply lanes_match_read_only|]. intros found.
  destruct (negb _); [done|]. destruct (negb _); [done|]. apply IH.
Qed.

Lemma find_one_read_only hash fuel sm k : read_only (find_one hash fuel sm k).
Proof.
  unfold find_one. apply (read_only_bind (find_cg _ _ _ _ _ _)).
  - apply find_cg_loop_read_only.
  - intros found. by destruct (decide _).
Qed.

Lemma with_slots_same sm : with_slots (slots_ sm) sm = sm.
Proof. by destruct sm. Qed.

Lemma run_each_read_only key_equal {R} (ps : list (prog R)) m rs m' :
  Forall read_only ps → run_each key_equal ps m = Some (rs, m') →
  m' = m ∧ Forall2 (λ p r, run key_equal p m = Some (r, m)) ps rs.
Proof.
  revert m rs m'. induction ps as [|p rest IH]; intros m rs m' Hro; simpl.
  - intros [= <- <-]. by split.
  - inversion Hro as [|? ? Hp Hrest]; subst.
    destruct (run key_equal p m) as [[r m1]|] eqn:Hrun; simpl; [|done].
    destruct (run_each key_equal rest m1) as [[rs1 m2]|] eqn:Hre; simpl; [|done].
    intros [= <- <-]. pose proof (run_read_only _ _ _ _ _ Hp Hrun) as ->.
    destruct (IH _ _ _ Hrest Hre) as [-> Hall]. split; [done|]. by constructor.
Qed.

Lemma find_one_value hash key_equal fuel sm k m v :
  run key_equal (find_one hash fuel sm k) m = Some (v, m) →
  v = empty_value_sentinel_ sm ∨ ∃ j (s : pair_type), m !! j = Some s ∧ s.2 = v.
Proof.
  unfold find_one, mbind, prog_mbind. rewrite run_bind.
  destruct (run key_equal (find_cg _ _ _ _ _ _) m) as [[found m1]|] eqn:Hf; [|done].
  pose proof (run_read_only _ _ _ _ _ (find_cg_loop_read_only _ _ _ _ _ _) Hf) as ->.
  destruct (decide _); simpl.
  - intros [= <-]. by left.
  - destruct (m !! found) as [s|] eqn:Hs; simpl; [|done]. intros [= <-]. right. by exists found, s.
Qed.

(** C9. Bulk [find] and [contains] leave the map as it is: when the call
    is over, the map (slot array, [size_], counter) is the one before
    the call, and the output range holds one result per key, a slot's
    value or the empty value sentinel for [find] and a bool for
    [contains], followed by what it held before.  The device-side
    [find] and [contains] of a single worker leave the slot array as it
    is too. *)
Theorem static_map_lookup_frame
    (hash : Z → nat) (key_equal : Z → Z → bool) (fuel : nat) (keys : list Z)
    (sm : static_map) :
  (∀ output sm' output' trace,
     static_map_find hash key_equal fuel keys output sm = Some (sm', output', trace) →
     sm' = sm ∧
     ∃ values, length values = length keys ∧
               output' = values ++ drop (length keys) output ∧
               Forall (λ v, v = empty_value_sentinel_ sm ∨
                            ∃ j (s : pair_type), slots_ sm !! j = Some s ∧ s.2 = v) values) ∧
  (∀ output sm' output' trace,
     static_map_contains hash key_equal fuel keys output sm = Some (sm', output', trace) →
     sm' = sm ∧
     ∃ found : list bool, length found = length keys ∧
                          output' = found ++ drop (length keys) output) ∧
  (∀ k m it m',
     run key_equal (find (capacity_ sm) (empty_key_sentinel_ sm) hash fuel k) m
     = Some (it, m') → m' = m) ∧
  (∀ k m b m',
     run key_equal (contains (capacity_ sm) (empty_key_sentinel_ sm) hash fuel k) m
     = Some (b, m') → m' = m).
Proof.
  split; [|split; [|split]].
  3:{ intros k m it m' Hrun. eapply run_read_only; [|exact Hrun]. apply find_loop_read_only. }
  3:{ intros k m b m' Hrun. eapply run_read_only; [|exact Hrun].
      apply contains_loop_read_only. }
  - intros output sm' output' trace. unfold static_map_find.
    destruct (Z.eqb_spec (Z.of_nat (length keys)) 0) as [H0|H0].
    { intros [= <- <- <-]. split; [done|]. exists []. destruct keys; [|simpl in H0; lia].
      simpl. by rewrite drop_0. }
    rewrite grid_size_for_pos; [|lia]. unfold find_kernel.
    destruct (run_each _ _ _) as [[values m]|] eqn:Hre; simpl; [|done].
    intros [= <- <- <-].
    assert (Hro : Forall read_only (map (find_one hash fuel sm) keys)).
    { apply Forall_fmap, Forall_forall. intros k _. apply find_one_read_only. }
    destruct (run_each_read_only _ _ _ _ _ Hro Hre) as [-> Hall].
    split; [apply with_slots_same|]. exists values.
    pose proof (Forall2_length _ _ _ Hall) as Hlen. rewrite length_map in Hlen.
    split; [done|]. split; [unfold write_range; by rewrite <- Hlen|].
    apply Forall_forall. intros v Hv. apply list_elem_of_lookup in Hv as [i Hi].
    destruct (Forall2_lookup_r _ _ _ _ _ Hall Hi) as (p & Hp & Hrun).
    rewrite list_lookup_fmap in Hp. destruct (keys !! i) as [k|]; [|done].
    injection Hp as <-. by eapply find_one_value.
  - intros output sm' output' trace. unfold static_map_contains.
    destruct (Z.eqb_spec (Z.of_nat (length keys)) 0) as [H0|H0].
    { intros [= <- <- <-]. split; [done|]. exists []. destruct keys; [|simpl in H0; lia].
      simpl. by rewrite drop_0. }
    rewrite grid_size_for_pos; [|lia]. unfold contains_kernel.
    destruct (run_each _ _ _) as [[found m]|] eqn:Hre; simpl; [|done].
    intros [= <- <- <-].
    assert (Hro : Forall read_only
                    (map (contains_cg (capacity_ sm) (empty_key_sentinel_ sm) hash fuel
                            (Z.to_nat tile_size)) keys)).
    { apply Forall_fmap, Forall_forall. intros k _. apply contains_cg_loop_read_only. }
    destruct (run_each_read_only _ _ _ _ _ Hro Hre) as [-> Hall].
    split; [apply with_slots_same|]. exists found.
    pose proof (Forall2_length _ _ _ Hall) as Hlen. rewrite length_map in Hlen.
    split; [done|]. unfold write_range. by rewrite <- Hlen.
Qed.

Lemma static_map_lookup_frame_witness :
  example_map = example_map ∧
  ∃ values, length values = 3%nat ∧
            [10; -1; 30; 7] = values ++ drop 3 [7; 7; 7; 7] ∧
            Forall (λ v, v = -1 ∨
                         ∃ j (s : pair_type), slots_ example_map !! j = Some s ∧ s.2 = v)
              values.
Proof.
  apply (proj1 (static_map_lookup_frame int_hash int_key_equal 8 [1; 4; 3] example_map)
           [7; 7; 7; 7] example_map [10; -1; 30; 7] [Launch find_k 1 128]).
  reflexivity.
Defined.

(** ** Counting matches in the multimap *)

Lemma foldl_size_add acc counts :
  foldl size_add acc counts `mod` size_max = (acc + sum_Z counts) `mod` size_max.
Proof.
  revert acc. induction counts as [|c rest IH]; intros acc; simpl.
  - by rewrite Z.add_0_r.
  - rewrite IH. unfold size_add. rewrite Zplus_mod_idemp_l. f_equal. lia.
Qed.

Lemma foldl_size_add_range acc counts :
  0 ≤ acc < size_max → 0 ≤ foldl size_add acc counts < size_max.
Proof.
  revert acc. induction counts as [|c rest IH]; intros acc Hacc; [done|]. simpl.
  apply IH, Z.mod_pos_bound. done.
Qed.

Lemma foldl_size_add_0 counts : foldl size_add 0 counts = sum_Z counts `mod` size_max.
Proof.
  rewrite <- (Z.mod_small (foldl size_add 0 counts) size_max);
    [|by apply foldl_size_add_range].
  by rewrite foldl_size_add.
Qed.

Lemma sum_adjust counts :
  sum_Z (map (adjust true) counts) =
  sum_Z (map (adjust false) counts) + Z.of_nat (length (filter (λ c, c = 0) counts)).
Proof.
  induction counts as [|c rest IH]; [done|]. simpl. rewrite IH, filter_cons. unfold adjust.
  simpl. destruct (Z.eqb_spec c 0) as [->|Hne].
  - destruct (decide (0 = 0)); [|done]. simpl. lia.
  - destruct (decide (c = 0)); [done|]. lia.
Qed.

Section multimap_count.
Variable cg_size : nat.
Variable hash : Z → nat.
Variable fuel : nat.
Variable key_equal : Z → Z → bool.
Variable mm : static_multimap.

Hypothesis cg_size_pos : (0 < cg_size)%nat.

Local Abbreviation probe_count k :=
  (mm_count_loop cg_size (mm_capacity_ mm) (mm_empty_key_sentinel_ mm) fuel k
     (mm_initial_window cg_size hash (mm_capacity_ mm) k) 0).

Local Abbreviation counts_to := (counts_to cg_size hash fuel key_equal mm).

Lemma mm_count_loop_read_only capacity ek fuel' k current_slot counter :
  read_only (mm_count_loop cg_size capacity ek fuel' k current_slot counter).
Proof.
  revert current_slot counter. induction fuel' as [|fuel' IH]; intros current_slot counter;
    [done|]. simpl.
  apply (read_only_bind (lanes_load _)); [apply lanes_load_read_only|]. intros existing_key.
  apply (read_only_bind (lanes_match _ _ _)); [apply lanes_match_read_only|]. intros equals.
  destruct (g_any _); [done|]. apply IH.
Qed.

Lemma mm_count_loop_range capacity ek fuel' k current_slot counter m c m' :
  0 ≤ counter < size_max →
  run key_equal (mm_count_loop cg_size capacity ek fuel' k current_slot counter) m
    = Some (c, m') →
  0 ≤ c < size_max.
Proof.
  revert current_slot counter m. induction fuel' as [|fuel' IH];
    intros current_slot counter m Hrange; [done|]. simpl.
  unfold mbind, prog_mbind. rewrite run_bind.
  destruct (run key_equal (lanes_load current_slot) m) as [[existing_key m1]|]; [|done].
  rewrite run_bind.
  destruct (run key_equal (lanes_match ek existing_key k) m1) as [[equals m2]|]; [|done].
  destruct (g_any _).
  - simpl. intros [= <- <-]. apply Z.mod_pos_bound. done.
  - apply IH. apply Z.mod_pos_bound. done.
Qed.

Lemma mm_count_run is_outer k m :
  run key_equal (mm_count cg_size hash fuel is_outer mm k) m =
  match run key_equal (probe_count k) m with
  | Some (c, m') => Some (adjust is_outer c, m')
  | None => None
  end.
Proof.
  unfold mm_count, mbind, prog_mbind. rewrite run_bind.
  destruct (run key_equal _ m) as [[c m']|]; [|done]. unfold adjust.
  by destruct (is_outer && (c =? 0)).
Qed.

Lemma mm_count_read_only is_outer k : read_only (mm_count cg_size hash fuel is_outer mm k).
Proof.
  unfold mm_count. apply (read_only_bind (mm_count_loop _ _ _ _ _ _ _)).
  - apply mm_count_loop_read_only.
  - intros c. by destruct (is_outer && (c =? 0)).
Qed.




(** The kernel runs each key's probe and adds up what they count. *)
Lemma count_kernel_counts is_outer keys mm' :
  count_kernel cg_size hash fuel key_equal is_outer keys (with_counter 0 mm) = Some mm' →
  ∃ counts, Forall2 counts_to keys counts ∧ d_counter_ mm' = total is_outer counts.
Proof.
  unfold count_kernel. simpl.
  destruct (run_each _ _ _) as [[results m]|] eqn:Hre; simpl; [|done]. intros [= <-]. simpl.
  assert (Hro : Forall read_only (map (mm_count cg_size hash fuel is_outer (with_counter 0 mm))
                                    keys)).
  { apply Forall_fmap, Forall_forall. intros k _. apply mm_count_read_only. }
  destruct (run_each_read_only _ _ _ _ _ Hro Hre) as [-> Hall].
  rewrite foldl_size_add_0. unfold total.
  assert (Hc : ∃ counts, Forall2 counts_to keys counts ∧
                         results = map (adjust is_outer) counts).
  { clear Hre Hro. revert results Hall. induction keys as [|k rest IH]; intros results Hall.
    - inversion Hall; subst. by exists [].
    - inversion Hall as [|p r ps rs Hrun Hrest]; subst.
      destruct (IH _ Hrest) as (counts & Hcounts & ->).
      unfold mm_count, mbind, prog_mbind in Hrun. rewrite run_bind in Hrun. simpl in Hrun.
      destruct (run key_equal _ (mm_slots_ mm)) as [[c m']|] eqn:Hck; [|done].
      pose proof (run_read_only _ _ _ _ _ (mm_count_loop_read_only _ _ _ _ _ _) Hck) as ->.
      exists (c :: counts). split; [by constructor|]. simpl. f_equal.
      unfold adjust. destruct (is_outer && (c =? 0)); simpl in Hrun; congruence. }
  destruct Hc as (counts & Hcounts & ->). by exists counts.
Qed.

Lemma run_each_of_runs {R} (ps : list (prog R)) rs m :
  Forall2 (λ p r, run key_equal p m = Some (r, m)) ps rs →
  run_each key_equal ps m = Some (rs, m).
Proof.
  induction 1 as [|p r ps rs Hrun Hrest IH]; [done|]. simpl. rewrite Hrun. simpl.
  by rewrite IH.
Qed.

Lemma count_kernel_of_counts is_outer keys counts :
  Forall2 counts_to keys counts →
  ∃ mm', count_kernel cg_size hash fuel key_equal is_outer keys (with_counter 0 mm)
         = Some mm' ∧
         d_counter_ mm' = total is_outer counts.
Proof.
  intros Hall. unfold count_kernel. simpl.
  rewrite (run_each_of_runs _ (map (adjust is_outer) counts)).
  - simpl. eexists. split; [done|]. simpl. apply foldl_size_add_0.
  - induction Hall as [|k c keys' counts' Hk Hrest IH]; [constructor|].
    simpl. constructor; [|done].
    change (mm_count cg_size hash fuel is_outer (with_counter 0 mm) k)
      with (mm_count cg_size hash fuel is_outer mm k).
    rewrite mm_count_run. simpl. by rewrite Hk.
Qed.

Lemma mm_grid_size_pos num_keys :
  0 < num_keys → kernel_runs (mm_grid_size cg_size num_keys) = true.
Proof.
  intros Hn. unfold kernel_runs, mm_grid_size, stride, block_size.
  apply Z.ltb_lt. apply Z.div_str_pos. nia.
Qed.

Lemma mm_grid_size_0 : kernel_runs (mm_grid_size cg_size 0) = false.
Proof. unfold kernel_runs, mm_grid_size, stride, block_size. by rewrite Z.mul_0_r. Qed.

Lemma host_count_counts is_outer keys h mm' trace :
  static_multimap_count_impl cg_size hash fuel is_outer key_equal keys mm
    = Some (h, mm', trace) →
  ∃ counts, Forall2 counts_to keys counts ∧ h = total is_outer counts.
Proof.
  unfold static_multimap_count_impl. destruct keys as [|k keys].
  - change (Z.of_nat (length [])) with 0. rewrite mm_grid_size_0. simpl.
    intros [= <- <- <-]. by exists [].
  - rewrite mm_grid_size_pos; [|simpl; lia].
    destruct (count_kernel _ _ _ _ _ _ _) as [mm1|] eqn:Hk; simpl; [|done].
    intros [= <- <- <-]. by apply count_kernel_counts.
Qed.

Lemma host_count_of_counts is_outer keys counts :
  Forall2 counts_to keys counts →
  ∃ mm' trace, static_multimap_count_impl cg_size hash fuel is_outer key_equal keys mm
               = Some (total is_outer counts, mm', trace).
Proof.
  intros Hall. unfold static_multimap_count_impl. destruct keys as [|k keys].
  - inversion Hall; subst. change (Z.of_nat (length [])) with 0.
    rewrite mm_grid_size_0. simpl. by eexists _, _.
  - rewrite mm_grid_size_pos; [|simpl; lia].
    destruct (count_kernel_of_counts is_outer _ _ Hall) as (mm1 & -> & <-). simpl.
    by eexists _, _.
Qed.

Lemma counts_to_range k c : counts_to k c → 0 ≤ c < size_max.
Proof. intros Hk. by eapply (mm_count_loop_range _ _ _ _ _ 0); [|exact Hk]. Qed.

Lemma zero_matches_counts k c :
  counts_to k c → zero_matches cg_size hash fuel key_equal mm k = (c =? 0).
Proof.
  intros Hk. unfold zero_matches, static_multimap_count.
  destruct (host_count_of_counts false [k] [c]) as (mm' & trace & ->); [by repeat constructor|].
  unfold total, adjust. simpl. rewrite Z.add_0_r, Z.mod_small; [done|].
  by apply (counts_to_range k).
Qed.

Lemma zero_keys_counts keys counts :
  Forall2 counts_to keys counts →
  length (filter (λ k, zero_matches cg_size hash fuel key_equal mm k = true) keys) =
  length (filter (λ c, c = 0) counts).
Proof.
  induction 1 as [|k c keys' counts' Hk Hrest IH]; [done|].
  rewrite !filter_cons, (zero_matches_counts k c Hk).
  destruct (Z.eqb_spec c 0) as [->|Hne].
  - destruct (decide (true = true)); [|done]. destruct (decide (0 = 0)); [|done].
    simpl. by rewrite IH.
  - destruct (decide (false = true)); [done|]. by destruct (decide (c = 0)).
Qed.


End multimap_count.

(** C8. The outer match count law, in [std::size_t]: whenever
    [count_outer] of a query returns, [count] of the query returns too,
    and [count_outer] is [count] plus the number of keys of the query
    whose own count is zero. *)
Theorem count_outer_law
    (cg_size : nat) (hash : Z → nat) (fuel : nat) (key_equal : Z → Z → bool)
    (keys : list Z) (mm : static_multimap) (h_outer : Z) (mm' : static_multimap)
    (trace : list stream_op) :
  (0 < cg_size)%nat →
  static_multimap_count_outer cg_size hash fuel key_equal keys mm = Some (h_outer, mm', trace) →
  ∃ h_count mm'' trace',
    static_multimap_count cg_size hash fuel key_equal keys mm = Some (h_count, mm'', trace') ∧
    let zeros :=
      Z.of_nat (length (filter (λ k, zero_matches cg_size hash fuel key_equal mm k = true)
                          keys)) in
    h_outer = (h_count + zeros) `mod` size_max ∧
    (h_count + zeros < size_max → h_outer = h_count + zeros).
Proof.
  intros Hcg Hout.
  assert (Hc : ∃ counts, Forall2 (counts_to cg_size hash fuel key_equal mm) keys counts ∧
                         h_outer = total true counts)
    by (unfold static_multimap_count_outer in Hout; eapply host_count_counts; eauto).
  destruct Hc as (counts & Hall & ->).
  assert (Hcount : ∃ mm'' trace',
            static_multimap_count cg_size hash fuel key_equal keys mm
            = Some (total false counts, mm'', trace'))
    by (unfold static_multimap_count; eapply host_count_of_counts; eauto).
  destruct Hcount as (mm'' & trace' & Hcount).
  exists (total false counts), mm'', trace'. split; [done|]. simpl.
  assert (Hz : length (filter (λ k, zero_matches cg_size hash fuel key_equal mm k = true) keys)
               = length (filter (λ c, c = 0) counts))
    by (eapply zero_keys_counts; eauto).
  rewrite Hz.
  assert (Heq : total true counts =
                (total false counts + Z.of_nat (length (filter (λ c, c = 0) counts)))
                `mod` size_max).
  { unfold total. rewrite sum_adjust, Zplus_mod_idemp_l. done. }
  split; [done|]. intros Hlt. rewrite Heq. apply Z.mod_small. split; [|done].
  unfold total.
  pose proof (Z.mod_pos_bound (sum_Z (map (adjust false) counts)) size_max eq_refl).
  lia.
Qed.

(** [count_outer] returns whenever [count] does. *)
Lemma count_outer_returns
    (cg_size : nat) (hash : Z → nat) (fuel : nat) (key_equal : Z → Z → bool)
    (keys : list Z) (mm : static_multimap) (h_count : Z) (mm' : static_multimap)
    (trace : list stream_op) :
  (0 < cg_size)%nat →
  static_multimap_count cg_size hash fuel key_equal keys mm = Some (h_count, mm', trace) →
  ∃ h_outer mm'' trace',
    static_multimap_count_outer cg_size hash fuel key_equal keys mm
    = Some (h_outer, mm'', trace').
Proof.
  intros Hcg Hcount.
  assert (Hc : ∃ counts, Forall2 (counts_to cg_size hash fuel key_equal mm) keys counts ∧
                         h_count = total false counts)
    by (unfold static_multimap_count in Hcount; eapply host_count_counts; eauto).
  destruct Hc as (counts & Hall & _). exists (total true counts).
  unfold static_multimap_count_outer. eapply host_count_of_counts; eauto.
Qed.

(** The keys 0 and 1 have two matches each, the key 11 has none. *)
Lemma count_outer_law_witness :
  ∃ h_count mm'' trace',
    static_multimap_count 2 int_hash 4 int_key_equal [0; 1; 11] example_multimap
    = Some (h_count, mm'', trace') ∧
    let zeros :=
      Z.of_nat (length (filter (λ k, zero_matches 2 int_hash 4 int_key_equal
                                       example_multimap k = true) [0; 1; 11])) in
    5 = (h_count + zeros) `mod` size_max ∧
    (h_count + zeros < size_max → 5 = h_count + zeros).
Proof.
  apply (count_outer_law 2 int_hash 4 int_key_equal [0; 1; 11] example_multimap 5
           (with_counter 5 example_multimap)
           [MemsetAsync; Launch count_k 1 128; MemcpyAsync; StreamSynchronize]).
  - lia.
  - reflexivity.
Defined.

(** ** The host side of the multimap *)

(** C10. [pair_retrieve] and [pair_retrieve_outer] return the two output
    iterators advanced by the same number of elements, the value of the
    match counter after the kernel. *)
Theorem pair_retrieve_equal_advance
    (cg_size : nat)
    (pair_retrieve_kernel :
       bool → list pair_type → (pair_type → pair_type → bool) → static_multimap →
       static_multimap * list pair_type * list pair_type)
    (pairs : list pair_type) (probe_output_begin contained_output_begin : Z)
    (pair_equal : pair_type → pair_type → bool) (mm : static_multimap) :
  (let '(ends, _, mm', _) :=
     static_multimap_pair_retrieve cg_size pair_retrieve_kernel pairs probe_output_begin
       contained_output_begin pair_equal mm in
   ends.1 - probe_output_begin = d_counter_ mm' ∧
   ends.2 - contained_output_begin = d_counter_ mm') ∧
  (let '(ends, _, mm', _) :=
     static_multimap_pair_retrieve_outer cg_size pair_retrieve_kernel pairs probe_output_begin
       contained_output_begin pair_equal mm in
   ends.1 - probe_output_begin = d_counter_ mm' ∧
   ends.2 - contained_output_begin = d_counter_ mm').
Proof.
  unfold static_multimap_pair_retrieve, static_multimap_pair_retrieve_outer,
    static_multimap_pair_retrieve_impl.
  split.
  - destruct (kernel_runs _); [destruct (pair_retrieve_kernel _ _ _ _) as [[mm' pw] cw]|];
      simpl; lia.
  - destruct (kernel_runs _); [destruct (pair_retrieve_kernel _ _ _ _) as [[mm' pw] cw]|];
      simpl; lia.
Qed.

(** An empty range is no work for the bulk operations of the map. *)
Lemma static_map_empty_range hash key_equal target fuel sched stencil pred output_z output_b sm :
  static_map_insert hash key_equal target fuel sched [] sm = Some (sm, []) ∧
  static_map_insert_if hash key_equal target fuel sched [] stencil pred sm = Some (sm, []) ∧
  static_map_find hash key_equal fuel [] output_z sm = Some (sm, output_z, []) ∧
  static_map_contains hash key_equal fuel [] output_b sm = Some (sm, output_b, []).
Proof. done. Qed.

(** C6, on the code: [count] of the multimap on an empty range returns
    zero and leaves the slots, but it is not without work: it resets the
    device counter, launches the kernel with an empty grid, copies the
    counter back and waits for the stream.  [insert] on an empty range
    launches with an empty grid and waits for the stream. *)
Theorem static_multimap_empty_range
    (cg_size : nat) (hash : Z → nat) (fuel : nat) (key_equal : Z → Z → bool)
    (mm_insert_kernel : list pair_type → static_multimap → static_multimap)
    (mm : static_multimap) :
  static_multimap_count cg_size hash fuel key_equal [] mm =
    Some (0, with_counter 0 mm,
          [MemsetAsync; Launch count_k 0 128; MemcpyAsync; StreamSynchronize]) ∧
  static_multimap_insert cg_size mm_insert_kernel [] mm =
    (mm, [Launch insert_k 0 128; StreamSynchronize]).
Proof.
  unfold static_multimap_count, static_multimap_count_impl, static_multimap_insert, mm_grid_size,
    stride, block_size, kernel_runs.
  change (Z.of_nat (length [])) with 0. rewrite Z.mul_0_r. done.
Qed.

(** C5, on the code: [get_size] of a new multimap with [float] keys and
    a NaN for the empty key sentinel counts every slot as filled, though
    every key is bitwise the sentinel. *)
Theorem get_size_nan_sentinel :
  static_multimap_get_size float_ne (static_multimap_new 2 1 4 quiet_nan (-1) 0) = 4 ∧
  occupied quiet_nan (mm_slots_ (static_multimap_new 2 1 4 quiet_nan (-1) 0)) = 0%nat ∧
  static_multimap_get_size int_ne (static_multimap_new 2 1 4 (-1) (-1) 0) = 0.
Proof. by vm_compute. Qed.

(** C7, as stated, fails: the multimap's [contains] returns no count and
    still waits for the stream. *)
Lemma static_multimap_contains_synchronizes :
  ∃ r, static_multimap_contains 2 int_hash 4 int_key_equal [1] [true]
         (static_multimap_new 2 1 4 (-1) (-1) 0) = Some r ∧
       r.2 = [Launch contains_k 1 128; StreamSynchronize] ∧
       synchronizes r.2.
Proof. eexists. split; [reflexivity|]. by split. Qed.

(** C7, amended.  The map's [insert] and [insert_if] wait for the stream
    when the range is not empty, and its [find] and [contains] never do.
    Every bulk operation of the multimap waits for the stream before it
    returns: [insert], [insert_if] and [contains] as well as the
    operations that return a count or an end of output. *)
Theorem stream_synchronization
    (hash : Z → nat) (key_equal : Z → Z → bool) (target : build) (fuel : nat) (cg_size : nat)
    (mm_insert_kernel : list pair_type → static_multimap → static_multimap)
    (mm_insert_if_n_kernel :
       list pair_type → list Z → (Z → bool) → static_multimap → static_multimap)
    (pair_count_kernel :
       bool → list pair_type → (pair_type → pair_type → bool) → static_multimap →
       static_multimap)
    (retrieve_kernel :
       bool → list Z → (Z → Z → bool) → static_multimap → static_multimap * list pair_type)
    (pair_retrieve_kernel :
       bool → list pair_type → (pair_type → pair_type → bool) → static_multimap →
       static_multimap * list pair_type * list pair_type)
    (retrieve_grid_size : Z) :
  (∀ sched pairs sm r, pairs ≠ [] →
     static_map_insert hash key_equal target fuel sched pairs sm = Some r →
     synchronizes r.2) ∧
  (∀ sched pairs stencil pred sm r, pairs ≠ [] →
     static_map_insert_if hash key_equal target fuel sched pairs stencil pred sm = Some r →
     synchronizes r.2) ∧
  (∀ keys output sm r,
     static_map_find hash key_equal fuel keys output sm = Some r →
     StreamSynchronize ∉ r.2) ∧
  (∀ keys output sm r,
     static_map_contains hash key_equal fuel keys output sm = Some r →
     StreamSynchronize ∉ r.2) ∧
  (∀ pairs mm, synchronizes (static_multimap_insert cg_size mm_insert_kernel pairs mm).2) ∧
  (∀ pairs stencil pred mm,
     synchronizes
       (static_multimap_insert_if cg_size mm_insert_if_n_kernel pairs stencil pred mm).2) ∧
  (∀ keys output mm r,
     static_multimap_contains cg_size hash fuel key_equal keys output mm = Some r →
     synchronizes r.2) ∧
  (∀ is_outer keys mm r,
     static_multimap_count_impl cg_size hash fuel is_outer key_equal keys mm = Some r →
     synchronizes r.2) ∧
  (∀ is_outer pairs pair_equal mm,
     synchronizes
       (static_multimap_pair_count_impl cg_size pair_count_kernel is_outer pairs pair_equal
          mm).2) ∧
  (∀ is_outer keys output_begin mm,
     synchronizes
       (static_multimap_retrieve_impl retrieve_kernel retrieve_grid_size is_outer keys
          output_begin key_equal mm).2) ∧
  (∀ is_outer pairs probe_output_begin contained_output_begin pair_equal mm,
     synchronizes
       (static_multimap_pair_retrieve_impl cg_size pair_retrieve_kernel is_outer pairs
          probe_output_begin contained_output_begin pair_equal mm).2).
Proof.
  unfold synchronizes. repeat split.
  - intros sched pairs sm r Hne. unfold static_map_insert.
    destruct (Z.eqb_spec (Z.of_nat (length pairs)) 0) as [H0|H0];
      [destruct pairs; [done|simpl in H0; lia]|].
    destruct (if kernel_runs _ then _ else _); simpl; [|done]. by intros [= <-].
  - intros sched pairs stencil pred sm r Hne. unfold static_map_insert_if.
    destruct (Z.eqb_spec (Z.of_nat (length pairs)) 0) as [H0|H0];
      [destruct pairs; [done|simpl in H0; lia]|].
    destruct (if kernel_runs _ then _ else _); simpl; [|done]. by intros [= <-].
  - intros keys output sm r. unfold static_map_find.
    destruct (Z.of_nat (length keys) =? 0); [intros [= <-]; simpl; apply not_elem_of_nil|].
    destruct (if kernel_runs _ then _ else _) as [[sm' out]|]; simpl; [|done].
    intros [= <-]. simpl. intros Hin. apply list_elem_of_singleton in Hin. done.
  - intros keys output sm r. unfold static_map_contains.
    destruct (Z.of_nat (length keys) =? 0); [intros [= <-]; simpl; apply not_elem_of_nil|].
    destruct (if kernel_runs _ then _ else _) as [[sm' out]|]; simpl; [|done].
    intros [= <-]. simpl. intros Hin. apply list_elem_of_singleton in Hin. done.
  - intros keys output mm r. unfold static_multimap_contains.
    destruct (if kernel_runs _ then _ else _); simpl; [|done]. by intros [= <-].
  - intros is_outer keys mm r. unfold static_multimap_count_impl.
    destruct (if kernel_runs _ then _ else _); simpl; [|done]. by intros [= <-].
  - intros is_outer keys output_begin mm. unfold static_multimap_retrieve_impl.
    by destruct (if kernel_runs _ then _ else _).
  - intros is_outer pairs pb cb pair_equal mm. unfold static_multimap_pair_retrieve_impl.
    by destruct (if kernel_runs _ then _ else _) as [[mm' pw] cw].
Qed.

(** For integer keys [get_size] is the number of slots whose key is not
    bitwise the sentinel. *)
Lemma get_size_int mm :
  static_multimap_get_size int_ne mm =
  Z.of_nat (occupied (mm_empty_key_sentinel_ mm) (take (mm_capacity_ mm) (mm_slots_ mm))).
Proof.
  unfold static_multimap_get_size, count_if, occupied, slot_is_filled, int_ne. f_equal.
  rewrite <- fmap_take. generalize (take (mm_capacity_ mm) (mm_slots_ mm)). intros l.
  induction l as [|s l IH]; [done|].
  rewrite fmap_cons, !filter_cons.
  destruct (Z.eqb_spec s.1 (mm_empty_key_sentinel_ mm)) as [He|He]; simpl.
  - destruct (decide (false = true)); [done|].
    destruct (decide (s.1 ≠ mm_empty_key_sentinel_ mm)); [done|]. apply IH.
  - destruct (decide (true = true)); [|done].
    destruct (decide (s.1 ≠ mm_empty_key_sentinel_ mm)); [|done]. simpl. by rewrite IH.
Qed.

(** ** The scenarios of the specification *)

(** Scenario 1: capacity 100, sentinels -1, [(i, 2 i)] for [i < 50]. *)
Example scenario_1 :
  ∃ sm trace,
    static_map_insert int_hash int_key_equal packed 4 round_robin scenario_pairs
      (static_map_new 100 (-1) (-1) 0) = Some (sm, trace) ∧
    size_ sm = 50 ∧
    (static_map_find int_hash int_key_equal 4 scenario_keys (replicate 100 0) sm
     = Some (sm, map (λ i : nat, 2 * Z.of_nat i) (seq 0 50) ++ replicate 50 (-1),
             [Launch find_k 4 128])) ∧
    (static_map_contains int_hash int_key_equal 4 scenario_keys (replicate 100 false) sm
     = Some (sm, replicate 50 true ++ replicate 50 false, [Launch contains_k 4 128])).
Proof. eexists _, _. split; [by vm_compute|]. by vm_compute. Qed.

(** Scenario 2: of three pairs with the same key, one is inserted. *)
Example scenario_2 :
  ∃ sm trace,
    static_map_insert int_hash int_key_equal volta 4 (concat (replicate 20 [2; 0; 1]%nat))
      [(0, 0); (0, 1); (0, 2)] (static_map_new 100 (-1) (-1) 0) = Some (sm, trace) ∧
    size_ sm = 1 ∧ slots_ sm !! 0%nat = Some (0, 2).
Proof. eexists _, _. split; [by vm_compute|]. by vm_compute. Qed.

(** Two workers with colliding keys race for slot 0 under the
    back-to-back protocol: the second loses the key CAS, wins the value
    CAS, reverts it and moves on; the first re-CASes its value. *)
Example race_for_a_slot :
  let st0 := launch 5 (-1) (-1) int_hash volta 4 [Single (5, 50); Single (10, 100)] in
  sys_mem (run_sched int_key_equal [0; 1; 0; 1; 1]%nat st0) !! 0%nat = Some (5, 100) ∧
  sys_mem (run_sched int_key_equal [0; 1; 0; 1; 1; 0; 1]%nat st0) !! 0%nat = Some (5, -1) ∧
  let st := run_sched int_key_equal [0; 1; 0; 1; 1; 0; 1; 1; 0; 1; 1; 1; 1]%nat st0 in
  sys_mem st = [(5, 50); (10, 100); (-1, -1); (-1, -1); (-1, -1)] ∧
  map finished (sys_threads st) = [Some true; Some true].
Proof. by vm_compute. Qed.

(** * Further properties of the code *)

(** ** Slot accounting of [insert] *)

Section accounting.
Variable empty_key_sentinel : Z.

Local Abbreviation occ := (occupied empty_key_sentinel).
Local Abbreviation stable := (stable empty_key_sentinel).
Local Abbreviation accounts := (@accounts empty_key_sentinel).

Lemma occupied_insert_same m i (s p : pair_type) :
  m !! i = Some s → (s.1 ≠ empty_key_sentinel ↔ p.1 ≠ empty_key_sentinel) →
  occ (<[i := p]> m) = occ m.
Proof.
  intros Hi Hiff. pose proof (lookup_lt_Some _ _ _ Hi) as Hlt.
  rewrite insert_take_drop; [|done].
  rewrite <- (take_drop_middle m i s Hi) at 3.
  unfold occupied. rewrite !filter_app, !filter_cons, !length_app.
  destruct (decide (p.1 ≠ empty_key_sentinel)) as [Hp|Hp];
    destruct (decide (s.1 ≠ empty_key_sentinel)) as [Hs|Hs]; simpl; tauto || lia.
Qed.

Lemma occupied_insert_taken m i (s p : pair_type) :
  m !! i = Some s → s.1 = empty_key_sentinel → p.1 ≠ empty_key_sentinel →
  occ (<[i := p]> m) = S (occ m).
Proof.
  intros Hi He Hp. pose proof (lookup_lt_Some _ _ _ Hi) as Hlt.
  rewrite insert_take_drop; [|done].
  rewrite <- (take_drop_middle m i s Hi) at 3.
  unfold occupied. rewrite !filter_app, !filter_cons, !length_app.
  destruct (decide (p.1 ≠ empty_key_sentinel)); [|done].
  destruct (decide (s.1 ≠ empty_key_sentinel)); [done|]. simpl. lia.
Qed.

Lemma stable_insert m i (s p : pair_type) :
  m !! i = Some s → (s.1 ≠ empty_key_sentinel → p.1 = s.1) → stable m (<[i := p]> m).
Proof.
  intros Hi Hk. split; [by rewrite length_insert|].
  intros j sj Hj Hne. destruct (decide (i = j)) as [<-|Hij].
  - rewrite list_lookup_insert_eq; [|by eapply lookup_lt_Some].
    exists p. split; [done|]. rewrite Hi in Hj. injection Hj as <-. by apply Hk.
  - rewrite list_lookup_insert_ne; [|done]. by exists sj.
Qed.

Lemma stable_same m : stable m m.
Proof. split; [done|]. intros i s Hs _. by exists s. Qed.

Lemma stable_step m1 m2 m3 : stable m1 m2 → stable m2 m3 → stable m1 m3.
Proof.
  intros [Hl1 H1] [Hl2 H2]. split; [congruence|].
  intros i s Hs Hne. destruct (H1 i s Hs Hne) as (s' & Hs' & He).
  destruct (H2 i s' Hs') as (s'' & Hs'' & He'); [congruence|].
  exists s''. split; [done|congruence].
Qed.

(** What one operation does to the keys of the array. *)
Lemma exec_op_claims key_equal {X} (op : atomic_op X) m x m' :
  claim_ok empty_key_sentinel op → exec_op key_equal op m = Some (x, m') →
  stable m m' ∧ occ m' = (occ m + (if claims op x then 1 else 0))%nat.
Proof.
  destruct op as [i|i|i e d|i e d|i e d|i v|a b]; simpl; intros Hok.
  - destruct (m !! i) as [s|]; simpl; [|done]. intros [= <- <-].
    split; [apply stable_same|lia].
  - destruct (m !! i) as [s|]; simpl; [|done]. intros [= <- <-].
    split; [apply stable_same|lia].
  - destruct Hok as [-> Hd]. destruct (m !! i) as [s|] eqn:Hi; simpl; [|done].
    unfold compare_exchange_strong, bitwise_compare.
    destruct (Z.eqb_spec s.1 empty_key_sentinel) as [He|He]; intros [= <- <-]; simpl.
    + split; [by apply (stable_insert m i s)|].
      rewrite (occupied_insert_taken m i s); [lia|done..].
    + rewrite (list_insert_id m i); [|by rewrite Hi; destruct s].
      split; [apply stable_same|lia].
  - destruct (m !! i) as [s|] eqn:Hi; simpl; [|done].
    destruct (compare_exchange_strong s.2 e d) as [[b e'] c]. intros [= <- <-]. simpl.
    split; [by apply (stable_insert m i s)|].
    rewrite (occupied_insert_same m i s); [lia|done..].
  - destruct Hok as [He Hd]. destruct (m !! i) as [s|] eqn:Hi; simpl; [|done].
    destruct (pair_eqb s e) eqn:Hc; intros [= <- <-]; simpl.
    + unfold pair_eqb, bitwise_compare in Hc. apply andb_true_iff in Hc as [Hk _].
      apply Z.eqb_eq in Hk.
      split; [apply (stable_insert m i s); [done|]; congruence|].
      rewrite (occupied_insert_taken m i s); [lia|done|congruence|done].
    + split; [apply stable_same|lia].
  - destruct (m !! i) as [s|] eqn:Hi; simpl; [|done]. intros [= <- <-]. simpl.
    split; [by apply (stable_insert m i s)|].
    rewrite (occupied_insert_same m i s); [lia|done..].
  - intros [= <- <-]. split; [apply stable_same|lia].
Qed.

(** *** The programs *)

Lemma accounts_bind {A B} post1 (post2 : bool → B → Prop) c (p : prog A) (f : A → prog B) :
  accounts post1 c p → (∀ c' r, post1 c' r → accounts post2 c' (f r)) →
  accounts post2 c (p ≫= f).
Proof.
  revert c. induction p as [r| |X op k IH]; intros c; simpl; [by auto|done|].
  intros [Hok Hk] Hf. split; [done|]. intros x. destruct (Hk x) as [Hc Hx].
  split; [done|]. by apply IH.
Qed.

Lemma accounts_read_only {R} c (p : prog R) :
  read_only p → accounts (λ c' _, c' = c) c p.
Proof.
  induction p as [r| |X op k IH]; simpl; [done..|]. intros [Hop Hk].
  destruct op; try done; (split; [done|]); intros x; simpl;
    (split; [done|]); rewrite orb_false_r; by apply IH.
Qed.

Local Abbreviation took_slot :=
  (λ (c : bool) (status : insert_result),
     c = match status with SUCCESS => true | _ => false end).

Lemma value_cas_loop_accounts ev fuel i insert_pair value_success :
  accounts (λ c _, c = true) true (value_cas_loop ev fuel i insert_pair value_success).
Proof.
  revert value_success. induction fuel as [|fuel IH]; intros [|]; simpl; try done.
  split; [done|]. intros [b obs]. simpl. split; [done|]. apply IH.
Qed.

Lemma slot_protocol_accounts ev target fuel i (insert_pair : pair_type) :
  insert_pair.1 ≠ empty_key_sentinel →
  accounts took_slot false (slot_protocol empty_key_sentinel ev target fuel i insert_pair).
Proof.
  intros Hk. unfold slot_protocol.
  destruct (is_packable target); [|destruct (cuda_arch target <? 700)%nat].
  - simpl. split; [done|]. intros [[|] e]; simpl; (split; [done|]); [done|].
    split; [done|]. intros [|]; simpl; done.
  - simpl. split; [done|]. intros [[|] e]; simpl; (split; [done|]).
    + split; [done|]. intros []. simpl. done.
    + split; [done|]. intros [|]; simpl; done.
  - simpl. split; [done|]. intros [[|] e]; simpl; (split; [done|]).
    + split; [done|]. intros [value_success obs]. simpl. split; [done|].
      apply (accounts_bind (λ c _, c = true)); [apply value_cas_loop_accounts|].
      intros c [] ->. done.
    + split; [done|]. intros [[|] obs]; simpl; (split; [done|]).
      * split; [done|]. intros []. simpl. split; [done|].
        split; [done|]. intros [|]; simpl; done.
      * split; [done|]. intros [|]; simpl; done.
Qed.

Lemma insert_loop_accounts capacity ev target fuel (insert_pair : pair_type) current_slot :
  insert_pair.1 ≠ empty_key_sentinel →
  accounts (λ c r, r = c) false
    (insert_loop capacity empty_key_sentinel ev target fuel insert_pair current_slot).
Proof.
  intros Hk. revert current_slot. induction fuel as [|fuel IH]; intros s; [done|].
  simpl. split; [done|]. intros e. simpl. split; [done|].
  destruct (bitwise_compare e empty_key_sentinel); simpl.
  - apply (accounts_bind took_slot); [by apply slot_protocol_accounts|].
    intros c [| |] ->; simpl; [apply IH|done..].
  - split; [done|]. intros [|]; simpl; (split; [done|]); [done|apply IH].
Qed.

Lemma insert_cg_loop_accounts capacity ev target fuel cg_size (insert_pair : pair_type)
    current_slot :
  insert_pair.1 ≠ empty_key_sentinel →
  accounts (λ c r, r = c) false
    (insert_cg_loop capacity empty_key_sentinel ev target fuel cg_size insert_pair
       current_slot).
Proof.
  intros Hk. revert current_slot. induction fuel as [|fuel IH]; intros s; [done|].
  simpl. eapply accounts_bind; [apply accounts_read_only, lanes_load_read_only|].
  intros c existing_key ->.
  eapply accounts_bind; [apply accounts_read_only, lanes_match_read_only|].
  intros c dup ->. destruct (g_any dup); [done|].
  destruct (negb _); [|apply IH].
  apply (accounts_bind took_slot).
  - destruct (s !! _); [by apply slot_protocol_accounts|done].
  - intros c [| |] ->; simpl; [apply IH|done..].
Qed.

Lemma worker_prog_accounts capacity ev hash target fuel w :
  (worker_pair w).1 ≠ empty_key_sentinel →
  accounts (λ c r, r = c) false
    (worker_prog capacity empty_key_sentinel ev hash target fuel w).
Proof.
  destruct w as [p|cg_size p]; simpl; intros Hk;
    [by apply insert_loop_accounts|by apply insert_cg_loop_accounts].
Qed.

(** *** Systems of workers *)

Lemma count_true_cons b flags : count_true (b :: flags) = Z.b2z b + count_true flags.
Proof.
  unfold count_true. rewrite filter_cons. destruct b.
  - destruct (decide (true = true)); [|done]. simpl. lia.
  - destruct (decide (false = true)); [done|]. simpl. lia.
Qed.

Lemma count_true_insert flags i c c' :
  flags !! i = Some c →
  count_true (<[i := c']> flags) = count_true flags - Z.b2z c + Z.b2z c'.
Proof.
  revert i. induction flags as [|b flags IH]; intros [|i]; simpl; try done.
  - intros [= ->]. rewrite !count_true_cons. lia.
  - intros Hi. rewrite !count_true_cons, (IH i Hi). lia.
Qed.

Lemma count_true_le flags : 0 ≤ count_true flags ≤ Z.of_nat (length flags).
Proof. unfold count_true. pose proof (length_filter (λ b : bool, b = true) flags). lia. Qed.

Lemma step_thread_accounts key_equal occupied0 st i :
  sys_accounts empty_key_sentinel occupied0 st →
  sys_accounts empty_key_sentinel occupied0 (step_thread key_equal st i) ∧
  stable (sys_mem st) (sys_mem (step_thread key_equal st i)).
Proof.
  intros (flags & Hall & Hocc). unfold step_thread.
  destruct (sys_threads st !! i) as [[r| |X op k]|] eqn:Hi;
    try (split; [by exists flags|apply stable_same]).
  destruct (Forall2_lookup_r _ _ _ _ _ Hall Hi) as (c & Hc & [Hok Hk]).
  destruct (exec_op key_equal op (sys_mem st)) as [[x m']|] eqn:He;
    [|split; [by exists flags|apply stable_same]].
  destruct (exec_op_claims key_equal op _ _ _ Hok He) as [Hst Hocc'].
  destruct (Hk x) as [Hfresh Hx]. split; [|done].
  exists (<[i := c || claims op x]> flags). simpl. split.
  - by apply Forall2_insert.
  - rewrite (count_true_insert flags i c); [|done]. rewrite Hocc'.
    destruct (claims op x); [rewrite (Hfresh eq_refl); simpl; lia|].
    rewrite orb_false_r. lia.
Qed.

Lemma run_sched_accounts key_equal occupied0 sched st :
  sys_accounts empty_key_sentinel occupied0 st →
  sys_accounts empty_key_sentinel occupied0 (run_sched key_equal sched st) ∧
  stable (sys_mem st) (sys_mem (run_sched key_equal sched st)).
Proof.
  unfold run_sched. revert st. induction sched as [|i sched IH]; intros st Hst;
    [split; [done|apply stable_same]|].
  simpl. destruct (step_thread_accounts key_equal occupied0 st i Hst) as [Hacc Hs1].
  destruct (IH _ Hacc) as [Hacc' Hs2]. split; [done|]. by eapply stable_step.
Qed.

Lemma launch_accounts m capacity ev hash target fuel workers :
  Forall (λ w, (worker_pair w).1 ≠ empty_key_sentinel) workers →
  sys_accounts empty_key_sentinel (occ m)
    (launch_on m capacity empty_key_sentinel ev hash target fuel workers).
Proof.
  intros Hw. exists (replicate (length workers) false). simpl. split.
  - induction Hw as [|w workers Hk _ IH]; simpl; constructor; [|done].
    by apply worker_prog_accounts.
  - clear Hw. induction (length workers) as [|n IH]; simpl; [unfold count_true; simpl; lia|].
    rewrite count_true_cons. simpl. lia.
Qed.

(** Who reports success has taken a slot, and when all have returned
    the slots taken are the successes. *)
Lemma successes_accounts flags (threads : list (prog bool)) :
  Forall2 (accounts (λ claimed r, r = claimed)) flags threads →
  Z.of_nat (length (filter (λ p, finished p = Some true) threads)) ≤ count_true flags ∧
  (Forall (λ p, is_Some (finished p)) threads →
   Z.of_nat (length (filter (λ p, finished p = Some true) threads)) = count_true flags).
Proof.
  induction 1 as [|c p flags threads Hp _ [IHle IHeq]]; [done|].
  rewrite count_true_cons, filter_cons.
  destruct p as [r| |X op k]; simpl in *.
  - subst r. destruct c.
    + destruct (decide (Some true = Some true)); [|done]. simpl. split; [lia|].
      intros Hall. inversion Hall; subst. specialize (IHeq ltac:(done)). lia.
    + destruct (decide (Some false = Some true)); [done|]. simpl. split; [lia|].
      intros Hall. inversion Hall; subst. specialize (IHeq ltac:(done)). lia.
  - destruct (decide (None = Some true)); [done|]. split; [destruct c; simpl; lia|].
    intros Hall. inversion Hall as [|? ? [? ?]]; done.
  - destruct (decide (None = Some true)); [done|]. split; [destruct c; simpl; lia|].
    intros Hall. inversion Hall as [|? ? [? ?]]; done.
Qed.

End accounting.

Lemma step_thread_length key_equal {R} (st : sys R) i :
  length (sys_threads (step_thread key_equal st i)) = length (sys_threads st).
Proof.
  unfold step_thread. destruct (sys_threads st !! i) as [[r| |X op k]|]; try done.
  destruct (exec_op key_equal op (sys_mem st)) as [[x m']|]; [|done].
  simpl. by rewrite length_insert.
Qed.

Lemma run_sched_length key_equal {R} sched (st : sys R) :
  length (sys_threads (run_sched key_equal sched st)) = length (sys_threads st).
Proof.
  unfold run_sched. revert st. induction sched as [|i sched IH]; intros st; [done|].
  simpl. by rewrite IH, step_thread_length.
Qed.

(** X1. Slot accounting of the device-side [insert].  Workers, single
    threads and groups, insert keys other than the sentinel into any
    slot array, under any of the three protocols and with any hash and
    equality.  After every prefix of every interleaving, the slots taken
    since the start are at least the workers that have returned [true]
    and at most the workers; when all workers have returned, they are
    exactly the workers that returned [true]. *)
Theorem insert_slot_accounting
    (capacity : nat) (empty_key_sentinel empty_value_sentinel : Z) (hash : Z → nat)
    (key_equal : Z → Z → bool) (target : build) (fuel : nat) (workers : list worker)
    (sched : list nat) (m : mem) :
  Forall (λ w, (worker_pair w).1 ≠ empty_key_sentinel) workers →
  let st := run_sched key_equal sched
              (launch_on m capacity empty_key_sentinel empty_value_sentinel hash target fuel
                 workers) in
  (occupied empty_key_sentinel m + successes st
   ≤ occupied empty_key_sentinel (sys_mem st))%nat ∧
  (occupied empty_key_sentinel (sys_mem st)
   ≤ occupied empty_key_sentinel m + length workers)%nat ∧
  (Forall (λ p, is_Some (finished p)) (sys_threads st) →
   occupied empty_key_sentinel (sys_mem st)
   = (occupied empty_key_sentinel m + successes st)%nat).
Proof.
  intros Hw st.
  destruct (run_sched_accounts empty_key_sentinel key_equal _ sched _
              (launch_accounts empty_key_sentinel m capacity empty_value_sentinel hash target
                 fuel workers Hw)) as [(flags & Hall & Hocc) _].
  fold st in Hall, Hocc.
  destruct (successes_accounts empty_key_sentinel flags _ Hall) as [Hle Heq].
  pose proof (count_true_le flags) as Hfl.
  pose proof (Forall2_length _ _ _ Hall) as Hlen.
  assert (Hthreads : length (sys_threads st) = length workers).
  { subst st. rewrite run_sched_length. simpl. by rewrite length_map. }
  unfold successes. split; [lia|]. split; [lia|]. intros Hfin. specialize (Heq Hfin). lia.
Qed.

(** Three workers race for the slots of keys 7 and 12, two of them with
    key 7. *)
Lemma insert_slot_accounting_witness :
  let st := run_sched int_key_equal
              [0; 1; 2; 0; 1; 1; 2; 0; 2; 1; 1; 0; 2; 1; 1; 1; 0; 1; 2; 0; 1; 2]%nat
              (launch_on example_slots 5 (-1) (-1) int_hash volta 8 example_workers) in
  (occupied (-1)%Z example_slots + successes st ≤ occupied (-1)%Z (sys_mem st))%nat ∧
  (occupied (-1)%Z (sys_mem st) ≤ occupied (-1)%Z example_slots + length example_workers)%nat ∧
  (Forall (λ p, is_Some (finished p)) (sys_threads st) →
   occupied (-1)%Z (sys_mem st) = (occupied (-1)%Z example_slots + successes st)%nat).
Proof.
  apply (insert_slot_accounting 5 (-1) (-1) int_hash int_key_equal volta 8 example_workers).
  repeat constructor; simpl; lia.
Defined.

(** X2. An insert never overwrites or removes a key, and the slot array
    keeps its length: a slot that holds a key other than the sentinel at
    some point of an interleaving of insert workers holds the same key
    at every later point. *)
Theorem insert_keeps_keys
    (capacity : nat) (empty_key_sentinel empty_value_sentinel : Z) (hash : Z → nat)
    (key_equal : Z → Z → bool) (target : build) (fuel : nat) (workers : list worker)
    (sched1 sched2 : list nat) (m : mem) :
  Forall (λ w, (worker_pair w).1 ≠ empty_key_sentinel) workers →
  let st1 := run_sched key_equal sched1
               (launch_on m capacity empty_key_sentinel empty_value_sentinel hash target fuel
                  workers) in
  let st2 := run_sched key_equal sched2 st1 in
  length (sys_mem st2) = length m ∧
  ∀ i (s : pair_type), sys_mem st1 !! i = Some s → s.1 ≠ empty_key_sentinel →
    ∃ s' : pair_type, sys_mem st2 !! i = Some s' ∧ s'.1 = s.1.
Proof.
  intros Hw st1 st2.
  destruct (run_sched_accounts empty_key_sentinel key_equal _ sched1 _
              (launch_accounts empty_key_sentinel m capacity empty_value_sentinel hash target
                 fuel workers Hw)) as [Hacc1 [Hl1 _]].
  fold st1 in Hacc1, Hl1.
  destruct (run_sched_accounts empty_key_sentinel key_equal _ sched2 _ Hacc1)
    as [_ [Hl2 Hkeys]].
  fold st2 in Hl2, Hkeys. simpl in Hl1. split; [congruence|done].
Qed.

Lemma insert_keeps_keys_witness :
  let st1 := run_sched int_key_equal [0; 0; 0; 0]%nat
               (launch_on example_slots 5 (-1) (-1) int_hash pascal 8 example_workers) in
  let st2 := run_sched int_key_equal [1; 2; 1; 2; 1; 2; 1; 2; 1; 2; 1]%nat st1 in
  length (sys_mem st2) = length example_slots ∧
  ∀ i (s : pair_type), sys_mem st1 !! i = Some s → s.1 ≠ -1 →
    ∃ s' : pair_type, sys_mem st2 !! i = Some s' ∧ s'.1 = s.1.
Proof.
  apply (insert_keeps_keys 5 (-1) (-1) int_hash int_key_equal pascal 8 example_workers).
  repeat constructor; simpl; lia.
Defined.

(** ** [size_] and the slots *)

Lemma mapM_finished_count (threads : list (prog bool)) results :
  mapM finished threads = Some results →
  Forall (λ p, is_Some (finished p)) threads ∧
  count_true results = Z.of_nat (length (filter (λ p, finished p = Some true) threads)).
Proof.
  intros H. apply mapM_Some in H.
  induction H as [|p r threads results Hp _ [IHall IHcount]]; [done|].
  split; [constructor; [by rewrite Hp|done]|].
  rewrite count_true_cons, IHcount, filter_cons, Hp.
  destruct r.
  - destruct (decide (Some true = Some true)); [|done]. simpl. lia.
  - destruct (decide (Some false = Some true)); [done|]. simpl. lia.
Qed.

Section size_and_slots.
Variable hash : Z → nat.
Variable key_equal : Z → Z → bool.
Variable target : build.
Variable fuel : nat.

Lemma insert_kernel_accounts sched pairs sm sm' :
  Forall (λ p : pair_type, p.1 ≠ empty_key_sentinel_ sm) pairs →
  insert_kernel hash key_equal target fuel sched pairs sm = Some sm' →
  capacity_ sm' = capacity_ sm ∧ empty_key_sentinel_ sm' = empty_key_sentinel_ sm ∧
  size_ sm' = size_ sm ∧ length (slots_ sm') = length (slots_ sm) ∧
  num_successes_ sm' =
    size_add (num_successes_ sm)
      (Z.of_nat (occupied (empty_key_sentinel_ sm) (slots_ sm')) -
       Z.of_nat (occupied (empty_key_sentinel_ sm) (slots_ sm))).
Proof.
  intros Hk. unfold insert_kernel.
  set (st0 := {| sys_mem := slots_ sm; sys_threads := _ |}).
  assert (Hacc : sys_accounts (empty_key_sentinel_ sm)
                   (occupied (empty_key_sentinel_ sm) (slots_ sm)) st0).
  { exists (replicate (length pairs) false). simpl. split.
    - induction Hk as [|p pairs' Hp _ IH]; simpl; constructor; [|done].
      by apply insert_cg_loop_accounts.
    - clear Hk. induction (length pairs) as [|n IH]; simpl;
        [unfold count_true; simpl; lia|].
      rewrite count_true_cons. simpl. lia. }
  destruct (run_sched_accounts _ key_equal _ sched _ Hacc) as [(flags & Hall & Hocc) [Hlen _]].
  destruct (mapM finished _) as [results|] eqn:Hres; simpl; [|done].
  intros [= <-]. simpl.
  destruct (mapM_finished_count _ _ Hres) as [Hfin Hcount].
  destruct (successes_accounts _ flags _ Hall) as [_ Heq]. specialize (Heq Hfin).
  repeat split; try done. f_equal. simpl in Hocc. lia.
Qed.

Lemma static_map_insert_counts capacity ek sched pairs sm sm' trace :
  Z.of_nat capacity < size_max →
  Forall (λ p : pair_type, p.1 ≠ ek) pairs →
  size_counts_slots capacity ek sm →
  static_map_insert hash key_equal target fuel sched pairs sm = Some (sm', trace) →
  size_counts_slots capacity ek sm'.
Proof.
  intros Hcap Hk (Hc & He & Hl & Hs). unfold static_map_insert.
  destruct (Z.of_nat (length pairs) =? 0); [by intros [= <- <-]|].
  destruct (kernel_runs _).
  - destruct (insert_kernel _ _ _ _ _ _ _) as [sm1|] eqn:Hker; simpl; [|done].
    intros [= <- <-]. simpl.
    apply insert_kernel_accounts in Hker as (Hc1 & He1 & Hs1 & Hl1 & Hn1);
      [|simpl; by rewrite He].
    simpl in *. rewrite He in Hn1. unfold size_counts_slots, add_size. simpl.
    split; [congruence|]. split; [congruence|]. split; [congruence|].
    rewrite Hn1, Hs1, Hs. unfold size_add. rewrite Z.add_0_l, Zplus_mod_idemp_r.
    pose proof (occupied_le ek (slots_ sm1)) as Hle.
    rewrite Z.mod_small; lia.
  - simpl. intros [= <- <-]. unfold size_counts_slots, add_size. simpl.
    split; [done|]. split; [done|]. split; [done|].
    rewrite Hs. unfold size_add. rewrite Z.add_0_r.
    pose proof (occupied_le ek (slots_ sm)) as Hle. rewrite Z.mod_small; lia.
Qed.

Lemma static_map_insert_if_counts capacity ek sched pairs stencil pred sm sm' trace :
  Z.of_nat capacity < size_max →
  Forall (λ p : pair_type, p.1 ≠ ek) (selected pairs stencil pred) →
  size_counts_slots capacity ek sm →
  static_map_insert_if hash key_equal target fuel sched pairs stencil pred sm
    = Some (sm', trace) →
  size_counts_slots capacity ek sm'.
Proof.
  intros Hcap Hk (Hc & He & Hl & Hs). unfold static_map_insert_if.
  destruct (Z.of_nat (length pairs) =? 0); [by intros [= <- <-]|].
  destruct (kernel_runs _).
  - unfold insert_if_n_kernel.
    destruct (insert_kernel _ _ _ _ _ _ _) as [sm1|] eqn:Hker; simpl; [|done].
    intros [= <- <-]. simpl.
    apply insert_kernel_accounts in Hker as (Hc1 & He1 & Hs1 & Hl1 & Hn1);
      [|simpl; by rewrite He].
    simpl in *. rewrite He in Hn1. unfold size_counts_slots, add_size. simpl.
    split; [congruence|]. split; [congruence|]. split; [congruence|].
    rewrite Hn1, Hs1, Hs. unfold size_add. rewrite Z.add_0_l, Zplus_mod_idemp_r.
    pose proof (occupied_le ek (slots_ sm1)) as Hle.
    rewrite Z.mod_small; lia.
  - simpl. intros [= <- <-]. unfold size_counts_slots, add_size. simpl.
    split; [done|]. split; [done|]. split; [done|].
    rewrite Hs. unfold size_add. rewrite Z.add_0_r.
    pose proof (occupied_le ek (slots_ sm)) as Hle. rewrite Z.mod_small; lia.
Qed.

Lemma run_calls_counts capacity ek calls sm sm' ns :
  Z.of_nat capacity < size_max →
  Forall (λ c, Forall (λ p : pair_type, p.1 ≠ ek) (call_items c)) calls →
  size_counts_slots capacity ek sm →
  run_calls hash key_equal target fuel calls sm = Some (sm', ns) →
  size_counts_slots capacity ek sm'.
Proof.
  intros Hcap Hk. revert sm ns. induction Hk as [|c calls Hc _ IH]; intros sm ns Hsm; simpl.
  - by intros [= <- <-].
  - destruct (call_successes _ _ _ _ c sm) as [n|]; simpl; [|done].
    destruct (do_call _ _ _ _ c sm) as [[sm1 trace]|] eqn:Hcall; simpl; [|done].
    destruct (run_calls _ _ _ _ calls sm1) as [[sm2 ns']|] eqn:Hrest; simpl; [|done].
    intros [= <- <-]. eapply IH; [|exact Hrest].
    destruct c as [sched pairs|sched pairs stencil pred]; simpl in *.
    + by eapply static_map_insert_counts.
    + by eapply static_map_insert_if_counts.
Qed.

End size_and_slots.

(** X3. [size_] is the number of occupied slots.  After any sequence of
    bulk [insert] and [insert_if] calls on a new map that hand no
    sentinel key to the device, under any interleaving of the groups of
    each kernel, [size_] is the number of slots whose key is not the
    sentinel, and so at most the capacity. *)
Theorem static_map_size_counts_occupied
    (hash : Z → nat) (key_equal : Z → Z → bool) (target : build) (fuel : nat)
    (capacity : nat) (empty_key_sentinel empty_value_sentinel counter : Z)
    (calls : list bulk_call) (sm : static_map) (successes : list Z) :
  Z.of_nat (Nat.max capacity 1) < size_max →
  Forall (λ c, Forall (λ p : pair_type, p.1 ≠ empty_key_sentinel) (call_items c)) calls →
  run_calls hash key_equal target fuel calls
    (static_map_new capacity empty_key_sentinel empty_value_sentinel counter)
  = Some (sm, successes) →
  size_ sm = Z.of_nat (occupied empty_key_sentinel (slots_ sm)) ∧
  size_ sm ≤ Z.of_nat (capacity_ sm).
Proof.
  intros Hcap Hk Hrun.
  destruct (run_calls_counts hash key_equal target fuel (Nat.max capacity 1)
              empty_key_sentinel calls
              (static_map_new capacity empty_key_sentinel empty_value_sentinel counter)
              sm successes Hcap Hk) as (Hc & He & Hl & Hs);
    [|exact Hrun|].
  { unfold size_counts_slots, static_map_new, initialize, initial_size. simpl.
    rewrite length_replicate. repeat split.
    clear. induction (Nat.max capacity 1) as [|n IH]; [done|]. simpl.
    unfold occupied in *. rewrite filter_cons. by destruct (decide _). }
  split; [done|]. rewrite Hs, Hc, <- Hl.
  pose proof (occupied_le empty_key_sentinel (slots_ sm)). lia.
Qed.

Lemma static_map_size_counts_occupied_witness :
  size_ example_map = Z.of_nat (occupied (-1) (slots_ example_map)) ∧
  size_ example_map ≤ Z.of_nat (capacity_ example_map).
Proof.
  apply (static_map_size_counts_occupied int_hash int_key_equal volta 8 5 (-1) (-1) 17
           [BulkInsert (concat (replicate 40 [0; 1; 2]%nat)) [(0, 0); (0, 1); (0, 2)];
            BulkInsertIf (replicate 40 0 ++ replicate 40 1 ++ replicate 40 2)%nat
              [(1, 10); (2, 20); (3, 30)] [1; 0; 1] Z.odd;
            BulkInsert [] []] example_map [1; 2; 0]).
  - vm_compute. reflexivity.
  - repeat constructor; simpl; lia.
  - vm_compute. reflexivity.
Defined.

(** ** Every access is inside the slot array *)

Section bounds.
Variable capacity : nat.
Variable empty_key_sentinel empty_value_sentinel : Z.
Variable hash : Z → nat.
Variable target : build.
Hypothesis capacity_pos : (0 < capacity)%nat.

Local Abbreviation in_bounds := (@in_bounds capacity).

Lemma in_bounds_bind {A B} (p : prog A) (f : A → prog B) :
  in_bounds p → (∀ r, in_bounds (f r)) → in_bounds (p ≫= f).
Proof.
  intros Hp Hf. induction p as [r| |X op k IH]; simpl; [apply Hf|done|].
  destruct Hp as [Hop Hk]. split; [done|]. intros x. by apply IH.
Qed.

Lemma initial_slot_lt k : (initial_slot capacity hash k < capacity)%nat.
Proof using capacity_pos. apply Nat.mod_upper_bound. lia. Qed.

Lemma next_slot_lt s : (next_slot capacity s < capacity)%nat.
Proof using capacity_pos. apply Nat.mod_upper_bound. lia. Qed.

Lemma initial_window_lt cg_size k :
  Forall (λ s, (s < capacity)%nat) (initial_window capacity hash cg_size k).
Proof using capacity_pos.
  apply Forall_fmap, Forall_forall. intros r _. apply Nat.mod_upper_bound. lia.
Qed.

Lemma next_window_lt cg_size current_slot :
  Forall (λ s, (s < capacity)%nat) (next_window capacity cg_size current_slot).
Proof using capacity_pos.
  apply Forall_fmap, Forall_forall. intros r _. apply Nat.mod_upper_bound. lia.
Qed.

Lemma value_cas_loop_in_bounds fuel i insert_pair value_success :
  (i < capacity)%nat →
  in_bounds (value_cas_loop empty_value_sentinel fuel i insert_pair value_success).
Proof.
  intros Hi. revert value_success. induction fuel as [|fuel IH]; intros [|]; simpl; try done.
  split; [by intros ? [= <-]|]. intros [b obs]. apply IH.
Qed.

Lemma slot_protocol_in_bounds fuel i insert_pair :
  (i < capacity)%nat →
  in_bounds (slot_protocol empty_key_sentinel empty_value_sentinel target fuel i
                 insert_pair).
Proof.
  intros Hi. unfold slot_protocol.
  destruct (is_packable target); [|destruct (cuda_arch target <? 700)%nat].
  - simpl. split; [by intros ? [= <-]|]. intros [[|] e]; simpl; [done|].
    split; [done|]. by intros [|].
  - simpl. split; [by intros ? [= <-]|]. intros [[|] e]; simpl.
    + split; [by intros ? [= <-]|]. done.
    + split; [done|]. by intros [|].
  - simpl. split; [by intros ? [= <-]|]. intros [key_success e]. simpl.
    split; [by intros ? [= <-]|]. intros [value_success obs].
    destruct key_success.
    + apply in_bounds_bind; [by apply value_cas_loop_in_bounds|done].
    + apply in_bounds_bind.
      * destruct value_success; simpl; [|done]. split; [by intros ? [= <-]|]. done.
      * intros _. simpl. split; [done|]. by intros [|].
Qed.

Lemma insert_loop_in_bounds fuel insert_pair current_slot :
  (current_slot < capacity)%nat →
  in_bounds (insert_loop capacity empty_key_sentinel empty_value_sentinel target fuel
                 insert_pair current_slot).
Proof using capacity_pos.
  revert current_slot. induction fuel as [|fuel IH]; intros s Hs; [done|].
  simpl. split; [by intros ? [= <-]|]. intros e.
  destruct (bitwise_compare e empty_key_sentinel); simpl.
  - apply in_bounds_bind; [by apply slot_protocol_in_bounds|].
    intros [| |]; simpl; [apply IH, next_slot_lt|done..].
  - split; [done|]. intros [|]; simpl; [done|apply IH, next_slot_lt].
Qed.

Lemma find_loop_in_bounds fuel k current_slot :
  (current_slot < capacity)%nat →
  in_bounds (find_loop capacity empty_key_sentinel fuel k current_slot).
Proof using capacity_pos.
  revert current_slot. induction fuel as [|fuel IH]; intros s Hs; [done|].
  simpl. split; [by intros ? [= <-]|]. intros e.
  destruct (bitwise_compare e empty_key_sentinel); simpl; [done|].
  split; [done|]. intros [|]; simpl; [done|apply IH, next_slot_lt].
Qed.

Lemma contains_loop_in_bounds fuel k current_slot :
  (current_slot < capacity)%nat →
  in_bounds (contains_loop capacity empty_key_sentinel fuel k current_slot).
Proof using capacity_pos.
  revert current_slot. induction fuel as [|fuel IH]; intros s Hs; [done|].
  simpl. split; [by intros ? [= <-]|]. intros e.
  destruct (bitwise_compare e empty_key_sentinel); simpl; [done|].
  split; [done|]. intros [|]; simpl; [done|apply IH, next_slot_lt].
Qed.

Lemma lanes_load_in_bounds current_slot :
  Forall (λ s, (s < capacity)%nat) current_slot → in_bounds (lanes_load current_slot).
Proof.
  induction 1 as [|s rest Hs _ IH]; simpl; [done|].
  split; [by intros ? [= <-]|]. intros e. by apply in_bounds_bind.
Qed.

Lemma lanes_match_in_bounds existing_key k :
  in_bounds (lanes_match empty_key_sentinel existing_key k).
Proof.
  induction existing_key as [|e rest IH]; simpl; [done|].
  destruct (negb _); simpl.
  - split; [done|]. intros b. by apply in_bounds_bind.
  - by apply in_bounds_bind.
Qed.

Lemma insert_cg_loop_in_bounds fuel cg_size insert_pair current_slot :
  Forall (λ s, (s < capacity)%nat) current_slot →
  in_bounds (insert_cg_loop capacity empty_key_sentinel empty_value_sentinel target fuel
                 cg_size insert_pair current_slot).
Proof using capacity_pos.
  revert current_slot. induction fuel as [|fuel IH]; intros w Hw; [done|].
  simpl. apply in_bounds_bind; [by apply lanes_load_in_bounds|]. intros existing_key.
  apply in_bounds_bind; [apply lanes_match_in_bounds|]. intros dup.
  destruct (g_any dup); [done|]. destruct (negb _); [|apply IH, next_window_lt].
  apply in_bounds_bind.
  - destruct (w !! _) as [s|] eqn:Hs; [|done]. apply slot_protocol_in_bounds.
    by apply (proj1 (Forall_lookup _ _) Hw _ _ Hs).
  - intros [| |]; simpl; [by apply IH|done..].
Qed.

Lemma find_cg_loop_in_bounds fuel cg_size k current_slot :
  Forall (λ s, (s < capacity)%nat) current_slot →
  in_bounds (find_cg_loop capacity empty_key_sentinel fuel cg_size k current_slot).
Proof using capacity_pos.
  revert current_slot. induction fuel as [|fuel IH]; intros w Hw; [done|].
  simpl. apply in_bounds_bind; [by apply lanes_load_in_bounds|]. intros existing_key.
  apply in_bounds_bind; [apply lanes_match_in_bounds|]. intros found.
  destruct (negb _); [done|]. destruct (negb _); [done|]. apply IH, next_window_lt.
Qed.

Lemma contains_cg_loop_in_bounds fuel cg_size k current_slot :
  Forall (λ s, (s < capacity)%nat) current_slot →
  in_bounds (contains_cg_loop capacity empty_key_sentinel fuel cg_size k current_slot).
Proof using capacity_pos.
  revert current_slot. induction fuel as [|fuel IH]; intros w Hw; [done|].
  simpl. apply in_bounds_bind; [by apply lanes_load_in_bounds|]. intros existing_key.
  apply in_bounds_bind; [apply lanes_match_in_bounds|]. intros found.
  destruct (negb _); [done|]. destruct (negb _); [done|]. apply IH, next_window_lt.
Qed.

End bounds.

(** X4. No device operation of the static map addresses a slot outside
    the slot array.  The constructor gives a map at least one slot,
    whatever capacity is asked for; on a map it has made, every atomic
    operation of [insert], [find] and [contains], by a single thread or
    by a group, is on a slot of the array, whatever the hash function
    returns and whatever the operations before it have read. *)
Theorem device_code_in_bounds
    (capacity : nat) (empty_key_sentinel empty_value_sentinel counter : Z) (hash : Z → nat)
    (target : build) (fuel cg_size : nat) (insert_pair : pair_type) (k : Z) :
  let sm := static_map_new capacity empty_key_sentinel empty_value_sentinel counter in
  let n := length (slots_ sm) in
  (0 < n)%nat ∧
  in_bounds n (insert (capacity_ sm) empty_key_sentinel empty_value_sentinel hash target fuel
                 insert_pair) ∧
  in_bounds n (insert_cg (capacity_ sm) empty_key_sentinel empty_value_sentinel hash target
                 fuel cg_size insert_pair) ∧
  in_bounds n (find (capacity_ sm) empty_key_sentinel hash fuel k) ∧
  in_bounds n (find_cg (capacity_ sm) empty_key_sentinel hash fuel cg_size k) ∧
  in_bounds n (contains (capacity_ sm) empty_key_sentinel hash fuel k) ∧
  in_bounds n (contains_cg (capacity_ sm) empty_key_sentinel hash fuel cg_size k).
Proof.
  intros sm n. assert (Hn : n = Nat.max capacity 1).
  { subst n sm. unfold static_map_new, initialize. simpl. by rewrite length_replicate. }
  assert (Hpos : (0 < n)%nat) by lia.
  rewrite Hn in *. change (capacity_ sm) with (Nat.max capacity 1).
  split; [done|]. split; [by apply insert_loop_in_bounds, initial_slot_lt|].
  split; [by apply insert_cg_loop_in_bounds, initial_window_lt|].
  split; [by apply find_loop_in_bounds, initial_slot_lt|].
  split; [by apply find_cg_loop_in_bounds, initial_window_lt|].
  split; [by apply contains_loop_in_bounds, initial_slot_lt|].
  by apply contains_cg_loop_in_bounds, initial_window_lt.
Qed.

(** ** Lookups after concurrent inserts *)

(** X5. A key whose insert has returned is found.  Insert workers,
    single threads and groups, run on a new map in any interleaving.
    As soon as a worker has returned, with [true] or with [false], a
    slot holds a key equal to its key, and from then on [find] and
    [contains], by a single thread or by a group, return that slot and
    [true]. *)
Theorem insert_then_lookup
    (capacity : nat) (empty_key_sentinel empty_value_sentinel : Z) (hash : Z → nat)
    (key_equal : Z → Z → bool) (target : build) (fuel : nat) (workers : list worker)
    (sched : list nat) (i : nat) (w : worker) (r : bool) (fuel' cg_size : nat) :
  functors_ok hash key_equal →
  (0 < capacity)%nat →
  Forall (worker_ok empty_key_sentinel) workers →
  (capacity < fuel')%nat → (1 ≤ cg_size ≤ 32)%nat →
  let st := run_sched key_equal sched
              (launch capacity empty_key_sentinel empty_value_sentinel hash target fuel
                 workers) in
  let m := sys_mem st in
  let k := (worker_pair w).1 in
  workers !! i = Some w → sys_threads st !! i = Some (Ret r) →
  ∃ j (s : pair_type),
    m !! j = Some s ∧ s.1 ≠ empty_key_sentinel ∧ key_equal s.1 k = true ∧
    run key_equal (find capacity empty_key_sentinel hash fuel' k) m = Some (j, m) ∧
    run key_equal (find_cg capacity empty_key_sentinel hash fuel' cg_size k) m
    = Some (j, m) ∧
    run key_equal (contains capacity empty_key_sentinel hash fuel' k) m = Some (true, m) ∧
    run key_equal (contains_cg capacity empty_key_sentinel hash fuel' cg_size k) m
    = Some (true, m).
Proof.
  intros Hf Hcap Hw Hfuel Hcg st m k Hi Hr.
  destruct (returned_present capacity empty_key_sentinel empty_value_sentinel hash key_equal
              target Hcap Hf
              (initialize empty_key_sentinel empty_value_sentinel capacity)
              workers fuel sched i w r) as [HI Hpres]; [|done..|].
  { by apply initialize_inv. }
  fold st m k in HI, Hpres.
  destruct (present_hit capacity empty_key_sentinel empty_value_sentinel hash key_equal
              Hcap Hf m k HI Hpres) as (d & Hd & Hhit).
  destruct (scalar_hit capacity empty_key_sentinel empty_value_sentinel hash key_equal target
              Hcap fuel' m k d 0 Hhit) as (Hfind & Hcont & _); [lia|].
  destruct (cg_hit capacity empty_key_sentinel empty_value_sentinel hash key_equal target
              Hcap fuel' cg_size m k d 0) as (Hfind' & Hcont' & _);
    [apply HI|done|done|lia|].
  destruct Hhit as [_ (s & Hs & Hne & Hk)].
  exists (probe capacity hash k d), s. done.
Qed.

Lemma insert_then_lookup_witness :
  let st := run_sched int_key_equal
              [0; 1; 2; 0; 1; 1; 2; 0; 2; 1; 1; 0; 2; 1; 1; 1; 0; 1; 2; 0; 1; 2]%nat
              (launch 5 (-1) (-1) int_hash volta 8 example_workers) in
  ∃ j (s : pair_type),
    sys_mem st !! j = Some s ∧ s.1 ≠ -1 ∧ int_key_equal s.1 7 = true ∧
    run int_key_equal (find 5 (-1) int_hash 6 7) (sys_mem st) = Some (j, sys_mem st) ∧
    run int_key_equal (find_cg 5 (-1) int_hash 6 4 7) (sys_mem st) = Some (j, sys_mem st) ∧
    run int_key_equal (contains 5 (-1) int_hash 6 7) (sys_mem st)
    = Some (true, sys_mem st) ∧
    run int_key_equal (contains_cg 5 (-1) int_hash 6 4 7) (sys_mem st)
    = Some (true, sys_mem st).
Proof.
  apply (insert_then_lookup 5 (-1) (-1) int_hash int_key_equal volta 8 example_workers
           [0; 1; 2; 0; 1; 1; 2; 0; 2; 1; 1; 0; 2; 1; 1; 1; 0; 1; 2; 0; 1; 2]%nat
           1 (Group 4 (7, 71)) false 6 4).
  - exact int_functors_ok.
  - lia.
  - repeat constructor; simpl; lia.
  - lia.
  - lia.
  - reflexivity.
  - vm_compute. reflexivity.
Defined.

(** X6. A group computes what a single thread computes.  On the slots
    of a map that insert workers have come to in any interleaving, a
    worker that then runs alone gets the same result, and leaves the
    same slots, from the group forms of [find], [contains] and [insert]
    as from the single-thread forms, for every group size from 1 to
    32. *)
Theorem group_agrees_with_single
    (capacity : nat) (empty_key_sentinel empty_value_sentinel : Z) (hash : Z → nat)
    (key_equal : Z → Z → bool) (target : build) (fuel : nat) (workers : list worker)
    (sched : list nat) (fuel' cg_size : nat) (k v : Z) :
  functors_ok hash key_equal →
  (0 < capacity)%nat →
  Forall (worker_ok empty_key_sentinel) workers →
  (capacity < fuel')%nat → (1 ≤ cg_size ≤ 32)%nat →
  let m := sys_mem (run_sched key_equal sched
                      (launch capacity empty_key_sentinel empty_value_sentinel hash target
                         fuel workers)) in
  run key_equal (find_cg capacity empty_key_sentinel hash fuel' cg_size k) m =
  run key_equal (find capacity empty_key_sentinel hash fuel' k) m ∧
  run key_equal (contains_cg capacity empty_key_sentinel hash fuel' cg_size k) m =
  run key_equal (contains capacity empty_key_sentinel hash fuel' k) m ∧
  run key_equal (insert_cg capacity empty_key_sentinel empty_value_sentinel hash target
                   fuel' cg_size (k, v)) m =
  run key_equal (insert capacity empty_key_sentinel empty_value_sentinel hash target
                   fuel' (k, v)) m.
Proof.
  intros Hf Hcap Hw Hfuel Hcg m.
  assert (Hinv : sys_inv capacity empty_key_sentinel empty_value_sentinel hash key_equal
                   (run_sched key_equal sched
                      (launch capacity empty_key_sentinel empty_value_sentinel hash target
                         fuel workers))).
  { eapply run_sched_inv; eauto. eapply launch_inv; eauto. }
  destruct Hinv as [HI _]. fold m in HI.
  by apply (cg_agrees capacity empty_key_sentinel empty_value_sentinel hash key_equal target
              Hcap Hf).
Qed.

Lemma group_agrees_with_single_witness :
  let m := sys_mem (run_sched int_key_equal [0; 1; 2; 0; 1; 1; 2; 0; 2; 1; 1; 0; 2]%nat
                      (launch 5 (-1) (-1) int_hash volta 8 example_workers)) in
  run int_key_equal (find_cg 5 (-1) int_hash 6 3 12) m =
  run int_key_equal (find 5 (-1) int_hash 6 12) m ∧
  run int_key_equal (contains_cg 5 (-1) int_hash 6 3 12) m =
  run int_key_equal (contains 5 (-1) int_hash 6 12) m ∧
  run int_key_equal (insert_cg 5 (-1) (-1) int_hash volta 6 3 (12, 121)) m =
  run int_key_equal (insert 5 (-1) (-1) int_hash volta 6 (12, 121)) m.
Proof.
  apply (group_agrees_with_single 5 (-1) (-1) int_hash int_key_equal volta 8 example_workers
           [0; 1; 2; 0; 1; 1; 2; 0; 2; 1; 1; 0; 2]%nat 6 3 12 121).
  - exact int_functors_ok.
  - lia.
  - repeat constructor; simpl; lia.
  - lia.
  - lia.
Defined.

(** X7. An insert does not overwrite.  On the slots of a map that
    insert workers have come to in any interleaving, the insert of a
    pair whose key is equal to a key in the map, by a single thread or
    by a group that runs alone, returns [false] and leaves every slot,
    the value of that key included, as it is. *)
Theorem insert_existing_key
    (capacity : nat) (empty_key_sentinel empty_value_sentinel : Z) (hash : Z → nat)
    (key_equal : Z → Z → bool) (target : build) (fuel : nat) (workers : list worker)
    (sched : list nat) (fuel' cg_size : nat) (j : nat) (s : pair_type) (k v : Z) :
  functors_ok hash key_equal →
  (0 < capacity)%nat →
  Forall (worker_ok empty_key_sentinel) workers →
  (capacity < fuel')%nat → (1 ≤ cg_size ≤ 32)%nat →
  let m := sys_mem (run_sched key_equal sched
                      (launch capacity empty_key_sentinel empty_value_sentinel hash target
                         fuel workers)) in
  m !! j = Some s → s.1 ≠ empty_key_sentinel → key_equal s.1 k = true →
  run key_equal (insert capacity empty_key_sentinel empty_value_sentinel hash target
                   fuel' (k, v)) m = Some (false, m) ∧
  run key_equal (insert_cg capacity empty_key_sentinel empty_value_sentinel hash target
                   fuel' cg_size (k, v)) m = Some (false, m).
Proof.
  intros Hf Hcap Hw Hfuel Hcg m Hs Hne Hk.
  assert (Hinv : sys_inv capacity empty_key_sentinel empty_value_sentinel hash key_equal
                   (run_sched key_equal sched
                      (launch capacity empty_key_sentinel empty_value_sentinel hash target
                         fuel workers))).
  { eapply run_sched_inv; eauto. eapply launch_inv; eauto. }
  destruct Hinv as [HI _]. fold m in HI.
  destruct (present_hit capacity empty_key_sentinel empty_value_sentinel hash key_equal
              Hcap Hf m k HI) as (d & Hd & Hhit); [by exists j, s|].
  destruct (scalar_hit capacity empty_key_sentinel empty_value_sentinel hash key_equal target
              Hcap fuel' m k d v Hhit) as (_ & _ & Hins); [lia|].
  destruct (cg_hit capacity empty_key_sentinel empty_value_sentinel hash key_equal target
              Hcap fuel' cg_size m k d v) as (_ & _ & Hins');
    [apply HI|done|done|lia|].
  done.
Qed.

Lemma insert_existing_key_witness :
  let m := sys_mem (run_sched int_key_equal
                      [0; 1; 2; 0; 1; 1; 2; 0; 2; 1; 1; 0; 2; 1; 1; 1; 0; 1; 2; 0; 1; 2; 2; 2; 2]%nat
                      (launch 5 (-1) (-1) int_hash volta 8 example_workers)) in
  run int_key_equal (insert 5 (-1) (-1) int_hash volta 6 (12, 999)) m = Some (false, m) ∧
  run int_key_equal (insert_cg 5 (-1) (-1) int_hash volta 6 4 (12, 999)) m = Some (false, m).
Proof.
  apply (insert_existing_key 5 (-1) (-1) int_hash int_key_equal volta 8 example_workers
           [0; 1; 2; 0; 1; 1; 2; 0; 2; 1; 1; 0; 2; 1; 1; 1; 0; 1; 2; 0; 1; 2; 2; 2; 2]%nat
           6 4 3 (12, 120) 12 999).
  - exact int_functors_ok.
  - lia.
  - repeat constructor; simpl; lia.
  - lia.
  - lia.
  - vm_compute. reflexivity.
  - simpl. lia.
  - reflexivity.
Defined.

(** X8. On a full map an operation on a new key does not return.  When
    every slot holds a key and none is equal to [k], the loops of
    [find], [contains] and [insert] for [k], by a single thread or by a
    group, are still running after any number of rounds. *)
Theorem full_map_does_not_return
    (capacity : nat) (empty_key_sentinel empty_value_sentinel : Z) (hash : Z → nat)
    (key_equal : Z → Z → bool) (target : build) (m : mem) (k v : Z) (fuel cg_size : nat) :
  (0 < capacity)%nat → length m = capacity →
  (∀ j (s : pair_type), m !! j = Some s →
     s.1 ≠ empty_key_sentinel ∧ key_equal s.1 k = false) →
  run key_equal (find capacity empty_key_sentinel hash fuel k) m = None ∧
  run key_equal (contains capacity empty_key_sentinel hash fuel k) m = None ∧
  run key_equal (insert capacity empty_key_sentinel empty_value_sentinel hash target fuel
                   (k, v)) m = None ∧
  run key_equal (find_cg capacity empty_key_sentinel hash fuel cg_size k) m = None ∧
  run key_equal (contains_cg capacity empty_key_sentinel hash fuel cg_size k) m = None ∧
  run key_equal (insert_cg capacity empty_key_sentinel empty_value_sentinel hash target fuel
                   cg_size (k, v)) m = None.
Proof.
  intros Hcap Hlen Hfull.
  assert (Hp : ∀ n, passed capacity empty_key_sentinel hash key_equal m k n).
  { intros n. apply absent_full_passed; [done..| |].
    - intros j s Hs _. by apply (Hfull j s).
    - intros j s Hs. by apply (Hfull j s). }
  destruct (scalar_full capacity empty_key_sentinel empty_value_sentinel hash key_equal target
              Hcap fuel m k v (Hp _)) as (H1 & H2 & H3).
  destruct (cg_full capacity empty_key_sentinel empty_value_sentinel hash key_equal target
              Hcap fuel cg_size m k v Hlen (Hp _)) as (H4 & H5 & H6).
  done.
Qed.

(** A map made with capacity 0 has one slot; once it holds key 7, no
    operation on key 8 returns. *)
Lemma full_map_does_not_return_witness :
  ∃ m, run int_key_equal
         (insert (capacity_ (static_map_new 0 (-1) (-1) 0)) (-1) (-1) int_hash volta 3 (7, 70))
         (slots_ (static_map_new 0 (-1) (-1) 0)) = Some (true, m) ∧
       run int_key_equal (find 1 (-1) int_hash 100 8) m = None ∧
       run int_key_equal (contains 1 (-1) int_hash 100 8) m = None ∧
       run int_key_equal (insert 1 (-1) (-1) int_hash volta 100 (8, 80)) m = None ∧
       run int_key_equal (find_cg 1 (-1) int_hash 100 4 8) m = None ∧
       run int_key_equal (contains_cg 1 (-1) int_hash 100 4 8) m = None ∧
       run int_key_equal (insert_cg 1 (-1) (-1) int_hash volta 100 4 (8, 80)) m = None.
Proof.
  exists [(7, 70)]. split; [reflexivity|].
  apply (full_map_does_not_return 1 (-1) (-1) int_hash int_key_equal volta [(7, 70)] 8 80
           100 4).
  - lia.
  - reflexivity.
  - intros [|j] s Hs; [|done]. injection Hs as <-. simpl. split; [lia|reflexivity].
Defined.

(** ** Bulk inserts and the lookups after them *)

Section host_lookups.
Variable hash : Z → nat.
Variable key_equal : Z → Z → bool.
Variable target : build.
Variable fuel : nat.
Hypothesis functors : functors_ok hash key_equal.

Lemma tile_size_lanes : (1 ≤ Z.to_nat tile_size ≤ 32)%nat.
Proof. unfold tile_size. lia. Qed.

(** The kernel of a bulk insert as a system of groups. *)
Lemma insert_kernel_launch sched pairs sm :
  run_sched key_equal sched
    {| sys_mem := slots_ sm;
       sys_threads :=
         map (insert_cg (capacity_ sm) (empty_key_sentinel_ sm) (empty_value_sentinel_ sm)
                hash target fuel (Z.to_nat tile_size)) pairs |} =
  run_sched key_equal sched
    (launch_on (slots_ sm) (capacity_ sm) (empty_key_sentinel_ sm) (empty_value_sentinel_ sm)
       hash target fuel (map (Group (Z.to_nat tile_size)) pairs)).
Proof. unfold launch_on. by rewrite <- list_fmap_compose. Qed.

Lemma insert_kernel_inv sched pairs sm sm' :
  map_inv hash key_equal sm →
  Forall (λ p : pair_type, p.1 ≠ empty_key_sentinel_ sm) pairs →
  insert_kernel hash key_equal target fuel sched pairs sm = Some sm' →
  map_inv hash key_equal sm' ∧
  capacity_ sm' = capacity_ sm ∧ empty_key_sentinel_ sm' = empty_key_sentinel_ sm ∧
  empty_value_sentinel_ sm' = empty_value_sentinel_ sm ∧
  stable (empty_key_sentinel_ sm) (slots_ sm) (slots_ sm') ∧
  ∀ p : pair_type, p ∈ pairs → present (empty_key_sentinel_ sm) key_equal (slots_ sm') p.1.
Proof.
  intros [Hcap HI] Hk. unfold insert_kernel. rewrite insert_kernel_launch.
  set (workers := map (Group (Z.to_nat tile_size)) pairs).
  set (st := run_sched key_equal sched _).
  assert (Hw : Forall (worker_ok (empty_key_sentinel_ sm)) workers).
  { subst workers. apply Forall_fmap. eapply Forall_impl; [exact Hk|].
    intros p Hp. split; [done|]. simpl. pose proof tile_size_lanes. lia. }
  assert (Hw' : Forall (λ w, (worker_pair w).1 ≠ empty_key_sentinel_ sm) workers).
  { eapply Forall_impl; [exact Hw|]. by intros w [Hp _]. }
  destruct (mapM finished (sys_threads st)) as [results|] eqn:Hres; simpl; [|done].
  intros [= <-]. simpl.
  destruct (run_sched_accounts (empty_key_sentinel_ sm) key_equal _ sched _
              (launch_accounts (empty_key_sentinel_ sm) (slots_ sm) (capacity_ sm)
                 (empty_value_sentinel_ sm) hash target fuel workers Hw')) as [_ Hst].
  fold st in Hst. simpl in Hst.
  assert (Hret : ∀ i w, workers !! i = Some w → ∃ r, sys_threads st !! i = Some (Ret r)).
  { intros i w Hi. apply mapM_Some in Hres.
    destruct (lookup_lt_is_Some_2 (sys_threads st) i) as [p Hp].
    { subst st. rewrite run_sched_length. simpl. rewrite length_map.
      by eapply lookup_lt_Some. }
    destruct (Forall2_lookup_l _ _ _ _ _ Hres Hp) as (r & _ & Hfin).
    exists r. rewrite Hp. f_equal. destruct p; simpl in Hfin; try done.
    by injection Hfin as ->. }
  assert (HI' : Inv (capacity_ sm) (empty_key_sentinel_ sm) (empty_value_sentinel_ sm) hash
                  key_equal (sys_mem st)).
  { assert (Hinv : sys_inv (capacity_ sm) (empty_key_sentinel_ sm)
                     (empty_value_sentinel_ sm) hash key_equal st).
    { subst st. eapply run_sched_inv; eauto. split; [done|]. simpl.
      apply Forall_fmap. eapply Forall_impl; [exact Hw|]. intros w Hok.
      eapply worker_prog_safe; eauto. }
    apply Hinv. }
  split; [by split|]. repeat split; try done; try apply Hst.
  intros p Hp. apply list_elem_of_lookup in Hp as [i Hi].
  assert (Hwi : workers !! i = Some (Group (Z.to_nat tile_size) p)).
  { subst workers. by rewrite list_lookup_fmap, Hi. }
  destruct (Hret i _ Hwi) as [r Hr].
  by destruct (returned_present (capacity_ sm) (empty_key_sentinel_ sm)
                 (empty_value_sentinel_ sm) hash key_equal target Hcap functors (slots_ sm)
                 workers fuel sched i _ r HI Hw Hwi Hr) as [_ Hpres].
Qed.

Lemma do_call_inv c sm sm' trace :
  map_inv hash key_equal sm →
  Forall (λ p : pair_type, p.1 ≠ empty_key_sentinel_ sm) (call_items c) →
  do_call hash key_equal target fuel c sm = Some (sm', trace) →
  map_inv hash key_equal sm' ∧
  capacity_ sm' = capacity_ sm ∧ empty_key_sentinel_ sm' = empty_key_sentinel_ sm ∧
  empty_value_sentinel_ sm' = empty_value_sentinel_ sm ∧
  stable (empty_key_sentinel_ sm) (slots_ sm) (slots_ sm') ∧
  ∀ p : pair_type, p ∈ call_items c →
    present (empty_key_sentinel_ sm) key_equal (slots_ sm') p.1.
Proof.
  intros Hinv Hk.
  assert (Hnone : ∀ items : list pair_type, items = [] →
            map_inv hash key_equal sm ∧
            capacity_ sm = capacity_ sm ∧ empty_key_sentinel_ sm = empty_key_sentinel_ sm ∧
            empty_value_sentinel_ sm = empty_value_sentinel_ sm ∧
            stable (empty_key_sentinel_ sm) (slots_ sm) (slots_ sm) ∧
            ∀ p : pair_type, p ∈ items →
              present (empty_key_sentinel_ sm) key_equal (slots_ sm) p.1).
  { intros items ->. repeat split; try done; try apply Hinv.
    - intros i s Hs _. by exists s.
    - intros p Hp. by apply elem_of_nil in Hp. }
  assert (Hker : ∀ sched items sm1,
            insert_kernel hash key_equal target fuel sched items (memset_counter sm)
              = Some sm1 →
            Forall (λ p : pair_type, p.1 ≠ empty_key_sentinel_ sm) items →
            map_inv hash key_equal (add_size (num_successes_ sm1) sm1) ∧
            capacity_ (add_size (num_successes_ sm1) sm1) = capacity_ sm ∧
            empty_key_sentinel_ (add_size (num_successes_ sm1) sm1)
              = empty_key_sentinel_ sm ∧
            empty_value_sentinel_ (add_size (num_successes_ sm1) sm1)
              = empty_value_sentinel_ sm ∧
            stable (empty_key_sentinel_ sm) (slots_ sm)
              (slots_ (add_size (num_successes_ sm1) sm1)) ∧
            ∀ p : pair_type, p ∈ items →
              present (empty_key_sentinel_ sm) key_equal
                (slots_ (add_size (num_successes_ sm1) sm1)) p.1).
  { intros sched items sm1 Hrun Hitems.
    apply insert_kernel_inv in Hrun as ([Hc1 HI1] & Hcap & Hek & Hev & Hst & Hpres);
      [|done|done].
    simpl in *. unfold map_inv, add_size. simpl. rewrite Hcap, Hek, Hev in *. done. }
  destruct c as [sched pairs|sched pairs stencil pred]; simpl in *.
  - unfold static_map_insert.
    destruct (Z.eqb_spec (Z.of_nat (length pairs)) 0) as [H0|H0].
    { intros [= <- <-]. apply Hnone. destruct pairs; [done|simpl in H0; lia]. }
    rewrite grid_size_for_pos; [|lia].
    destruct (insert_kernel _ _ _ _ _ _ _) as [sm1|] eqn:Hrun; simpl; [|done].
    intros [= <- <-]. exact (Hker _ _ _ Hrun Hk).
  - unfold static_map_insert_if.
    destruct (Z.eqb_spec (Z.of_nat (length pairs)) 0) as [H0|H0].
    { intros [= <- <-]. apply Hnone. destruct pairs; [done|simpl in H0; lia]. }
    rewrite grid_size_for_pos; [|lia]. unfold insert_if_n_kernel.
    destruct (insert_kernel _ _ _ _ _ _ _) as [sm1|] eqn:Hrun; simpl; [|done].
    intros [= <- <-]. exact (Hker _ _ _ Hrun Hk).
Qed.

(** After a sequence of bulk inserts on a new map the slots satisfy the
    invariant and hold every key that was inserted. *)
Lemma run_calls_inv calls sm sm' ns :
  map_inv hash key_equal sm →
  Forall (λ c, Forall (λ p : pair_type, p.1 ≠ empty_key_sentinel_ sm) (call_items c)) calls →
  run_calls hash key_equal target fuel calls sm = Some (sm', ns) →
  map_inv hash key_equal sm' ∧
  capacity_ sm' = capacity_ sm ∧ empty_key_sentinel_ sm' = empty_key_sentinel_ sm ∧
  empty_value_sentinel_ sm' = empty_value_sentinel_ sm ∧
  stable (empty_key_sentinel_ sm) (slots_ sm) (slots_ sm') ∧
  ∀ k, inserted_key calls k → present (empty_key_sentinel_ sm) key_equal (slots_ sm') k.
Proof.
  intros Hinv Hk. revert sm ns Hinv Hk.
  induction calls as [|c calls IH]; intros sm ns Hinv Hk; simpl.
  - intros [= <- <-]. repeat split; try done; try apply Hinv.
    + intros i s Hs _. by exists s.
    + intros k (c & Hc & _). by apply elem_of_nil in Hc.
  - inversion Hk as [|? ? Hc Hrest]; subst.
    destruct (call_successes _ _ _ _ c sm) as [n|]; simpl; [|done].
    destruct (do_call _ _ _ _ c sm) as [[sm1 trace]|] eqn:Hcall; simpl; [|done].
    destruct (run_calls _ _ _ _ calls sm1) as [[sm2 ns']|] eqn:Hrun; simpl; [|done].
    intros [= <- <-].
    destruct (do_call_inv c sm sm1 trace Hinv Hc Hcall)
      as (Hinv1 & Hcap1 & Hek1 & Hev1 & Hst1 & Hpres1).
    destruct (IH sm1 ns' Hinv1) as (Hinv2 & Hcap2 & Hek2 & Hev2 & Hst2 & Hpres2);
      [by rewrite Hek1|done|].
    rewrite Hek1 in Hst2, Hpres2.
    split; [done|]. split; [congruence|]. split; [congruence|]. split; [congruence|].
    split; [by eapply stable_step|].
    intros k (c' & Hc' & Hin). apply elem_of_cons in Hc' as [->|Hc'].
    + apply list_elem_of_fmap in Hin as (p & -> & Hp).
      eapply present_closed; eauto.
    + apply Hpres2. by exists c'.
Qed.

Lemma static_map_new_inv capacity empty_key_sentinel empty_value_sentinel counter :
  map_inv hash key_equal
    (static_map_new capacity empty_key_sentinel empty_value_sentinel counter).
Proof.
  split; simpl; [lia|]. apply initialize_inv.
Qed.

Lemma run_each_same {R} (ps : list (prog R)) rs m :
  Forall2 (λ p r, run key_equal p m = Some (r, m)) ps rs →
  run_each key_equal ps m = Some (rs, m).
Proof.
  induction 1 as [|p r ps rs Hp _ IH]; [done|]. simpl. rewrite Hp. simpl. by rewrite IH.
Qed.

(** What the groups of the lookup kernels get for a key in the map. *)
Lemma lookup_groups_present sm k :
  map_inv hash key_equal sm → (capacity_ sm < fuel)%nat →
  present (empty_key_sentinel_ sm) key_equal (slots_ sm) k →
  run key_equal (contains_cg (capacity_ sm) (empty_key_sentinel_ sm) hash fuel
                   (Z.to_nat tile_size) k) (slots_ sm) = Some (true, slots_ sm) ∧
  ∃ j (s : pair_type),
    slots_ sm !! j = Some s ∧ s.1 ≠ empty_key_sentinel_ sm ∧ key_equal s.1 k = true ∧
    run key_equal (find_one hash fuel sm k) (slots_ sm) = Some (s.2, slots_ sm).
Proof.
  intros [Hcap HI] Hfuel Hpres.
  destruct (present_hit _ _ _ _ _ Hcap functors _ _ HI Hpres) as (d & Hd & Hhit).
  destruct (cg_hit (capacity_ sm) (empty_key_sentinel_ sm) (empty_value_sentinel_ sm) hash
              key_equal target Hcap fuel (Z.to_nat tile_size) (slots_ sm) k d 0)
    as (Hfind & Hcont & _); [apply HI|apply tile_size_lanes|done|lia|].
  split; [done|]. destruct Hhit as [_ (s & Hs & Hne & Hk)].
  exists (probe (capacity_ sm) hash k d), s. repeat split; try done.
  unfold find_one, mbind, prog_mbind. rewrite run_bind, Hfind.
  destruct (decide _) as [He|He].
  - exfalso. unfold end_ in He. pose proof (lookup_lt_Some _ _ _ Hs) as Hlt.
    destruct HI as [Hlen _]. lia.
  - simpl. by rewrite Hs.
Qed.

(** What a bulk [find] writes when every group finds its key. *)
Lemma static_map_find_values keys output sm :
  Forall (λ k, ∃ j (s : pair_type),
            slots_ sm !! j = Some s ∧ s.1 ≠ empty_key_sentinel_ sm ∧
            key_equal s.1 k = true ∧
            run key_equal (find_one hash fuel sm k) (slots_ sm) = Some (s.2, slots_ sm))
    keys →
  ∃ values trace,
    static_map_find hash key_equal fuel keys output sm
    = Some (sm, write_range values output, trace) ∧
    length values = length keys ∧
    ∀ i k, keys !! i = Some k →
      ∃ j (s : pair_type),
        slots_ sm !! j = Some s ∧ s.1 ≠ empty_key_sentinel_ sm ∧ key_equal s.1 k = true ∧
        values !! i = Some s.2.
Proof.
  intros Hgroups.
  assert (Hvalues : ∃ values,
            Forall2 (λ p v, run key_equal p (slots_ sm) = Some (v, slots_ sm))
              (map (find_one hash fuel sm) keys) values ∧
            length values = length keys ∧
            ∀ i k, keys !! i = Some k →
              ∃ j (s : pair_type),
                slots_ sm !! j = Some s ∧ s.1 ≠ empty_key_sentinel_ sm ∧
                key_equal s.1 k = true ∧ values !! i = Some s.2).
  { induction Hgroups as [|k keys' (j & s & Hs & Hne & Hkk & Hone) _ IH].
    - exists []. split; [constructor|]. split; [done|]. intros i k Hi.
      by rewrite lookup_nil in Hi.
    - destruct IH as (values & Hall & Hlen & Hval). exists (s.2 :: values).
      split; [by constructor|]. split; [simpl; by rewrite Hlen|].
      intros [|i] k' Hi; simpl in Hi.
      + injection Hi as <-. by exists j, s.
      + by apply Hval. }
  destruct Hvalues as (values & Hall & Hlen & Hval). exists values.
  unfold static_map_find.
  destruct (Z.eqb_spec (Z.of_nat (length keys)) 0) as [H0|H0].
  { destruct keys; [|simpl in H0; lia]. destruct values; [|done]. by exists []. }
  rewrite grid_size_for_pos; [|lia]. unfold find_kernel.
  rewrite (run_each_same _ values _ Hall). simpl. rewrite with_slots_same.
  eexists. done.
Qed.

End host_lookups.

(** X9. Bulk lookups after bulk inserts.  After any sequence of bulk
    [insert] and [insert_if] calls on a new map that hand no sentinel
    key to the device, under any interleaving of the groups of each
    kernel, a bulk [contains] of keys that were inserted writes [true]
    for every key, and a bulk [find] writes for every key the value
    stored in the slot that holds the key; both leave the map as it
    is. *)
Theorem bulk_insert_then_lookup
    (hash : Z → nat) (key_equal : Z → Z → bool) (target : build) (fuel : nat)
    (capacity : nat) (empty_key_sentinel empty_value_sentinel counter : Z)
    (calls : list bulk_call) (sm : static_map) (successes : list Z)
    (keys : list Z) (output_b : list bool) (output_v : list Z) :
  functors_ok hash key_equal →
  Forall (λ c, Forall (λ p : pair_type, p.1 ≠ empty_key_sentinel) (call_items c)) calls →
  run_calls hash key_equal target fuel calls
    (static_map_new capacity empty_key_sentinel empty_value_sentinel counter)
  = Some (sm, successes) →
  (Nat.max capacity 1 < fuel)%nat →
  Forall (inserted_key calls) keys →
  (∃ trace,
     static_map_contains hash key_equal fuel keys output_b sm
     = Some (sm, write_range (replicate (length keys) true) output_b, trace)) ∧
  (∃ values trace,
     static_map_find hash key_equal fuel keys output_v sm
     = Some (sm, write_range values output_v, trace) ∧
     length values = length keys ∧
     ∀ i k, keys !! i = Some k →
       ∃ j (s : pair_type),
         slots_ sm !! j = Some s ∧ s.1 ≠ empty_key_sentinel ∧ key_equal s.1 k = true ∧
         values !! i = Some s.2).
Proof.
  intros Hf Hk Hrun Hfuel Hkeys.
  destruct (run_calls_inv hash key_equal target fuel Hf calls _ sm successes
              (static_map_new_inv hash key_equal capacity empty_key_sentinel
                 empty_value_sentinel counter) Hk Hrun)
    as (Hinv & Hcap & Hek & Hev & _ & Hpres).
  simpl in Hcap, Hek, Hev, Hpres.
  assert (Hgroups : Forall (λ k,
            run key_equal (contains_cg (capacity_ sm) (empty_key_sentinel_ sm) hash fuel
                             (Z.to_nat tile_size) k) (slots_ sm) = Some (true, slots_ sm) ∧
            ∃ j (s : pair_type),
              slots_ sm !! j = Some s ∧ s.1 ≠ empty_key_sentinel_ sm ∧
              key_equal s.1 k = true ∧
              run key_equal (find_one hash fuel sm k) (slots_ sm)
              = Some (s.2, slots_ sm)) keys).
  { eapply Forall_impl; [exact Hkeys|]. intros k Hin.
    apply (lookup_groups_present hash key_equal target fuel Hf); [done|lia|].
    rewrite Hek. by apply Hpres. }
  clear Hkeys Hrun Hpres. split.
  - unfold static_map_contains.
    destruct (Z.eqb_spec (Z.of_nat (length keys)) 0) as [H0|H0].
    { destruct keys; [|simpl in H0; lia]. by exists []. }
    rewrite grid_size_for_pos; [|lia]. unfold contains_kernel.
    rewrite (run_each_same key_equal _ (replicate (length keys) true)).
    + simpl. rewrite with_slots_same. by eexists.
    + clear H0. induction Hgroups as [|k keys' [Hc _] _ IH]; simpl; constructor; done.
  - destruct (static_map_find_values hash key_equal fuel keys output_v sm)
      as (values & trace & Hfind & Hlen & Hval).
    { eapply Forall_impl; [exact Hgroups|]. by intros k [_ Hone]. }
    exists values, trace. rewrite <- Hek. done.
Qed.

Lemma bulk_insert_then_lookup_witness :
  (∃ trace,
     static_map_contains int_hash int_key_equal 8 [3; 0; 1] [false; false; false; false]
       example_map
     = Some (example_map, write_range (replicate 3 true) [false; false; false; false],
             trace)) ∧
  (∃ values trace,
     static_map_find int_hash int_key_equal 8 [3; 0; 1] [5; 5; 5; 5] example_map
     = Some (example_map, write_range values [5; 5; 5; 5], trace) ∧
     length values = 3%nat ∧
     ∀ i k, [3; 0; 1] !! i = Some k →
       ∃ j (s : pair_type),
         slots_ example_map !! j = Some s ∧ s.1 ≠ -1 ∧ int_key_equal s.1 k = true ∧
         values !! i = Some s.2).
Proof.
  apply (bulk_insert_then_lookup int_hash int_key_equal volta 8 5 (-1) (-1) 17
           [BulkInsert (concat (replicate 40 [0; 1; 2]%nat)) [(0, 0); (0, 1); (0, 2)];
            BulkInsertIf (replicate 40 0 ++ replicate 40 1 ++ replicate 40 2)%nat
              [(1, 10); (2, 20); (3, 30)] [1; 0; 1] Z.odd;
            BulkInsert [] []] example_map [1; 2; 0] [3; 0; 1]).
  - exact int_functors_ok.
  - repeat constructor; simpl; lia.
  - vm_compute. reflexivity.
  - simpl. lia.
  - repeat constructor.
    + eexists. split; [eapply (list_elem_of_lookup_2 _ 1%nat); reflexivity|].
      vm_compute. repeat constructor.
    + eexists. split; [eapply (list_elem_of_lookup_2 _ 0%nat); reflexivity|].
      vm_compute. repeat constructor.
    + eexists. split; [eapply (list_elem_of_lookup_2 _ 1%nat); reflexivity|].
      vm_compute. repeat constructor.
Defined.

(** ** Inserting again what is in the map *)

Lemma step_thread_quiet key_equal {R} (post : R → Prop) m (st : sys R) i :
  sys_mem st = m → Forall (quiet key_equal post m) (sys_threads st) →
  sys_mem (step_thread key_equal st i) = m ∧
  Forall (quiet key_equal post m) (sys_threads (step_thread key_equal st i)).
Proof.
  intros Hm Hq. unfold step_thread.
  destruct (sys_threads st !! i) as [[r| |X op k]|] eqn:Hi; try done.
  pose proof (proj1 (Forall_lookup _ _) Hq i _ Hi) as (x & He & Hk).
  rewrite Hm, He. simpl. split; [done|]. by apply Forall_insert.
Qed.

Lemma run_sched_quiet key_equal {R} (post : R → Prop) m sched (st : sys R) :
  sys_mem st = m → Forall (quiet key_equal post m) (sys_threads st) →
  sys_mem (run_sched key_equal sched st) = m ∧
  Forall (quiet key_equal post m) (sys_threads (run_sched key_equal sched st)).
Proof.
  unfold run_sched. revert st. induction sched as [|i sched IH]; intros st Hm Hq; [done|].
  simpl. destruct (step_thread_quiet key_equal post m st i Hm Hq) as [Hm' Hq'].
  by apply IH.
Qed.

Lemma count_true_all_false results :
  Forall (λ r : bool, r = false) results → count_true results = 0.
Proof.
  induction 1 as [|r results -> _ IH]; [done|]. rewrite count_true_cons, IH. done.
Qed.

(** X10. A bulk insert of pairs whose keys are all in the map changes
    nothing.  After any sequence of bulk [insert] and [insert_if] calls
    on a new map, a bulk [insert] of pairs whose keys were inserted
    before leaves, under any interleaving of its groups, every slot and
    [size_] as they are: no group writes, and every item is reported
    as not inserted. *)
Theorem bulk_insert_again
    (hash : Z → nat) (key_equal : Z → Z → bool) (target : build) (fuel : nat)
    (capacity : nat) (empty_key_sentinel empty_value_sentinel counter : Z)
    (calls : list bulk_call) (sm : static_map) (successes : list Z)
    (sched : list nat) (pairs : list pair_type) (sm' : static_map) (trace : list stream_op) :
  functors_ok hash key_equal →
  Forall (λ c, Forall (λ p : pair_type, p.1 ≠ empty_key_sentinel) (call_items c)) calls →
  run_calls hash key_equal target fuel calls
    (static_map_new capacity empty_key_sentinel empty_value_sentinel counter)
  = Some (sm, successes) →
  Forall (λ p : pair_type, inserted_key calls p.1) pairs →
  static_map_insert hash key_equal target fuel sched pairs sm = Some (sm', trace) →
  slots_ sm' = slots_ sm ∧ size_ sm' = size_ sm ∧
  per_item_results hash key_equal target fuel sched pairs sm
  = Some (replicate (length pairs) false).
Proof.
  intros Hf Hk Hrun Hpairs.
  destruct (run_calls_inv hash key_equal target fuel Hf calls _ sm successes
              (static_map_new_inv hash key_equal capacity empty_key_sentinel
                 empty_value_sentinel counter) Hk Hrun)
    as ([Hcap HI] & _ & Hek & _ & _ & Hpres).
  simpl in Hek, Hpres.
  assert (Hsize : 0 ≤ size_ sm < size_max).
  { assert (Hnew : 0 ≤ size_ (static_map_new capacity empty_key_sentinel
                                  empty_value_sentinel counter) < size_max) by done.
    destruct (run_calls_size hash key_equal target fuel calls _ sm successes Hnew Hrun)
      as [-> _].
    apply Z.mod_pos_bound. done. }
  set (st := run_sched key_equal sched
               {| sys_mem := slots_ sm;
                  sys_threads :=
                    map (insert_cg (capacity_ sm) (empty_key_sentinel_ sm)
                           (empty_value_sentinel_ sm) hash target fuel (Z.to_nat tile_size))
                      pairs |}).
  assert (Hq : sys_mem st = slots_ sm ∧
               Forall (quiet key_equal (λ r, r = false) (slots_ sm)) (sys_threads st)).
  { apply run_sched_quiet; [done|]. simpl. apply Forall_fmap.
    eapply Forall_impl; [exact Hpairs|]. intros [k v] Hin. simpl in *.
    apply Hpres in Hin. rewrite <- Hek in Hin.
    destruct (present_hit _ _ _ _ _ Hcap Hf _ _ HI Hin) as (d & Hd & Hhit).
    unfold insert_cg. simpl.
    rewrite (initial_window_eq (capacity_ sm) hash).
    eapply insert_cg_loop_quiet; eauto; [apply HI|lia]. }
  destruct Hq as [Hmem Hq].
  assert (Hres : ∀ results, mapM finished (sys_threads st) = Some results →
            results = replicate (length pairs) false).
  { intros results Hres. apply mapM_Some in Hres.
    assert (Hlen : length results = length pairs).
    { rewrite <- (Forall2_length _ _ _ Hres). subst st. rewrite run_sched_length.
      simpl. by rewrite length_map. }
    rewrite <- Hlen. clear Hlen. induction Hres as [|p r ps rs Hp _ IH]; [done|].
    inversion Hq as [|? ? Hqp Hqs]; subst. simpl. rewrite <- IH; [|done].
    destruct p; simpl in Hp; try done. injection Hp as ->. simpl in Hqp. by subst. }
  unfold static_map_insert, per_item_results. fold st.
  destruct (Z.eqb_spec (Z.of_nat (length pairs)) 0) as [H0|H0].
  { intros [= <- <-]. destruct pairs; [|simpl in H0; lia].
    split; [done|]. split; [done|]. subst st. by rewrite run_sched_no_threads. }
  rewrite grid_size_for_pos; [|lia]. unfold insert_kernel. simpl. fold st.
  destruct (mapM finished (sys_threads st)) as [results|] eqn:Hr; simpl; [|done].
  intros [= <- <-]. simpl. rewrite (Hres results eq_refl).
  split; [done|]. split; [|done].
  rewrite count_true_all_false; [|apply Forall_replicate; done].
  unfold size_add. simpl. rewrite Z.add_0_r. apply Z.mod_small. done.
Qed.

Lemma bulk_insert_again_witness :
  ∃ sm' trace,
    static_map_insert int_hash int_key_equal volta 8 (concat (replicate 40 [0; 1; 2]%nat))
      [(3, 33); (0, 5); (1, 11)] example_map = Some (sm', trace) ∧
    slots_ sm' = slots_ example_map ∧ size_ sm' = size_ example_map ∧
    per_item_results int_hash int_key_equal volta 8 (concat (replicate 40 [0; 1; 2]%nat))
      [(3, 33); (0, 5); (1, 11)] example_map = Some (replicate 3 false).
Proof.
  eexists _, _. split; [vm_compute; reflexivity|].
  apply (bulk_insert_again int_hash int_key_equal volta 8 5 (-1) (-1) 17
           [BulkInsert (concat (replicate 40 [0; 1; 2]%nat)) [(0, 0); (0, 1); (0, 2)];
            BulkInsertIf (replicate 40 0 ++ replicate 40 1 ++ replicate 40 2)%nat
              [(1, 10); (2, 20); (3, 30)] [1; 0; 1] Z.odd;
            BulkInsert [] []] example_map [1; 2; 0]
           (concat (replicate 40 [0; 1; 2]%nat)) [(3, 33); (0, 5); (1, 11)] _
           [MemsetAsync; Launch insert_k 1 128; MemcpyAsync; StreamSynchronize]).
  - exact int_functors_ok.
  - repeat constructor; simpl; lia.
  - vm_compute. reflexivity.
  - repeat constructor.
    + eexists. split; [eapply (list_elem_of_lookup_2 _ 1%nat); reflexivity|].
      vm_compute. repeat constructor.
    + eexists. split; [eapply (list_elem_of_lookup_2 _ 0%nat); reflexivity|].
      vm_compute. repeat constructor.
    + eexists. split; [eapply (list_elem_of_lookup_2 _ 1%nat); reflexivity|].
      vm_compute. repeat constructor.
  - vm_compute. reflexivity.
Defined.

(** ** Lookups that run among inserts *)

Lemma step_thread_other key_equal {R} (st : sys R) i j :
  i ≠ j → sys_threads (step_thread key_equal st j) !! i = sys_threads st !! i.
Proof.
  intros Hij. unfold step_thread.
  destruct (sys_threads st !! j) as [[r| |X op k]|]; try done.
  destruct (exec_op key_equal op (sys_mem st)) as [[x m']|]; [|done].
  simpl. by rewrite list_lookup_insert_ne.
Qed.

(** A thread that the schedule does not name has not started. *)
Lemma run_sched_unscheduled key_equal {R} sched (st : sys R) i :
  i ∉ sched → sys_threads (run_sched key_equal sched st) !! i = sys_threads st !! i.
Proof.
  unfold run_sched. revert st. induction sched as [|j sched IH]; intros st Hi; [done|].
  simpl. apply not_elem_of_cons in Hi as [Hij Hi].
  rewrite IH; [|done]. by apply step_thread_other.
Qed.

(** X11. A lookup that runs among inserts reports only what is in the
    map.  Threads that insert and threads that look keys up, single
    threads and groups, run on a new map in any interleaving.  When a
    [contains] has returned [true], a slot holds a key equal to its key;
    when a [find] has returned a slot other than [end()], that slot
    holds a key equal to its key. *)
Theorem lookup_among_inserts_sound
    (capacity : nat) (empty_key_sentinel empty_value_sentinel : Z) (hash : Z → nat)
    (key_equal : Z → Z → bool) (target : build) (fuel : nat) (tasks : list task)
    (sched : list nat) (i : nat) (t : task) (r : task_result) :
  functors_ok hash key_equal →
  (0 < capacity)%nat →
  Forall (task_ok empty_key_sentinel) tasks →
  let st := run_sched key_equal sched
              (launch_tasks capacity empty_key_sentinel empty_value_sentinel hash target fuel
                 tasks) in
  tasks !! i = Some t → is_lookup t = true → sys_threads st !! i = Some (Ret r) →
  (r = Contained true →
   ∃ j (s : pair_type), sys_mem st !! j = Some s ∧ s.1 ≠ empty_key_sentinel ∧
                        key_equal s.1 (task_key t) = true) ∧
  (∀ slot, r = Found slot → slot ≠ end_ capacity →
   ∃ s : pair_type, sys_mem st !! slot = Some s ∧ s.1 ≠ empty_key_sentinel ∧
                    key_equal s.1 (task_key t) = true).
Proof.
  intros Hf Hcap Hok st Hi Hl Hr.
  destruct (launch_tasks_inv capacity empty_key_sentinel empty_value_sentinel hash key_equal
              target Hcap Hf fuel tasks sched Hok) as [_ Hts].
  fold st in Hts.
  assert (HQ : map (λ t, if is_lookup t
                         then lookup_sound capacity empty_key_sentinel key_equal (task_key t)
                         else λ _ m', present empty_key_sentinel key_equal m' (task_key t))
                 tasks !! i
               = Some (lookup_sound capacity empty_key_sentinel key_equal (task_key t))).
  { rewrite list_lookup_fmap, Hi. simpl. by rewrite Hl. }
  pose proof (Forall2_lookup_lr _ _ _ _ _ _ Hts HQ Hr) as Hpost.
  split.
  - intros ->. by apply Hpost.
  - intros slot ->. exact Hpost.
Qed.

(** The [find] started too early and returned [end()]; the [contains]
    saw the key. *)
Lemma lookup_among_inserts_sound_witness :
  let st := run_sched int_key_equal [0; 1; 0; 2; 0; 0; 1; 2; 1; 1; 2; 2; 2; 2; 2]%nat
              (launch_tasks 5 (-1) (-1) int_hash volta 8
                 [Insert (Single (7, 70)); Find 7; ContainsGroup 4 7]) in
  (Contained true = Contained true →
   ∃ j (s : pair_type), sys_mem st !! j = Some s ∧ s.1 ≠ -1 ∧ int_key_equal s.1 7 = true) ∧
  (∀ slot, Contained true = Found slot → slot ≠ end_ 5 →
   ∃ s : pair_type, sys_mem st !! slot = Some s ∧ s.1 ≠ -1 ∧ int_key_equal s.1 7 = true).
Proof.
  apply (lookup_among_inserts_sound 5 (-1) (-1) int_hash int_key_equal volta 8
           [Insert (Single (7, 70)); Find 7; ContainsGroup 4 7]
           [0; 1; 0; 2; 0; 0; 1; 2; 1; 1; 2; 2; 2; 2; 2]%nat 2 (ContainsGroup 4 7)
           (Contained true)).
  - exact int_functors_ok.
  - lia.
  - repeat constructor; simpl; lia.
  - reflexivity.
  - reflexivity.
  - vm_compute. reflexivity.
Defined.

(** X12. A lookup that starts after an insert has returned finds the
    key.  Threads that insert and threads that look keys up run on a
    new map in any interleaving.  When the insert of a key has returned
    before a lookup of an equal key takes its first step, then, whatever
    the other threads do in between, a [contains] that returns returns
    [true] and a [find] that returns returns a slot, not [end()], that
    holds a key equal to its key. *)
Theorem lookup_after_insert
    (capacity : nat) (empty_key_sentinel empty_value_sentinel : Z) (hash : Z → nat)
    (key_equal : Z → Z → bool) (target : build) (fuel : nat) (tasks : list task)
    (sched1 sched2 : list nat) (i0 i : nat) (w : worker) (t : task) (r0 r : task_result) :
  functors_ok hash key_equal →
  (0 < capacity)%nat →
  Forall (task_ok empty_key_sentinel) tasks →
  let st1 := run_sched key_equal sched1
               (launch_tasks capacity empty_key_sentinel empty_value_sentinel hash target
                  fuel tasks) in
  let st2 := run_sched key_equal sched2 st1 in
  tasks !! i0 = Some (Insert w) → sys_threads st1 !! i0 = Some (Ret r0) →
  tasks !! i = Some t → is_lookup t = true →
  key_equal (worker_pair w).1 (task_key t) = true →
  i ∉ sched1 →
  sys_threads st2 !! i = Some (Ret r) →
  r ≠ Contained false ∧
  (∀ slot, r = Found slot →
   slot ≠ end_ capacity ∧
   ∃ s : pair_type, sys_mem st2 !! slot = Some s ∧ s.1 ≠ empty_key_sentinel ∧
                    key_equal s.1 (task_key t) = true).
Proof.
  intros Hf Hcap Hok st1 st2 Hi0 Hr0 Hi Hl Hkk Hnot Hr.
  destruct (launch_tasks_inv capacity empty_key_sentinel empty_value_sentinel hash key_equal
              target Hcap Hf fuel tasks sched1 Hok) as [HI1 Hts1].
  fold st1 in HI1, Hts1.
  set (posts := map (λ t, if is_lookup t
                          then lookup_sound capacity empty_key_sentinel key_equal (task_key t)
                          else λ _ m', present empty_key_sentinel key_equal m' (task_key t))
                  tasks) in *.
  assert (Hpres : present empty_key_sentinel key_equal (sys_mem st1) (task_key t)).
  { assert (HQ0 : posts !! i0
                  = Some (λ _ m', present empty_key_sentinel key_equal m' (worker_pair w).1)).
    { subst posts. by rewrite list_lookup_fmap, Hi0. }
    pose proof (Forall2_lookup_lr _ _ _ _ _ _ Hts1 HQ0 Hr0) as Hp0. simpl in Hp0.
    eapply present_equal; eauto. }
  assert (Hthread : sys_threads st1 !! i
                    = Some (task_prog capacity empty_key_sentinel empty_value_sentinel hash
                              target fuel t)).
  { subst st1. rewrite run_sched_unscheduled; [|done]. simpl.
    by rewrite list_lookup_fmap, Hi. }
  assert (Hinv2 : sys_inv_post capacity empty_key_sentinel empty_value_sentinel hash key_equal
                    (<[i := lookup_found capacity empty_key_sentinel key_equal (task_key t)]>
                       posts) st2).
  { apply run_sched_inv_post; [done..| |].
    - apply Forall_insert.
      + subst posts. apply Forall_fmap, Forall_forall. intros t' _ r'.
        eapply task_post_closed; eauto.
      + intros r'. eapply lookup_found_closed; eauto.
    - split; [done|].
      rewrite <- (list_insert_id (sys_threads st1) i _ Hthread).
      apply Forall2_insert; [done|].
      eapply task_prog_found; eauto.
      by apply (proj1 (Forall_lookup _ _) Hok i t). }
  destruct Hinv2 as [_ Hts2].
  assert (HQ : <[i := lookup_found capacity empty_key_sentinel key_equal (task_key t)]> posts
               !! i = Some (lookup_found capacity empty_key_sentinel key_equal (task_key t))).
  { apply list_lookup_insert_eq. subst posts. rewrite length_map. by eapply lookup_lt_Some. }
  pose proof (Forall2_lookup_lr _ _ _ _ _ _ Hts2 HQ Hr) as Hpost.
  split.
  - intros ->. simpl in Hpost. done.
  - intros slot ->. exact Hpost.
Qed.

(** The insert of key 7 returns; a [find] that starts then, while
    another thread inserts key 12, returns the slot of key 7. *)
Lemma lookup_after_insert_witness :
  let st1 := run_sched int_key_equal [0; 0; 2; 0; 0; 0; 0]%nat
               (launch_tasks 5 (-1) (-1) int_hash volta 8
                  [Insert (Single (7, 70)); Find 7; Insert (Group 4 (12, 120))]) in
  let st2 := run_sched int_key_equal [1; 2; 1; 2; 1; 2; 2; 2]%nat st1 in
  Found 2 ≠ Contained false ∧
  (∀ slot, Found 2 = Found slot →
   slot ≠ end_ 5 ∧
   ∃ s : pair_type, sys_mem st2 !! slot = Some s ∧ s.1 ≠ -1 ∧ int_key_equal s.1 7 = true).
Proof.
  apply (lookup_after_insert 5 (-1) (-1) int_hash int_key_equal volta 8
           [Insert (Single (7, 70)); Find 7; Insert (Group 4 (12, 120))]
           [0; 0; 2; 0; 0; 0; 0]%nat [1; 2; 1; 2; 1; 2; 2; 2]%nat 0 1 (Single (7, 70))
           (Find 7) (Inserted true) (Found 2)).
  - exact int_functors_ok.
  - lia.
  - repeat constructor; simpl; lia.
  - reflexivity.
  - vm_compute. reflexivity.
  - reflexivity.
  - reflexivity.
  - reflexivity.
  - intros Hin. repeat (apply elem_of_cons in Hin as [Hin|Hin]; [discriminate Hin|]).
    by apply elem_of_nil in Hin.
  - vm_compute. reflexivity.
Defined.

(** ** Keys and values of the inserted pairs

    The accounting above follows the key cells.  The value cell of a
    slot is written by the worker that has taken the slot and, with
    [back_to_back_cas], for a moment by a worker that has lost it.  The
    stage of each worker records which cells hold what it has written. *)

Section stages.
Variables (empty_key_sentinel empty_value_sentinel : Z) (target : build).
Variable m0 : mem.
Hypothesis m0_complete : complete_pairs empty_key_sentinel empty_value_sentinel m0.

Local Abbreviation stage_step := (@stage_step empty_key_sentinel empty_value_sentinel target).
Local Abbreviation staged := (@staged empty_key_sentinel empty_value_sentinel target).
Local Abbreviation slots_owned pairs := (slots_owned empty_key_sentinel target pairs m0).
Local Abbreviation empty_at := (empty_at empty_key_sentinel m0).
Local Abbreviation insertable := (insertable empty_key_sentinel empty_value_sentinel).

(** *** The programs *)

Lemma staged_bind {A B} insert_pair post1 (post2 : stage → B → Prop) g (p : prog A)
    (f : A → prog B) :
  staged insert_pair post1 g p → (∀ g' r, post1 g' r → staged insert_pair post2 g' (f r)) →
  staged insert_pair post2 g (p ≫= f).
Proof using Type.
  revert g. induction p as [r| |X op k IH]; intros g; simpl; [by auto|done|].
  intros Hk Hf x. destruct (Hk x) as (g' & Hstep & Hx). exists g'. split; [done|].
  by apply IH.
Qed.

Lemma staged_read_only {R} insert_pair g (p : prog R) :
  read_only p → staged insert_pair (λ g' _, g' = g) g p.
Proof using Type.
  induction p as [r| |X op k IH]; simpl; [done..|]. intros [Hop Hk] x.
  exists g. split; [destruct op; simpl in *; tauto|]. by apply IH.
Qed.

Lemma value_cas_loop_staged fuel j insert_pair (value_success : bool) :
  uses_back_to_back target = true →
  staged insert_pair (λ g _, g = Stored j) (if value_success then Stored j else Won j)
    (value_cas_loop empty_value_sentinel fuel j insert_pair value_success).
Proof using Type.
  intros Hb. revert value_success. induction fuel as [|fuel IH]; intros [|]; simpl; try done.
  intros [b obs]. exists (if b then Stored j else Won j). split; [|apply IH].
  simpl. repeat split; try done. by left.
Qed.

Local Abbreviation settled_at j :=
  (λ (g : stage) (status : insert_result),
     g = match status with SUCCESS => Stored j | _ => Seeking end).

Lemma slot_protocol_staged fuel j insert_pair :
  staged insert_pair (settled_at j) Seeking
    (slot_protocol empty_key_sentinel empty_value_sentinel target fuel j insert_pair).
Proof using Type.
  unfold slot_protocol, staged.
  destruct (is_packable target) eqn:Hp; [|destruct (cuda_arch target <? 700)%nat eqn:Ha].
  - simpl. intros [[|] e]; (eexists; split; [simpl; repeat split; done|]); simpl; [done|].
    intros [|]; (eexists; split; [simpl; reflexivity|]); done.
  - assert (uses_back_to_back target = false) as Hb by (unfold uses_back_to_back; by rewrite Hp, Ha).
    simpl. intros [[|] e]; (eexists; split; [simpl; repeat split; done|]); simpl.
    + intros []. exists (Stored j). split; [by left|done].
    + rewrite Hb. intros [|]; (eexists; split; [simpl; reflexivity|]); done.
  - assert (uses_back_to_back target = true) as Hb by (unfold uses_back_to_back; by rewrite Hp, Ha).
    simpl. intros [[|] e]; (eexists; split; [simpl; repeat split; done|]); simpl.
    + intros [value_success obs]. exists (if value_success then Stored j else Won j).
      split; [simpl; repeat split; try done; by left|]. simpl.
      apply (staged_bind _ (λ g _, g = Stored j)); [by apply value_cas_loop_staged|].
      intros g [] ->. done.
    + rewrite Hb. intros [[|] obs].
      * exists (Reverting j). split; [simpl; repeat split; try done; by right|]. simpl.
        intros []. exists Seeking. split; [by right|]. simpl.
        intros [|]; (eexists; split; [simpl; reflexivity|]); done.
      * exists Seeking. split; [simpl; repeat split; try done; by right|]. simpl.
        intros [|]; (eexists; split; [simpl; reflexivity|]); done.
Qed.

Lemma insert_loop_staged capacity fuel insert_pair current_slot :
  staged insert_pair returns_stored Seeking
    (insert_loop capacity empty_key_sentinel empty_value_sentinel target fuel insert_pair
       current_slot).
Proof using Type.
  revert current_slot. induction fuel as [|fuel IH]; intros s; [done|].
  simpl. intros e. exists Seeking. split; [done|]. simpl.
  destruct (bitwise_compare e empty_key_sentinel); simpl.
  - apply (staged_bind _ (settled_at s)); [apply slot_protocol_staged|].
    intros g [| |] ->; simpl; [apply IH|by eexists|done].
  - intros [|]; (exists Seeking; split; [done|]); [done|apply IH].
Qed.

Lemma insert_cg_loop_staged capacity fuel cg_size insert_pair current_slot :
  staged insert_pair returns_stored Seeking
    (insert_cg_loop capacity empty_key_sentinel empty_value_sentinel target fuel cg_size
       insert_pair current_slot).
Proof using Type.
  revert current_slot. induction fuel as [|fuel IH]; intros s; [done|].
  simpl. eapply staged_bind; [apply staged_read_only, lanes_load_read_only|].
  intros g existing_key ->.
  eapply staged_bind; [apply staged_read_only, lanes_match_read_only|].
  intros g dup ->. destruct (g_any dup); [done|].
  destruct (negb _); [|apply IH].
  destruct (s !! _) as [j|].
  - apply (staged_bind _ (settled_at j)); [apply slot_protocol_staged|].
    intros g [| |] ->; simpl; [apply IH|by eexists|done].
  - simpl. apply IH.
Qed.

Lemma worker_prog_staged capacity hash fuel w :
  staged (worker_pair w) returns_stored Seeking
    (worker_prog capacity empty_key_sentinel empty_value_sentinel hash target fuel w).
Proof using Type.
  destruct w as [p|cg_size p]; simpl; [apply insert_loop_staged|apply insert_cg_loop_staged].
Qed.


(** *** The slot array *)

Lemma no_key_owner pairs m gs i g j (s : pair_type) :
  Forall insertable pairs → slots_owned pairs m gs →
  m !! j = Some s → s.1 = empty_key_sentinel → gs !! i = Some g → key_owner g ≠ Some j.
Proof using Type.
  intros Hp Ho Hj He Hi Hk.
  destruct (lookup_lt_is_Some_2 pairs i) as [p Hpi];
    [rewrite <- (owned_length _ _ _ _ _ _ Ho); by eapply lookup_lt_Some|].
  destruct (owned_key _ _ _ _ _ _ Ho i g p j Hi Hpi Hk) as (s' & Hs' & Hk').
  rewrite Hj in Hs'. injection Hs' as <-.
  rewrite Forall_lookup in Hp. destruct (Hp i p Hpi) as [Hne _]. congruence.
Qed.

Lemma no_value_owner pairs m gs i g j (s : pair_type) :
  Forall insertable pairs → slots_owned pairs m gs →
  m !! j = Some s → s.2 = empty_value_sentinel → gs !! i = Some g → value_owner g ≠ Some j.
Proof using Type.
  intros Hp Ho Hj He Hi Hk.
  destruct (lookup_lt_is_Some_2 pairs i) as [p Hpi];
    [rewrite <- (owned_length _ _ _ _ _ _ Ho); by eapply lookup_lt_Some|].
  destruct (owned_value _ _ _ _ _ _ Ho i g p j Hi Hpi Hk) as (s' & Hs' & Hk').
  rewrite Hj in Hs'. injection Hs' as <-.
  rewrite Forall_lookup in Hp. destruct (Hp i p Hpi) as [_ Hne]. congruence.
Qed.

(** A worker changes stage without owning anything after it. *)
Lemma slots_owned_stage pairs m gs i g g' :
  slots_owned pairs m gs → gs !! i = Some g → key_owner g = None →
  key_owner g' = None → value_owner g' = None →
  slots_owned pairs m (<[i := g']> gs).
Proof using Type.
  intros [Hl HT HF HZ HK HV HU HW HN] Hgi Hkg Hk Hv. split.
  - by rewrite length_insert.
  - intros j s Hj Hne. destruct (HT j s Hj Hne) as [(i0 & g0 & Hg0 & Ho0)|Hold];
      [left|by right].
    exists i0, g0. split; [|done]. rewrite list_lookup_insert_ne; [done|].
    intros <-. congruence.
  - done.
  - intros i0 g0 j Hg Ho. apply list_lookup_insert_Some in Hg as [(_ & <- & _)|[Hne Hg]];
      [destruct Ho; congruence|by eapply HZ].
  - intros i0 g0 p j Hg Hp Ho. apply list_lookup_insert_Some in Hg as [(-> & <- & _)|[Hne Hg]];
      [congruence|by eapply HK].
  - intros i0 g0 p j Hg Hp Ho. apply list_lookup_insert_Some in Hg as [(-> & <- & _)|[Hne Hg]];
      [congruence|by eapply HV].
  - intros i0 i1 g0 g1 j Hg0 Hg1 Ho0 Ho1.
    apply list_lookup_insert_Some in Hg0 as [(-> & <- & _)|[Hne0 Hg0]]; [congruence|].
    apply list_lookup_insert_Some in Hg1 as [(-> & <- & _)|[Hne1 Hg1]]; [congruence|].
    by eapply HU.
  - intros i0 i1 g0 g1 j Hg0 Hg1 Ho0 Ho1.
    apply list_lookup_insert_Some in Hg0 as [(-> & <- & _)|[Hne0 Hg0]]; [congruence|].
    apply list_lookup_insert_Some in Hg1 as [(-> & <- & _)|[Hne1 Hg1]]; [congruence|].
    by eapply HW.
  - intros Hb i0 j Hg. apply list_lookup_insert_Some in Hg as [(_ & -> & _)|[Hne Hg]];
      [done|by eapply HN].
Qed.

(** A worker writes slot [j] and changes stage. *)
Lemma slots_owned_update pairs m gs i g g' p j (s s' : pair_type) :
  slots_owned pairs m gs → pairs !! i = Some p → (i < length gs)%nat → m !! j = Some s →
  (s'.1 = s.1 ∨ ∀ i' g0, i' ≠ i → gs !! i' = Some g0 → key_owner g0 ≠ Some j) →
  (s'.2 = s.2 ∨ ∀ i' g0, i' ≠ i → gs !! i' = Some g0 → value_owner g0 ≠ Some j) →
  (key_owner g' = None ∨
   key_owner g' = Some j ∧ s'.1 = p.1 ∧
   ∀ i' g0, i' ≠ i → gs !! i' = Some g0 → key_owner g0 ≠ Some j) →
  (value_owner g' = None ∨
   value_owner g' = Some j ∧ s'.2 = p.2 ∧
   ∀ i' g0, i' ≠ i → gs !! i' = Some g0 → value_owner g0 ≠ Some j) →
  (uses_back_to_back target = false → ∀ j', g' ≠ Reverting j') →
  gs !! i = Some g → (key_owner g = None ∨ key_owner g' = key_owner g) →
  (s'.1 = s.1 ∨ key_owner g' = Some j) →
  empty_at j →
  slots_owned pairs (<[j := s']> m) (<[i := g']> gs).
Proof using Type.
  intros [Hl HT HF HZ HK HV HU HW HN] Hp Hi Hj Hkey Hval Hko Hvo Hrev Hgi Hkeep Htake Hnew.
  pose proof (lookup_lt_Some _ _ _ Hj) as Hjlt. split.
  - by rewrite length_insert.
  - assert (∀ j0 i0 g0, gs !! i0 = Some g0 → key_owner g0 = Some j0 →
              (j0 = j → s'.1 = s.1) →
              ∃ i1 g1, <[i := g']> gs !! i1 = Some g1 ∧ key_owner g1 = Some j0) as Hold.
    { intros j0 i0 g0 Hg0 Ho0 Hsame. destruct (decide (i0 = i)) as [->|Hne].
      - exists i, g'. rewrite list_lookup_insert_eq; [|done]. split; [done|].
        rewrite Hgi in Hg0. injection Hg0 as <-.
        destruct Hkeep as [Hkeep|Hkeep]; [congruence|].
        destruct Htake as [Htake|Htake]; congruence.
      - exists i0, g0. by rewrite list_lookup_insert_ne. }
    intros j0 s0 Hj0 Hne. destruct (decide (j0 = j)) as [->|Hjj].
    + rewrite list_lookup_insert_eq in Hj0; [|done]. injection Hj0 as <-. left.
      destruct Htake as [Htake|Htake].
      * destruct (HT j s Hj) as [(i0 & g0 & Hg0 & Ho0)|Hwas]; [congruence| |].
        -- by eapply Hold.
        -- destruct Hne. rewrite Htake. by apply (Hnew s).
      * exists i, g'. by rewrite list_lookup_insert_eq.
    + rewrite list_lookup_insert_ne in Hj0; [|done].
      destruct (HT j0 s0 Hj0 Hne) as [(i0 & g0 & Hg0 & Ho0)|Hwas]; [left|by right].
      by eapply Hold.
  - intros j0 s0 Hj0 Hne. rewrite list_lookup_insert_ne; [by apply HF|].
    intros <-. by apply Hne, Hnew.
  - intros i0 g0 j0 Hg Ho. apply list_lookup_insert_Some in Hg as [(_ & <- & _)|[Hne Hg]];
      [|by eapply HZ].
    assert (j0 = j) as ->; [|done].
    destruct Ho as [Ho|Ho].
    + destruct Hko as [Hko|(Hko & _)]; congruence.
    + destruct Hvo as [Hvo|(Hvo & _)]; congruence.
  - intros i0 g0 p0 j0 Hg Hp0 Ho.
    apply list_lookup_insert_Some in Hg as [(-> & <- & _)|[Hne Hg]].
    + destruct Hko as [Hko|(Hko & Hk1 & _)]; [congruence|].
      rewrite Hko in Ho. injection Ho as <-. exists s'.
      rewrite list_lookup_insert_eq; [|done]. split; [done|congruence].
    + destruct (HK i0 g0 p0 j0 Hg Hp0 Ho) as (s0 & Hs0 & Hk0).
      destruct (decide (j0 = j)) as [->|Hjj].
      * exists s'. rewrite list_lookup_insert_eq; [|done]. split; [done|].
        rewrite Hj in Hs0. injection Hs0 as <-.
        destruct Hkey as [Hkey|Hkey]; [congruence|]. by destruct (Hkey i0 g0).
      * exists s0. by rewrite list_lookup_insert_ne.
  - intros i0 g0 p0 j0 Hg Hp0 Ho.
    apply list_lookup_insert_Some in Hg as [(-> & <- & _)|[Hne Hg]].
    + destruct Hvo as [Hvo|(Hvo & Hv1 & _)]; [congruence|].
      rewrite Hvo in Ho. injection Ho as <-. exists s'.
      rewrite list_lookup_insert_eq; [|done]. split; [done|congruence].
    + destruct (HV i0 g0 p0 j0 Hg Hp0 Ho) as (s0 & Hs0 & Hv0).
      destruct (decide (j0 = j)) as [->|Hjj].
      * exists s'. rewrite list_lookup_insert_eq; [|done]. split; [done|].
        rewrite Hj in Hs0. injection Hs0 as <-.
        destruct Hval as [Hval|Hval]; [congruence|]. by destruct (Hval i0 g0).
      * exists s0. by rewrite list_lookup_insert_ne.
  - intros i0 i1 g0 g1 j0 Hg0 Hg1 Ho0 Ho1.
    apply list_lookup_insert_Some in Hg0 as [(-> & <- & _)|[Hne0 Hg0]];
      apply list_lookup_insert_Some in Hg1 as [(-> & <- & _)|[Hne1 Hg1]]; try done.
    + destruct Hko as [Hko|(Hko & _ & Hno)]; [congruence|].
      rewrite Hko in Ho0. injection Ho0 as <-. by destruct (Hno i1 g1).
    + destruct Hko as [Hko|(Hko & _ & Hno)]; [congruence|].
      rewrite Hko in Ho1. injection Ho1 as <-. by destruct (Hno i0 g0).
    + by eapply HU.
  - intros i0 i1 g0 g1 j0 Hg0 Hg1 Ho0 Ho1.
    apply list_lookup_insert_Some in Hg0 as [(-> & <- & _)|[Hne0 Hg0]];
      apply list_lookup_insert_Some in Hg1 as [(-> & <- & _)|[Hne1 Hg1]]; try done.
    + destruct Hvo as [Hvo|(Hvo & _ & Hno)]; [congruence|].
      rewrite Hvo in Ho0. injection Ho0 as <-. by destruct (Hno i1 g1).
    + destruct Hvo as [Hvo|(Hvo & _ & Hno)]; [congruence|].
      rewrite Hvo in Ho1. injection Ho1 as <-. by destruct (Hno i0 g0).
    + by eapply HW.
  - intros Hb i0 j0 Hg. apply list_lookup_insert_Some in Hg as [(_ & Hg' & _)|[Hne Hg]].
    + by apply (Hrev Hb j0).
    + by eapply HN.
Qed.

Local Ltac owned_update :=
  eapply slots_owned_update; eauto; simpl; eauto;
  try solve [right; repeat split; eauto]; try congruence.

(** One operation of a worker keeps the agreement. *)
Lemma exec_op_owned key_equal pairs m gs i g p {X} (op : atomic_op X) x m' g' :
  Forall insertable pairs → slots_owned pairs m gs →
  gs !! i = Some g → pairs !! i = Some p →
  stage_step p g op x g' → exec_op key_equal op m = Some (x, m') →
  slots_owned pairs m' (<[i := g']> gs).
Proof using m0_complete.
  intros Hpairs Ho Hg Hp Hstep Hexec.
  pose proof (lookup_lt_Some _ _ _ Hg) as Hilt.
  assert (∀ j (s : pair_type), m !! j = Some s → s.1 = empty_key_sentinel → empty_at j)
    as Hnew.
  { intros j s Hj He s0 Hs0. destruct (decide (s0.1 = empty_key_sentinel)) as [|Hne]; [done|].
    rewrite (old_kept _ _ _ _ _ _ Ho j s0 Hs0 Hne) in Hj. congruence. }
  assert (∀ j (s : pair_type), m !! j = Some s → s.2 = empty_value_sentinel → empty_at j)
    as Hnew'.
  { intros j s Hj He s0 Hs0. destruct (decide (s0.1 = empty_key_sentinel)) as [|Hne]; [done|].
    rewrite (old_kept _ _ _ _ _ _ Ho j s0 Hs0 Hne) in Hj. injection Hj as <-.
    by destruct (m0_complete j s0). }
  assert (∀ j, key_owner g = Some j ∨ value_owner g = Some j → empty_at j) as Hown.
  { intros j Hj. by apply (owner_new _ _ _ _ _ _ Ho i g j). }
  assert (∀ j, key_owner g = Some j →
            ∀ i' g0, i' ≠ i → gs !! i' = Some g0 → key_owner g0 ≠ Some j) as Hmine.
  { intros j Hj i' g0 Hne Hg0 Hj0. apply Hne.
    by apply (key_owner_unique _ _ _ _ _ _ Ho i' i g0 g j). }
  assert (∀ j, value_owner g = Some j →
            ∀ i' g0, i' ≠ i → gs !! i' = Some g0 → value_owner g0 ≠ Some j) as Hmine'.
  { intros j Hj i' g0 Hne Hg0 Hj0. apply Hne.
    by apply (value_owner_unique _ _ _ _ _ _ Ho i' i g0 g j). }
  assert (∀ j (s : pair_type), m !! j = Some s → s.1 = empty_key_sentinel →
            ∀ i' g0, i' ≠ i → gs !! i' = Some g0 → key_owner g0 ≠ Some j) as Hfree.
  { intros j s Hj He i' g0 _ Hg0. by eapply no_key_owner. }
  assert (∀ j (s : pair_type), m !! j = Some s → s.2 = empty_value_sentinel →
            ∀ i' g0, i' ≠ i → gs !! i' = Some g0 → value_owner g0 ≠ Some j) as Hfree'.
  { intros j s Hj He i' g0 _ Hg0. by eapply no_value_owner. }
  destruct op as [j|j|j e d|j e d|j e d|j v|a b]; simpl in Hstep, Hexec.
  - destruct (m !! j) as [s|]; simpl in Hexec; [|done]. injection Hexec as <- <-.
    subst g'. by rewrite list_insert_id.
  - destruct (m !! j) as [s|]; simpl in Hexec; [|done]. injection Hexec as <- <-.
    subst g'. by rewrite list_insert_id.
  - destruct Hstep as (-> & -> & -> & Hpk & ->).
    destruct (m !! j) as [s|] eqn:Hj; simpl in Hexec; [|done].
    unfold compare_exchange_strong, bitwise_compare in Hexec.
    destruct (Z.eqb_spec s.1 empty_key_sentinel) as [He|He]; injection Hexec as <- <-; simpl.
    + owned_update.
    + rewrite (list_insert_id m j); [|by rewrite Hj; destruct s].
      eapply slots_owned_stage; [done..|by destruct (uses_back_to_back target)|
                                 by destruct (uses_back_to_back target)].
  - destruct Hstep as (-> & -> & Hb & Hstep).
    destruct (m !! j) as [s|] eqn:Hj; simpl in Hexec; [|done].
    unfold compare_exchange_strong, bitwise_compare in Hexec.
    destruct (Z.eqb_spec s.2 empty_value_sentinel) as [He|He]; injection Hexec as <- <-;
      simpl in Hstep.
    + destruct Hstep as [[-> ->]|[-> ->]].
      * destruct (owned_key _ _ _ _ _ _ Ho i (Won j) p j Hg Hp eq_refl) as (s0 & Hs0 & Hk0).
        rewrite Hj in Hs0. injection Hs0 as <-. owned_update.
      * owned_update.
    + rewrite (list_insert_id m j); [|by rewrite Hj; destruct s].
      destruct Hstep as [[-> ->]|[-> ->]]; [by rewrite list_insert_id|].
      by eapply slots_owned_stage.
  - destruct Hstep as (-> & -> & -> & Hpk & ->).
    destruct (m !! j) as [s|] eqn:Hj; simpl in Hexec; [|done].
    destruct (pair_eqb s _) eqn:Hc; injection Hexec as <- <-; simpl.
    + unfold pair_eqb, bitwise_compare in Hc. simpl in Hc.
      apply andb_true_iff in Hc as [Hk Hv]. apply Z.eqb_eq in Hk, Hv.
      owned_update.
    + by rewrite list_insert_id.
  - destruct (m !! j) as [s|] eqn:Hj; simpl in Hexec; [|done]. injection Hexec as <- <-.
    destruct Hstep as [(-> & -> & Hb & ->)|(-> & -> & ->)].
    + destruct (owned_key _ _ _ _ _ _ Ho i (Won j) p j Hg Hp eq_refl) as (s0 & Hs0 & Hk0).
      rewrite Hj in Hs0. injection Hs0 as <-.
      assert (∀ i' g0, i' ≠ i → gs !! i' = Some g0 → value_owner g0 ≠ Some j) as Hnone.
      { intros i' g0 Hne Hg0 Hv. destruct g0 as [|j0|j0|j0|j0]; simpl in Hv; try done.
        - injection Hv as ->. by apply (reverting_back_to_back _ _ _ _ _ _ Ho Hb i' j).
        - injection Hv as ->. by apply (Hmine j eq_refl i' (Stored j)). }
      owned_update.
    + owned_update.
  - injection Hexec as <- <-. subst g'. by rewrite list_insert_id.
Qed.


(** *** Systems of workers *)

Local Abbreviation sys_staged workers :=
  (sys_staged empty_key_sentinel empty_value_sentinel target workers m0).

Lemma step_thread_returned key_equal {R} (st : sys R) i j r :
  sys_threads st !! i = Some (Ret r) →
  sys_threads (step_thread key_equal st j) !! i = Some (Ret r).
Proof using Type.
  intros Hi. unfold step_thread.
  destruct (sys_threads st !! j) as [[r'| |X op k]|] eqn:Hj; try done.
  destruct (exec_op key_equal op (sys_mem st)) as [[x m']|]; [|done].
  simpl. rewrite list_lookup_insert_ne; [done|]. intros ->. congruence.
Qed.

Lemma step_thread_staged key_equal workers st gs i :
  Forall insertable (map worker_pair workers) → sys_staged workers st gs →
  ∃ gs', sys_staged workers (step_thread key_equal st i) gs' ∧
         ∀ i' r, sys_threads st !! i' = Some (Ret r) → gs' !! i' = gs !! i'.
Proof using m0_complete.
  intros Hpairs (Hlen & Hall & Ho). unfold step_thread.
  destruct (sys_threads st !! i) as [[r| |X op k]|] eqn:Hi; try by exists gs.
  destruct (exec_op key_equal op (sys_mem st)) as [[x m']|] eqn:He; [|by exists gs].
  pose proof (lookup_lt_Some _ _ _ Hi) as Hilt. rewrite Hlen in Hilt.
  destruct (lookup_lt_is_Some_2 workers i Hilt) as [w Hw].
  pose proof (owned_length _ _ _ _ _ _ Ho) as Hgl. rewrite length_map in Hgl.
  destruct (lookup_lt_is_Some_2 gs i) as [g Hg]; [lia|].
  destruct (Hall i w g _ Hw Hg Hi x) as (g' & Hstep & Hx).
  exists (<[i := g']> gs). split; [split; [|split]|]; simpl.
  - by rewrite length_insert.
  - intros i0 w0 g0 p0 Hw0 Hg0 Hp0.
    apply list_lookup_insert_Some in Hg0 as [(<- & <- & _)|[Hne Hg0]].
    + rewrite list_lookup_insert_eq in Hp0; [|by eapply lookup_lt_Some].
      injection Hp0 as <-. rewrite Hw in Hw0. by injection Hw0 as <-.
    + rewrite list_lookup_insert_ne in Hp0; [|done]. by eapply Hall.
  - eapply exec_op_owned; eauto. by rewrite list_lookup_fmap, Hw.
  - intros i' r Hi'. rewrite list_lookup_insert_ne; [done|]. intros ->. congruence.
Qed.

Lemma run_sched_staged key_equal workers sched st gs :
  Forall insertable (map worker_pair workers) → sys_staged workers st gs →
  ∃ gs', sys_staged workers (run_sched key_equal sched st) gs' ∧
         ∀ i r, sys_threads st !! i = Some (Ret r) →
                gs' !! i = gs !! i ∧
                sys_threads (run_sched key_equal sched st) !! i = Some (Ret r).
Proof using m0_complete.
  intros Hpairs. unfold run_sched. revert st gs.
  induction sched as [|i sched IH]; intros st gs Hst; [by exists gs|].
  simpl. destruct (step_thread_staged key_equal workers st gs i Hpairs Hst) as (gs1 & Hst1 & H1).
  destruct (IH _ _ Hst1) as (gs2 & Hst2 & H2). exists gs2. split; [done|].
  intros i' r Hi'.
  destruct (H2 i' r (step_thread_returned key_equal st i' i r Hi')) as [Hg Hr].
  split; [|done]. rewrite Hg. by apply (H1 i' r).
Qed.

Lemma launch_staged capacity hash fuel workers :
  sys_staged workers
    (launch_on m0 capacity empty_key_sentinel empty_value_sentinel hash target fuel workers)
    (replicate (length workers) Seeking).
Proof using Type.
  split; [|split]; simpl.
  - by rewrite length_map.
  - intros i w g p Hw Hg Hp. apply lookup_replicate in Hg as [-> _].
    rewrite list_lookup_fmap, Hw in Hp. injection Hp as <-. apply worker_prog_staged.
  - split.
    + by rewrite length_replicate, length_map.
    + intros j s Hj Hne. by right.
    + done.
    + intros i g j Hg. apply lookup_replicate in Hg as [-> _]. by intros [?|?].
    + intros i g p j Hg. by apply lookup_replicate in Hg as [-> _].
    + intros i g p j Hg. by apply lookup_replicate in Hg as [-> _].
    + intros i i' g g' j Hg. by apply lookup_replicate in Hg as [-> _].
    + intros i i' g g' j Hg. by apply lookup_replicate in Hg as [-> _].
    + intros _ i j Hg. by apply lookup_replicate in Hg as [? _].
Qed.

(** The slot of a worker that has returned [true]. *)
Lemma returned_stored workers st gs i w :
  sys_staged workers st gs → workers !! i = Some w →
  sys_threads st !! i = Some (Ret true) →
  ∃ j, gs !! i = Some (Stored j) ∧ sys_mem st !! j = Some (worker_pair w).
Proof using Type.
  intros (Hlen & Hall & Ho) Hw Hi.
  pose proof (owned_length _ _ _ _ _ _ Ho) as Hgl. rewrite length_map in Hgl.
  destruct (lookup_lt_is_Some_2 gs i) as [g Hg];
    [rewrite Hgl; by eapply lookup_lt_Some|].
  destruct (Hall i w g _ Hw Hg Hi) as [j ->]. exists j. split; [done|].
  assert (map worker_pair workers !! i = Some (worker_pair w)) as Hp
    by (by rewrite list_lookup_fmap, Hw).
  destruct (owned_key _ _ _ _ _ _ Ho i _ _ j Hg Hp eq_refl) as (s & Hs & Hk).
  destruct (owned_value _ _ _ _ _ _ Ho i _ _ j Hg Hp eq_refl) as (s' & Hs' & Hv).
  rewrite Hs in Hs'. injection Hs' as <-. rewrite Hs. f_equal.
  destruct s, (worker_pair w). simpl in *. congruence.
Qed.

End stages.

Lemma initialize_complete empty_key_sentinel empty_value_sentinel capacity :
  complete_pairs empty_key_sentinel empty_value_sentinel
    (initialize empty_key_sentinel empty_value_sentinel capacity).
Proof. intros j s Hj Hne. apply lookup_replicate in Hj as [-> _]. done. Qed.

(** Workers on a new map. *)
Lemma launch_run_staged capacity empty_key_sentinel empty_value_sentinel hash key_equal
    target fuel workers sched :
  Forall (λ w, insertable empty_key_sentinel empty_value_sentinel (worker_pair w)) workers →
  Forall (insertable empty_key_sentinel empty_value_sentinel) (map worker_pair workers) ∧
  ∃ gs, sys_staged empty_key_sentinel empty_value_sentinel target workers
          (initialize empty_key_sentinel empty_value_sentinel capacity)
          (run_sched key_equal sched
             (launch capacity empty_key_sentinel empty_value_sentinel hash target fuel
                workers)) gs.
Proof.
  intros Hw.
  assert (Forall (insertable empty_key_sentinel empty_value_sentinel)
            (map worker_pair workers)) as Hpairs by (by apply Forall_fmap).
  split; [done|].
  destruct (run_sched_staged empty_key_sentinel empty_value_sentinel target _
              (initialize_complete empty_key_sentinel empty_value_sentinel capacity)
              key_equal workers sched _ _ Hpairs
              (launch_staged empty_key_sentinel empty_value_sentinel target _ capacity hash
                 fuel workers)) as (gs & Hst & _).
  by exists gs.
Qed.

(** X13. A pair whose insert has returned [true] is in the map, key and
    value, and stays there.  Workers that insert pairs with keys and
    values other than the sentinels run on a new map in any
    interleaving, with any of the three slot protocols and any hash and
    [key_equal].  Once a worker has returned [true] there is a slot that
    holds its key and its value, and holds them at every later point,
    whatever the other workers do: the value another worker has put
    into the slot between the two CAS of [back_to_back_cas] is gone by
    the time the insert returns. *)
Theorem inserted_pair_is_stored capacity empty_key_sentinel empty_value_sentinel hash
    key_equal target fuel workers sched i w :
  Forall (λ w, insertable empty_key_sentinel empty_value_sentinel (worker_pair w)) workers →
  workers !! i = Some w →
  sys_threads
    (run_sched key_equal sched
       (launch capacity empty_key_sentinel empty_value_sentinel hash target fuel workers))
    !! i = Some (Ret true) →
  ∃ j, ∀ sched',
    sys_mem
      (run_sched key_equal (sched ++ sched')
         (launch capacity empty_key_sentinel empty_value_sentinel hash target fuel workers))
      !! j = Some (worker_pair w).
Proof.
  intros Hw Hi Hret.
  destruct (launch_run_staged capacity empty_key_sentinel empty_value_sentinel hash key_equal
              target fuel workers sched Hw) as (Hpairs & gs & Hst).
  destruct (returned_stored _ _ _ _ _ _ _ _ _ Hst Hi Hret) as (j & Hg & _).
  exists j. intros sched'. unfold run_sched. rewrite foldl_app.
  destruct (run_sched_staged empty_key_sentinel empty_value_sentinel target _
              (initialize_complete empty_key_sentinel empty_value_sentinel capacity)
              key_equal workers sched' _ _ Hpairs Hst) as (gs' & Hst' & Hkeep).
  destruct (Hkeep i true Hret) as [Hg' Hret'].
  destruct (returned_stored _ _ _ _ _ _ _ _ _ Hst' Hi Hret') as (j' & Hgj & Hm).
  rewrite Hg', Hg in Hgj. by injection Hgj as <-.
Qed.

Lemma inserted_pair_is_stored_witness :
  ∃ j, ∀ sched',
    sys_mem
      (run_sched int_key_equal ([0; 2; 0; 2; 2; 0; 2; 0]%nat ++ sched')
         (launch 5 (-1) (-1) int_hash volta 10 example_workers))
      !! j = Some (7, 70).
Proof.
  apply (inserted_pair_is_stored 5 (-1) (-1) int_hash int_key_equal volta 10 example_workers
           [0; 2; 0; 2; 2; 0; 2; 0]%nat 0%nat (Single (7, 70))).
  - repeat constructor; simpl; lia.
  - reflexivity.
  - vm_compute. reflexivity.
Defined.

(** X14. Two inserts that have both returned [true] have not taken the
    same slot: in any interleaving of workers on a new map (keys and
    values other than the sentinels), two workers that have returned
    [true] have their pairs in two different slots. *)
Theorem successful_inserts_own_slots capacity empty_key_sentinel empty_value_sentinel hash
    key_equal target fuel workers sched i1 i2 w1 w2 :
  Forall (λ w, insertable empty_key_sentinel empty_value_sentinel (worker_pair w)) workers →
  i1 ≠ i2 → workers !! i1 = Some w1 → workers !! i2 = Some w2 →
  let st := run_sched key_equal sched
              (launch capacity empty_key_sentinel empty_value_sentinel hash target fuel
                 workers) in
  sys_threads st !! i1 = Some (Ret true) → sys_threads st !! i2 = Some (Ret true) →
  ∃ j1 j2, j1 ≠ j2 ∧ sys_mem st !! j1 = Some (worker_pair w1) ∧
           sys_mem st !! j2 = Some (worker_pair w2).
Proof.
  intros Hw Hne H1 H2 st Hr1 Hr2.
  destruct (launch_run_staged capacity empty_key_sentinel empty_value_sentinel hash key_equal
              target fuel workers sched Hw) as (Hpairs & gs & Hst).
  destruct (returned_stored _ _ _ _ _ _ _ _ _ Hst H1 Hr1) as (j1 & Hg1 & Hm1).
  destruct (returned_stored _ _ _ _ _ _ _ _ _ Hst H2 Hr2) as (j2 & Hg2 & Hm2).
  exists j1, j2. repeat split; try done. intros <-.
  destruct Hst as (_ & _ & Ho).
  by apply Hne, (key_owner_unique _ _ _ _ _ _ Ho i1 i2 (Stored j1) (Stored j1) j1).
Qed.

Lemma successful_inserts_own_slots_witness :
  let st := run_sched int_key_equal
              [0; 2; 0; 2; 2; 0; 2; 0; 2; 2; 2; 2; 2; 2]%nat
              (launch 5 (-1) (-1) int_hash volta 10 example_workers) in
  ∃ j1 j2, j1 ≠ j2 ∧ sys_mem st !! j1 = Some (7, 70) ∧ sys_mem st !! j2 = Some (12, 120).
Proof.
  apply (successful_inserts_own_slots 5 (-1) (-1) int_hash int_key_equal volta 10
           example_workers [0; 2; 0; 2; 2; 0; 2; 0; 2; 2; 2; 2; 2; 2]%nat 0%nat 2%nat
           (Single (7, 70)) (Single (12, 120))).
  - repeat constructor; simpl; lia.
  - lia.
  - reflexivity.
  - reflexivity.
  - vm_compute. reflexivity.
  - vm_compute. reflexivity.
Defined.

Section winners.
Variables (empty_key_sentinel empty_value_sentinel : Z) (target : build).
Variable m0 : mem.

Local Abbreviation sys_staged workers :=
  (sys_staged empty_key_sentinel empty_value_sentinel target workers m0).

(** The worker that has taken an occupied slot. *)
Lemma occupied_slot_owner workers st gs j (s : pair_type) :
  sys_staged workers st gs → sys_mem st !! j = Some s → s.1 ≠ empty_key_sentinel →
  m0 !! j = Some s ∨
  ∃ i w, workers !! i = Some w ∧ (worker_pair w).1 = s.1 ∧
         gs !! i ≠ Some Seeking ∧
         ∀ r, sys_threads st !! i = Some (Ret r) →
              r = true ∧ s = worker_pair w ∧ gs !! i = Some (Stored j).
Proof.
  intros (Hlen & Hall & Ho) Hj Hne.
  destruct (slot_taken _ _ _ _ _ _ Ho j s Hj Hne) as [(i & g & Hg & Hown)|Hold];
    [right|by left].
  pose proof (owned_length _ _ _ _ _ _ Ho) as Hgl. rewrite length_map in Hgl.
  destruct (lookup_lt_is_Some_2 workers i) as [w Hw];
    [rewrite <- Hgl; by eapply lookup_lt_Some|].
  assert (map worker_pair workers !! i = Some (worker_pair w)) as Hp
    by (by rewrite list_lookup_fmap, Hw).
  destruct (owned_key _ _ _ _ _ _ Ho i g _ j Hg Hp Hown) as (s' & Hs' & Hk).
  rewrite Hj in Hs'. injection Hs' as <-.
  exists i, w. split; [done|]. split; [done|]. split.
  { rewrite Hg. intros [= ->]. done. }
  intros r Hr. pose proof (Hall i w g _ Hw Hg Hr) as Hpost.
  unfold staged, returns_stored in Hpost. destruct r; [|by subst g]. destruct Hpost as [j' ->]. simpl in Hown.
  injection Hown as ->. split; [done|].
  destruct (owned_value _ _ _ _ _ _ Ho i _ _ j Hg Hp eq_refl) as (s' & Hs' & Hv).
  rewrite Hj in Hs'. injection Hs' as <-. split; [|done].
  destruct s, (worker_pair w). simpl in *. congruence.
Qed.

End winners.

(** X15. Nothing is in the map that was not inserted.  In any
    interleaving of insert workers on a new map (keys and values other
    than the sentinels), the key of an occupied slot is the key of a
    worker, the one that has taken the slot; and once that worker has
    returned, it has returned [true] and the slot holds its pair. *)
Theorem occupied_slots_are_inserts capacity empty_key_sentinel empty_value_sentinel hash
    key_equal target fuel workers sched j (s : pair_type) :
  Forall (λ w, insertable empty_key_sentinel empty_value_sentinel (worker_pair w)) workers →
  let st := run_sched key_equal sched
              (launch capacity empty_key_sentinel empty_value_sentinel hash target fuel
                 workers) in
  sys_mem st !! j = Some s → s.1 ≠ empty_key_sentinel →
  ∃ i w, workers !! i = Some w ∧ (worker_pair w).1 = s.1 ∧
         ∀ r, sys_threads st !! i = Some (Ret r) → r = true ∧ s = worker_pair w.
Proof.
  intros Hw st Hj Hne.
  destruct (launch_run_staged capacity empty_key_sentinel empty_value_sentinel hash key_equal
              target fuel workers sched Hw) as (Hpairs & gs & Hst).
  destruct (occupied_slot_owner _ _ _ _ _ _ _ _ _ Hst Hj Hne)
    as [Hold|(i & w & Hi & Hk & _ & Hr)].
  { apply lookup_replicate in Hold as [-> _]. done. }
  exists i, w. split; [done|]. split; [done|]. intros r Hret.
  destruct (Hr r Hret) as (-> & -> & _). done.
Qed.

Lemma occupied_slots_are_inserts_witness :
  let st := run_sched int_key_equal [0; 2; 0; 2; 2; 0; 2; 0]%nat
              (launch 5 (-1) (-1) int_hash volta 10 example_workers) in
  ∃ i w, example_workers !! i = Some w ∧ (worker_pair w).1 = 7 ∧
         ∀ r, sys_threads st !! i = Some (Ret r) → r = true ∧ (7, 70) = worker_pair w.
Proof.
  apply (occupied_slots_are_inserts 5 (-1) (-1) int_hash int_key_equal volta 10
           example_workers [0; 2; 0; 2; 2; 0; 2; 0]%nat 2%nat (7, 70)).
  - repeat constructor; simpl; lia.
  - vm_compute. reflexivity.
  - simpl. lia.
Defined.

(** X16. Of the inserts of one key exactly one succeeds.  Workers, any
    number of them with equal keys, run on a new map in any
    interleaving ([key_equal] an equivalence that [hash] respects, keys
    and values other than the sentinels).  When all have returned, for
    every worker there is exactly one worker with an equal key that has
    returned [true]. *)
Theorem one_insert_per_key_succeeds capacity empty_key_sentinel empty_value_sentinel hash
    key_equal target fuel workers sched i w :
  functors_ok hash key_equal → (0 < capacity)%nat →
  Forall (worker_ok empty_key_sentinel) workers →
  Forall (λ w, (worker_pair w).2 ≠ empty_value_sentinel) workers →
  let st := run_sched key_equal sched
              (launch capacity empty_key_sentinel empty_value_sentinel hash target fuel
                 workers) in
  Forall (λ p, is_Some (finished p)) (sys_threads st) →
  workers !! i = Some w →
  ∃ i1 w1,
    workers !! i1 = Some w1 ∧ key_equal (worker_pair w1).1 (worker_pair w).1 = true ∧
    sys_threads st !! i1 = Some (Ret true) ∧
    ∀ i2 w2, workers !! i2 = Some w2 →
             key_equal (worker_pair w2).1 (worker_pair w).1 = true →
             sys_threads st !! i2 = Some (Ret true) → i2 = i1.
Proof.
  intros Hf Hcap Hok Hval st Hfin Hi.
  assert (Forall (λ w, insertable empty_key_sentinel empty_value_sentinel (worker_pair w))
            workers) as Hw.
  { rewrite Forall_forall in Hok, Hval. apply Forall_forall.
    intros w0 Hw0. split; [by apply Hok|by apply Hval]. }
  destruct (launch_run_staged capacity empty_key_sentinel empty_value_sentinel hash key_equal
              target fuel workers sched Hw) as (Hpairs & gs & Hst).
  fold st in Hst.
  assert (∀ i0, (i0 < length workers)%nat → ∃ r, sys_threads st !! i0 = Some (Ret r))
    as Hreturned.
  { intros i0 Hlt. destruct Hst as (Hlen & _).
    destruct (lookup_lt_is_Some_2 (sys_threads st) i0) as [p Hp]; [lia|].
    rewrite Forall_lookup in Hfin. destruct (Hfin i0 p Hp) as [r Hr].
    destruct p as [r'| |]; try done. by exists r'. }
  destruct (Hreturned i) as [r Hr]; [by eapply lookup_lt_Some|].
  destruct (returned_present capacity empty_key_sentinel empty_value_sentinel hash key_equal
              target Hcap Hf
              (initialize empty_key_sentinel empty_value_sentinel capacity) workers fuel sched
              i w r) as [HI (j & s & Hj & Hne & Heq)]; [by apply initialize_inv|done..|].
  change (launch_on _ capacity empty_key_sentinel empty_value_sentinel hash target fuel workers)
    with (launch capacity empty_key_sentinel empty_value_sentinel hash target fuel workers)
    in HI, Hj.
  fold st in HI, Hj.
  destruct (occupied_slot_owner _ _ _ _ _ _ _ _ _ Hst Hj Hne)
    as [Hold|(i1 & w1 & Hi1 & Hk1 & _ & Hr1)].
  { apply lookup_replicate in Hold as [-> _]. done. }
  destruct (Hreturned i1) as [r1 Hret1]; [by eapply lookup_lt_Some|].
  destruct (Hr1 r1 Hret1) as (-> & -> & Hg1).
  exists i1, w1. split; [done|]. split; [done|]. split; [done|].
  intros i2 w2 Hi2 Heq2 Hret2.
  destruct (returned_stored _ _ _ _ _ _ _ _ _ Hst Hi2 Hret2) as (j2 & Hg2 & Hm2).
  assert (j2 = j) as ->.
  { destruct HI as (_ & Hnh & _).
    apply (no_hole_unique capacity empty_key_sentinel hash key_equal Hf _ Hnh j2 j
             (worker_pair w2) (worker_pair w1)); try done.
    - rewrite Forall_forall in Hok. apply Hok. by eapply list_elem_of_lookup_2.
    - eapply (key_equal_trans _ _ Hf); [done|].
      by rewrite (key_equal_sym _ _ Hf). }
  destruct Hst as (_ & _ & Ho).
  by apply (key_owner_unique _ _ _ _ _ _ Ho i2 i1 (Stored j) (Stored j) j).
Qed.

Lemma one_insert_per_key_succeeds_witness :
  let st := run_sched int_key_equal
              [0; 2; 0; 2; 2; 0; 2; 0; 2; 2; 2; 2; 2; 2; 1; 1; 1; 1; 1; 1; 1; 1; 1; 1; 1; 1]%nat
              (launch 5 (-1) (-1) int_hash volta 10 example_workers) in
  ∃ i1 w1,
    example_workers !! i1 = Some w1 ∧ int_key_equal (worker_pair w1).1 7 = true ∧
    sys_threads st !! i1 = Some (Ret true) ∧
    ∀ i2 w2, example_workers !! i2 = Some w2 →
             int_key_equal (worker_pair w2).1 7 = true →
             sys_threads st !! i2 = Some (Ret true) → i2 = i1.
Proof.
  apply (one_insert_per_key_succeeds 5 (-1) (-1) int_hash int_key_equal volta 10
           example_workers
           [0; 2; 0; 2; 2; 0; 2; 0; 2; 2; 2; 2; 2; 2; 1; 1; 1; 1; 1; 1; 1; 1; 1; 1; 1; 1]%nat
           1%nat (Group 4 (7, 71))).
  - exact int_functors_ok.
  - lia.
  - repeat constructor; simpl; lia.
  - repeat constructor; simpl; lia.
  - vm_compute. repeat constructor; by eexists.
  - reflexivity.
Defined.

(** ** Copying a view

    [make_copy]: every slot of the source is copied by one lane, the one
    of the residue class of the slot's index. *)

Section copy.
Variable g_size : nat.
Variable source_device_view : device_view.
Variable memory0 : mem.
Hypothesis g_size_pos : (0 < g_size)%nat.
Hypothesis source_size :
  (get_capacity source_device_view ≤ length (get_slots source_device_view))%nat.
Hypothesis memory_size : (get_capacity source_device_view ≤ length memory0)%nat.
Hypothesis no_wrap :
  Z.of_nat (get_capacity source_device_view) + Z.of_nat g_size ≤ size_max.

Local Abbreviation capacity := (get_capacity source_device_view).
Local Abbreviation copying := (copying g_size source_device_view memory0).
Local Abbreviation run_lanes := (run_lanes g_size source_device_view).

Lemma same_class (a b : nat) :
  (a `mod` g_size = b `mod` g_size → a < b → b < a + g_size → False)%nat.
Proof using g_size_pos.
  clear source_size memory_size no_wrap. intros Hmod Hab Hba.
  pose proof (Nat.div_mod_eq a g_size) as Ha. pose proof (Nat.div_mod_eq b g_size) as Hb.
  rewrite Hmod in Ha.
  remember (a `div` g_size)%nat as qa eqn:Hqa. remember (b `div` g_size)%nat as qb eqn:Hqb.
  clear Hqa Hqb Hmod.
  destruct (decide (qb ≤ qa)%nat) as [Hle|Hgt].
  - pose proof (Nat.mul_le_mono_l qb qa g_size Hle). lia.
  - pose proof (Nat.mul_le_mono_l (qa + 1) qb g_size ltac:(lia)). lia.
Qed.

Lemma copying_start memory_to_use :
  memory_to_use = memory0 →
  copying (map (λ thread_rank, {| lane_i := Z.of_nat thread_rank; key_copied := false |})
             (seq 0 g_size), memory_to_use).
Proof using g_size_pos.
  clear source_size memory_size no_wrap.
  intros ->. split; [|split; [|split]]; simpl.
  - by rewrite length_map, length_seq.
  - done.
  - intros rank l Hl. rewrite list_lookup_fmap in Hl.
    destruct (seq 0 g_size !! rank) as [n|] eqn:Hn; [|done].
    apply lookup_seq in Hn as [-> Hlt]. injection Hl as <-. simpl.
    rewrite Nat2Z.id, Nat.mod_small; [|done]. repeat split; (lia || done).
  - intros j l Hj Hl. rewrite list_lookup_fmap in Hl.
    destruct (seq 0 g_size !! _) as [n|] eqn:Hn; [|done].
    apply lookup_seq in Hn as [-> Hlt]. injection Hl as <-. unfold copy_state. simpl in *.
    pose proof (Nat.Div0.mod_le j g_size).
    destruct (decide _) as [[_ ?]|]; [lia|]. destruct (decide _) as [[_ ?]|]; done.
Qed.

(** One step of a lane: it does not fail, keeps the other lanes and
    moves on by one, or waits. *)
Lemma lane_step_copying st rank :
  copying st →
  ∃ st', lane_step g_size source_device_view st rank = Some st' ∧ copying st' ∧
         (∀ r, r ≠ rank → st'.1 !! r = st.1 !! r) ∧
         (∀ l, st.1 !! rank = Some l →
            ∃ l', st'.1 !! rank = Some l' ∧
                  (Z.of_nat capacity ≤ lane_i l → l' = l) ∧
                  (lane_i l < Z.of_nat capacity → progress l + 1 ≤ progress l')).
Proof using g_size_pos source_size memory_size no_wrap.
  destruct st as [lanes memory]. intros Hinv.
  pose proof Hinv as (Hlen & Hmem & Hlanes & Hslots). simpl in Hlen, Hmem, Hlanes, Hslots.
  unfold lane_step. simpl.
  destruct (lanes !! rank) as [l|] eqn:Hl;
    [|exists (lanes, memory); split; [done|split; [done|split; [done|done]]]].
  unfold in_loop. destruct (Z.ltb_spec (lane_i l) (Z.of_nat capacity)) as [Hlt|Hge].
  - destruct (Hlanes rank l Hl) as (Hrange & Hclass & Hhalf).
    unfold copy_step.
    destruct (lookup_lt_is_Some_2 (get_slots source_device_view) (Z.to_nat (lane_i l)))
      as [s Hs]; [lia|].
    destruct (lookup_lt_is_Some_2 memory (Z.to_nat (lane_i l))) as [t Ht]; [lia|].
    destruct (lookup_lt_is_Some_2 memory0 (Z.to_nat (lane_i l))) as [t0 Ht0]; [lia|].
    rewrite Hs, Ht. simpl.
    pose proof (Hslots (Z.to_nat (lane_i l)) l ltac:(lia) ltac:(by rewrite Hclass)) as Hcur.
    unfold copy_state in Hcur. rewrite Ht, Hs, Ht0 in Hcur. simpl in Hcur.
    destruct (decide _) as [[_ ?]|_] in Hcur; [lia|].
    destruct l as [i [|]]; simpl in *.
    + (* the value is copied and the lane moves on *)
      destruct (decide _) as [_|Hn] in Hcur; [|destruct Hn; split; [lia|done]].
      injection Hcur as ->.
      assert (size_add i (Z.of_nat g_size) = i + Z.of_nat g_size) as ->
        by (unfold size_add; apply Z.mod_small; lia).
      eexists. split; [done|]. simpl. split; [|split].
      * split; [|split; [|split]]; simpl.
        -- by rewrite length_insert.
        -- by rewrite length_insert.
        -- intros r l' Hr. apply list_lookup_insert_Some in Hr as [(<- & <- & _)|[Hne Hr]].
           ++ simpl. split; [lia|]. split; [|done].
              rewrite Z2Nat.inj_add, Nat2Z.id; [|lia..].
              rewrite <- (Nat.mul_1_l g_size) at 1. by rewrite Nat.Div0.mod_add.
           ++ by apply Hlanes.
        -- intros j l' Hj Hl'. unfold copy_state.
           destruct (decide (j = Z.to_nat i)) as [->|Hji].
           ++ rewrite Hclass in Hl'. rewrite list_lookup_insert_eq in Hl';
                [|by eapply lookup_lt_Some]. injection Hl' as <-. simpl.
              rewrite list_lookup_insert_eq; [|by eapply lookup_lt_Some].
              destruct (decide _) as [_|Hn]; [by destruct s|lia].
           ++ rewrite list_lookup_insert_ne; [|done].
              destruct (decide (j `mod` g_size = rank)%nat) as [Hc|Hc].
              ** rewrite Hc in Hl'. rewrite list_lookup_insert_eq in Hl';
                   [|by eapply lookup_lt_Some]. injection Hl' as <-. simpl.
                 rewrite (Hslots j {| lane_i := i; key_copied := true |}); [|done|by rewrite Hc].
                 unfold copy_state. simpl.
                 assert (¬ (Z.to_nat i < j < Z.to_nat i + g_size)%nat) as Hno.
                 { intros [? ?]. apply (same_class (Z.to_nat i) j); [congruence|done..]. }
                 repeat (destruct (decide _) as [[? ?]|?]); try done; lia.
              ** rewrite list_lookup_insert_ne in Hl'; [|done]. by apply Hslots.
      * intros r Hr. by rewrite list_lookup_insert_ne.
      * intros ? [= <-]. eexists.
        rewrite list_lookup_insert_eq; [|by eapply lookup_lt_Some]. split; [done|].
        unfold progress. simpl. split; [lia|]. intros _. lia.
    + (* the key is copied *)
      destruct (decide _) as [[_ ?]|_] in Hcur; [done|]. injection Hcur as ->.
      eexists. split; [done|]. simpl. split; [|split].
      * split; [|split; [|split]]; simpl.
        -- by rewrite length_insert.
        -- by rewrite length_insert.
        -- intros r l' Hr. apply list_lookup_insert_Some in Hr as [(<- & <- & _)|[Hne Hr]].
           ++ simpl. split; [lia|]. split; [done|]. intros _. lia.
           ++ by apply Hlanes.
        -- intros j l' Hj Hl'. unfold copy_state.
           destruct (decide (j = Z.to_nat i)) as [->|Hji].
           ++ rewrite Hclass in Hl'. rewrite list_lookup_insert_eq in Hl';
                [|by eapply lookup_lt_Some]. injection Hl' as <-. simpl.
              rewrite list_lookup_insert_eq; [|by eapply lookup_lt_Some].
              destruct (decide _) as [[_ ?]|_]; [lia|].
              destruct (decide _) as [_|Hn]; [|destruct Hn; split; [lia|done]].
              rewrite Hs, Ht0. done.
           ++ rewrite list_lookup_insert_ne; [|done].
              destruct (decide (j `mod` g_size = rank)%nat) as [Hc|Hc].
              ** rewrite Hc in Hl'. rewrite list_lookup_insert_eq in Hl';
                   [|by eapply lookup_lt_Some]. injection Hl' as <-. simpl.
                 rewrite (Hslots j {| lane_i := i; key_copied := false |}); [|done|by rewrite Hc].
                 unfold copy_state. simpl.
                 repeat (destruct (decide _) as [[? ?]|?]); try done; lia.
              ** rewrite list_lookup_insert_ne in Hl'; [|done]. by apply Hslots.
      * intros r Hr. by rewrite list_lookup_insert_ne.
      * intros ? [= <-]. eexists.
        rewrite list_lookup_insert_eq; [|by eapply lookup_lt_Some]. split; [done|].
        unfold progress. simpl. split; [lia|]. intros _. lia.
  - exists (lanes, memory). split; [done|split; [done|split; [done|]]].
    intros ? [= <-]. exists l. simpl. split; [done|]. split; [done|lia].
Qed.


Lemma run_lanes_app sched1 sched2 st :
  run_lanes (sched1 ++ sched2) st = run_lanes sched1 st ≫= run_lanes sched2.
Proof using Type.
  revert st. induction sched1 as [|rank sched1 IH]; intros st; [done|].
  simpl. destruct (lane_step _ _ st rank) as [st'|]; simpl; [apply IH|done].
Qed.

(** Any schedule: no lane fails, no lane goes back, and a lane that has
    left its loop stays where it is. *)
Lemma run_lanes_copying sched st :
  copying st →
  ∃ st', run_lanes sched st = Some st' ∧ copying st' ∧
         ∀ r l, st.1 !! r = Some l →
           ∃ l', st'.1 !! r = Some l' ∧ progress l ≤ progress l' ∧
                 (Z.of_nat capacity ≤ lane_i l → l' = l).
Proof using g_size_pos source_size memory_size no_wrap.
  revert st. induction sched as [|rank sched IH]; intros st Hst.
  - exists st. split; [done|]. split; [done|]. intros r l Hl. exists l.
    split; [done|]. split; [lia|done].
  - simpl. destruct (lane_step_copying st rank Hst) as (st1 & -> & Hst1 & Hother & Hlane).
    simpl. destruct (IH st1 Hst1) as (st2 & -> & Hst2 & Hmono). exists st2.
    split; [done|]. split; [done|]. intros r l Hl.
    destruct (decide (r = rank)) as [->|Hne].
    + destruct (Hlane l Hl) as (l1 & Hl1 & Hdone & Hmove).
      destruct (Hmono rank l1 Hl1) as (l2 & Hl2 & Hle & Hdone2).
      exists l2. split; [done|]. split.
      * destruct (decide (Z.of_nat capacity ≤ lane_i l)) as [Hc|Hc];
          [rewrite (Hdone Hc) in Hle|]; lia.
      * intros Hc. specialize (Hdone Hc). subst l1. by apply Hdone2.
    + rewrite <- (Hother r Hne) in Hl. by apply Hmono.
Qed.

(** A lane that is scheduled [n] times in a row has made [n] steps or
    has left its loop. *)
Lemma lane_finishes n rank st :
  copying st →
  ∃ st', run_lanes (replicate n rank) st = Some st' ∧ copying st' ∧
         ∀ l, st.1 !! rank = Some l →
           ∃ l', st'.1 !! rank = Some l' ∧
                 (Z.of_nat capacity ≤ lane_i l' ∨ progress l + Z.of_nat n ≤ progress l').
Proof using g_size_pos source_size memory_size no_wrap.
  revert st. induction n as [|n IH]; intros st Hst.
  - exists st. split; [done|]. split; [done|]. intros l Hl. exists l.
    split; [done|]. right. lia.
  - simpl. destruct (lane_step_copying st rank Hst) as (st1 & -> & Hst1 & _ & Hlane).
    simpl. destruct (IH st1 Hst1) as (st2 & Hrun2 & Hst2 & Hn). exists st2.
    split; [done|]. split; [done|]. intros l Hl.
    destruct (Hlane l Hl) as (l1 & Hl1 & Hdone & Hmove).
    destruct (Hn l1 Hl1) as (l2 & Hl2 & Hor). exists l2. split; [done|].
    destruct (decide (Z.of_nat capacity ≤ lane_i l)) as [Hc|Hc].
    + rewrite (Hdone Hc) in Hl1.
      destruct (run_lanes_copying (replicate n rank) st1 Hst1) as (st2' & Hrun & _ & Hmono).
      destruct (Hmono rank l Hl1) as (l2' & Hl2' & _ & Hsame). left.
      assert (st2' = st2) as -> by congruence.
      rewrite Hl2 in Hl2'. injection Hl2' as <-. by rewrite (Hsame Hc).
    + destruct Hor; [by left|right; lia].
Qed.

Lemma lane_by_lane_finishes ranks st :
  copying st →
  ∃ st', run_lanes (flat_map (replicate (2 * capacity)) ranks) st = Some st' ∧ copying st' ∧
         (∀ r l, r ∈ ranks → st'.1 !! r = Some l → Z.of_nat capacity ≤ lane_i l) ∧
         (∀ r l, st.1 !! r = Some l → Z.of_nat capacity ≤ lane_i l → st'.1 !! r = Some l).
Proof using g_size_pos source_size memory_size no_wrap.
  revert st. induction ranks as [|rank ranks IH]; intros st Hst.
  - exists st. split; [done|]. split; [done|]. split; [|done]. intros r l Hr. by inversion Hr.
  - cbn [flat_map]. rewrite run_lanes_app.
    destruct (lane_finishes (2 * capacity) rank st Hst) as (st1 & Hrun1 & Hst1 & Hlane).
    destruct (run_lanes_copying (replicate (2 * capacity) rank) st Hst)
      as (st1' & Hrun1' & _ & Hmono1).
    rewrite Hrun1 in Hrun1'. injection Hrun1' as <-. rewrite Hrun1.
    destruct (IH st1 Hst1) as (st2 & Hrun2 & Hst2 & Hdone & Hkeep). exists st2.
    split; [done|]. split; [done|]. split.
    + intros r l Hr Hl. apply elem_of_cons in Hr as [->|Hr]; [|by eapply Hdone].
      destruct Hst as (Hlen & _ & Hlanes & _).
      destruct (lookup_lt_is_Some_2 st.1 rank) as [l0 Hl0].
      { destruct Hst2 as (Hlen2 & _). rewrite Hlen, <- Hlen2. by eapply lookup_lt_Some. }
      destruct (Hlane l0 Hl0) as (l1 & Hl1 & Hor).
      assert (Z.of_nat capacity ≤ lane_i l1) as Hc1.
      { destruct Hor as [|Hp]; [done|]. destruct (Hlanes rank l0 Hl0) as [? _].
        unfold progress in Hp. destruct (key_copied l0), (key_copied l1); simpl in Hp; lia. }
      rewrite (Hkeep rank l1 Hl1 Hc1) in Hl. injection Hl as <-. done.
    + intros r l Hl Hc. destruct (Hmono1 r l Hl) as (l1 & Hl1 & _ & Heq).
      rewrite (Heq Hc) in Hl1. by apply Hkeep.
Qed.

(** When every lane has left its loop the copy is made. *)
Lemma copying_done st :
  copying st → (∀ r l, st.1 !! r = Some l → Z.of_nat capacity ≤ lane_i l) →
  st.2 = take capacity (get_slots source_device_view) ++ drop capacity memory0.
Proof using g_size_pos source_size memory_size.
  intros (Hlen & Hmem & Hlanes & Hslots) Hdone. apply list_eq. intros j.
  destruct (decide (j < length memory0)%nat) as [Hj|Hj].
  - destruct (lookup_lt_is_Some_2 st.1 (j `mod` g_size)%nat) as [l Hl].
    { rewrite Hlen. apply Nat.mod_upper_bound. lia. }
    rewrite (Hslots j l Hj Hl). pose proof (Hdone _ _ Hl) as Hc.
    destruct (Hlanes _ l Hl) as (_ & _ & Hhalf). unfold copy_state.
    destruct (decide _) as [[Hjc _]|Hn].
    + rewrite lookup_app_l; [|rewrite length_take; lia]. by rewrite lookup_take_lt.
    + destruct (decide _) as [[_ Hk]|_]; [specialize (Hhalf Hk); lia|].
      rewrite lookup_app_r; [|rewrite length_take; lia].
      rewrite length_take, lookup_drop. f_equal. lia.
  - rewrite !lookup_ge_None_2; [done| |lia].
    rewrite length_app, length_take, length_drop. lia.
Qed.

Lemma all_done (lanes : list lane) :
  forallb (λ l, negb (in_loop source_device_view l)) lanes = true ↔
  ∀ r l, lanes !! r = Some l → Z.of_nat capacity ≤ lane_i l.
Proof using Type.
  rewrite forallb_forall. unfold in_loop. split.
  - intros H r l Hl. apply list_elem_of_lookup_2, list_elem_of_In, H in Hl.
    apply negb_true_iff, Z.ltb_ge in Hl. done.
  - intros H l Hl. apply list_elem_of_In, list_elem_of_lookup_1 in Hl as [r Hr].
    apply negb_true_iff, Z.ltb_ge. by eapply H.
Qed.

End copy.

(** X17. [make_copy] copies the slots of the source view, whatever the
    order in which the lanes run.  For a group of at least one lane, a
    source of [capacity] slots and a [memory_to_use] of at least as many
    (with [capacity + g.size()] representable in [std::size_t]): when the
    call returns, under any schedule of the lanes, the view it returns
    has the capacity and the sentinels of the source, its first
    [capacity] slots are those of the source and the rest of
    [memory_to_use] is untouched; and from any point of any schedule the
    call returns once the lanes have run to the end of their loops. *)
Theorem make_copy_copies g_size sched memory_to_use source_device_view :
  (0 < g_size)%nat →
  (get_capacity source_device_view ≤ length (get_slots source_device_view))%nat →
  (get_capacity source_device_view ≤ length memory_to_use)%nat →
  Z.of_nat (get_capacity source_device_view) + Z.of_nat g_size ≤ size_max →
  (∀ view, make_copy g_size sched memory_to_use source_device_view = Some view →
           view = copy_of memory_to_use source_device_view) ∧
  make_copy g_size (sched ++ lane_by_lane g_size source_device_view) memory_to_use
    source_device_view = Some (copy_of memory_to_use source_device_view).
Proof.
  intros Hg Hs Hm Hw.
  pose proof (copying_start g_size source_device_view memory_to_use Hg memory_to_use eq_refl)
    as Hstart.
  destruct (run_lanes_copying g_size source_device_view memory_to_use Hg Hs Hm Hw sched _ Hstart)
    as ([lanes memory] & Hrun & Hst & _).
  split.
  - intros view. unfold make_copy. rewrite Hrun. simpl.
    destruct (forallb _ lanes) eqn:Hall; [|done]. intros [= <-].
    pose proof (proj1 (all_done source_device_view lanes) Hall) as Hall'.
    pose proof (copying_done g_size source_device_view memory_to_use Hg Hs Hm _ Hst Hall') as Hc.
    simpl in Hc. by rewrite Hc.
  - unfold make_copy. rewrite run_lanes_app, Hrun. simpl.
    destruct (lane_by_lane_finishes g_size source_device_view memory_to_use Hg Hs Hm Hw
                (seq 0 g_size) _ Hst) as ([lanes' memory'] & Hrun' & Hst' & Hdone & _).
    unfold lane_by_lane. rewrite Hrun'. simpl.
    assert (∀ r l, lanes' !! r = Some l → Z.of_nat (get_capacity source_device_view) ≤ lane_i l)
      as Hall.
    { intros r l Hl. apply (Hdone r l); [|done]. apply elem_of_seq.
      destruct Hst' as (Hlen & _). simpl in Hlen. apply lookup_lt_Some in Hl. lia. }
    pose proof (copying_done g_size source_device_view memory_to_use Hg Hs Hm _ Hst' Hall)
      as Hc.
    rewrite (proj2 (all_done source_device_view lanes') Hall). simpl in Hc. by rewrite Hc.
Qed.

Lemma make_copy_copies_witness :
  let source_device_view :=
    {| get_slots := example_slots; get_capacity := 5;
       get_empty_key_sentinel := -1; get_empty_value_sentinel := -1 |} in
  let memory_to_use := replicate 7 (0, 0) in
  (∀ view, make_copy 4 [3; 0; 1; 0]%nat memory_to_use source_device_view = Some view →
           view = copy_of memory_to_use source_device_view) ∧
  make_copy 4 ([3; 0; 1; 0]%nat ++ lane_by_lane 4 source_device_view) memory_to_use
    source_device_view = Some (copy_of memory_to_use source_device_view).
Proof.
  apply (make_copy_copies 4 [3; 0; 1; 0]%nat (replicate 7 (0, 0))
           {| get_slots := example_slots; get_capacity := 5;
              get_empty_key_sentinel := -1; get_empty_value_sentinel := -1 |}).
  - lia.
  - simpl. lia.
  - simpl. lia.
  - vm_compute. discriminate.
Defined.

(** ** What the map holds after bulk inserts *)

Section host_pairs.
Variable hash : Z → nat.
Variable key_equal : Z → Z → bool.
Variable target : build.
Variable fuel : nat.

(** The kernel of a bulk insert that has finished: a slot is as it was
    or holds one of the pairs of the call. *)
Lemma insert_kernel_pairs sched pairs sm sm' :
  complete_pairs (empty_key_sentinel_ sm) (empty_value_sentinel_ sm) (slots_ sm) →
  Forall (insertable (empty_key_sentinel_ sm) (empty_value_sentinel_ sm)) pairs →
  insert_kernel hash key_equal target fuel sched pairs sm = Some sm' →
  complete_pairs (empty_key_sentinel_ sm) (empty_value_sentinel_ sm) (slots_ sm') ∧
  ∀ j (s : pair_type), slots_ sm' !! j = Some s → s.1 ≠ empty_key_sentinel_ sm →
    slots_ sm !! j = Some s ∨ s ∈ pairs.
Proof.
  intros Hc Hp. unfold insert_kernel. rewrite insert_kernel_launch.
  set (workers := map (Group (Z.to_nat tile_size)) pairs).
  set (st := run_sched key_equal sched _).
  assert (map worker_pair workers = pairs) as Hwp.
  { subst workers. rewrite <- list_fmap_compose. apply list_fmap_id. }
  destruct (run_sched_staged (empty_key_sentinel_ sm) (empty_value_sentinel_ sm) target
              (slots_ sm) Hc key_equal workers sched _ _ ltac:(by rewrite Hwp)
              (launch_staged (empty_key_sentinel_ sm) (empty_value_sentinel_ sm) target
                 (slots_ sm) (capacity_ sm) hash fuel workers)) as (gs & Hst & _).
  fold st in Hst.
  destruct (mapM finished (sys_threads st)) as [results|] eqn:Hres; simpl; [|done].
  intros [= <-]. simpl.
  assert (∀ j (s : pair_type), sys_mem st !! j = Some s → s.1 ≠ empty_key_sentinel_ sm →
            slots_ sm !! j = Some s ∨ s ∈ pairs) as Hslots.
  { intros j s Hj Hne.
    destruct (occupied_slot_owner _ _ _ _ _ _ _ _ _ Hst Hj Hne)
      as [Hold|(i & w & Hi & _ & _ & Hr)]; [by left|right].
    apply mapM_Some in Hres.
    destruct (lookup_lt_is_Some_2 (sys_threads st) i) as [p Hpi].
    { subst st. rewrite run_sched_length. simpl. rewrite length_map.
      by eapply lookup_lt_Some. }
    destruct (Forall2_lookup_l _ _ _ _ _ Hres Hpi) as (r & _ & Hfin).
    destruct p as [r'| |]; simpl in Hfin; try done.
    destruct (Hr r' Hpi) as (_ & -> & _).
    rewrite <- Hwp. apply list_elem_of_fmap. exists w. split; [done|].
    by eapply list_elem_of_lookup_2. }
  split; [|done]. intros j s Hj Hne.
  destruct (Hslots j s Hj Hne) as [Hold|Hin]; [by eapply Hc|].
  rewrite Forall_forall in Hp. by destruct (Hp s Hin).
Qed.

Lemma do_call_pairs c sm sm' trace :
  complete_pairs (empty_key_sentinel_ sm) (empty_value_sentinel_ sm) (slots_ sm) →
  Forall (insertable (empty_key_sentinel_ sm) (empty_value_sentinel_ sm)) (call_items c) →
  do_call hash key_equal target fuel c sm = Some (sm', trace) →
  empty_key_sentinel_ sm' = empty_key_sentinel_ sm ∧
  empty_value_sentinel_ sm' = empty_value_sentinel_ sm ∧
  complete_pairs (empty_key_sentinel_ sm) (empty_value_sentinel_ sm) (slots_ sm') ∧
  ∀ j (s : pair_type), slots_ sm' !! j = Some s → s.1 ≠ empty_key_sentinel_ sm →
    slots_ sm !! j = Some s ∨ s ∈ call_items c.
Proof.
  intros Hc Hp.
  assert (Hker : ∀ sched sm1,
            insert_kernel hash key_equal target fuel sched (call_items c) (memset_counter sm)
              = Some sm1 →
            empty_key_sentinel_ (add_size (num_successes_ sm1) sm1) = empty_key_sentinel_ sm ∧
            empty_value_sentinel_ (add_size (num_successes_ sm1) sm1)
              = empty_value_sentinel_ sm ∧
            complete_pairs (empty_key_sentinel_ sm) (empty_value_sentinel_ sm)
              (slots_ (add_size (num_successes_ sm1) sm1)) ∧
            ∀ j (s : pair_type),
              slots_ (add_size (num_successes_ sm1) sm1) !! j = Some s →
              s.1 ≠ empty_key_sentinel_ sm →
              slots_ sm !! j = Some s ∨ s ∈ call_items c).
  { intros sched sm1 Hrun.
    pose proof (insert_kernel_pairs sched (call_items c) (memset_counter sm) sm1 Hc Hp Hrun)
      as [Hc1 Hs1].
    unfold insert_kernel in Hrun.
    destruct (mapM finished _) as [results|]; simpl in Hrun; [|done].
    injection Hrun as <-. simpl in *. done. }
  destruct c as [sched pairs|sched pairs stencil pred]; simpl in *.
  - unfold static_map_insert.
    destruct (Z.eqb_spec (Z.of_nat (length pairs)) 0) as [H0|H0].
    { intros [= <- <-]. repeat split; try done. intros j s Hj _. by left. }
    rewrite grid_size_for_pos; [|lia].
    destruct (insert_kernel _ _ _ _ _ _ _) as [sm1|] eqn:Hrun; simpl; [|done].
    intros [= <- <-]. exact (Hker _ _ Hrun).
  - unfold static_map_insert_if.
    destruct (Z.eqb_spec (Z.of_nat (length pairs)) 0) as [H0|H0].
    { intros [= <- <-]. repeat split; try done. intros j s Hj _. by left. }
    rewrite grid_size_for_pos; [|lia]. unfold insert_if_n_kernel.
    destruct (insert_kernel _ _ _ _ _ _ _) as [sm1|] eqn:Hrun; simpl; [|done].
    intros [= <- <-]. exact (Hker _ _ Hrun).
Qed.

(** After a sequence of bulk inserts a slot is as it was at the start or
    holds an item of one of the calls. *)
Lemma run_calls_pairs calls sm sm' ns :
  complete_pairs (empty_key_sentinel_ sm) (empty_value_sentinel_ sm) (slots_ sm) →
  Forall (λ c, Forall (insertable (empty_key_sentinel_ sm) (empty_value_sentinel_ sm))
                 (call_items c)) calls →
  run_calls hash key_equal target fuel calls sm = Some (sm', ns) →
  ∀ j (s : pair_type), slots_ sm' !! j = Some s → s.1 ≠ empty_key_sentinel_ sm →
    slots_ sm !! j = Some s ∨ inserted_pair calls s.
Proof.
  revert sm ns. induction calls as [|c calls IH]; intros sm ns Hc Hp; simpl.
  - intros [= <- <-] j s Hj _. by left.
  - inversion Hp as [|? ? Hpc Hrest]; subst.
    destruct (call_successes _ _ _ _ c sm) as [n|]; simpl; [|done].
    destruct (do_call _ _ _ _ c sm) as [[sm1 trace]|] eqn:Hcall; simpl; [|done].
    destruct (run_calls _ _ _ _ calls sm1) as [[sm2 ns']|] eqn:Hrun; simpl; [|done].
    intros [= <- <-] j s Hj Hne.
    destruct (do_call_pairs c sm sm1 trace Hc Hpc Hcall) as (Hek & Hev & Hc1 & Hs1).
    destruct (IH sm1 ns') with (j := j) (s := s) as [Hold|(c' & Hc' & Hin)];
      [by rewrite Hek, Hev|by rewrite Hek, Hev|done|done|by rewrite Hek| |].
    + destruct (Hs1 j s Hold Hne) as [Hold'|Hin]; [by left|right].
      exists c. split; [apply elem_of_cons; by left|done].
    + right. exists c'. split; [apply elem_of_cons; by right|done].
Qed.

End host_pairs.

(** X18. A bulk [find] returns values that were inserted with the key.
    After any sequence of bulk [insert] and [insert_if] calls on a new
    map (items with keys and values other than the sentinels, any
    interleaving of the groups of each kernel, the kernels as the spec
    describes them), every occupied slot holds one of the items handed
    to the calls, and a bulk [find] writes for every key that was
    inserted the value of an inserted item with an equal key. *)
Theorem bulk_find_returns_inserted_values
    (hash : Z → nat) (key_equal : Z → Z → bool) (target : build) (fuel : nat)
    (capacity : nat) (empty_key_sentinel empty_value_sentinel counter : Z)
    (calls : list bulk_call) (sm : static_map) (successes : list Z)
    (keys : list Z) (output : list Z) :
  functors_ok hash key_equal →
  Forall (λ c, Forall (insertable empty_key_sentinel empty_value_sentinel) (call_items c))
    calls →
  run_calls hash key_equal target fuel calls
    (static_map_new capacity empty_key_sentinel empty_value_sentinel counter)
  = Some (sm, successes) →
  (Nat.max capacity 1 < fuel)%nat →
  Forall (inserted_key calls) keys →
  (∀ j (s : pair_type), slots_ sm !! j = Some s → s.1 ≠ empty_key_sentinel →
     inserted_pair calls s) ∧
  ∃ values trace,
    static_map_find hash key_equal fuel keys output sm
    = Some (sm, write_range values output, trace) ∧
    length values = length keys ∧
    ∀ i k, keys !! i = Some k →
      ∃ p : pair_type, inserted_pair calls p ∧ key_equal p.1 k = true ∧
                       values !! i = Some p.2.
Proof.
  intros Hf Hitems Hrun Hfuel Hkeys.
  assert (Hk : Forall (λ c, Forall (λ p : pair_type, p.1 ≠ empty_key_sentinel)
                              (call_items c)) calls).
  { eapply Forall_impl; [exact Hitems|]. intros c Hc.
    eapply Forall_impl; [exact Hc|]. by intros p [? _]. }
  destruct (run_calls_inv hash key_equal target fuel Hf calls _ sm successes
              (static_map_new_inv hash key_equal capacity empty_key_sentinel
                 empty_value_sentinel counter) Hk Hrun)
    as (Hinv & Hcap & Hek & Hev & _ & Hpres).
  simpl in Hcap, Hek, Hev, Hpres.
  assert (Hslots : ∀ j (s : pair_type), slots_ sm !! j = Some s →
            s.1 ≠ empty_key_sentinel → inserted_pair calls s).
  { intros j s Hj Hne.
    destruct (run_calls_pairs hash key_equal target fuel calls
                (static_map_new capacity empty_key_sentinel empty_value_sentinel counter)
                sm successes
                (initialize_complete empty_key_sentinel empty_value_sentinel _) Hitems Hrun
                j s Hj Hne) as [Hold|Hin]; [|done].
    simpl in Hold. apply lookup_replicate in Hold as [-> _]. done. }
  split; [done|].
  destruct (static_map_find_values hash key_equal fuel keys output sm)
    as (values & trace & Hfind & Hlen & Hval).
  { eapply Forall_impl; [exact Hkeys|]. intros k Hin.
    apply (lookup_groups_present hash key_equal target fuel Hf); [done|lia|].
    rewrite Hek. by apply Hpres. }
  exists values, trace. split; [done|]. split; [done|].
  intros i k Hi. destruct (Hval i k Hi) as (j & s & Hs & Hne & Hkk & Hv).
  exists s. split; [|done]. apply (Hslots j s Hs). by rewrite <- Hek.
Qed.

Lemma bulk_find_returns_inserted_values_witness :
  let calls :=
    [BulkInsert (concat (replicate 40 [0; 1; 2]%nat)) [(0, 0); (0, 1); (0, 2)];
     BulkInsertIf (replicate 40 0 ++ replicate 40 1 ++ replicate 40 2)%nat
       [(1, 10); (2, 20); (3, 30)] [1; 0; 1] Z.odd;
     BulkInsert [] []] in
  (∀ j (s : pair_type), slots_ example_map !! j = Some s → s.1 ≠ -1 →
     inserted_pair calls s) ∧
  ∃ values trace,
    static_map_find int_hash int_key_equal 8 [3; 0; 1] [5; 5; 5; 5] example_map
    = Some (example_map, write_range values [5; 5; 5; 5], trace) ∧
    length values = 3%nat ∧
    ∀ i k, [3; 0; 1] !! i = Some k →
      ∃ p : pair_type, inserted_pair calls p ∧ int_key_equal p.1 k = true ∧
                       values !! i = Some p.2.
Proof.
  apply (bulk_find_returns_inserted_values int_hash int_key_equal volta 8 5 (-1) (-1) 17
           [BulkInsert (concat (replicate 40 [0; 1; 2]%nat)) [(0, 0); (0, 1); (0, 2)];
            BulkInsertIf (replicate 40 0 ++ replicate 40 1 ++ replicate 40 2)%nat
              [(1, 10); (2, 20); (3, 30)] [1; 0; 1] Z.odd;
            BulkInsert [] []] example_map [1; 2; 0] [3; 0; 1] [5; 5; 5; 5]).
  - exact int_functors_ok.
  - repeat constructor; simpl; lia.
  - vm_compute. reflexivity.
  - simpl. lia.
  - repeat constructor.
    + eexists. split; [eapply (list_elem_of_lookup_2 _ 1%nat); reflexivity|].
      vm_compute. repeat constructor.
    + eexists. split; [eapply (list_elem_of_lookup_2 _ 0%nat); reflexivity|].
      vm_compute. repeat constructor.
    + eexists. split; [eapply (list_elem_of_lookup_2 _ 1%nat); reflexivity|].
      vm_compute. repeat constructor.
Defined.

(** ** Looking up keys that are not in the map *)

Lemma static_map_new_counts capacity empty_key_sentinel empty_value_sentinel counter :
  size_counts_slots (Nat.max capacity 1) empty_key_sentinel
    (static_map_new capacity empty_key_sentinel empty_value_sentinel counter).
Proof.
  unfold size_counts_slots, static_map_new, initialize, initial_size. simpl.
  rewrite length_replicate. repeat split.
  induction (Nat.max capacity 1) as [|n IH]; [done|]. simpl.
  unfold occupied in *. rewrite filter_cons. by destruct (decide _).
Qed.

(** What the groups of the lookup kernels get for a key that is not in
    a map with an empty slot. *)
Lemma lookup_groups_absent hash key_equal (target : build) fuel sm k :
  functors_ok hash key_equal →
  map_inv hash key_equal sm → (capacity_ sm < fuel)%nat →
  absent (empty_key_sentinel_ sm) key_equal (slots_ sm) k →
  (occupied (empty_key_sentinel_ sm) (slots_ sm) < capacity_ sm)%nat →
  run key_equal (contains_cg (capacity_ sm) (empty_key_sentinel_ sm) hash fuel
                   (Z.to_nat tile_size) k) (slots_ sm) = Some (false, slots_ sm) ∧
  run key_equal (find_one hash fuel sm k) (slots_ sm)
  = Some (empty_value_sentinel_ sm, slots_ sm).
Proof.
  intros Hf [Hcap HI] Hfuel Habs Hocc.
  pose proof HI as (Hlen & _).
  destruct (absent_miss (capacity_ sm) (empty_key_sentinel_ sm) hash key_equal Hcap
              (slots_ sm) k Hlen Habs) as (d & Hd & Hmiss).
  { apply (occupied_lt_empty (capacity_ sm) _ Hcap). by rewrite Hlen. }
  destruct (cg_miss (capacity_ sm) (empty_key_sentinel_ sm) (empty_value_sentinel_ sm) hash
              key_equal target Hcap Hf fuel (Z.to_nat tile_size) (slots_ sm) k d 0 HI
              tile_size_lanes Hmiss ltac:(lia)) as (Hfind & Hcont & _).
  split; [done|].
  unfold find_one, mbind, prog_mbind. rewrite run_bind, Hfind.
  by destruct (decide _).
Qed.

(** X19. Bulk lookups of keys that are not in the map.  After any
    sequence of bulk [insert] and [insert_if] calls on a new map (items
    with keys and values other than the sentinels, any interleaving of
    the groups of each kernel, the kernels as the spec describes them),
    when [size_] is below the capacity, a bulk [contains] of keys that
    are equal to no inserted key writes [false] for every key and a
    bulk [find] writes the empty value sentinel; both leave the map as
    it is. *)
Theorem bulk_lookup_of_absent_keys
    (hash : Z → nat) (key_equal : Z → Z → bool) (target : build) (fuel : nat)
    (capacity : nat) (empty_key_sentinel empty_value_sentinel counter : Z)
    (calls : list bulk_call) (sm : static_map) (successes : list Z)
    (keys : list Z) (output_b : list bool) (output_v : list Z) :
  functors_ok hash key_equal →
  Z.of_nat (Nat.max capacity 1) < size_max →
  Forall (λ c, Forall (insertable empty_key_sentinel empty_value_sentinel) (call_items c))
    calls →
  run_calls hash key_equal target fuel calls
    (static_map_new capacity empty_key_sentinel empty_value_sentinel counter)
  = Some (sm, successes) →
  (Nat.max capacity 1 < fuel)%nat →
  size_ sm < Z.of_nat (capacity_ sm) →
  Forall (λ k, Forall (λ c, Forall (λ p : pair_type, key_equal p.1 k = false)
                              (call_items c)) calls) keys →
  (∃ trace,
     static_map_contains hash key_equal fuel keys output_b sm
     = Some (sm, write_range (replicate (length keys) false) output_b, trace)) ∧
  (∃ trace,
     static_map_find hash key_equal fuel keys output_v sm
     = Some (sm, write_range (replicate (length keys) empty_value_sentinel) output_v,
             trace)).
Proof.
  intros Hf Hmax Hitems Hrun Hfuel Hsize Hkeys.
  assert (Hk : Forall (λ c, Forall (λ p : pair_type, p.1 ≠ empty_key_sentinel)
                              (call_items c)) calls).
  { eapply Forall_impl; [exact Hitems|]. intros c Hc.
    eapply Forall_impl; [exact Hc|]. by intros p [? _]. }
  destruct (run_calls_inv hash key_equal target fuel Hf calls _ sm successes
              (static_map_new_inv hash key_equal capacity empty_key_sentinel
                 empty_value_sentinel counter) Hk Hrun)
    as (Hinv & Hcap & Hek & Hev & _ & _).
  simpl in Hcap, Hek, Hev.
  destruct (run_calls_counts hash key_equal target fuel (Nat.max capacity 1)
              empty_key_sentinel calls _ sm successes Hmax Hk
              (static_map_new_counts capacity empty_key_sentinel empty_value_sentinel counter)
              Hrun) as (_ & _ & _ & Hocc).
  assert (Hgroups : Forall (λ k,
            run key_equal (contains_cg (capacity_ sm) (empty_key_sentinel_ sm) hash fuel
                             (Z.to_nat tile_size) k) (slots_ sm) = Some (false, slots_ sm) ∧
            run key_equal (find_one hash fuel sm k) (slots_ sm)
            = Some (empty_value_sentinel_ sm, slots_ sm)) keys).
  { eapply Forall_impl; [exact Hkeys|]. intros k Hnot.
    apply (lookup_groups_absent hash key_equal target fuel sm k Hf Hinv); [lia| |].
    - intros j s Hj Hne. rewrite Hek in Hne.
      assert (inserted_pair calls s) as (c & Hc & Hin);
        [|rewrite Forall_forall in Hnot; specialize (Hnot c Hc);
          rewrite Forall_forall in Hnot; by apply Hnot].
      destruct (run_calls_pairs hash key_equal target fuel calls
                  (static_map_new capacity empty_key_sentinel empty_value_sentinel counter)
                  sm successes
                  (initialize_complete empty_key_sentinel empty_value_sentinel _) Hitems Hrun
                  j s Hj Hne) as [Hold|Hin]; [|done].
      simpl in Hold. apply lookup_replicate in Hold as [-> _]. done.
    - rewrite Hek. lia. }
  clear Hkeys Hrun. split.
  - unfold static_map_contains.
    destruct (Z.eqb_spec (Z.of_nat (length keys)) 0) as [H0|H0].
    { destruct keys; [|simpl in H0; lia]. by exists []. }
    rewrite grid_size_for_pos; [|lia]. unfold contains_kernel.
    rewrite (run_each_same key_equal _ (replicate (length keys) false)).
    + simpl. rewrite with_slots_same. by eexists.
    + clear H0. induction Hgroups as [|k keys' [Hc _] _ IH]; simpl; constructor; done.
  - unfold static_map_find.
    destruct (Z.eqb_spec (Z.of_nat (length keys)) 0) as [H0|H0].
    { destruct keys; [|simpl in H0; lia]. by exists []. }
    rewrite grid_size_for_pos; [|lia]. unfold find_kernel.
    rewrite (run_each_same key_equal _ (replicate (length keys) empty_value_sentinel)).
    + simpl. rewrite with_slots_same. by eexists.
    + clear H0. rewrite <- Hev.
      induction Hgroups as [|k keys' [_ Hone] _ IH]; simpl; constructor; done.
Qed.

Lemma bulk_lookup_of_absent_keys_witness :
  (∃ trace,
     static_map_contains int_hash int_key_equal 8 [7; 2] [true; true; true] example_map
     = Some (example_map, write_range (replicate 2 false) [true; true; true], trace)) ∧
  (∃ trace,
     static_map_find int_hash int_key_equal 8 [7; 2] [5; 5; 5] example_map
     = Some (example_map, write_range (replicate 2 (-1)) [5; 5; 5], trace)).
Proof.
  apply (bulk_lookup_of_absent_keys int_hash int_key_equal volta 8 5 (-1) (-1) 17
           [BulkInsert (concat (replicate 40 [0; 1; 2]%nat)) [(0, 0); (0, 1); (0, 2)];
            BulkInsertIf (replicate 40 0 ++ replicate 40 1 ++ replicate 40 2)%nat
              [(1, 10); (2, 20); (3, 30)] [1; 0; 1] Z.odd;
            BulkInsert [] []] example_map [1; 2; 0] [7; 2]).
  - exact int_functors_ok.
  - vm_compute. reflexivity.
  - repeat constructor; simpl; lia.
  - vm_compute. reflexivity.
  - simpl. lia.
  - vm_compute. reflexivity.
  - repeat constructor.
Defined.

(** ** Lookups among lookups *)

Lemma exec_op_read key_equal {X} (op : atomic_op X) m x m' :
  match op with
  | KeyLoad _ | ValueLoad _ | KeyEqual _ _ => True
  | _ => False
  end →
  exec_op key_equal op m = Some (x, m') → m' = m.
Proof.
  destruct op as [i|i|i e d|i e d|i e d|i v|a b]; simpl; try done; intros _.
  - destruct (m !! i); simpl; [|done]. by intros [= _ <-].
  - destruct (m !! i); simpl; [|done]. by intros [= _ <-].
  - by intros [= _ <-].
Qed.

(** Threads that only read: the slot array stays as it is, and what is
    left of a thread returns what the thread returns when it runs
    alone. *)
Lemma step_thread_readers key_equal {R} m (alone : list (option (R * mem))) (st : sys R) i :
  sys_mem st = m →
  Forall2 (λ a p, read_only p ∧ run key_equal p m = a) alone (sys_threads st) →
  sys_mem (step_thread key_equal st i) = m ∧
  Forall2 (λ a p, read_only p ∧ run key_equal p m = a) alone
    (sys_threads (step_thread key_equal st i)).
Proof.
  intros Hm Hall. unfold step_thread.
  destruct (sys_threads st !! i) as [[r| |X op k]|] eqn:Hi; try done.
  destruct (exec_op key_equal op (sys_mem st)) as [[x m']|] eqn:He; [|done].
  destruct (Forall2_lookup_r _ _ _ _ _ Hall Hi) as (a & Ha & [Hop Hk] & Hrun).
  simpl in Hrun. rewrite Hm in He. rewrite He in Hrun.
  pose proof (exec_op_read key_equal op m x m' Hop He) as ->.
  simpl. split; [done|]. rewrite <- (list_insert_id alone i a Ha).
  apply Forall2_insert; [done|]. by split.
Qed.

Lemma run_sched_readers key_equal {R} m (alone : list (option (R * mem))) sched (st : sys R) :
  sys_mem st = m →
  Forall2 (λ a p, read_only p ∧ run key_equal p m = a) alone (sys_threads st) →
  sys_mem (run_sched key_equal sched st) = m ∧
  Forall2 (λ a p, read_only p ∧ run key_equal p m = a) alone
    (sys_threads (run_sched key_equal sched st)).
Proof.
  unfold run_sched. revert st. induction sched as [|i sched IH]; intros st Hm Hall; [done|].
  simpl. destruct (step_thread_readers key_equal m alone st i Hm Hall) as [Hm' Hall'].
  by apply IH.
Qed.

Lemma lookup_task_read_only capacity empty_key_sentinel empty_value_sentinel hash target fuel
    t :
  is_lookup t = true →
  read_only (task_prog capacity empty_key_sentinel empty_value_sentinel hash target fuel t).
Proof.
  destruct t as [w|k|cg k|k|cg k]; simpl; [done|..]; intros _;
    apply (read_only_bind _ _); try (intros; done).
  - apply contains_loop_read_only.
  - apply contains_cg_loop_read_only.
  - apply find_loop_read_only.
  - apply find_cg_loop_read_only.
Qed.

(** X20. Lookups that run concurrently with each other return what they
    return alone.  [find] and [contains], by single threads and by
    groups, run on any slot array in any interleaving: no slot is ever
    changed, and a lookup that has returned has returned the result it
    gives when it runs alone on the array. *)
Theorem lookups_run_as_alone capacity empty_key_sentinel empty_value_sentinel hash key_equal
    target fuel tasks m sched i t r :
  Forall (λ t, is_lookup t = true) tasks →
  tasks !! i = Some t →
  let st := run_sched key_equal sched
              (tasks_on m capacity empty_key_sentinel empty_value_sentinel hash target fuel
                 tasks) in
  sys_mem st = m ∧
  (sys_threads st !! i = Some (Ret r) →
   run key_equal
     (task_prog capacity empty_key_sentinel empty_value_sentinel hash target fuel t) m
   = Some (r, m)).
Proof.
  intros Hlook Hi st.
  pose (progs := map (task_prog capacity empty_key_sentinel empty_value_sentinel hash target
                        fuel) tasks).
  destruct (run_sched_readers key_equal m (map (λ p, run key_equal p m) progs) sched
              (tasks_on m capacity empty_key_sentinel empty_value_sentinel hash target fuel
                 tasks) eq_refl) as [Hm Hall].
  { simpl. fold progs. subst progs. apply Forall2_fmap_l, Forall2_fmap_l.
    apply Forall2_fmap_r, Forall_Forall2_diag. eapply Forall_impl; [exact Hlook|].
    intros t0 Ht0. split; [by apply lookup_task_read_only|done]. }
  fold st in Hm, Hall. split; [done|]. intros Hr.
  destruct (Forall2_lookup_r _ _ _ _ _ Hall Hr) as (a & Ha & _ & Hrun).
  subst progs. rewrite !list_lookup_fmap, Hi in Ha. simpl in Ha. injection Ha as <-.
  done.
Qed.

Lemma lookups_run_as_alone_witness :
  let m := [(-1, -1); (-1, -1); (-1, -1); (8, 80); (3, 30)] in
  let tasks := [Find 3; ContainsGroup 4 3; Contains 7; FindGroup 4 8] in
  let st := run_sched int_key_equal [0; 1; 2; 3; 1; 0; 2; 1; 3; 0; 0; 1; 1; 2; 3; 3]%nat
              (tasks_on m 5 (-1) (-1) int_hash volta 8 tasks) in
  sys_mem st = m ∧
  (sys_threads st !! 0%nat = Some (Ret (Found 4)) →
   run int_key_equal (task_prog 5 (-1) (-1) int_hash volta 8 (Find 3)) m
   = Some (Found 4, m)).
Proof.
  apply (lookups_run_as_alone 5 (-1) (-1) int_hash int_key_equal volta 8
           [Find 3; ContainsGroup 4 3; Contains 7; FindGroup 4 8]
           [(-1, -1); (-1, -1); (-1, -1); (8, 80); (3, 30)]
           [0; 1; 2; 3; 1; 0; 2; 1; 3; 0; 0; 1; 1; 2; 3; 3]%nat 0%nat (Find 3) (Found 4)).
  - repeat constructor.
  - reflexivity.
Defined.

(** X21. An insert finishes.  On a build that writes a slot with
    [packed_cas] or [cas_dependent_write], in a map with more slots than
    workers, where every group has from 1 to 32 lanes and the keys are
    not the sentinel: in every interleaving, a worker of [l] lanes that
    has been scheduled [(2 * l + 2) * fuel] times has returned from
    [insert], for every bound [fuel] of at least twice the capacity on
    the rounds of its loop.  So no loop runs that many rounds, and no
    worker waits for another. *)
Theorem inserts_finish capacity empty_key_sentinel empty_value_sentinel hash key_equal target
    fuel workers sched i w :
  functors_ok hash key_equal → (0 < capacity)%nat →
  Forall (worker_ok empty_key_sentinel) workers → Forall has_lanes workers →
  uses_back_to_back target = false →
  (length workers < capacity)%nat → (2 * capacity ≤ fuel)%nat →
  workers !! i = Some w →
  ((2 * worker_lanes w + 2) * fuel ≤ steps_of i sched)%nat →
  ∃ r, sys_threads (run_sched key_equal sched
                      (launch capacity empty_key_sentinel empty_value_sentinel hash target fuel
                         workers)) !! i = Some (Ret r).
Proof.
  intros Hf Hcap Hok Hlanes Hb Hlen Hfuel Hw Hsteps.
  destruct (worker_finished capacity empty_key_sentinel empty_value_sentinel hash key_equal
              target Hcap Hf fuel workers sched i w Hb Hok Hw Hsteps) as (p & Hp & Hvis).
  destruct p as [r| |X op k]; [by exists r| |by destruct (Hvis X op k)].
  exfalso.
  pose proof (diverged_full capacity empty_key_sentinel empty_value_sentinel hash key_equal
                target Hcap Hf fuel workers sched i Hb Hok Hlanes Hfuel Hp) as Hfull.
  destruct (run_sched_accounts empty_key_sentinel key_equal
              (occupied empty_key_sentinel
                 (initialize empty_key_sentinel empty_value_sentinel capacity))
              sched
              (launch capacity empty_key_sentinel empty_value_sentinel hash target fuel
                 workers)) as [(flags & Hall & Hocc) _].
  { apply (launch_accounts empty_key_sentinel
             (initialize empty_key_sentinel empty_value_sentinel capacity) capacity
             empty_value_sentinel hash target fuel workers).
    eapply Forall_impl; [exact Hok|]. by intros w0 [? _]. }
  rewrite occupied_initialize in Hocc. pose proof (count_true_le flags) as Hc.
  apply Forall2_length in Hall. rewrite run_sched_length in Hall. simpl in Hall.
  rewrite length_map in Hall. lia.
Qed.

Lemma inserts_finish_witness :
  ∃ r, sys_threads (run_sched int_key_equal (replicate 40 0%nat ++ [1; 2; 1]%nat)
                      (launch 5 (-1) (-1) int_hash pascal 10 example_workers)) !! 0%nat
       = Some (Ret r).
Proof.
  apply (inserts_finish 5 (-1) (-1) int_hash int_key_equal pascal 10 example_workers
           (replicate 40 0%nat ++ [1; 2; 1]%nat) 0%nat (Single (7, 70))).
  - apply int_functors_ok.
  - lia.
  - repeat constructor; simpl; lia.
  - repeat constructor.
  - reflexivity.
  - simpl. lia.
  - lia.
  - reflexivity.
  - vm_compute. lia.
Defined.
